(** * primoPoker: a shallow embedding of the poker engine

    The development follows the Go sources: package [poker] (cards, deck,
    hand evaluation), package [game] (players, the table state machine) and
    the [Manager] registry.

    Conventions of the embedding.
    - Go [int64] amounts (chips, bets, pot) are integers in [Z], and every
      [+] and [-] on them wraps around at 64 bits as Go's does ([int64.add],
      [int64.sub]).  The [int] values of package [poker] (ranks, suits, hand
      values) never leave the range 0 .. 2 * 10^9, so plain [Z] arithmetic
      is exact for them.  Seat indices ([DealerPos], [CurrentPlayer], ...)
      are only ever produced by [% len] and guarded decrements, so they are
      [nat].
    - A Go panic (index out of range, nil dereference, division by zero,
      explicit [panic]) is the outer [None] of an [option]; a nil pointer is
      an inner [None].  Go [error] results are [option string].
    - [map[string]*Player] is a [gmap string Player]; a mutation through a
      player pointer is an [alter] at the player's key.
    - [time.Now()] is an explicit argument [now]; mutexes are left out, the
      model is sequential. *)

From Stdlib Require Import ZArith List Lia Bool DecimalString.
From stdpp Require Import base option list gmap strings fin_maps sorting.

Local Open Scope Z_scope.

(** The verb [%d] of [fmt]. *)
Definition formatInt (z : Z) : string := NilZero.string_of_int (Z.to_int z).

(** ** 64-bit integers *)

Module int64.

Definition MaxInt64 : Z := 9223372036854775807.
Definition MinInt64 : Z := -9223372036854775808.

(** The value of a 64-bit two's-complement result. *)
Definition wrap (x : Z) : Z :=
  (x + 9223372036854775808) mod 18446744073709551616 - 9223372036854775808.

Definition add (a b : Z) : Z := wrap (a + b).
Definition sub (a b : Z) : Z := wrap (a - b).

Definition inRange (x : Z) : Prop := MinInt64 <= x <= MaxInt64.

End int64.

(* ===================================================================== *)
(** ** Package poker                                                      *)
(* ===================================================================== *)

Module poker.

(** *** Cards: card.go *)

Definition Hearts : Z := 0.
Definition Diamonds : Z := 1.
Definition Clubs : Z := 2.
Definition Spades : Z := 3.

Definition Two : Z := 2.
Definition Three : Z := 3.
Definition Four : Z := 4.
Definition Five : Z := 5.
Definition Six : Z := 6.
Definition Seven : Z := 7.
Definition Eight : Z := 8.
Definition Nine : Z := 9.
Definition Ten : Z := 10.
Definition Jack : Z := 11.
Definition Queen : Z := 12.
Definition King : Z := 13.
Definition Ace : Z := 14.

(** [type Card struct { Rank Rank; Suit Suit }]; both are Go [int]s, and
    the zero value [Card{}] (rank 0) is what [Deal] hands back on error. *)
Record Card : Type := NewCard { Rank : Z; Suit : Z }.

#[global] Instance Card_eq_dec : EqDecision Card.
Proof. solve_decision. Defined.

Definition zeroCard : Card := NewCard 0 0.

(** A card of the 52-card pack. *)
Definition valid_card (c : Card) : Prop :=
  (Two <= Rank c <= Ace) /\ (Hearts <= Suit c <= Spades).

(** The deck's private random source.  [draws] is the sequence of raw
    values the generator will produce, [cursor] how many were consumed. *)
Record Rng : Type := mkRng { draws : nat -> Z; cursor : nat }.

(** [rng.Intn(n)] for [n > 0]: a value in [0, n). *)
Definition Intn (r : Rng) (n : Z) : Z * Rng :=
  (draws r (cursor r) mod n, mkRng (draws r) (S (cursor r))).

Record Deck : Type := mkDeck { Cards : list Card; rng : Rng }.

(** [for rank := Two; rank <= Ace; rank++] *)
Definition ranks_asc : list Z := [2; 3; 4; 5; 6; 7; 8; 9; 10; 11; 12; 13; 14].
(** [for suit := Hearts; suit <= Spades; suit++] *)
Definition suits_asc : list Z := [0; 1; 2; 3].

Definition fullPack : list Card :=
  flat_map (fun suit => map (fun rank => NewCard rank suit) ranks_asc) suits_asc.

Definition NewDeck (r : Rng) : Deck := mkDeck fullPack r.

(** [d.Cards[i], d.Cards[j] = d.Cards[j], d.Cards[i]] *)
Definition swap (l : list Card) (i j : nat) : list Card :=
  match l !! i, l !! j with
  | Some a, Some b => <[i := b]> (<[j := a]> l)
  | _, _ => l
  end.

(** [for i := len(d.Cards) - 1; i > 0; i-- { j := d.rng.Intn(i + 1); swap }] *)
Fixpoint shuffle_loop (i : nat) (cards : list Card) (r : Rng) : list Card * Rng :=
  match i with
  | O => (cards, r)
  | S i' =>
      let '(j, r') := Intn r (Z.of_nat i + 1) in
      shuffle_loop i' (swap cards i (Z.to_nat j)) r'
  end.

Definition Shuffle (d : Deck) : Deck :=
  let '(cards, r) := shuffle_loop (length (Cards d) - 1) (Cards d) (rng d) in
  mkDeck cards r.

(** [Deal]: the card, the error, and the deck afterwards. *)
Definition Deal (d : Deck) : (Card * option string) * Deck :=
  match Cards d with
  | [] => ((zeroCard, Some "cannot deal from empty deck"%string), d)
  | card :: rest => ((card, None), mkDeck rest (rng d))
  end.

(** The loop of [DealMultiple]: [cards[i] = card] for [i < count]. *)
Fixpoint dealLoop (count : nat) (d : Deck) (acc : list Card)
  : (option (list Card) * option string) * Deck :=
  match count with
  | O => ((Some acc, None), d)
  | S n =>
      match Deal d with
      | ((_, Some err), d') => ((None, Some err), d')
      | ((card, None), d') => dealLoop n d' (acc ++ [card])
      end
  end.

(** [DealMultiple(count)]: [make([]Card, count)] panics on a negative
    count (outer [None]); the result is the slice (nil on error), the
    error, and the deck afterwards. *)
Definition DealMultiple (d : Deck) (count : Z)
  : option ((option (list Card) * option string) * Deck) :=
  if Z.of_nat (length (Cards d)) <? count then
    Some ((None,
           Some ("not enough cards in deck: have "
                 +:+ formatInt (Z.of_nat (length (Cards d)))
                 +:+ ", need " +:+ formatInt count)), d)
  else if count <? 0 then None
  else Some (dealLoop (Z.to_nat count) d []).

Definition Remaining (d : Deck) : Z := Z.of_nat (length (Cards d)).

Definition Reset (d : Deck) : Deck := Shuffle (mkDeck fullPack (rng d)).

(** *** Hands: hand.go *)

Inductive HandRank : Type :=
  | HighCard | OnePair | TwoPair | ThreeOfAKind | Straight
  | Flush | FullHouse | FourOfAKind | StraightFlush | RoyalFlush.

#[global] Instance HandRank_eq_dec : EqDecision HandRank.
Proof. solve_decision. Defined.

(** [int(hr)], the iota numbering. *)
Definition rankInt (hr : HandRank) : Z :=
  match hr with
  | HighCard => 0 | OnePair => 1 | TwoPair => 2 | ThreeOfAKind => 3
  | Straight => 4 | Flush => 5 | FullHouse => 6 | FourOfAKind => 7
  | StraightFlush => 8 | RoyalFlush => 9
  end.

Record Hand : Type := mkHand {
  HCards : list Card;
  HRank : HandRank;
  Kickers : list Z;
  Value : Z
}.

(** [sort.Slice(hand.Cards, func(i, j) { Rank_i > Rank_j })]: cards in
    descending rank.  Go leaves the relative order of equal ranks open;
    [evaluate] reads the sorted slice only through rank and suit counts
    and through [Cards[1].Rank], which do not depend on it. *)
Fixpoint insertDesc (c : Card) (l : list Card) : list Card :=
  match l with
  | [] => [c]
  | x :: xs => if Rank c <? Rank x then x :: insertDesc c xs else c :: l
  end.

Definition sortDesc (l : list Card) : list Card := foldr insertDesc [] l.

(** [counts[i]++] with Go's bounds check. *)
Definition incr (counts : list Z) (i : Z) : option (list Z) :=
  if 0 <=? i then
    n ← counts !! Z.to_nat i; Some (<[Z.to_nat i := n + 1]> counts)
  else None.

(** [for _, card := range h.Cards { ranks[card.Rank]++; suits[card.Suit]++ }] *)
Fixpoint countCards (cards : list Card) (ranks suits : list Z)
  : option (list Z * list Z) :=
  match cards with
  | [] => Some (ranks, suits)
  | card :: rest =>
      ranks' ← incr ranks (Rank card);
      suits' ← incr suits (Suit card);
      countCards rest ranks' suits'
  end.

(** [ranks[rank]] for a loop variable [rank] in 2..14; [ranks] has length
    15 by construction, so the access is in bounds. *)
Definition rankCount (ranks : list Z) (rank : Z) : Z :=
  default 0 (ranks !! Z.to_nat rank).

(** [for rank := Ace; rank >= Two; rank--] *)
Definition ranks_desc : list Z := [14; 13; 12; 11; 10; 9; 8; 7; 6; 5; 4; 3; 2].

(** The first loop of [checkStraight]; [Some high] is the early return. *)
Fixpoint straightScan (ranks : list Z) (todo : list Z) (consecutive high : Z)
  : option Z :=
  match todo with
  | [] => None
  | rank :: todo' =>
      let '(consecutive, high) :=
        if 0 <? rankCount ranks rank
        then (consecutive + 1, if consecutive + 1 =? 1 then rank else high)
        else (0, high) in
      if consecutive =? 5 then Some high
      else straightScan ranks todo' consecutive high
  end.

Definition checkStraight (ranks : list Z) : bool * Z :=
  match straightScan ranks ranks_desc 0 0 with
  | Some high => (true, high)
  | None =>
      if (0 <? rankCount ranks Ace) && (0 <? rankCount ranks Two)
         && (0 <? rankCount ranks Three) && (0 <? rankCount ranks Four)
         && (0 <? rankCount ranks Five)
      then (true, Five)
      else (false, 0)
  end.

(** [kickerValue]: base-100 positional value, last kicker least
    significant. *)
Fixpoint kickerLoop (fromLast : list Z) (value multiplier : Z) : Z :=
  match fromLast with
  | [] => value
  | k :: ks => kickerLoop ks (value + k * multiplier) (multiplier * 100)
  end.

Definition kickerValue (kickers : list Z) : Z := kickerLoop (rev kickers) 0 1.

(** The four slices filled by the classification loop of [evaluate]. *)
Record Groups : Type := mkGroups {
  quads : list Z; trips : list Z; pairs : list Z; singles : list Z
}.

Definition groupStep (ranks : list Z) (g : Groups) (rank : Z) : Groups :=
  let count := rankCount ranks rank in
  if count =? 4 then mkGroups (quads g ++ [rank]) (trips g) (pairs g) (singles g)
  else if count =? 3 then mkGroups (quads g) (trips g ++ [rank]) (pairs g) (singles g)
  else if count =? 2 then mkGroups (quads g) (trips g) (pairs g ++ [rank]) (singles g)
  else if count =? 1 then mkGroups (quads g) (trips g) (pairs g) (singles g ++ [rank])
  else g.

Definition classify (ranks : list Z) : Groups :=
  fold_left (groupStep ranks) ranks_desc (mkGroups [] [] [] []).

(** [evaluate], on the sorted cards of the hand. *)
Definition evaluate (cards : list Card) : option Hand :=
  '(ranks, suits) ← countCards cards (replicate 15 0) (replicate 4 0);
  let isFlush := existsb (Z.eqb 5) suits in
  let '(isStraight, straightHigh) := checkStraight ranks in
  if isStraight && isFlush then
    if straightHigh =? Ace then
      c1 ← cards !! 1%nat;
      if Rank c1 =? King
      then Some (mkHand cards RoyalFlush [] (rankInt RoyalFlush * 100000000 + Ace))
      else Some (mkHand cards StraightFlush []
                   (rankInt StraightFlush * 100000000 + straightHigh))
    else Some (mkHand cards StraightFlush []
                 (rankInt StraightFlush * 100000000 + straightHigh))
  else
    let g := classify ranks in
    let kickers := singles g in
    if (length (quads g) =? 1)%nat then
      q ← quads g !! 0%nat; k ← kickers !! 0%nat;
      Some (mkHand cards FourOfAKind (q :: kickers)
              (rankInt FourOfAKind * 100000000 + q * 1000000 + k))
    else if (length (trips g) =? 1)%nat && (length (pairs g) =? 1)%nat then
      t ← trips g !! 0%nat; p ← pairs g !! 0%nat;
      Some (mkHand cards FullHouse [t; p]
              (rankInt FullHouse * 100000000 + t * 1000000 + p))
    else if isFlush then
      Some (mkHand cards Flush kickers
              (rankInt Flush * 100000000 + kickerValue kickers))
    else if isStraight then
      Some (mkHand cards Straight [straightHigh]
              (rankInt Straight * 100000000 + straightHigh))
    else if (length (trips g) =? 1)%nat then
      t ← trips g !! 0%nat;
      Some (mkHand cards ThreeOfAKind (t :: kickers)
              (rankInt ThreeOfAKind * 100000000 + t * 1000000 + kickerValue kickers))
    else if (length (pairs g) =? 2)%nat then
      p0 ← pairs g !! 0%nat; p1 ← pairs g !! 1%nat; k ← kickers !! 0%nat;
      Some (mkHand cards TwoPair (pairs g ++ kickers)
              (rankInt TwoPair * 100000000 + p0 * 1000000 + p1 * 10000 + k))
    else if (length (pairs g) =? 1)%nat then
      p ← pairs g !! 0%nat;
      Some (mkHand cards OnePair (p :: kickers)
              (rankInt OnePair * 100000000 + p * 1000000 + kickerValue kickers))
    else
      Some (mkHand cards HighCard kickers
              (rankInt HighCard * 100000000 + kickerValue kickers)).

(** [NewHand]: panics unless given exactly five cards. *)
Definition NewHand (cards : list Card) : option Hand :=
  if (length cards =? 5)%nat then evaluate (sortDesc cards) else None.

Definition CompareHands (h1 h2 : Hand) : Z :=
  if Value h2 <? Value h1 then 1
  else if Value h1 <? Value h2 then -1
  else 0.

(** [generateCombinations]: the recursive closure [backtrack(start,
    current)], with [rest] the cards from index [start] on.  The inner
    [loop] is the [for i := start; i < len(cards); i++] of one call. *)
Fixpoint backtrack (r : nat) (rest : list Card) (current : list Card)
  : list (list Card) :=
  if (length current =? r)%nat then [current]
  else
    (fix loop (rest : list Card) : list (list Card) :=
       match rest with
       | [] => []
       | c :: rest' => backtrack r rest' (current ++ [c]) ++ loop rest'
       end) rest.

Definition generateCombinations (cards : list Card) (r : nat) : list (list Card) :=
  backtrack r cards [].

(** The loop of [GetBestHand]; [bestHand] is nil ([None]) at first. *)
Fixpoint bestLoop (combos : list (list Card)) (bestHand : option Hand)
  : option (option Hand) :=
  match combos with
  | [] => Some bestHand
  | combo :: rest =>
      hand ← NewHand combo;
      match bestHand with
      | None => bestLoop rest (Some hand)
      | Some best =>
          if 0 <? CompareHands hand best
          then bestLoop rest (Some hand)
          else bestLoop rest (Some best)
      end
  end.

(** [GetBestHand]: panics unless given exactly seven cards. *)
Definition GetBestHand (cards : list Card) : option (option Hand) :=
  if (length cards =? 7)%nat
  then bestLoop (generateCombinations cards 5) None
  else None.

End poker.

(* ===================================================================== *)
(** ** Package game: players and the table state machine                  *)
(* ===================================================================== *)

Module game.
Import poker.

Inductive GamePhase : Type :=
  | WaitingForPlayers | PreFlop | Flop | Turn | River | Showdown | GameOver.

#[global] Instance GamePhase_eq_dec : EqDecision GamePhase.
Proof. solve_decision. Defined.

Inductive PlayerAction : Type := Fold | Check | Call | Raise | AllIn.

#[global] Instance PlayerAction_eq_dec : EqDecision PlayerAction.
Proof. solve_decision. Defined.

(** [type Action struct { PlayerID; Action; Amount; Time }] *)
Record Action : Type := mkAction {
  Action_PlayerID : string;
  Action_Action : PlayerAction;
  Action_Amount : Z;
  Action_Time : Z
}.

(** [type SidePot struct { Amount; EligiblePlayers }] *)
Record SidePot : Type := mkSidePot {
  Amount : Z;
  EligiblePlayers : list string
}.

Record Player : Type := mkPlayer {
  ID : string;
  Username : string;
  ChipCount : Z;
  HoleCards : list Card;
  CurrentBet : Z;
  TotalBet : Z;
  HasFolded : bool;
  IsAllIn : bool;
  IsActive : bool;
  SeatPosition : Z;
  LastAction : option Action;
  Connected : bool;
  ActionTime : Z
}.

Definition set_ChipCount (v : Z) (p : Player) : Player :=
  mkPlayer
    (ID p) (Username p) v (HoleCards p) (CurrentBet p) (TotalBet p)
    (HasFolded p) (IsAllIn p) (IsActive p) (SeatPosition p) (LastAction p)
    (Connected p) (ActionTime p).

Definition set_HoleCards (v : list Card) (p : Player) : Player :=
  mkPlayer
    (ID p) (Username p) (ChipCount p) v (CurrentBet p) (TotalBet p)
    (HasFolded p) (IsAllIn p) (IsActive p) (SeatPosition p) (LastAction p)
    (Connected p) (ActionTime p).

Definition set_CurrentBet (v : Z) (p : Player) : Player :=
  mkPlayer
    (ID p) (Username p) (ChipCount p) (HoleCards p) v (TotalBet p)
    (HasFolded p) (IsAllIn p) (IsActive p) (SeatPosition p) (LastAction p)
    (Connected p) (ActionTime p).

Definition set_TotalBet (v : Z) (p : Player) : Player :=
  mkPlayer
    (ID p) (Username p) (ChipCount p) (HoleCards p) (CurrentBet p) v
    (HasFolded p) (IsAllIn p) (IsActive p) (SeatPosition p) (LastAction p)
    (Connected p) (ActionTime p).

Definition set_HasFolded (v : bool) (p : Player) : Player :=
  mkPlayer
    (ID p) (Username p) (ChipCount p) (HoleCards p) (CurrentBet p)
    (TotalBet p) v (IsAllIn p) (IsActive p) (SeatPosition p) (LastAction p)
    (Connected p) (ActionTime p).

Definition set_IsAllIn (v : bool) (p : Player) : Player :=
  mkPlayer
    (ID p) (Username p) (ChipCount p) (HoleCards p) (CurrentBet p)
    (TotalBet p) (HasFolded p) v (IsActive p) (SeatPosition p) (LastAction p)
    (Connected p) (ActionTime p).

Definition set_IsActive (v : bool) (p : Player) : Player :=
  mkPlayer
    (ID p) (Username p) (ChipCount p) (HoleCards p) (CurrentBet p)
    (TotalBet p) (HasFolded p) (IsAllIn p) v (SeatPosition p) (LastAction p)
    (Connected p) (ActionTime p).

Definition set_LastAction (v : option Action) (p : Player) : Player :=
  mkPlayer
    (ID p) (Username p) (ChipCount p) (HoleCards p) (CurrentBet p)
    (TotalBet p) (HasFolded p) (IsAllIn p) (IsActive p) (SeatPosition p) v
    (Connected p) (ActionTime p).

Definition set_Connected (v : bool) (p : Player) : Player :=
  mkPlayer
    (ID p) (Username p) (ChipCount p) (HoleCards p) (CurrentBet p)
    (TotalBet p) (HasFolded p) (IsAllIn p) (IsActive p) (SeatPosition p)
    (LastAction p) v (ActionTime p).

Definition set_ActionTime (v : Z) (p : Player) : Player :=
  mkPlayer
    (ID p) (Username p) (ChipCount p) (HoleCards p) (CurrentBet p)
    (TotalBet p) (HasFolded p) (IsAllIn p) (IsActive p) (SeatPosition p)
    (LastAction p) (Connected p) v.

Definition NewPlayer (id username : string) (buyIn : Z) (seatPosition : Z) : Player :=
  mkPlayer id username buyIn [] 0 0 false false true seatPosition None true 0.

Definition CanAct (p : Player) : bool :=
  IsActive p && negb (HasFolded p) && negb (IsAllIn p) && Connected p.

(** [Bet]: the error and the player afterwards (unchanged on error). *)
Definition Bet (p : Player) (amount : Z) : option string * Player :=
  if ChipCount p <? amount then (Some "insufficient chips"%string, p)
  else
    let p := set_ChipCount (int64.sub (ChipCount p) amount) p in
    let p := set_CurrentBet (int64.add (CurrentBet p) amount) p in
    let p := set_TotalBet (int64.add (TotalBet p) amount) p in
    let p := if ChipCount p =? 0 then set_IsAllIn true p else p in
    (None, p).

Definition Player_Fold (p : Player) : Player := set_HasFolded true p.

Definition ResetForNewHand (p : Player) : Player :=
  let p := set_HoleCards [] p in
  let p := set_CurrentBet 0 p in
  let p := set_TotalBet 0 p in
  let p := set_HasFolded false p in
  let p := set_IsAllIn false p in
  let p := set_LastAction None p in
  let p := set_ActionTime 0 p in
  set_IsActive ((0 <? ChipCount p) && Connected p) p.

(** [type GameConfig struct] of the manager, read by [NewGame]. *)
Record GameConfig : Type := mkGameConfig {
  MaxTablesPerUser : Z;
  MaxPlayersPerTable : Z;
  MinPlayersPerTable : Z;
  DefaultBuyIn : Z;
  MaxBuyIn : Z;
  MinBuyIn : Z;
  CfgSmallBlind : Z;
  CfgBigBlind : Z;
  CfgTurnTimeout : Z;
  DecisionTimeout : Z
}.

Record Game : Type := mkGame {
  GameID : string;
  Name : string;
  MaxPlayers : Z;
  MinPlayers : Z;
  SmallBlind : Z;
  BigBlind : Z;
  BuyIn : Z;
  Players : gmap string Player;
  PlayerOrder : list string;
  Phase : GamePhase;
  CommunityCards : list Card;
  Pot : Z;
  SidePots : list SidePot;
  GDeck : Deck;
  DealerPos : nat;
  SmallBlindPos : nat;
  BigBlindPos : nat;
  CurrentPlayer : nat;
  LastRaise : Z;
  MinRaise : Z;
  Actions : list Action;
  HandNumber : Z;
  Created : Z;
  LastActivity : Z;
  TurnTimeout : Z
}.

Definition set_Players (v : gmap string Player) (g : Game) : Game :=
  mkGame
    (GameID g) (Name g) (MaxPlayers g) (MinPlayers g) (SmallBlind g)
    (BigBlind g) (BuyIn g) v (PlayerOrder g) (Phase g) (CommunityCards g)
    (Pot g) (SidePots g) (GDeck g) (DealerPos g) (SmallBlindPos g)
    (BigBlindPos g) (CurrentPlayer g) (LastRaise g) (MinRaise g) (Actions g)
    (HandNumber g) (Created g) (LastActivity g) (TurnTimeout g).

Definition set_PlayerOrder (v : list string) (g : Game) : Game :=
  mkGame
    (GameID g) (Name g) (MaxPlayers g) (MinPlayers g) (SmallBlind g)
    (BigBlind g) (BuyIn g) (Players g) v (Phase g) (CommunityCards g) (Pot g)
    (SidePots g) (GDeck g) (DealerPos g) (SmallBlindPos g) (BigBlindPos g)
    (CurrentPlayer g) (LastRaise g) (MinRaise g) (Actions g) (HandNumber g)
    (Created g) (LastActivity g) (TurnTimeout g).

Definition set_Phase (v : GamePhase) (g : Game) : Game :=
  mkGame
    (GameID g) (Name g) (MaxPlayers g) (MinPlayers g) (SmallBlind g)
    (BigBlind g) (BuyIn g) (Players g) (PlayerOrder g) v (CommunityCards g)
    (Pot g) (SidePots g) (GDeck g) (DealerPos g) (SmallBlindPos g)
    (BigBlindPos g) (CurrentPlayer g) (LastRaise g) (MinRaise g) (Actions g)
    (HandNumber g) (Created g) (LastActivity g) (TurnTimeout g).

Definition set_CommunityCards (v : list Card) (g : Game) : Game :=
  mkGame
    (GameID g) (Name g) (MaxPlayers g) (MinPlayers g) (SmallBlind g)
    (BigBlind g) (BuyIn g) (Players g) (PlayerOrder g) (Phase g) v (Pot g)
    (SidePots g) (GDeck g) (DealerPos g) (SmallBlindPos g) (BigBlindPos g)
    (CurrentPlayer g) (LastRaise g) (MinRaise g) (Actions g) (HandNumber g)
    (Created g) (LastActivity g) (TurnTimeout g).

Definition set_Pot (v : Z) (g : Game) : Game :=
  mkGame
    (GameID g) (Name g) (MaxPlayers g) (MinPlayers g) (SmallBlind g)
    (BigBlind g) (BuyIn g) (Players g) (PlayerOrder g) (Phase g)
    (CommunityCards g) v (SidePots g) (GDeck g) (DealerPos g)
    (SmallBlindPos g) (BigBlindPos g) (CurrentPlayer g) (LastRaise g)
    (MinRaise g) (Actions g) (HandNumber g) (Created g) (LastActivity g)
    (TurnTimeout g).

Definition set_SidePots (v : list SidePot) (g : Game) : Game :=
  mkGame
    (GameID g) (Name g) (MaxPlayers g) (MinPlayers g) (SmallBlind g)
    (BigBlind g) (BuyIn g) (Players g) (PlayerOrder g) (Phase g)
    (CommunityCards g) (Pot g) v (GDeck g) (DealerPos g) (SmallBlindPos g)
    (BigBlindPos g) (CurrentPlayer g) (LastRaise g) (MinRaise g) (Actions g)
    (HandNumber g) (Created g) (LastActivity g) (TurnTimeout g).

Definition set_GDeck (v : Deck) (g : Game) : Game :=
  mkGame
    (GameID g) (Name g) (MaxPlayers g) (MinPlayers g) (SmallBlind g)
    (BigBlind g) (BuyIn g) (Players g) (PlayerOrder g) (Phase g)
    (CommunityCards g) (Pot g) (SidePots g) v (DealerPos g) (SmallBlindPos g)
    (BigBlindPos g) (CurrentPlayer g) (LastRaise g) (MinRaise g) (Actions g)
    (HandNumber g) (Created g) (LastActivity g) (TurnTimeout g).

Definition set_DealerPos (v : nat) (g : Game) : Game :=
  mkGame
    (GameID g) (Name g) (MaxPlayers g) (MinPlayers g) (SmallBlind g)
    (BigBlind g) (BuyIn g) (Players g) (PlayerOrder g) (Phase g)
    (CommunityCards g) (Pot g) (SidePots g) (GDeck g) v (SmallBlindPos g)
    (BigBlindPos g) (CurrentPlayer g) (LastRaise g) (MinRaise g) (Actions g)
    (HandNumber g) (Created g) (LastActivity g) (TurnTimeout g).

Definition set_SmallBlindPos (v : nat) (g : Game) : Game :=
  mkGame
    (GameID g) (Name g) (MaxPlayers g) (MinPlayers g) (SmallBlind g)
    (BigBlind g) (BuyIn g) (Players g) (PlayerOrder g) (Phase g)
    (CommunityCards g) (Pot g) (SidePots g) (GDeck g) (DealerPos g) v
    (BigBlindPos g) (CurrentPlayer g) (LastRaise g) (MinRaise g) (Actions g)
    (HandNumber g) (Created g) (LastActivity g) (TurnTimeout g).

Definition set_BigBlindPos (v : nat) (g : Game) : Game :=
  mkGame
    (GameID g) (Name g) (MaxPlayers g) (MinPlayers g) (SmallBlind g)
    (BigBlind g) (BuyIn g) (Players g) (PlayerOrder g) (Phase g)
    (CommunityCards g) (Pot g) (SidePots g) (GDeck g) (DealerPos g)
    (SmallBlindPos g) v (CurrentPlayer g) (LastRaise g) (MinRaise g)
    (Actions g) (HandNumber g) (Created g) (LastActivity g) (TurnTimeout g).

Definition set_CurrentPlayer (v : nat) (g : Game) : Game :=
  mkGame
    (GameID g) (Name g) (MaxPlayers g) (MinPlayers g) (SmallBlind g)
    (BigBlind g) (BuyIn g) (Players g) (PlayerOrder g) (Phase g)
    (CommunityCards g) (Pot g) (SidePots g) (GDeck g) (DealerPos g)
    (SmallBlindPos g) (BigBlindPos g) v (LastRaise g) (MinRaise g)
    (Actions g) (HandNumber g) (Created g) (LastActivity g) (TurnTimeout g).

Definition set_LastRaise (v : Z) (g : Game) : Game :=
  mkGame
    (GameID g) (Name g) (MaxPlayers g) (MinPlayers g) (SmallBlind g)
    (BigBlind g) (BuyIn g) (Players g) (PlayerOrder g) (Phase g)
    (CommunityCards g) (Pot g) (SidePots g) (GDeck g) (DealerPos g)
    (SmallBlindPos g) (BigBlindPos g) (CurrentPlayer g) v (MinRaise g)
    (Actions g) (HandNumber g) (Created g) (LastActivity g) (TurnTimeout g).

Definition set_MinRaise (v : Z) (g : Game) : Game :=
  mkGame
    (GameID g) (Name g) (MaxPlayers g) (MinPlayers g) (SmallBlind g)
    (BigBlind g) (BuyIn g) (Players g) (PlayerOrder g) (Phase g)
    (CommunityCards g) (Pot g) (SidePots g) (GDeck g) (DealerPos g)
    (SmallBlindPos g) (BigBlindPos g) (CurrentPlayer g) (LastRaise g) v
    (Actions g) (HandNumber g) (Created g) (LastActivity g) (TurnTimeout g).

Definition set_Actions (v : list Action) (g : Game) : Game :=
  mkGame
    (GameID g) (Name g) (MaxPlayers g) (MinPlayers g) (SmallBlind g)
    (BigBlind g) (BuyIn g) (Players g) (PlayerOrder g) (Phase g)
    (CommunityCards g) (Pot g) (SidePots g) (GDeck g) (DealerPos g)
    (SmallBlindPos g) (BigBlindPos g) (CurrentPlayer g) (LastRaise g)
    (MinRaise g) v (HandNumber g) (Created g) (LastActivity g)
    (TurnTimeout g).

Definition set_HandNumber (v : Z) (g : Game) : Game :=
  mkGame
    (GameID g) (Name g) (MaxPlayers g) (MinPlayers g) (SmallBlind g)
    (BigBlind g) (BuyIn g) (Players g) (PlayerOrder g) (Phase g)
    (CommunityCards g) (Pot g) (SidePots g) (GDeck g) (DealerPos g)
    (SmallBlindPos g) (BigBlindPos g) (CurrentPlayer g) (LastRaise g)
    (MinRaise g) (Actions g) v (Created g) (LastActivity g) (TurnTimeout g).

Definition set_LastActivity (v : Z) (g : Game) : Game :=
  mkGame
    (GameID g) (Name g) (MaxPlayers g) (MinPlayers g) (SmallBlind g)
    (BigBlind g) (BuyIn g) (Players g) (PlayerOrder g) (Phase g)
    (CommunityCards g) (Pot g) (SidePots g) (GDeck g) (DealerPos g)
    (SmallBlindPos g) (BigBlindPos g) (CurrentPlayer g) (LastRaise g)
    (MinRaise g) (Actions g) (HandNumber g) (Created g) v (TurnTimeout g).

(** [NewGame]; [r] stands for the time-seeded random source of the deck. *)
Definition NewGame (id name : string) (config : GameConfig) (r : Rng) (now : Z) : Game :=
  mkGame id name (MaxPlayersPerTable config) (MinPlayersPerTable config)
    (CfgSmallBlind config) (CfgBigBlind config) (DefaultBuyIn config)
    ∅ [] WaitingForPlayers [] 0 [] (NewDeck r) 0 0 0 0 0 (CfgBigBlind config)
    [] 0 now now (CfgTurnTimeout config).

(** A mutation through the pointer [g.Players[id]]. *)
Definition updatePlayer (id : string) (f : Player -> Player) (g : Game) : Game :=
  set_Players (alter f id (Players g)) g.

(** A mutation of every player, [for _, player := range g.Players]. *)
Definition forAllPlayers (f : Player -> Player) (g : Game) : Game :=
  set_Players (f <$> Players g) g.

(** [x % len(g.PlayerOrder)]; division by zero panics. *)
Definition modLen (x : nat) (g : Game) : option nat :=
  match length (PlayerOrder g) with
  | O => None
  | S _ => Some (x mod length (PlayerOrder g))%nat
  end.

(** [ptr == nil] *)
Definition isNil {A : Type} (o : option A) : bool :=
  match o with None => true | Some _ => false end.

Definition getCurrentPlayerID (g : Game) : string :=
  if (length (PlayerOrder g) =? 0)%nat
     || (length (PlayerOrder g) <=? CurrentPlayer g)%nat
  then ""%string
  else default ""%string (PlayerOrder g !! CurrentPlayer g).

(** [getActivePlayers]: the seated, non-nil players that have not folded,
    in seat order; each pointer is given with its key. *)
Definition getActivePlayers (g : Game) : list (string * Player) :=
  omap (fun playerID =>
          match Players g !! playerID with
          | Some player => if HasFolded player then None else Some (playerID, player)
          | None => None
          end) (PlayerOrder g).

Definition isBettingRoundComplete (g : Game) : bool :=
  let activePlayers := getActivePlayers g in
  if (length activePlayers <=? 1)%nat then true
  else
    forallb (fun '(_, player) =>
               negb (CanAct player &&
                     (isNil (LastAction player)
                      || (CurrentBet player <? LastRaise g))))
            activePlayers.

(** The loop of [moveToNextActivePlayer].  It stops at a player who can
    act or when the scan is back at [startPos], which happens after at
    most [len(PlayerOrder)] rounds; [fuel] counts them. *)
Fixpoint nextActiveLoop (fuel : nat) (startPos : nat) (g : Game) : option Game :=
  match fuel with
  | O => None
  | S fuel' =>
      playerID ← PlayerOrder g !! CurrentPlayer g;
      if match Players g !! playerID with
         | Some player => CanAct player
         | None => false
         end
      then Some g
      else
        cur ← modLen (CurrentPlayer g + 1) g;
        let g := set_CurrentPlayer cur g in
        if (cur =? startPos)%nat then Some g
        else nextActiveLoop fuel' startPos g
  end.

Definition moveToNextActivePlayer (g : Game) : option Game :=
  nextActiveLoop (length (PlayerOrder g)) (CurrentPlayer g) g.

Definition moveToNextPlayer (g : Game) : option Game :=
  cur ← modLen (CurrentPlayer g + 1) g;
  moveToNextActivePlayer (set_CurrentPlayer cur g).

(** [g.Deck.Deal()] with the card; the error is dropped by every caller. *)
Definition dealCard (g : Game) : Card * Game :=
  let dealt := Deal (GDeck g) in
  (fst (fst dealt), set_GDeck (snd dealt) g).

Definition dealCommunity (g : Game) : Game :=
  let '(card, g) := dealCard g in
  set_CommunityCards (CommunityCards g ++ [card]) g.

Definition burn (g : Game) : Game := snd (dealCard g).

Definition dealFlop (g : Game) : Game :=
  dealCommunity (dealCommunity (dealCommunity (burn g))).

Definition dealTurn (g : Game) : Game := dealCommunity (burn g).

Definition dealRiver (g : Game) : Game := dealCommunity (burn g).

(** [calculateSidePots]: one pot, holding all of [g.Pot], open to every
    seated player who has not folded. *)
Definition calculateSidePots (g : Game) : option Game :=
  eligible ← foldr (fun playerID acc =>
                      rest ← acc;
                      player ← Players g !! playerID;
                      Some (if HasFolded player then rest else playerID :: rest))
                   (Some []) (PlayerOrder g);
  Some (set_SidePots [mkSidePot (Pot g) eligible] g).

(** The loop of [determineWinners]. *)
Fixpoint winnersLoop (community : list Card) (players : list (string * Player))
    (bestHand : option Hand) (winners : list (string * Player))
  : option (list (string * Player)) :=
  match players with
  | [] => Some winners
  | (id, player) :: rest =>
      if negb (length (HoleCards player) =? 2)%nat
         || negb (length community =? 5)%nat
      then winnersLoop community rest bestHand winners
      else
        found ← GetBestHand (HoleCards player ++ community);
        playerHand ← found;
        match bestHand with
        | None => winnersLoop community rest (Some playerHand) [(id, player)]
        | Some best =>
            let comparison := CompareHands playerHand best in
            if 0 <? comparison
            then winnersLoop community rest (Some playerHand) [(id, player)]
            else if comparison =? 0
            then winnersLoop community rest bestHand (winners ++ [(id, player)])
            else winnersLoop community rest bestHand winners
        end
  end.

Definition determineWinners (g : Game) (players : list (string * Player))
  : option (list (string * Player)) :=
  if (length players =? 1)%nat then Some players
  else winnersLoop (CommunityCards g) players None [].

(** [winner.ChipCount += share] *)
Definition addChips (share : Z) (p : Player) : Player :=
  set_ChipCount (int64.add (ChipCount p) share) p.

(** The inner loop of [distributePots]: [i] is the index of the first
    winner of [winners]. *)
Fixpoint payWinners (potShare remainder : Z) (i : nat)
    (winners : list (string * Player)) (g : Game) : Game :=
  match winners with
  | [] => g
  | (id, _) :: rest =>
      let share :=
        if Z.of_nat i <? remainder then int64.add potShare 1 else potShare in
      payWinners potShare remainder (S i) rest (updatePlayer id (addChips share) g)
  end.

(** The outer loop; Go's integer [/] and [%] truncate and panic on a zero
    divisor. *)
Fixpoint paySidePots (pots : list SidePot) (winners : list (string * Player))
    (g : Game) : option Game :=
  match pots with
  | [] => Some g
  | sidePot :: rest =>
      if (length winners =? 0)%nat then None
      else
        let potShare := Z.quot (Amount sidePot) (Z.of_nat (length winners)) in
        let remainder := Z.rem (Amount sidePot) (Z.of_nat (length winners)) in
        paySidePots rest winners (payWinners potShare remainder 0 winners g)
  end.

Definition distributePots (g : Game) : option Game :=
  let activePlayers := getActivePlayers g in
  match activePlayers with
  | [] => Some g
  | [(id, _)] => Some (set_Pot 0 (updatePlayer id (addChips (Pot g)) g))
  | _ =>
      winners ← determineWinners g activePlayers;
      g ← paySidePots (SidePots g) winners g;
      Some (set_Pot 0 g)
  end.

Definition decrIfAbove (i : nat) (pos : nat) : nat :=
  if (i <? pos)%nat then (pos - 1)%nat else pos.

(** [removeEliminatedPlayers]: [n] is the loop index plus one. *)
Fixpoint removeLoop (n : nat) (g : Game) : option Game :=
  match n with
  | O => Some g
  | S i =>
      playerID ← PlayerOrder g !! i;
      player ← Players g !! playerID;
      if (ChipCount player <=? 0) && negb (Connected player) then
        let g := set_Players (delete playerID (Players g)) g in
        let g := set_PlayerOrder (delete i (PlayerOrder g)) g in
        let g := set_DealerPos (decrIfAbove i (DealerPos g)) g in
        let g := set_SmallBlindPos (decrIfAbove i (SmallBlindPos g)) g in
        let g := set_BigBlindPos (decrIfAbove i (BigBlindPos g)) g in
        let g := set_CurrentPlayer (decrIfAbove i (CurrentPlayer g)) g in
        removeLoop i g
      else removeLoop i g
  end.

Definition removeEliminatedPlayers (g : Game) : option Game :=
  removeLoop (length (PlayerOrder g)) g.

(** [endHand].  The deferred [startNewHand] of [time.AfterFunc] is the
    separate transition [nextHandTimer] below. *)
Definition endHand (g : Game) : option Game :=
  let g := set_Phase Showdown g in
  g ← calculateSidePots g;
  g ← distributePots g;
  g ← removeEliminatedPlayers g;
  if Z.of_nat (length (getActivePlayers g)) <? MinPlayers g
  then Some (set_Phase GameOver g)
  else Some g.

Definition advancePhase (g : Game) : option Game :=
  let g := forAllPlayers (set_CurrentBet 0) g in
  let g := set_LastRaise 0 g in
  let next (g : Game) : option Game :=
    cur ← modLen (DealerPos g + 1) g;
    moveToNextActivePlayer (set_CurrentPlayer cur g) in
  match Phase g with
  | PreFlop => next (set_Phase Flop (dealFlop g))
  | Flop => next (set_Phase Turn (dealTurn g))
  | Turn => next (set_Phase River (dealRiver g))
  | River => endHand (set_Phase Showdown g)
  | _ => next g
  end.

Definition advanceGame (g : Game) : option Game :=
  if (length (getActivePlayers g) <=? 1)%nat then endHand g
  else if isBettingRoundComplete g then advancePhase g
  else moveToNextPlayer g.

(** The search loop of [moveDealerButton], at most [len(PlayerOrder)]
    rounds. *)
Fixpoint dealerLoop (n : nat) (g : Game) : option Game :=
  match n with
  | O => Some g
  | S n' =>
      playerID ← PlayerOrder g !! DealerPos g;
      player ← Players g !! playerID;
      if IsActive player then Some g
      else
        pos ← modLen (DealerPos g + 1) g;
        dealerLoop n' (set_DealerPos pos g)
  end.

Definition moveDealerButton (g : Game) : option Game :=
  if (length (PlayerOrder g) <? 2)%nat then Some g
  else
    pos ← modLen (DealerPos g + 1) g;
    g ← dealerLoop (length (PlayerOrder g)) (set_DealerPos pos g);
    if (length (PlayerOrder g) =? 2)%nat then
      bb ← modLen (DealerPos g + 1) g;
      Some (set_BigBlindPos bb (set_SmallBlindPos (DealerPos g) g))
    else
      sb ← modLen (DealerPos g + 1) g;
      bb ← modLen (DealerPos g + 2) g;
      Some (set_BigBlindPos bb (set_SmallBlindPos sb g)).

(** One pass of [dealHoleCards] over the seats. *)
Fixpoint dealPass (order : list string) (g : Game) : option Game :=
  match order with
  | [] => Some g
  | playerID :: rest =>
      player ← Players g !! playerID;
      if IsActive player then
        let '(card, g) := dealCard g in
        dealPass rest
          (updatePlayer playerID (fun p => set_HoleCards (HoleCards p ++ [card]) p) g)
      else dealPass rest g
  end.

Definition dealHoleCards (g : Game) : option Game :=
  g ← dealPass (PlayerOrder g) g;
  dealPass (PlayerOrder g) g.

(** [player.Bet(amount)] through the pointer, the error dropped. *)
Definition betOf (amount : Z) (p : Player) : Player := snd (Bet p amount).

Definition postBlinds (g : Game) : option Game :=
  sbID ← PlayerOrder g !! SmallBlindPos g;
  bbID ← PlayerOrder g !! BigBlindPos g;
  smallBlindPlayer ← Players g !! sbID;
  _ ← Players g !! bbID;
  let sbAmount := Z.min (SmallBlind g) (ChipCount smallBlindPlayer) in
  let g := updatePlayer sbID (betOf sbAmount) g in
  let g := set_Pot (int64.add (Pot g) sbAmount) g in
  bigBlindPlayer ← Players g !! bbID;
  let bbAmount := Z.min (BigBlind g) (ChipCount bigBlindPlayer) in
  let g := updatePlayer bbID (betOf bbAmount) g in
  Some (set_Pot (int64.add (Pot g) bbAmount) g).

Definition startNewHand (g : Game) : option Game :=
  let g := set_HandNumber (int64.add (HandNumber g) 1) g in
  let g := set_Phase PreFlop g in
  let g := set_Pot 0 g in
  let g := set_SidePots [] g in
  let g := set_CommunityCards [] g in
  let g := set_Actions [] g in
  let g := set_LastRaise (BigBlind g) g in
  let g := set_MinRaise (BigBlind g) g in
  let g := forAllPlayers ResetForNewHand g in
  g ← moveDealerButton g;
  let g := set_GDeck (Reset (GDeck g)) g in
  g ← dealHoleCards g;
  g ← postBlinds g;
  cur ← modLen (BigBlindPos g + 1) g;
  moveToNextActivePlayer (set_CurrentPlayer cur g).

(** The function handed to [time.AfterFunc] by [endHand], when it fires. *)
Definition nextHandTimer (g : Game) : option Game :=
  match Phase g with
  | Showdown => startNewHand g
  | _ => Some g
  end.

(** [AddPlayer]: the error and the game afterwards. *)
Definition AddPlayer (g : Game) (player : Player) (now : Z)
  : option (option string * Game) :=
  if MaxPlayers g <=? Z.of_nat (size (Players g)) then
    Some (Some "game is full"%string, g)
  else if bool_decide (is_Some (Players g !! ID player)) then
    Some (Some "player already in game"%string, g)
  else
    let g := set_Players (<[ID player := player]> (Players g)) g in
    let g := set_PlayerOrder (PlayerOrder g ++ [ID player]) g in
    let g := set_LastActivity now g in
    if (MinPlayers g <=? Z.of_nat (size (Players g)))
       && bool_decide (Phase g = WaitingForPlayers)
    then g ← startNewHand g; Some (None, g)
    else Some (None, g).

(** [processAction]: the error and the game afterwards (unchanged on
    error). *)
Definition processAction (g : Game) (playerID : string) (action : PlayerAction)
    (amount : Z) (now : Z) : option (option string * Game) :=
  if bool_decide (Phase g = WaitingForPlayers) || bool_decide (Phase g = GameOver)
  then Some (Some "cannot act during this phase"%string, g)
  else if negb (bool_decide (playerID = getCurrentPlayerID g))
  then Some (Some "not your turn"%string, g)
  else
    match Players g !! playerID with
    | None => Some (Some "player not in game"%string, g)
    | Some player =>
        if negb (CanAct player) then Some (Some "player cannot act"%string, g)
        else
          (* the switch: an error, or the action to record and the game *)
          let applied : option string * (PlayerAction * Game) :=
            match action with
            | Fold => (None, (Fold, updatePlayer playerID Player_Fold g))
            | Check =>
                if CurrentBet player <? LastRaise g
                then (Some "cannot check, must call or raise"%string, (Check, g))
                else (None, (Check, g))
            | Call =>
                let callAmount := int64.sub (LastRaise g) (CurrentBet player) in
                let '(callAmount, action) :=
                  if ChipCount player <? callAmount
                  then (ChipCount player, AllIn) else (callAmount, Call) in
                match Bet player callAmount with
                | (Some err, _) => (Some err, (action, g))
                | (None, _) =>
                    let g := updatePlayer playerID (betOf callAmount) g in
                    (None, (action, set_Pot (int64.add (Pot g) callAmount) g))
                end
            | Raise =>
                if amount <? MinRaise g
                then (Some ("minimum raise is " +:+ formatInt (MinRaise g)), (Raise, g))
                else
                  let totalBet := int64.add (LastRaise g) amount in
                  let betAmount := int64.sub totalBet (CurrentBet player) in
                  if ChipCount player <? betAmount
                  then (Some "insufficient chips for raise"%string, (Raise, g))
                  else
                    match Bet player betAmount with
                    | (Some err, _) => (Some err, (Raise, g))
                    | (None, _) =>
                        let g := updatePlayer playerID (betOf betAmount) g in
                        let g := set_Pot (int64.add (Pot g) betAmount) g in
                        let g := set_LastRaise totalBet g in
                        (None, (Raise, set_MinRaise amount g))
                    end
            | AllIn =>
                let allInAmount := ChipCount player in
                match Bet player allInAmount with
                | (Some err, _) => (Some err, (AllIn, g))
                | (None, player') =>
                    let g := updatePlayer playerID (betOf allInAmount) g in
                    let g := set_Pot (int64.add (Pot g) allInAmount) g in
                    (None, (AllIn,
                            if LastRaise g <? CurrentBet player'
                            then set_LastRaise (CurrentBet player') g else g))
                end
            end in
          match applied with
          | (Some err, _) => Some (Some err, g)
          | (None, (action, g)) =>
              let actionRecord := mkAction playerID action amount now in
              let g := updatePlayer playerID (set_LastAction (Some actionRecord)) g in
              let g := set_Actions (Actions g ++ [actionRecord]) g in
              let g := set_LastActivity now g in
              g ← advanceGame g;
              Some (None, g)
          end
    end.

Definition ProcessAction := processAction.

(** [RemovePlayer]: the player is only marked; the fold it requests goes
    through [processAction], whose error is dropped. *)
Definition RemovePlayer (g : Game) (playerID : string) (now : Z)
  : option (option string * Game) :=
  match Players g !! playerID with
  | None => Some (Some "player not in game"%string, g)
  | Some _ =>
      let g := updatePlayer playerID
                 (fun p => set_IsActive false (set_Connected false p)) g in
      g ← (if bool_decide (getCurrentPlayerID g = playerID)
              && negb (bool_decide (Phase g = WaitingForPlayers))
           then snd <$> processAction g playerID Fold 0 now
           else Some g);
      Some (None, set_LastActivity now g)
  end.

(** *** The snapshot sent to clients *)

Record ActionState : Type := mkActionState {
  AS_Action : PlayerAction;
  AS_Amount : Z
}.

Record PlayerState : Type := mkPlayerState {
  PS_ID : string;
  PS_Username : string;
  PS_ChipCount : Z;
  PS_HoleCards : list Card;
  PS_CurrentBet : Z;
  PS_HasFolded : bool;
  PS_IsAllIn : bool;
  PS_SeatPosition : Z;
  PS_Connected : bool;
  PS_LastAction : option ActionState
}.

Record GameState : Type := mkGameState {
  GS_GameID : string;
  GS_Phase : GamePhase;
  GS_Pot : Z;
  GS_CommunityCards : list Card;
  GS_Players : list PlayerState;
  GS_CurrentPlayer : string;
  GS_HandNumber : Z;
  GS_LastActivity : Z;
  GS_CanAct : bool
}.

(** The entry of seat [pid] in the snapshot for viewer [playerID]. *)
Definition playerStateFor (playerID pid : string) (player : Player) : PlayerState :=
  mkPlayerState (ID player) (Username player) (ChipCount player)
    (if bool_decide (pid = playerID) then HoleCards player else [])
    (CurrentBet player) (HasFolded player) (IsAllIn player)
    (SeatPosition player) (Connected player)
    (match LastAction player with
     | Some a => Some (mkActionState (Action_Action a) (Action_Amount a))
     | None => None
     end).

Definition GetGameState (g : Game) (playerID : string) : option GameState :=
  players ← mapM (fun pid => player ← Players g !! pid;
                             Some (playerStateFor playerID pid player))
                 (PlayerOrder g);
  Some (mkGameState (GameID g) (Phase g) (Pot g) (CommunityCards g) players
          (getCurrentPlayerID g) (HandNumber g) (LastActivity g)
          (bool_decide (getCurrentPlayerID g = playerID))).

End game.

(* ===================================================================== *)
(** ** Package game: the manager                                          *)
(* ===================================================================== *)

Module manager.
Import poker game.

(** [players] maps a player to the list of games joined; a missing key
    reads as the nil slice. *)
Record Manager : Type := mkManager {
  games : gmap string Game;
  players : gmap string (list string);
  config : GameConfig
}.

Definition hourNanos : Z := 3600 * 1000000000.

Definition NewManager : Manager :=
  mkManager ∅ ∅
    (mkGameConfig 3 10 2 10000 50000 2000 50 100
       (30 * 1000000000) (15 * 1000000000)).

Definition ErrGameNotFound : string := "game not found".
Definition ErrGameAlreadyExists : string := "game already exists".
Definition ErrGameFull : string := "game is full".
Definition ErrTooManyTables : string := "player is in too many tables".
Definition ErrInvalidBuyIn : string := "invalid buy-in amount".

Definition playerGames (m : Manager) (playerID : string) : list string :=
  default [] (players m !! playerID).

(** A [GameOption] updates the configuration it is given. *)
Definition GameOption : Type := GameConfig -> GameConfig.

Definition WithBlinds (smallBlind bigBlind : Z) : GameOption :=
  fun c => mkGameConfig (MaxTablesPerUser c) (MaxPlayersPerTable c)
             (MinPlayersPerTable c) (DefaultBuyIn c) (MaxBuyIn c) (MinBuyIn c)
             smallBlind bigBlind (CfgTurnTimeout c) (DecisionTimeout c).

Definition WithPlayerLimits (minPlayers maxPlayers : Z) : GameOption :=
  fun c => mkGameConfig (MaxTablesPerUser c) maxPlayers minPlayers
             (DefaultBuyIn c) (MaxBuyIn c) (MinBuyIn c)
             (CfgSmallBlind c) (CfgBigBlind c) (CfgTurnTimeout c) (DecisionTimeout c).

Definition WithBuyIn (defaultBuyIn minBuyIn maxBuyIn : Z) : GameOption :=
  fun c => mkGameConfig (MaxTablesPerUser c) (MaxPlayersPerTable c)
             (MinPlayersPerTable c) defaultBuyIn maxBuyIn minBuyIn
             (CfgSmallBlind c) (CfgBigBlind c) (CfgTurnTimeout c) (DecisionTimeout c).

Definition WithTimeouts (turnTimeout decisionTimeout : Z) : GameOption :=
  fun c => mkGameConfig (MaxTablesPerUser c) (MaxPlayersPerTable c)
             (MinPlayersPerTable c) (DefaultBuyIn c) (MaxBuyIn c) (MinBuyIn c)
             (CfgSmallBlind c) (CfgBigBlind c) turnTimeout decisionTimeout.

(** [CreateGame]; [r] is the random source of the new game's deck. *)
Definition CreateGame (m : Manager) (gameID name : string)
    (options : list GameOption) (r : Rng) (now : Z) : option string * Manager :=
  match games m !! gameID with
  | Some _ => (Some ErrGameAlreadyExists, m)
  | None =>
      let cfg := fold_left (fun c option => option c) options (config m) in
      let game := NewGame gameID name cfg r now in
      (None, mkManager (<[gameID := game]> (games m)) (players m) (config m))
  end.

(** [GetGame]: the game (nil on error) and the error. *)
Definition GetGame (m : Manager) (gameID : string) : option Game * option string :=
  match games m !! gameID with
  | Some game => (Some game, None)
  | None => (None, Some ErrGameNotFound)
  end.

(** [findAvailableSeat]: the lowest seat number below [MaxPlayers] that no
    player of the game holds, or -1. *)
Definition findAvailableSeat (game : Game) : Z :=
  let occupied (seat : Z) : bool :=
    bool_decide (map_Exists (fun _ player => SeatPosition player = seat) (Players game)) in
  match find (fun seat => negb (occupied (Z.of_nat seat)))
             (seq 0 (Z.to_nat (MaxPlayers game))) with
  | Some seat => Z.of_nat seat
  | None => -1
  end.

Definition JoinGame (m : Manager) (gameID playerID username : string)
    (buyIn : Z) (now : Z) : option (option string * Manager) :=
  match games m !! gameID with
  | None => Some (Some ErrGameNotFound, m)
  | Some game =>
      if MaxTablesPerUser (config m) <=? Z.of_nat (length (playerGames m playerID))
      then Some (Some ErrTooManyTables, m)
      else if (buyIn <? MinBuyIn (config m)) || (MaxBuyIn (config m) <? buyIn)
      then Some (Some ErrInvalidBuyIn, m)
      else
        let seatPosition := findAvailableSeat game in
        if seatPosition =? -1 then Some (Some ErrGameFull, m)
        else
          let player := NewPlayer playerID username buyIn seatPosition in
          '(err, game) ← AddPlayer game player now;
          match err with
          | Some e => Some (Some e, m)
          | None =>
              Some (None,
                    mkManager (<[gameID := game]> (games m))
                      (<[playerID := playerGames m playerID ++ [gameID]]> (players m))
                      (config m))
          end
  end.

(** [append(playerGames[:i], playerGames[i+1:]...)] at the first [i] with
    [playerGames[i] == gameID]. *)
Fixpoint removeFirst (gameID : string) (l : list string) : list string :=
  match l with
  | [] => []
  | gid :: rest =>
      if bool_decide (gid = gameID) then rest else gid :: removeFirst gameID rest
  end.

Definition LeaveGame (m : Manager) (gameID playerID : string) (now : Z)
  : option (option string * Manager) :=
  match games m !! gameID with
  | None => Some (Some ErrGameNotFound, m)
  | Some game =>
      '(err, game) ← RemovePlayer game playerID now;
      match err with
      | Some e => Some (Some e, m)
      | None =>
          let players' :=
            if bool_decide (gameID ∈ playerGames m playerID)
            then <[playerID := removeFirst gameID (playerGames m playerID)]> (players m)
            else players m in
          let games' :=
            if (size (Players game) =? 0)%nat
            then delete gameID (games m)
            else <[gameID := game]> (games m) in
          Some (None, mkManager games' players' (config m))
      end
  end.

Definition ProcessAction (m : Manager) (gameID playerID : string)
    (action : PlayerAction) (amount : Z) (now : Z)
  : option (option string * Manager) :=
  match games m !! gameID with
  | None => Some (Some ErrGameNotFound, m)
  | Some game =>
      '(err, game) ← processAction game playerID action amount now;
      Some (err, mkManager (<[gameID := game]> (games m)) (players m) (config m))
  end.

Definition GetGameState (m : Manager) (gameID playerID : string)
  : option (option string * option GameState) :=
  match games m !! gameID with
  | None => Some (Some ErrGameNotFound, None)
  | Some game => state ← game.GetGameState game playerID; Some (None, Some state)
  end.

(** [CleanupInactiveGames]: drops the games without players whose last
    activity is more than an hour old. *)
Definition CleanupInactiveGames (m : Manager) (now : Z) : Manager :=
  let cutoff := now - hourNanos in
  mkManager
    (filter (fun '(_, game) =>
               ~ (LastActivity game < cutoff /\ size (Players game) = 0%nat))
            (games m))
    (players m) (config m).

(** The deferred start of the next hand of one game. *)
Definition NextHandTimer (m : Manager) (gameID : string) : option Manager :=
  match games m !! gameID with
  | None => Some m
  | Some game =>
      game ← nextHandTimer game;
      Some (mkManager (<[gameID := game]> (games m)) (players m) (config m))
  end.

End manager.

(* ===================================================================== *)
(** ** Properties of package poker                                        *)
(* ===================================================================== *)

Module poker_facts.
Import poker.

(** *** Dealing *)

Lemma dealLoop_take (n : nat) : forall (d : Deck) (acc : list Card),
  (n <= length (Cards d))%nat ->
  dealLoop n d acc =
    ((Some (acc ++ take n (Cards d)), None), mkDeck (drop n (Cards d)) (rng d)).
Proof.
  induction n as [|n IH]; intros [cards r] acc Hlen; simpl in *.
  - rewrite take_0, drop_0, app_nil_r. reflexivity.
  - destruct cards as [|card rest]; simpl in *; [lia|].
    unfold Deal; simpl. rewrite IH by (simpl; lia). simpl.
    rewrite <- app_assoc. reflexivity.
Qed.

(** C9.  [Deal] on an empty deck reports an error and hands the deck back
    as it was; [DealMultiple n] on a deck of fewer than [n] cards reports
    an error and hands the deck back as it was; on a deck of at least [n]
    cards ([n] a count, so non-negative) it returns exactly the first [n]
    cards and leaves the remaining ones. *)
Theorem Deal_all_or_nothing (d : Deck) (n : Z) :
  (Cards d = [] -> exists err, Deal d = ((zeroCard, Some err), d)) /\
  (Z.of_nat (length (Cards d)) < n ->
     exists err, DealMultiple d n = Some ((None, Some err), d)) /\
  (0 <= n <= Z.of_nat (length (Cards d)) ->
     exists dealt d',
       DealMultiple d n = Some ((Some dealt, None), d') /\
       Z.of_nat (length dealt) = n /\
       Cards d = dealt ++ Cards d' /\
       Remaining d' = Remaining d - n).
Proof.
  split; [|split].
  - intros Hempty. unfold Deal. rewrite Hempty. eauto.
  - intros Hlt. unfold DealMultiple.
    destruct (Z.ltb_spec (Z.of_nat (length (Cards d))) n); [eauto | lia].
  - intros [Hn Hle]. unfold DealMultiple.
    destruct (Z.ltb_spec (Z.of_nat (length (Cards d))) n); [lia|].
    destruct (Z.ltb_spec n 0); [lia|].
    rewrite dealLoop_take by lia.
    eexists _, _. split; [reflexivity|]. simpl.
    split; [|split].
    + rewrite length_take. lia.
    + symmetry. apply take_drop.
    + unfold Remaining; simpl. rewrite length_drop. lia.
Qed.

Definition threeCards : Deck :=
  mkDeck [NewCard Ace Spades; NewCard King Hearts; NewCard Two Clubs]
         (mkRng (fun _ => 0) 0).

Lemma Deal_all_or_nothing_witness :
  (exists err, Deal (mkDeck [] (rng threeCards)) =
                 ((zeroCard, Some err), mkDeck [] (rng threeCards))) /\
  (exists err, DealMultiple threeCards 4 = Some ((None, Some err), threeCards)) /\
  (exists dealt d',
     DealMultiple threeCards 2 = Some ((Some dealt, None), d') /\
     Z.of_nat (length dealt) = 2 /\
     Cards threeCards = dealt ++ Cards d' /\
     Remaining d' = Remaining threeCards - 2).
Proof.
  split; [|split].
  - apply (proj1 (Deal_all_or_nothing (mkDeck [] (rng threeCards)) 0)).
    reflexivity.
  - apply (proj1 (proj2 (Deal_all_or_nothing threeCards 4))).
    simpl. lia.
  - apply (proj2 (proj2 (Deal_all_or_nothing threeCards 2))).
    simpl. lia.
Defined.

(** *** The scalar value against the category order *)

Definition royalFlushSpades : list Card :=
  [NewCard Ace Spades; NewCard King Spades; NewCard Queen Spades;
   NewCard Jack Spades; NewCard Ten Spades].

Definition aceHighNothing : list Card :=
  [NewCard Ace Spades; NewCard King Hearts; NewCard Queen Diamonds;
   NewCard Jack Clubs; NewCard Nine Spades].

Definition pairOfTwos : list Card :=
  [NewCard Two Spades; NewCard Two Hearts; NewCard Three Diamonds;
   NewCard Four Clubs; NewCard Five Spades].

(** C1 (evaluation at the failing input).  A royal flush is given the
    value 900000014, an ace-high hand with no pair 1413121109: the hand of
    the lowest category outranks the hand of the highest one by [Value].
    Five kickers in base 100 reach 14 * 100^4, which is more than the
    category step of 100000000. *)
Theorem category_order_broken_by_kickers :
  exists royal nothing pair,
    NewHand royalFlushSpades = Some royal /\
    NewHand aceHighNothing = Some nothing /\
    NewHand pairOfTwos = Some pair /\
    HRank royal = RoyalFlush /\ HRank nothing = HighCard /\ HRank pair = OnePair /\
    Value royal = 900000014 /\ Value nothing = 1413121109 /\
    Value pair = 102050403 /\
    Value royal < Value nothing /\ Value pair < Value nothing /\
    CompareHands nothing royal = 1.
Proof.
  eexists _, _, _.
  split; [vm_compute; reflexivity|].
  split; [vm_compute; reflexivity|].
  split; [vm_compute; reflexivity|].
  vm_compute. repeat split; reflexivity.
Qed.

(** *** Hand evaluation never panics on five cards of the pack *)

Lemma insertDesc_perm (c : Card) (l : list Card) : insertDesc c l ≡ₚ c :: l.
Proof.
  induction l as [|x xs IH]; simpl; [reflexivity|].
  destruct (Rank c <? Rank x); [|reflexivity].
  rewrite IH. apply Permutation_swap.
Qed.

Lemma sortDesc_perm (l : list Card) : sortDesc l ≡ₚ l.
Proof.
  induction l as [|x xs IH]; simpl; [reflexivity|].
  rewrite insertDesc_perm, IH. reflexivity.
Qed.

Definition sumCounts (ranks : list Z) : Z :=
  foldr Z.add 0 (map (rankCount ranks) ranks_desc).

Lemma incr_Some (counts : list Z) (i : Z) :
  0 <= i < Z.of_nat (length counts) ->
  exists n, counts !! Z.to_nat i = Some n /\
            incr counts i = Some (<[Z.to_nat i := n + 1]> counts).
Proof.
  intros [H0 Hlt]. unfold incr.
  destruct (Z.leb_spec 0 i); [|lia].
  destruct (lookup_lt_is_Some_2 counts (Z.to_nat i)) as [n Hn]; [lia|].
  exists n. rewrite Hn. split; reflexivity.
Qed.

Lemma rankCount_insert (ranks : list Z) (k : nat) (n v r : Z) :
  ranks !! k = Some n -> 0 <= r ->
  rankCount (<[k := v]> ranks) r =
    if decide (Z.to_nat r = k) then v else rankCount ranks r.
Proof.
  intros Hn Hr. unfold rankCount.
  destruct (decide (Z.to_nat r = k)) as [->|Hne].
  - rewrite list_lookup_insert_eq; [reflexivity|].
    apply lookup_lt_is_Some_1; eauto.
  - rewrite list_lookup_insert_ne by congruence. reflexivity.
Qed.

Lemma sum_insert (ranks : list Z) (k : nat) (n : Z) (rs : list Z) :
  ranks !! k = Some n -> Forall (Z.le 0) rs -> NoDup rs ->
  foldr Z.add 0 (map (rankCount (<[k := n + 1]> ranks)) rs) =
    foldr Z.add 0 (map (rankCount ranks) rs)
    + (if decide (Z.of_nat k ∈ rs) then 1 else 0).
Proof.
  intros Hn Hpos Hnd. induction rs as [|r rs IH]; simpl.
  - destruct (decide (Z.of_nat k ∈ [])) as [Hin|]; [inversion Hin | reflexivity].
  - inversion Hpos as [|? ? Hr Hpos']; subst.
    inversion Hnd as [|? ? Hnotin Hnd']; subst.
    rewrite IH by assumption.
    rewrite (rankCount_insert _ _ n) by assumption.
    assert (Hn' : rankCount ranks (Z.of_nat k) = n).
    { unfold rankCount. rewrite Nat2Z.id, Hn. reflexivity. }
    destruct (decide (Z.to_nat r = k)) as [Hk|Hk].
    + assert (r = Z.of_nat k) by lia. subst r.
      destruct (decide (Z.of_nat k ∈ rs)); [contradiction|].
      destruct (decide (Z.of_nat k ∈ Z.of_nat k :: rs)) as [|Hno];
        [lia | exfalso; apply Hno; left].
    + destruct (decide (Z.of_nat k ∈ rs)) as [Hin|Hnin].
      * destruct (decide (Z.of_nat k ∈ r :: rs)) as [|Hno];
          [lia | exfalso; apply Hno; right; exact Hin].
      * destruct (decide (Z.of_nat k ∈ r :: rs)) as [Hin'|]; [|lia].
        apply elem_of_cons in Hin' as [Heq|Hin']; [lia | contradiction].
Qed.

Lemma ranks_desc_NoDup : NoDup ranks_desc.
Proof. refine (bool_decide_unpack (NoDup ranks_desc) _). vm_compute. exact I. Qed.

Lemma ranks_desc_range (r : Z) : r ∈ ranks_desc <-> Two <= r <= Ace.
Proof.
  unfold ranks_desc, Two, Ace. rewrite !elem_of_cons, elem_of_nil. lia.
Qed.

Lemma incr_rank (ranks ranks' : list Z) (i : Z) :
  length ranks = 15%nat -> Two <= i <= Ace -> Forall (Z.le 0) ranks ->
  incr ranks i = Some ranks' ->
  length ranks' = 15%nat /\ Forall (Z.le 0) ranks' /\
  sumCounts ranks' = sumCounts ranks + 1.
Proof.
  intros Hlen Hi Hpos Hincr.
  destruct (incr_Some ranks i) as (n & Hn & Heq); [unfold Two, Ace in Hi; lia|].
  rewrite Heq in Hincr. injection Hincr as <-.
  split; [rewrite length_insert; exact Hlen|].
  split.
  - apply Forall_insert; [exact Hpos|].
    pose proof (Forall_lookup_1 _ _ _ _ Hpos Hn). simpl in *. lia.
  - unfold sumCounts. rewrite (sum_insert _ _ n); [|exact Hn| |exact ranks_desc_NoDup].
    + destruct (decide (Z.of_nat (Z.to_nat i) ∈ ranks_desc)) as [|Hno]; [reflexivity|].
      exfalso. apply Hno. apply ranks_desc_range. unfold Two, Ace in *. lia.
    + apply Forall_forall. intros r Hr. apply ranks_desc_range in Hr.
      unfold Two in Hr. lia.
Qed.

(** What the classification loop leaves in the four slices. *)
Lemma classify_fold (ranks : list Z) (rs : list Z) : forall g : Groups,
  fold_left (groupStep ranks) rs g =
    mkGroups (quads g ++ filter (fun r => rankCount ranks r = 4) rs)
             (trips g ++ filter (fun r => rankCount ranks r = 3) rs)
             (pairs g ++ filter (fun r => rankCount ranks r = 2) rs)
             (singles g ++ filter (fun r => rankCount ranks r = 1) rs).
Proof.
  induction rs as [|r rs IH]; intros [q t p s]; simpl.
  - rewrite !filter_nil, !app_nil_r. reflexivity.
  - rewrite IH. unfold groupStep. rewrite !filter_cons. simpl.
    destruct (Z.eqb_spec (rankCount ranks r) 4) as [E4|E4].
    { simpl. repeat case_decide; try lia. rewrite <- app_assoc. reflexivity. }
    destruct (Z.eqb_spec (rankCount ranks r) 3) as [E3|E3].
    { simpl. repeat case_decide; try lia. rewrite <- app_assoc. reflexivity. }
    destruct (Z.eqb_spec (rankCount ranks r) 2) as [E2|E2].
    { simpl. repeat case_decide; try lia. rewrite <- app_assoc. reflexivity. }
    destruct (Z.eqb_spec (rankCount ranks r) 1) as [E1|E1].
    { simpl. repeat case_decide; try lia. rewrite <- app_assoc. reflexivity. }
    repeat case_decide; try lia. reflexivity.
Qed.

(** Five cards split into groups: the group sizes account for all of
    them, unless some rank occurs five times or more. *)
Lemma group_sizes (ranks : list Z) (rs : list Z) :
  (forall r, r ∈ rs -> 0 <= rankCount ranks r) ->
  exists other : Z,
    (other = 0 \/ 5 <= other) /\
    foldr Z.add 0 (map (rankCount ranks) rs) =
      4 * Z.of_nat (length (filter (fun r => rankCount ranks r = 4) rs))
      + 3 * Z.of_nat (length (filter (fun r => rankCount ranks r = 3) rs))
      + 2 * Z.of_nat (length (filter (fun r => rankCount ranks r = 2) rs))
      + Z.of_nat (length (filter (fun r => rankCount ranks r = 1) rs))
      + other.
Proof.
  induction rs as [|r rs IH]; intros Hpos.
  - exists 0. split; [left; reflexivity | reflexivity].
  - destruct IH as (other & Hother & IH).
    { intros r' Hr'. apply Hpos. right. exact Hr'. }
    pose proof (Hpos r (list_elem_of_here _ _)) as Hr.
    simpl. rewrite IH, !filter_cons.
    destruct (decide (rankCount ranks r = 4)) as [E4|E4];
    destruct (decide (rankCount ranks r = 3)) as [E3|E3];
    destruct (decide (rankCount ranks r = 2)) as [E2|E2];
    destruct (decide (rankCount ranks r = 1)) as [E1|E1];
      try lia; simpl length.
    all: try (exists other; split; [exact Hother | lia]).
    exists (other + rankCount ranks r). split; lia.
Qed.

Lemma countCards_total (cards : list Card) : forall ranks suits : list Z,
  Forall valid_card cards ->
  length ranks = 15%nat -> length suits = 4%nat -> Forall (Z.le 0) ranks ->
  exists ranks' suits',
    countCards cards ranks suits = Some (ranks', suits') /\
    length ranks' = 15%nat /\ Forall (Z.le 0) ranks' /\
    sumCounts ranks' = sumCounts ranks + Z.of_nat (length cards).
Proof.
  induction cards as [|card rest IH]; intros ranks suits Hvalid Hr Hs Hpos.
  - exists ranks, suits. simpl. repeat split; try assumption. lia.
  - inversion Hvalid as [|? ? [Hrank Hsuit] Hvalid']; subst.
    simpl.
    destruct (incr_Some ranks (Rank card)) as (n & Hn & Hincr);
      [unfold Two, Ace in Hrank; lia|].
    destruct (incr_Some suits (Suit card)) as (k & Hk & Hincs);
      [unfold Hearts, Spades in Hsuit; lia|].
    destruct (incr_rank ranks _ (Rank card) Hr Hrank Hpos Hincr)
      as (Hr' & Hpos' & Hsum).
    rewrite Hincr, Hincs. simpl.
    destruct (IH (<[Z.to_nat (Rank card) := n + 1]> ranks)
                 (<[Z.to_nat (Suit card) := k + 1]> suits))
      as (ranks' & suits' & Hcount & Hlen & Hpos'' & Hsum'); try assumption.
    { rewrite length_insert. exact Hs. }
    exists ranks', suits'. repeat split; try assumption.
    rewrite Hsum', Hsum. simpl length. lia.
Qed.

Lemma length_one_lookup {A} (l : list A) :
  (length l =? 1)%nat = true -> exists x, l = [x].
Proof.
  intros H. apply Nat.eqb_eq in H.
  destruct l as [|x [|? ?]]; try discriminate. eauto.
Qed.

Lemma length_two_lookup {A} (l : list A) :
  (length l =? 2)%nat = true -> exists x y, l = [x; y].
Proof.
  intros H. apply Nat.eqb_eq in H.
  destruct l as [|x [|y [|? ?]]]; try discriminate. eauto.
Qed.

Lemma evaluate_total (cards : list Card) :
  length cards = 5%nat -> Forall valid_card cards -> is_Some (evaluate cards).
Proof.
  intros Hlen Hvalid. unfold evaluate.
  destruct (countCards_total cards (replicate 15 0) (replicate 4 0))
    as (ranks & suits & Hcount & Hr & Hpos & Hsum); try assumption.
  { reflexivity. } { reflexivity. }
  { apply Forall_replicate. lia. }
  rewrite Hcount. simpl.
  change (sumCounts (replicate 15 0)) with 0 in Hsum. rewrite Hlen in Hsum.
  destruct (group_sizes ranks ranks_desc) as (other & Hother & Hgroups).
  { intros r Hr'. unfold rankCount.
    destruct (ranks !! Z.to_nat r) as [n|] eqn:Hn; simpl; [|lia].
    exact (Forall_lookup_1 _ _ _ _ Hpos Hn). }
  fold (sumCounts ranks) in Hgroups. rewrite Hsum in Hgroups.
  destruct (checkStraight ranks) as [isStraight straightHigh].
  destruct (isStraight && existsb (Z.eqb 5) suits).
  { destruct (straightHigh =? Ace); [|eauto].
    destruct (lookup_lt_is_Some_2 cards 1) as [c1 Hc1]; [lia|].
    rewrite Hc1. simpl. destruct (Rank c1 =? King); eauto. }
  unfold classify. rewrite classify_fold. simpl.
  set (q := filter (fun r => rankCount ranks r = 4) ranks_desc) in *.
  set (t := filter (fun r => rankCount ranks r = 3) ranks_desc) in *.
  set (p := filter (fun r => rankCount ranks r = 2) ranks_desc) in *.
  set (s := filter (fun r => rankCount ranks r = 1) ranks_desc) in *.
  destruct (length q =? 1)%nat eqn:Hq.
  { destruct (length_one_lookup _ Hq) as [x Hx]. rewrite Hx in *. simpl.
    destruct s as [|k s']; [simpl in Hgroups; lia|]. simpl. eauto. }
  destruct (length t =? 1)%nat eqn:Ht; simpl.
  { destruct (length p =? 1)%nat eqn:Hp; simpl.
    - destruct (length_one_lookup _ Ht) as [x Hx].
      destruct (length_one_lookup _ Hp) as [y Hy].
      rewrite Hx, Hy. simpl. eauto.
    - destruct (existsb (Z.eqb 5) suits); [eauto|].
      destruct isStraight; [eauto|].
      destruct (length_one_lookup _ Ht) as [x Hx]. rewrite Hx. simpl. eauto. }
  destruct (existsb (Z.eqb 5) suits); [eauto|].
  destruct isStraight; [eauto|].
  destruct (length p =? 2)%nat eqn:Hp2.
  { destruct (length_two_lookup _ Hp2) as (x & y & Hxy). rewrite Hxy in *. simpl.
    destruct s as [|k s']; [|simpl; eauto].
    exfalso. apply Nat.eqb_neq in Hq, Ht. simpl in Hgroups. lia. }
  destruct (length p =? 1)%nat eqn:Hp1; [|eauto].
  destruct (length_one_lookup _ Hp1) as [x Hx]. rewrite Hx. simpl. eauto.
Qed.

Lemma NewHand_total (cards : list Card) :
  length cards = 5%nat -> Forall valid_card cards -> is_Some (NewHand cards).
Proof.
  intros Hlen Hvalid. unfold NewHand. rewrite Hlen. simpl.
  apply evaluate_total.
  - rewrite (Permutation_length (sortDesc_perm cards)). exact Hlen.
  - rewrite (sortDesc_perm cards). exact Hvalid.
Qed.

(** *** The best five of seven *)

Lemma CompareHands_pos (h b : Hand) :
  (0 <? CompareHands h b) = (Value b <? Value h).
Proof.
  unfold CompareHands.
  destruct (Value b <? Value h); [reflexivity|].
  destruct (Value h <? Value b); reflexivity.
Qed.

(** [res] is the first hand of maximal value among [b] followed by the
    hands of [combos]. *)
Definition firstMaxAfter (b : Hand) (combos : list (list Card)) (res : Hand) : Prop :=
  (res = b /\
   forall x, x ∈ combos -> exists hx, NewHand x = Some hx /\ Value hx <= Value b)
  \/
  (exists pre combo post,
     combos = pre ++ combo :: post /\ NewHand combo = Some res /\
     Value b < Value res /\
     (forall x, x ∈ pre -> exists hx, NewHand x = Some hx /\ Value hx < Value res) /\
     (forall x, x ∈ post -> exists hx, NewHand x = Some hx /\ Value hx <= Value res)).

Lemma bestLoop_firstMax (combos : list (list Card)) : forall b : Hand,
  Forall (fun x => is_Some (NewHand x)) combos ->
  exists res, bestLoop combos (Some b) = Some (Some res) /\ firstMaxAfter b combos res.
Proof.
  induction combos as [|x rest IH]; intros b Htotal.
  - exists b. split; [reflexivity|]. left. split; [reflexivity|].
    intros y Hy. inversion Hy.
  - inversion Htotal as [|? ? [h Hh] Hrest]; subst.
    simpl. rewrite Hh. simpl. rewrite CompareHands_pos.
    destruct (Z.ltb_spec (Value b) (Value h)) as [Hlt|Hge].
    + destruct (IH h Hrest) as (res & Hloop & Hmax).
      exists res. split; [exact Hloop|]. right.
      destruct Hmax as [[-> Hall] | (pre & combo & post & -> & Hc & Hgt & Hpre & Hpost)].
      * exists [], x, rest. repeat split; try assumption.
        intros y Hy. inversion Hy.
      * exists (x :: pre), combo, post. repeat split; try assumption; [lia|].
        intros y Hy. apply elem_of_cons in Hy as [->|Hy]; [|auto].
        exists h. split; [exact Hh | lia].
    + destruct (IH b Hrest) as (res & Hloop & Hmax).
      exists res. split; [exact Hloop|].
      destruct Hmax as [[-> Hall] | (pre & combo & post & -> & Hc & Hgt & Hpre & Hpost)].
      * left. split; [reflexivity|].
        intros y Hy. apply elem_of_cons in Hy as [->|Hy]; [|auto].
        exists h. split; [exact Hh | lia].
      * right. exists (x :: pre), combo, post. repeat split; try assumption.
        intros y Hy. apply elem_of_cons in Hy as [->|Hy]; [|auto].
        exists h. split; [exact Hh | lia].
Qed.

Lemma combinations_of_seven (c1 c2 c3 c4 c5 c6 c7 : Card) :
  generateCombinations [c1; c2; c3; c4; c5; c6; c7] 5 =
    [[c1; c2; c3; c4; c5]; [c1; c2; c3; c4; c6]; [c1; c2; c3; c4; c7];
     [c1; c2; c3; c5; c6]; [c1; c2; c3; c5; c7]; [c1; c2; c3; c6; c7];
     [c1; c2; c4; c5; c6]; [c1; c2; c4; c5; c7]; [c1; c2; c4; c6; c7];
     [c1; c2; c5; c6; c7]; [c1; c3; c4; c5; c6]; [c1; c3; c4; c5; c7];
     [c1; c3; c4; c6; c7]; [c1; c3; c5; c6; c7]; [c1; c4; c5; c6; c7];
     [c2; c3; c4; c5; c6]; [c2; c3; c4; c5; c7]; [c2; c3; c4; c6; c7];
     [c2; c3; c5; c6; c7]; [c2; c4; c5; c6; c7]; [c3; c4; c5; c6; c7]].
Proof. reflexivity. Qed.

(** Every way of leaving two of the seven cards out is enumerated. *)
Lemma combinations_complete (cards sub : list Card) :
  length cards = 7%nat -> sublist sub cards -> length sub = 5%nat ->
  sub ∈ generateCombinations cards 5.
Proof.
  intros Hlen Hsub Hfive.
  do 7 (destruct cards as [|? cards]; [discriminate Hlen|]).
  destruct cards; [|discriminate Hlen].
  rewrite combinations_of_seven.
  repeat match goal with
  | H : sublist _ (_ :: _) |- _ =>
      apply sublist_cons_r in H as [H | (? & -> & H)]
  | H : sublist _ [] |- _ => apply sublist_nil_r in H; subst
  end; try discriminate Hfive; set_solver.
Qed.

(** C8.  On seven cards of the pack [GetBestHand] returns a hand; the 21
    five-card selections are enumerated, each evaluates to a hand whose
    value is at most the returned one, and the returned hand is the
    evaluation of the first selection, in enumeration order, that reaches
    the maximal value (every selection before it is strictly below). *)
Theorem GetBestHand_first_maximal (cards : list Card) :
  length cards = 7%nat -> Forall valid_card cards ->
  exists best pre combo post,
    GetBestHand cards = Some (Some best) /\
    length (generateCombinations cards 5) = 21%nat /\
    (forall sub, sublist sub cards -> length sub = 5%nat ->
                 sub ∈ generateCombinations cards 5) /\
    generateCombinations cards 5 = pre ++ combo :: post /\
    NewHand combo = Some best /\
    (forall x, x ∈ pre -> exists hx, NewHand x = Some hx /\ Value hx < Value best) /\
    (forall x, x ∈ post -> exists hx, NewHand x = Some hx /\ Value hx <= Value best).
Proof.
  intros Hlen Hvalid.
  assert (Htotal : Forall (fun x => is_Some (NewHand x)) (generateCombinations cards 5)).
  { do 7 (destruct cards as [|? cards]; [discriminate Hlen|]).
    destruct cards; [|discriminate Hlen].
    rewrite combinations_of_seven.
    repeat match goal with
    | H : Forall _ (_ :: _) |- _ => apply Forall_cons in H as [? H]
    end.
    repeat (apply Forall_cons_2;
            [apply NewHand_total;
             [reflexivity
             | repeat (apply Forall_cons_2; [assumption|]); apply Forall_nil_2]|]).
    apply Forall_nil_2. }
  assert (Hcount : length (generateCombinations cards 5) = 21%nat).
  { do 7 (destruct cards as [|? cards]; [discriminate Hlen|]).
    destruct cards; [|discriminate Hlen]. reflexivity. }
  unfold GetBestHand. rewrite Hlen. simpl Nat.eqb. cbv iota.
  destruct (generateCombinations cards 5) as [|first rest] eqn:Hcombos;
    [discriminate Hcount|].
  inversion Htotal as [|? ? [h0 Hh0] Hrest]; subst.
  destruct (bestLoop_firstMax rest h0 Hrest) as (best & Hloop & Hmax).
  simpl. rewrite Hh0. simpl.
  destruct Hmax as [[-> Hall] | (pre & combo & post & -> & Hc & Hgt & Hpre & Hpost)].
  - exists h0, [], first, rest. repeat split; try assumption.
    + intros sub Hsub H5. rewrite <- Hcombos.
      apply combinations_complete; assumption.
    + intros y Hy. inversion Hy.
  - exists best, (first :: pre), combo, post. repeat split; try assumption.
    + intros sub Hsub H5. rewrite <- Hcombos.
      apply combinations_complete; assumption.
    + intros y Hy. apply elem_of_cons in Hy as [->|Hy]; [|auto].
      exists h0. split; [exact Hh0 | lia].
Qed.

Definition sevenCards : list Card :=
  [NewCard Ace Spades; NewCard Ace Hearts; NewCard Ace Diamonds;
   NewCard King Clubs; NewCard King Spades; NewCard Queen Hearts;
   NewCard Jack Diamonds].

Lemma GetBestHand_first_maximal_witness :
  exists best pre combo post,
    GetBestHand sevenCards = Some (Some best) /\
    length (generateCombinations sevenCards 5) = 21%nat /\
    (forall sub, sublist sub sevenCards -> length sub = 5%nat ->
                 sub ∈ generateCombinations sevenCards 5) /\
    generateCombinations sevenCards 5 = pre ++ combo :: post /\
    NewHand combo = Some best /\
    (forall x, x ∈ pre -> exists hx, NewHand x = Some hx /\ Value hx < Value best) /\
    (forall x, x ∈ post -> exists hx, NewHand x = Some hx /\ Value hx <= Value best).
Proof.
  apply (GetBestHand_first_maximal sevenCards).
  - reflexivity.
  - unfold sevenCards, valid_card. repeat constructor; simpl; vm_compute; discriminate.
Defined.

End poker_facts.

(* ===================================================================== *)
(** ** Properties of the table state machine                              *)
(* ===================================================================== *)

Module game_facts.
Import poker game.

(** *** Whatever the shuffle does, the deck has 52 cards *)

Lemma swap_length (l : list Card) (i j : nat) : length (swap l i j) = length l.
Proof.
  unfold swap. destruct (l !! i), (l !! j); try reflexivity.
  rewrite !length_insert. reflexivity.
Qed.

Lemma shuffle_loop_length (i : nat) : forall cards r,
  length (fst (shuffle_loop i cards r)) = length cards.
Proof.
  induction i as [|i IH]; intros cards r; [reflexivity|].
  cbn [shuffle_loop]. unfold Intn. rewrite IH. apply swap_length.
Qed.

Lemma Reset_cards (d : Deck) :
  exists cards r', Reset d = mkDeck cards r' /\ length cards = 52%nat.
Proof.
  unfold Reset, Shuffle.
  pose proof (shuffle_loop_length (length (Cards (mkDeck fullPack (rng d))) - 1)
                (Cards (mkDeck fullPack (rng d))) (rng (mkDeck fullPack (rng d)))) as H.
  destruct (shuffle_loop _ _ _) as [cards r']. simpl in H.
  exists cards, r'. split; [reflexivity | exact H].
Qed.

(** [startNewHand] split at the shuffle: what precedes it, and what is
    done with the shuffled deck. *)
Definition prepare (g : Game) : Game :=
  let g := set_HandNumber (int64.add (HandNumber g) 1) g in
  let g := set_Phase PreFlop g in
  let g := set_Pot 0 g in
  let g := set_SidePots [] g in
  let g := set_CommunityCards [] g in
  let g := set_Actions [] g in
  let g := set_LastRaise (BigBlind g) g in
  let g := set_MinRaise (BigBlind g) g in
  forAllPlayers ResetForNewHand g.

Definition dealtHand (d : Deck) (g : Game) : option Game :=
  g ← dealHoleCards (set_GDeck d g);
  g ← postBlinds g;
  cur ← modLen (BigBlindPos g + 1) g;
  moveToNextActivePlayer (set_CurrentPlayer cur g).

Lemma dealerLoop_GDeck (n : nat) : forall g g',
  dealerLoop n g = Some g' -> GDeck g' = GDeck g.
Proof.
  induction n as [|n IH]; intros g g' H; simpl in H.
  - congruence.
  - destruct (PlayerOrder g !! DealerPos g) as [id|]; simpl in H; [|discriminate].
    destruct (Players g !! id) as [p|]; simpl in H; [|discriminate].
    destruct (IsActive p); [congruence|].
    destruct (modLen _ g); simpl in H; [|discriminate].
    apply IH in H. exact H.
Qed.

Lemma moveDealerButton_GDeck (g g' : Game) :
  moveDealerButton g = Some g' -> GDeck g' = GDeck g.
Proof.
  unfold moveDealerButton. intros H.
  destruct (length (PlayerOrder g) <? 2)%nat; [congruence|].
  destruct (modLen _ g); simpl in H; [|discriminate].
  destruct (dealerLoop _ _) as [g0|] eqn:E; simpl in H; [|discriminate].
  apply dealerLoop_GDeck in E. simpl in E.
  destruct (length (PlayerOrder g0) =? 2)%nat; simplify_option_eq; exact E.
Qed.

Lemma startNewHand_deck (g : Game) :
  startNewHand g =
    (g' ← moveDealerButton (prepare g); dealtHand (Reset (GDeck g)) g').
Proof.
  unfold startNewHand. fold (prepare g).
  destruct (moveDealerButton (prepare g)) as [g'|] eqn:E; simpl; [|reflexivity].
  rewrite (moveDealerButton_GDeck _ _ E). reflexivity.
Qed.


(** Readings of one player's record. *)
Definition chipsOf (g : Game) (id : string) : option Z :=
  ChipCount <$> Players g !! id.
Definition betOn (g : Game) (id : string) : option Z :=
  CurrentBet <$> Players g !! id.
Definition handBetOf (g : Game) (id : string) : option Z :=
  TotalBet <$> Players g !! id.

(** A fixed random source: the generator yields 13, 30, 47, ... *)
Definition fixedRng : Rng := mkRng (fun n => Z.of_nat n * 17 + 13) 0.
(** *** The heads-up opening *)

Section HeadsUp.

(** The random source of the deck, the clock readings and the labels are
    arbitrary; the table seats two or more and starts with two. *)
Variable r : Rng.
Variables t0 t1 t2 t3 t4 t5 : Z.
Variables gameID gameName name1 name2 : string.
Variables seat1 seat2 : Z.
Variables tables buyIn maxBuyIn minBuyIn turnTimeout decisionTimeout : Z.

Definition headsUpConfig (maxPlayers : Z) : GameConfig :=
  mkGameConfig tables maxPlayers 2 buyIn maxBuyIn minBuyIn 50 100
    turnTimeout decisionTimeout.

Definition player1 : Player := NewPlayer "player1" name1 10000 seat1.
Definition player2 : Player := NewPlayer "player2" name2 10000 seat2.

Definition oneSeated (maxPlayers : Z) : option (option string * Game) :=
  AddPlayer (NewGame gameID gameName (headsUpConfig maxPlayers) r t0) player1 t1.

Definition twoSeated (maxPlayers : Z) : option (option string * Game) :=
  '(_, g) ← oneSeated maxPlayers; AddPlayer g player2 t2.

(** The small blind completes, the big blind checks. *)
Definition afterCall (maxPlayers : Z) : option (option string * Game) :=
  '(_, g) ← twoSeated maxPlayers; processAction g "player2" Call 0 t3.

Definition afterCheck (maxPlayers : Z) : option (option string * Game) :=
  '(_, g) ← afterCall maxPlayers; processAction g "player1" Check 0 t4.

(** The table right after a successful [AddPlayer], before any hand is
    started. *)
Definition seated (g : Game) (p : Player) (now : Z) : Game :=
  set_LastActivity now
    (set_PlayerOrder (PlayerOrder g ++ [ID p])
       (set_Players (<[ID p := p]> (Players g)) g)).

Definition bothSeated (maxPlayers : Z) : Game :=
  seated (seated (NewGame gameID gameName (headsUpConfig maxPlayers) r t0)
            player1 t1) player2 t2.

Ltac split_max maxPlayers :=
  destruct maxPlayers as [|[p|p|]|p]; try lia.

Lemma twoSeated_starts (maxPlayers : Z) :
  2 <= maxPlayers ->
  twoSeated maxPlayers =
    (g ← startNewHand (bothSeated maxPlayers); Some (None, g)).
Proof.
  intros Hmax. unfold twoSeated, oneSeated, AddPlayer.
  generalize startNewHand. intros start.
  split_max maxPlayers; vm_compute; reflexivity.
Qed.

Lemma twoSeated_shuffled (maxPlayers : Z) :
  2 <= maxPlayers ->
  exists cards r', length cards = 52%nat /\
    twoSeated maxPlayers =
      (g' ← moveDealerButton (prepare (bothSeated maxPlayers));
       g ← dealtHand (mkDeck cards r') g'; Some (None, g)).
Proof.
  intros Hmax. rewrite (twoSeated_starts maxPlayers Hmax), startNewHand_deck.
  destruct (Reset_cards (GDeck (bothSeated maxPlayers)))
    as (cards & r' & -> & Hlen).
  exists cards, r'. split; [exact Hlen|].
  destruct (moveDealerButton _); reflexivity.
Qed.

(** Runs the hand on the 52 unknown cards of the shuffled deck. *)
Ltac on_shuffled_deck maxPlayers Hmax :=
  let cards := fresh "cards" in
  let Hlen := fresh "Hlen" in
  destruct (twoSeated_shuffled maxPlayers Hmax) as (cards & ? & Hlen & ->);
  do 52 (destruct cards as [|? cards]; [discriminate Hlen|]);
  clear Hlen.


(** C7.  Blinds 50/100, two players with 10000 chips each.  After the
    first join the table still waits; right after the second [AddPlayer]
    the phase is [PreFlop], the dealer (player2) is the small blind and
    has posted 50, player1 is the big blind and has posted 100, and the
    small blind is to act.  After the small blind calls and the big blind
    checks, the phase is [Flop], three community cards lie on the board,
    the pot is 200 and both current-street bets are 0 (each has 100 in
    the hand and 9900 behind). *)
Theorem heads_up_opening (maxPlayers : Z) :
  2 <= maxPlayers ->
  exists g1 g2 g3 g4,
    oneSeated maxPlayers = Some (None, g1) /\ Phase g1 = WaitingForPlayers /\
    twoSeated maxPlayers = Some (None, g2) /\ Phase g2 = PreFlop /\
    PlayerOrder g2 = ["player1"; "player2"] /\
    DealerPos g2 = 1%nat /\ SmallBlindPos g2 = 1%nat /\ BigBlindPos g2 = 0%nat /\
    betOn g2 "player1" = Some 100 /\ betOn g2 "player2" = Some 50 /\
    chipsOf g2 "player1" = Some 9900 /\ chipsOf g2 "player2" = Some 9950 /\
    Pot g2 = 150 /\ getCurrentPlayerID g2 = "player2"%string /\
    afterCall maxPlayers = Some (None, g3) /\ Phase g3 = PreFlop /\
    betOn g3 "player2" = Some 100 /\ chipsOf g3 "player2" = Some 9900 /\
    Pot g3 = 200 /\ getCurrentPlayerID g3 = "player1"%string /\
    afterCheck maxPlayers = Some (None, g4) /\ Phase g4 = Flop /\
    length (CommunityCards g4) = 3%nat /\ Pot g4 = 200 /\
    betOn g4 "player1" = Some 0 /\ betOn g4 "player2" = Some 0 /\
    handBetOf g4 "player1" = Some 100 /\ handBetOf g4 "player2" = Some 100 /\
    chipsOf g4 "player1" = Some 9900 /\ chipsOf g4 "player2" = Some 9900.
Proof.
  intros Hmax.
  unfold afterCheck, afterCall. on_shuffled_deck maxPlayers Hmax.
  split_max maxPlayers.
  all: eexists _, _, _, _.
  all: repeat (apply conj; [vm_compute; reflexivity|]); vm_compute; reflexivity.
Qed.

(** *** A street that ends after a single check *)

Definition flopCheck (maxPlayers : Z) : option (option string * Game) :=
  '(_, g) ← afterCheck maxPlayers; processAction g "player1" Check 0 t5.

Definition canActIn (g : Game) (id : string) : option bool :=
  CanAct <$> Players g !! id.

(** C4 (evaluation at the failing input).  Heads-up at 50/100, the
    pre-flop round is played out (call, check) and the flop is dealt.
    Both players can act and player1 is first.  Its check alone is
    recorded on the flop, and the game is on the turn: player2's
    [LastAction] is still the pre-flop call, which
    [isBettingRoundComplete] accepts as "has acted". *)
Theorem flop_round_ends_before_second_player_acts :
  exists gFlop gTurn,
    afterCheck 6 = Some (None, gFlop) /\ Phase gFlop = Flop /\
    canActIn gFlop "player1" = Some true /\ canActIn gFlop "player2" = Some true /\
    getCurrentPlayerID gFlop = "player1"%string /\
    LastAction <$> Players gFlop !! "player2" =
      Some (Some (mkAction "player2" Call 0 t3)) /\
    flopCheck 6 = Some (None, gTurn) /\ Phase gTurn = Turn /\
    Actions gTurn = Actions gFlop ++ [mkAction "player1" Check 0 t5] /\
    LastAction <$> Players gTurn !! "player2" =
      Some (Some (mkAction "player2" Call 0 t3)) /\
    length (CommunityCards gTurn) = 4%nat.
Proof.
  assert (Hmax : 2 <= 6) by lia.
  unfold flopCheck, afterCheck, afterCall. on_shuffled_deck 6 Hmax.
  eexists _, _.
  repeat (apply conj; [vm_compute; reflexivity|]); vm_compute; reflexivity.
Qed.

(** *** The minimum raise across streets *)

Definition afterRaise : option (option string * Game) :=
  '(_, g) ← twoSeated 6; processAction g "player2" Raise 500 t3.

Definition raiseCalled : option (option string * Game) :=
  '(_, g) ← afterRaise; processAction g "player1" Call 0 t4.

Definition flopBet : option (option string * Game) :=
  '(_, g) ← raiseCalled; processAction g "player1" Raise 100 t5.

(** C5 (evaluation at the failing input).  Heads-up at 50/100, the small
    blind raises by 500 and the big blind calls.  The game moves to the
    flop with three community cards, the street bets and the street-high
    bet back at 0 and the big blind first to act, but the minimum raise
    stays 500 instead of the big blind of 100; a bet of 100 on the flop
    is refused. *)
Theorem min_raise_survives_the_street :
  exists gFlop,
    raiseCalled = Some (None, gFlop) /\ Phase gFlop = Flop /\
    length (CommunityCards gFlop) = 3%nat /\
    betOn gFlop "player1" = Some 0 /\ betOn gFlop "player2" = Some 0 /\
    handBetOf gFlop "player1" = Some 600 /\ handBetOf gFlop "player2" = Some 600 /\
    LastRaise gFlop = 0 /\ getCurrentPlayerID gFlop = "player1"%string /\
    BigBlind gFlop = 100 /\ MinRaise gFlop = 500 /\
    flopBet = Some (Some "minimum raise is 500"%string, gFlop).
Proof.
  assert (Hmax : 2 <= 6) by lia.
  unfold flopBet, raiseCalled, afterRaise. on_shuffled_deck 6 Hmax.
  eexists.
  repeat (apply conj; [vm_compute; reflexivity|]); vm_compute; reflexivity.
Qed.

End HeadsUp.

Lemma heads_up_opening_witness :
  exists g1 g2,
    oneSeated (mkRng (fun _ => 0) 0) 0 1 ""%string ""%string ""%string 0 0 0 0 0 0 0 6
      = Some (None, g1) /\ Phase g1 = WaitingForPlayers /\
    twoSeated (mkRng (fun _ => 0) 0) 0 1 2 ""%string ""%string ""%string ""%string
      0 1 0 0 0 0 0 0 6 = Some (None, g2) /\ Phase g2 = PreFlop.
Proof.
  destruct (heads_up_opening (mkRng (fun _ => 0) 0) 0 1 2 3 4
              ""%string ""%string ""%string ""%string 0 1 0 0 0 0 0 0 6)
    as (g1 & g2 & g3 & g4 & H1 & H2 & H3 & H4 & _); [lia|].
  exists g1, g2. auto.
Defined.

(** *** Three stacks, two of them all-in for different amounts *)

Definition threeHandedConfig : GameConfig :=
  mkGameConfig 3 6 3 10000 50000 2000 50 100 0 0.

(** Stacks of 500, 2000 and 5000.  "middle" moves all-in for 2000, "deep"
    calls, "short" calls all-in for its 500; "deep" then checks the three
    remaining streets. *)
Definition allInBefore : option Game :=
  let g := NewGame "table" "three-handed" threeHandedConfig fixedRng 0 in
  '(_, g) ← AddPlayer g (NewPlayer "short" "A" 500 0) 1;
  '(_, g) ← AddPlayer g (NewPlayer "middle" "B" 2000 1) 2;
  '(_, g) ← AddPlayer g (NewPlayer "deep" "C" 5000 2) 3;
  '(_, g) ← processAction g "middle" AllIn 0 4;
  '(_, g) ← processAction g "deep" Call 0 5;
  '(_, g) ← processAction g "short" Call 0 6;
  '(_, g) ← processAction g "deep" Check 0 7;
  '(_, g) ← processAction g "deep" Check 0 8;
  Some g.

Definition allInSettled : option (option string * Game) :=
  g ← allInBefore; processAction g "deep" Check 0 9.

(** The all-in contributions of a hand, in seat order. *)
Definition allInContributions (g : Game) : list Z :=
  omap (fun id => p ← Players g !! id;
                  if IsAllIn p then Some (TotalBet p) else None)
       (PlayerOrder g).

(** C2 (evaluation at the failing input).  Before the last check the pot
    holds 4500: 500 from "short" and 2000 from each of the others, with
    "short" and "middle" all-in for the different amounts 500 and 2000.
    Settlement builds one pot of 4500 open to all three, and "short", who
    holds the best hand (sevens with a ten), is paid all of it: 3000 more
    than the 1500 that the three contributions up to its 500 add up to. *)
Theorem single_pot_pays_beyond_contribution :
  exists gRiver gEnd,
    allInBefore = Some gRiver /\ Phase gRiver = River /\ Pot gRiver = 4500 /\
    allInContributions gRiver = [500; 2000] /\
    handBetOf gRiver "short" = Some 500 /\
    handBetOf gRiver "middle" = Some 2000 /\
    handBetOf gRiver "deep" = Some 2000 /\
    chipsOf gRiver "short" = Some 0 /\ chipsOf gRiver "middle" = Some 0 /\
    chipsOf gRiver "deep" = Some 3000 /\
    allInSettled = Some (None, gEnd) /\ Phase gEnd = Showdown /\
    SidePots gEnd = [mkSidePot 4500 ["short"; "middle"; "deep"]] /\
    (HoleCards <$> Players gEnd !! "short") =
      Some [NewCard Seven Diamonds; NewCard Ten Hearts] /\
    (HoleCards <$> Players gEnd !! "middle") =
      Some [NewCard Seven Hearts; NewCard Four Hearts] /\
    (HoleCards <$> Players gEnd !! "deep") =
      Some [NewCard Three Diamonds; NewCard Five Hearts] /\
    CommunityCards gEnd =
      [NewCard Five Diamonds; NewCard Queen Hearts; NewCard Nine Hearts;
       NewCard Seven Spades; NewCard Eight Diamonds] /\
    chipsOf gEnd "short" = Some 4500 /\ chipsOf gEnd "middle" = Some 0 /\
    chipsOf gEnd "deep" = Some 3000 /\ Pot gEnd = 0.
Proof.
  eexists _, _.
  repeat (apply conj; [vm_compute; reflexivity|]); vm_compute; reflexivity.
Qed.

(** *** What a snapshot shows of the hole cards *)

(** The game with the hole cards of every player but [viewer] replaced,
    the new cards chosen freely per seat. *)
Definition redealOthers (f : string -> Player -> list Card) (viewer : string)
    (g : Game) : Game :=
  set_Players
    (map_imap (fun id p =>
                 Some (if bool_decide (id = viewer) then p
                       else set_HoleCards (f id p) p))
              (Players g)) g.

Lemma playerStateFor_other (viewer pid : string) (p : Player) (cards : list Card) :
  pid <> viewer ->
  playerStateFor viewer pid (set_HoleCards cards p) = playerStateFor viewer pid p.
Proof.
  intros Hne. unfold playerStateFor.
  rewrite bool_decide_eq_false_2 by exact Hne. reflexivity.
Qed.

(** C10.  For every game [g] (whatever its phase) and every viewer: the
    snapshot has one entry per seat, and the entry of every seat other
    than the viewer's carries no hole cards; replacing the hole cards of
    the other players by anything at all leaves the viewer's snapshot
    unchanged; and a snapshot is returned whenever every seated id has a
    player record. *)
Theorem snapshot_hides_other_hole_cards (g : Game) (viewer : string) :
  (forall s, GetGameState g viewer = Some s ->
     GS_Phase s = Phase g /\
     length (GS_Players s) = length (PlayerOrder g) /\
     forall (i : nat) pid ps,
       PlayerOrder g !! i = Some pid -> GS_Players s !! i = Some ps ->
       pid <> viewer -> PS_HoleCards ps = []) /\
  (forall f, GetGameState (redealOthers f viewer g) viewer = GetGameState g viewer) /\
  ((forall pid, pid ∈ PlayerOrder g -> is_Some (Players g !! pid)) ->
   is_Some (GetGameState g viewer)).
Proof.
  split; [|split].
  - intros s Hs. unfold GetGameState in Hs.
    destruct (mapM _ (PlayerOrder g)) as [entries|] eqn:Hm; simpl in Hs;
      [|discriminate].
    injection Hs as <-. simpl.
    apply mapM_Some in Hm.
    split; [reflexivity|].
    split; [symmetry; exact (Forall2_length _ _ _ Hm)|].
    intros i pid ps Hpid Hps Hne.
    destruct (Forall2_lookup_l _ _ _ _ _ Hm Hpid) as (ps' & Hps' & Hentry).
    rewrite Hps in Hps'. injection Hps' as <-.
    destruct (Players g !! pid) as [p|]; simpl in Hentry; [|discriminate].
    injection Hentry as <-. unfold playerStateFor. simpl.
    rewrite bool_decide_eq_false_2 by exact Hne. reflexivity.
  - intros f. unfold GetGameState, redealOthers. simpl.
    assert (Hentries :
      mapM (fun pid => player ← map_imap (fun id p =>
                           Some (if bool_decide (id = viewer) then p
                                 else set_HoleCards (f id p) p)) (Players g) !! pid;
                       Some (playerStateFor viewer pid player)) (PlayerOrder g)
      = mapM (fun pid => player ← Players g !! pid;
                         Some (playerStateFor viewer pid player)) (PlayerOrder g)).
    { apply mapM_ext. intros pid. rewrite map_lookup_imap.
      destruct (Players g !! pid) as [p|]; simpl; [|reflexivity].
      destruct (bool_decide (pid = viewer)) eqn:Hd; [reflexivity|].
      apply bool_decide_eq_false in Hd.
      rewrite playerStateFor_other by exact Hd. reflexivity. }
    rewrite Hentries. reflexivity.
  - intros Hseated. unfold GetGameState.
    assert (Hm : is_Some (mapM (fun pid => player ← Players g !! pid;
                                  Some (playerStateFor viewer pid player))
                               (PlayerOrder g))).
    { apply mapM_is_Some. apply Forall_forall. intros pid Hpid.
      destruct (Hseated pid Hpid) as [p Hp]. unfold compose. cbn beta. rewrite Hp. simpl. eauto. }
    destruct Hm as [entries Hm]. rewrite Hm. simpl. eauto.
Qed.

(** At the showdown of the three-handed hand above, seen by "deep". *)
Lemma snapshot_hides_other_hole_cards_witness :
  exists gEnd s,
    allInSettled = Some (None, gEnd) /\ Phase gEnd = Showdown /\
    GetGameState gEnd "deep" = Some s /\ GS_Phase s = Showdown /\
    (forall (i : nat) pid ps,
       PlayerOrder gEnd !! i = Some pid -> GS_Players s !! i = Some ps ->
       pid <> "deep"%string -> PS_HoleCards ps = []) /\
    GetGameState (redealOthers (fun _ _ => [NewCard Ace Spades]) "deep" gEnd) "deep"
      = Some s.
Proof.
  assert (Hend : exists gEnd, allInSettled = Some (None, gEnd) /\ Phase gEnd = Showdown
                              /\ is_Some (GetGameState gEnd "deep")).
  { eexists. split; [vm_compute; reflexivity|].
    split; [vm_compute; reflexivity|]. vm_compute. eauto. }
  destruct Hend as (gEnd & Hend & Hphase & s & Hs).
  destruct (snapshot_hides_other_hole_cards gEnd "deep") as (Hhide & Hsame & _).
  destruct (Hhide s Hs) as (Hph & _ & Hcards).
  exists gEnd, s. repeat (apply conj; try assumption).
  - congruence.
  - rewrite Hsame. exact Hs.
Defined.

(** *** The closed chip economy of a hand *)

(** Sums over the players of a table. *)
Definition sumOver {A : Type} (f : A -> Z) (m : gmap string A) : Z :=
  map_fold (fun _ x acc => f x + acc) 0 m.

Lemma sumOver_empty {A : Type} (f : A -> Z) : sumOver f ∅ = 0.
Proof. apply map_fold_empty. Qed.

Lemma sumOver_insert {A : Type} (f : A -> Z) (m : gmap string A) (i : string) (x : A) :
  m !! i = None -> sumOver f (<[i := x]> m) = f x + sumOver f m.
Proof.
  intros Hi. unfold sumOver.
  rewrite map_fold_insert_L; [reflexivity | intros; lia | exact Hi].
Qed.

Lemma sumOver_delete {A : Type} (f : A -> Z) (m : gmap string A) (i : string) (x : A) :
  m !! i = Some x -> sumOver f (delete i m) = sumOver f m - f x.
Proof.
  intros Hi. unfold sumOver.
  rewrite (map_fold_delete_L _ _ i x m); [lia | intros; lia | exact Hi].
Qed.

Lemma sumOver_alter {A : Type} (f : A -> Z) (h : A -> A) (m : gmap string A)
    (i : string) (x : A) :
  m !! i = Some x -> sumOver f (alter h i m) = sumOver f m - f x + f (h x).
Proof.
  intros Hi.
  assert (Halter : alter h i m = <[i := h x]> (delete i m)).
  { apply map_eq. intros j. destruct (decide (i = j)) as [->|Hne].
    - rewrite lookup_alter_eq, lookup_insert_eq, Hi. reflexivity.
    - rewrite lookup_alter_ne, lookup_insert_ne, lookup_delete_ne by exact Hne.
      reflexivity. }
  rewrite Halter, sumOver_insert by apply lookup_delete_eq.
  rewrite (sumOver_delete f m i x Hi). lia.
Qed.

Lemma sumOver_fmap {A B : Type} (f : B -> Z) (h : A -> B) (m : gmap string A) :
  sumOver f (h <$> m) = sumOver (fun x => f (h x)) m.
Proof. unfold sumOver. rewrite map_fold_fmap. reflexivity. Qed.

Lemma sumOver_ext {A : Type} (f g : A -> Z) (m : gmap string A) :
  (forall i x, m !! i = Some x -> f x = g x) -> sumOver f m = sumOver g m.
Proof.
  induction m as [|i x m Hi IH] using map_ind; intros Hfg.
  - rewrite !sumOver_empty. reflexivity.
  - rewrite !sumOver_insert by exact Hi.
    rewrite (Hfg i x) by apply lookup_insert_eq.
    rewrite IH; [reflexivity|].
    intros j y Hj. apply (Hfg j y).
    rewrite lookup_insert_ne; [exact Hj|]. congruence.
Qed.

Lemma sumOver_nonneg {A : Type} (f : A -> Z) (m : gmap string A) :
  (forall i x, m !! i = Some x -> 0 <= f x) -> 0 <= sumOver f m.
Proof.
  induction m as [|i x m Hi IH] using map_ind; intros Hpos.
  - rewrite sumOver_empty. lia.
  - rewrite sumOver_insert by exact Hi.
    pose proof (Hpos i x (lookup_insert_eq _ _ _)).
    assert (0 <= sumOver f m); [|lia].
    apply IH. intros j y Hj. apply (Hpos j y).
    rewrite lookup_insert_ne; [exact Hj|]. congruence.
Qed.

Lemma sumOver_zero {A : Type} (m : gmap string A) : sumOver (fun _ => 0) m = 0.
Proof.
  induction m as [|i x m Hi IH] using map_ind.
  - apply sumOver_empty.
  - rewrite sumOver_insert by exact Hi. lia.
Qed.

(** Within the 64-bit range the wrapped operations are the exact ones. *)
Lemma wrap_inRange (x : Z) : int64.inRange x -> int64.wrap x = x.
Proof.
  unfold int64.inRange, int64.MinInt64, int64.MaxInt64, int64.wrap. intros H.
  rewrite Z.mod_small by lia. lia.
Qed.

Lemma add_inRange (a b : Z) : int64.inRange (a + b) -> int64.add a b = a + b.
Proof. apply wrap_inRange. Qed.

Lemma sub_inRange (a b : Z) : int64.inRange (a - b) -> int64.sub a b = a - b.
Proof. apply wrap_inRange. Qed.

(** A bound on the chips of a table that keeps every sum of two amounts
    inside 64 bits: 2^61. *)
Definition limit : Z := 2305843009213693952.

Lemma limit_inRange (x : Z) : - (4 * limit) <= x < 4 * limit -> int64.inRange x.
Proof.
  unfold limit, int64.inRange, int64.MinInt64, int64.MaxInt64. lia.
Qed.

Lemma sumOver_member {A : Type} (f : A -> Z) (m : gmap string A) (i : string) (x : A) :
  (forall j y, m !! j = Some y -> 0 <= f y) -> m !! i = Some x -> f x <= sumOver f m.
Proof.
  intros Hpos Hi.
  assert (Hdel : 0 <= sumOver f (delete i m)).
  { apply sumOver_nonneg. intros j y Hj.
    apply lookup_delete_Some in Hj as [_ Hj]. eauto. }
  rewrite (sumOver_delete f m i x Hi) in Hdel. lia.
Qed.

(** The chips behind the players, and the bets of the current street. *)
Definition stacks (g : Game) : Z := sumOver ChipCount (Players g).
Definition streetBets (g : Game) : Z := sumOver CurrentBet (Players g).

(** Every chip of the table: the stacks and the pot. *)
Definition chipsInPlay (g : Game) : Z := stacks g + Pot g.

(** What the betting rules rely on while a hand is played: no negative
    stack or street bet, the pot covers the bets of the street, the
    street-high bet, the minimum raise and the blinds are not negative,
    and the chips of the table stay below [limit]. *)
Record Sound (g : Game) : Prop := mkSound {
  sound_players : forall id p, Players g !! id = Some p ->
                               0 <= ChipCount p /\ 0 <= CurrentBet p;
  sound_pot : streetBets g <= Pot g;
  sound_lastRaise : 0 <= LastRaise g <= 2 * limit;
  sound_minRaise : 0 <= MinRaise g;
  sound_small : 0 <= SmallBlind g;
  sound_big : 0 <= BigBlind g <= limit;
  sound_total : chipsInPlay g <= limit
}.

Lemma Sound_pot_nonneg (g : Game) : Sound g -> 0 <= Pot g.
Proof.
  intros [Hp Hpot _ _ _ _ _].
  assert (0 <= streetBets g); [|lia].
  apply sumOver_nonneg. intros i x Hx. apply (Hp i x Hx).
Qed.

Lemma Sound_bounds (g : Game) (id : string) (p : Player) :
  Sound g -> Players g !! id = Some p ->
  0 <= ChipCount p /\ 0 <= CurrentBet p <= Pot g /\
  ChipCount p + Pot g <= limit /\ Pot g <= limit.
Proof.
  intros Hs Hid. pose proof (Sound_pot_nonneg g Hs) as Hpot.
  destruct Hs as [Hp Hsb _ _ _ _ Htot].
  destruct (Hp id p Hid) as [Hc Hb].
  assert (Hle : ChipCount p <= stacks g).
  { apply (sumOver_member ChipCount _ id p); [|exact Hid].
    intros j y Hj. apply (Hp j y Hj). }
  assert (Hbe : CurrentBet p <= streetBets g).
  { apply (sumOver_member CurrentBet _ id p); [|exact Hid].
    intros j y Hj. apply (Hp j y Hj). }
  assert (0 <= stacks g).
  { apply sumOver_nonneg. intros j y Hj. apply (Hp j y Hj). }
  unfold chipsInPlay in Htot. lia.
Qed.

(** The part of the state the chip accounting depends on. *)
Record Ledger : Type := mkLedger {
  l_players : gmap string (Z * Z);
  l_pot : Z;
  l_lastRaise : Z;
  l_minRaise : Z;
  l_small : Z;
  l_big : Z;
  l_phase : GamePhase
}.

Definition account (p : Player) : Z * Z := (ChipCount p, CurrentBet p).

Definition ledger (g : Game) : Ledger :=
  mkLedger (account <$> Players g) (Pot g) (LastRaise g) (MinRaise g)
    (SmallBlind g) (BigBlind g) (Phase g).

Lemma ledger_Phase (g g' : Game) : ledger g' = ledger g -> Phase g' = Phase g.
Proof. intros H. change (Phase g') with (l_phase (ledger g')). rewrite H. reflexivity. Qed.

Lemma stacks_ledger (g : Game) : stacks g = sumOver fst (l_players (ledger g)).
Proof. unfold stacks, ledger. simpl. rewrite sumOver_fmap. reflexivity. Qed.

Lemma streetBets_ledger (g : Game) : streetBets g = sumOver snd (l_players (ledger g)).
Proof. unfold streetBets, ledger. simpl. rewrite sumOver_fmap. reflexivity. Qed.

Lemma ledger_chipsInPlay (g g' : Game) :
  ledger g' = ledger g -> chipsInPlay g' = chipsInPlay g.
Proof.
  intros H. unfold chipsInPlay. rewrite !stacks_ledger, H.
  change (Pot g') with (l_pot (ledger g')). rewrite H. reflexivity.
Qed.

Lemma ledger_Sound (g g' : Game) : ledger g' = ledger g -> Sound g -> Sound g'.
Proof.
  intros H [Hp Hpot Hlr Hmr Hsb Hbb Htot]. split.
  - intros id p' Hid.
    assert (Hacc : l_players (ledger g') !! id = Some (account p')).
    { unfold ledger. simpl. rewrite lookup_fmap, Hid. reflexivity. }
    rewrite H in Hacc. unfold ledger in Hacc. simpl in Hacc.
    rewrite lookup_fmap in Hacc.
    destruct (Players g !! id) as [p|] eqn:Hp'; [|discriminate].
    simpl in Hacc. injection Hacc as Hc Hb.
    destruct (Hp id p Hp'). lia.
  - rewrite streetBets_ledger, H, <- streetBets_ledger.
    change (Pot g') with (l_pot (ledger g')). rewrite H. exact Hpot.
  - change (LastRaise g') with (l_lastRaise (ledger g')). rewrite H. exact Hlr.
  - change (MinRaise g') with (l_minRaise (ledger g')). rewrite H. exact Hmr.
  - change (SmallBlind g') with (l_small (ledger g')). rewrite H. exact Hsb.
  - change (BigBlind g') with (l_big (ledger g')). rewrite H. exact Hbb.
  - rewrite (ledger_chipsInPlay _ _ H). exact Htot.
Qed.

(** A change of one player that leaves stack and street bet alone. *)
Lemma ledger_updatePlayer (g : Game) (id : string) (f : Player -> Player) :
  (forall p, account (f p) = account p) ->
  ledger (updatePlayer id f g) = ledger g.
Proof.
  intros Hf. unfold ledger, updatePlayer. simpl. f_equal.
  apply map_eq. intros j. rewrite !lookup_fmap.
  destruct (decide (id = j)) as [->|Hne].
  - rewrite lookup_alter_eq. destruct (Players g !! j); simpl; [|reflexivity].
    rewrite Hf. reflexivity.
  - rewrite lookup_alter_ne by exact Hne. reflexivity.
Qed.

Lemma nextActiveLoop_ledger (fuel : nat) : forall startPos g g',
  nextActiveLoop fuel startPos g = Some g' -> ledger g' = ledger g.
Proof.
  induction fuel as [|fuel IH]; intros startPos g g' H; simpl in H; [discriminate|].
  destruct (PlayerOrder g !! CurrentPlayer g) as [id|]; simpl in H; [|discriminate].
  destruct (match Players g !! id with Some player => CanAct player | None => false end).
  { injection H as <-. reflexivity. }
  destruct (modLen _ g) as [cur|]; simpl in H; [|discriminate].
  destruct (cur =? startPos)%nat.
  - injection H as <-. reflexivity.
  - apply IH in H. rewrite H. reflexivity.
Qed.

Lemma moveToNextActivePlayer_ledger (g g' : Game) :
  moveToNextActivePlayer g = Some g' -> ledger g' = ledger g.
Proof. apply nextActiveLoop_ledger. Qed.

Lemma moveToNextPlayer_ledger (g g' : Game) :
  moveToNextPlayer g = Some g' -> ledger g' = ledger g.
Proof.
  unfold moveToNextPlayer. intros H.
  destruct (modLen _ g) as [cur|]; simpl in H; [|discriminate].
  apply moveToNextActivePlayer_ledger in H. rewrite H. reflexivity.
Qed.

Lemma calculateSidePots_ledger (g g' : Game) :
  calculateSidePots g = Some g' -> ledger g' = ledger g.
Proof.
  unfold calculateSidePots. intros H.
  destruct (foldr _ _ _); simpl in H; [|discriminate].
  injection H as <-. reflexivity.
Qed.

Lemma calculateSidePots_pots (g g' : Game) :
  calculateSidePots g = Some g' ->
  exists eligible, SidePots g' = [mkSidePot (Pot g) eligible] /\
                   Players g' = Players g /\ PlayerOrder g' = PlayerOrder g /\
                   CommunityCards g' = CommunityCards g /\ Pot g' = Pot g.
Proof.
  unfold calculateSidePots. intros H.
  destruct (foldr _ _ _) as [eligible|]; simpl in H; [|discriminate].
  injection H as <-. exists eligible. repeat split.
Qed.

(** Peels the binds of a computation known to return. *)
Ltac peel H :=
  repeat (cbn [mbind option_bind] in H;
          match type of H with
          | mbind _ ?x = Some _ =>
              let E := fresh "E" in
              destruct x eqn:E; [|cbn [mbind option_bind] in H; discriminate H]
          | match ?x with Some _ => _ | None => None end = Some _ =>
              let E := fresh "E" in destruct x eqn:E; [|discriminate H]
          end);
  cbn [mbind option_bind] in H.

(** Dealing moves cards only. *)
Lemma dealCommunity_ledger (g : Game) : ledger (dealCommunity g) = ledger g.
Proof. reflexivity. Qed.

Lemma burn_ledger (g : Game) : ledger (burn g) = ledger g.
Proof. reflexivity. Qed.

Lemma dealPass_ledger (order : list string) : forall g g',
  dealPass order g = Some g' -> ledger g' = ledger g.
Proof.
  induction order as [|id rest IH]; intros g g' H; simpl in H.
  - injection H as <-. reflexivity.
  - destruct (Players g !! id) as [p|]; simpl in H; [|discriminate].
    destruct (IsActive p).
    + apply IH in H. rewrite H.
      rewrite ledger_updatePlayer by reflexivity. reflexivity.
    + apply IH in H. exact H.
Qed.

Lemma dealHoleCards_ledger (g g' : Game) :
  dealHoleCards g = Some g' -> ledger g' = ledger g.
Proof.
  unfold dealHoleCards. intros H.
  destruct (dealPass (PlayerOrder g) g) as [g1|] eqn:H1; simpl in H; [|discriminate].
  apply dealPass_ledger in H, H1. congruence.
Qed.

Lemma dealerLoop_ledger (n : nat) : forall g g',
  dealerLoop n g = Some g' -> ledger g' = ledger g.
Proof.
  induction n as [|n IH]; intros g g' H; simpl in H.
  - injection H as <-. reflexivity.
  - destruct (PlayerOrder g !! DealerPos g) as [id|]; simpl in H; [|discriminate].
    destruct (Players g !! id) as [p|]; simpl in H; [|discriminate].
    destruct (IsActive p); [injection H as <-; reflexivity|].
    destruct (modLen _ g); simpl in H; [|discriminate].
    apply IH in H. exact H.
Qed.

Lemma moveDealerButton_ledger (g g' : Game) :
  moveDealerButton g = Some g' -> ledger g' = ledger g.
Proof.
  unfold moveDealerButton. intros H.
  destruct (length (PlayerOrder g) <? 2)%nat; [injection H as <-; reflexivity|].
  destruct (modLen _ g); simpl in H; [|discriminate].
  destruct (dealerLoop _ _) as [g0|] eqn:E; simpl in H; [|discriminate].
  apply dealerLoop_ledger in E. simpl in E.
  destruct (length (PlayerOrder g0) =? 2)%nat; peel H; injection H as <-; exact E.
Qed.

(** One player's record changes: the sums move by the difference. *)
Lemma updatePlayer_sums (g : Game) (id : string) (p : Player) (f : Player -> Player) :
  Players g !! id = Some p ->
  stacks (updatePlayer id f g) = stacks g - ChipCount p + ChipCount (f p) /\
  streetBets (updatePlayer id f g) = streetBets g - CurrentBet p + CurrentBet (f p).
Proof.
  intros Hp. unfold stacks, streetBets, updatePlayer. simpl.
  rewrite !(sumOver_alter _ f _ id p Hp). split; reflexivity.
Qed.

Lemma updatePlayer_lookup (g : Game) (id j : string) (f : Player -> Player) (q : Player) :
  Players (updatePlayer id f g) !! j = Some q ->
  (j = id /\ exists p, Players g !! id = Some p /\ q = f p) \/
  (j <> id /\ Players g !! j = Some q).
Proof.
  unfold updatePlayer. simpl. intros H.
  destruct (decide (id = j)) as [->|Hne].
  - left. split; [reflexivity|]. rewrite lookup_alter_eq in H.
    destruct (Players g !! j) as [p|]; [|discriminate].
    injection H as <-. eauto.
  - right. rewrite lookup_alter_ne in H by exact Hne. split; [congruence | exact H].
Qed.

Lemma betOf_account (p : Player) (amount : Z) :
  amount <= ChipCount p ->
  int64.inRange (ChipCount p - amount) -> int64.inRange (CurrentBet p + amount) ->
  account (betOf amount p) = (ChipCount p - amount, CurrentBet p + amount).
Proof.
  intros Hle Hr1 Hr2. unfold betOf, Bet.
  destruct (Z.ltb_spec (ChipCount p) amount); [lia|].
  simpl. rewrite (sub_inRange _ _ Hr1), (add_inRange _ _ Hr2).
  destruct (ChipCount p - amount =? 0); reflexivity.
Qed.

Lemma Bet_ok (p p' : Player) (amount : Z) :
  Bet p amount = (None, p') -> amount <= ChipCount p /\ p' = betOf amount p.
Proof.
  intros H. unfold betOf. rewrite H. split; [|reflexivity].
  unfold Bet in H. destruct (Z.ltb_spec (ChipCount p) amount); [discriminate | lia].
Qed.

(** The wager of [amount] by one player, as every betting action and
    blind performs it: the chips leave the stack and enter the pot. *)
Definition wager (id : string) (amount : Z) (g : Game) : Game :=
  set_Pot (int64.add (Pot g) amount) (updatePlayer id (betOf amount) g).

Lemma wager_conserves (g : Game) (id : string) (p : Player) (amount : Z) :
  Sound g -> Players g !! id = Some p ->
  amount <= ChipCount p -> 0 <= CurrentBet p + amount ->
  chipsInPlay (wager id amount g) = chipsInPlay g /\ Sound (wager id amount g) /\
  (exists q, Players (wager id amount g) !! id = Some q /\
             CurrentBet q = CurrentBet p + amount).
Proof.
  intros Hs Hid Hle Hcb.
  destruct (Sound_bounds g id p Hs Hid) as (Hc0 & [Hb0 Hb1] & Hcp & Hpl).
  destruct Hs as [Hp Hpot Hlr Hmr Hsb Hbb Htot].
  destruct (updatePlayer_sums g id p (betOf amount) Hid) as [Hst Hsb'].
  assert (Hacc : account (betOf amount p)
                 = (ChipCount p - amount, CurrentBet p + amount)).
  { apply betOf_account; [exact Hle | |]; apply limit_inRange; unfold limit in *; lia. }
  injection Hacc as Hc Hb.
  assert (Hadd : int64.add (Pot g) amount = Pot g + amount).
  { apply add_inRange. apply limit_inRange. unfold limit in *. lia. }
  assert (Hchips : chipsInPlay (wager id amount g) = chipsInPlay g).
  { unfold chipsInPlay, wager. simpl Pot.
    change (stacks (set_Pot _ ?x)) with (stacks x). rewrite Hst, Hc, Hadd. lia. }
  split; [exact Hchips|]. split.
  - split; try assumption.
    + intros j q Hj. apply updatePlayer_lookup in Hj
        as [(-> & p0 & Hp0 & ->) | (Hne & Hj)].
      * rewrite Hid in Hp0. injection Hp0 as <-. rewrite Hc, Hb. lia.
      * apply (Hp j q Hj).
    + unfold wager. simpl Pot.
      change (streetBets (set_Pot _ ?x)) with (streetBets x).
      rewrite Hsb', Hb, Hadd. lia.
    + rewrite Hchips. exact Htot.
  - exists (betOf amount p). split; [|exact Hb].
    unfold wager, updatePlayer. simpl. rewrite lookup_alter_eq, Hid. reflexivity.
Qed.

(** **** Settlement *)

Definition NonNeg (g : Game) : Prop :=
  forall id p, Players g !! id = Some p -> 0 <= ChipCount p.

Lemma getActivePlayers_elem (g : Game) (id : string) (p : Player) :
  (id, p) ∈ getActivePlayers g ->
  id ∈ PlayerOrder g /\ Players g !! id = Some p /\ HasFolded p = false.
Proof.
  unfold getActivePlayers. rewrite list_elem_of_omap.
  intros (j & Hj & Hsome).
  destruct (Players g !! j) as [q|] eqn:Hq; [|discriminate].
  destruct (HasFolded q) eqn:Hf; [discriminate|].
  injection Hsome as <- <-. auto.
Qed.

Lemma winnersLoop_sub (community : list Card) (players : list (string * Player)) :
  forall best winners res,
    winnersLoop community players best winners = Some res ->
    forall w, w ∈ res -> w ∈ winners \/ w ∈ players.
Proof.
  induction players as [|[id p] rest IH]; intros best winners res H w Hw; simpl in H.
  - injection H as <-. left. exact Hw.
  - destruct (negb (length (HoleCards p) =? 2)%nat || negb (length community =? 5)%nat).
    { destruct (IH _ _ _ H w Hw); [left | right; right]; assumption. }
    destruct (GetBestHand _) as [[hand|]|]; simpl in H; try discriminate.
    destruct best as [b|].
    + destruct (0 <? CompareHands hand b).
      { destruct (IH _ _ _ H w Hw) as [Hin|Hin]; [|right; right; exact Hin].
        apply list_elem_of_singleton in Hin as ->. right. left. }
      destruct (CompareHands hand b =? 0).
      { destruct (IH _ _ _ H w Hw) as [Hin|Hin]; [|right; right; exact Hin].
        apply elem_of_app in Hin as [Hin|Hin]; [left; exact Hin|].
        apply list_elem_of_singleton in Hin as ->. right. left. }
      destruct (IH _ _ _ H w Hw); [left | right; right]; assumption.
    + destruct (IH _ _ _ H w Hw) as [Hin|Hin]; [|right; right; exact Hin].
      apply list_elem_of_singleton in Hin as ->. right. left.
Qed.

Lemma determineWinners_sub (g : Game) (players winners : list (string * Player)) :
  determineWinners g players = Some winners ->
  forall w, w ∈ winners -> w ∈ players.
Proof.
  unfold determineWinners. intros H w Hw.
  destruct (length players =? 1)%nat; [injection H as <-; exact Hw|].
  destruct (winnersLoop_sub _ _ _ _ _ H w Hw) as [Hin|Hin]; [inversion Hin | exact Hin].
Qed.

(** What [payWinners] hands out in all, to [n] winners from index [i]. *)
Fixpoint paidOut (potShare remainder : Z) (i n : nat) : Z :=
  match n with
  | O => 0
  | S n' =>
      (if Z.of_nat i <? remainder then potShare + 1 else potShare)
      + paidOut potShare remainder (S i) n'
  end.

Lemma paidOut_total (potShare remainder : Z) (n : nat) : forall i : nat,
  paidOut potShare remainder i n =
    Z.of_nat n * potShare + Z.max 0 (Z.min (remainder - Z.of_nat i) (Z.of_nat n)).
Proof.
  induction n as [|n IH]; intros i; simpl paidOut.
  - lia.
  - rewrite IH. destruct (Z.ltb_spec (Z.of_nat i) remainder); lia.
Qed.

Lemma paidOut_nonneg (potShare remainder : Z) (n : nat) : forall i : nat,
  0 <= potShare -> 0 <= paidOut potShare remainder i n.
Proof.
  induction n as [|n IH]; intros i Hs; simpl paidOut; [lia|].
  specialize (IH (S i) Hs). destruct (_ <? _); lia.
Qed.

(** A payout changes stacks only, and only upwards. *)
Definition topUp (p q : Player) : Prop :=
  exists c, q = set_ChipCount c p /\ ChipCount p <= c.

Definition toppedUp (m m' : gmap string Player) : Prop :=
  forall j, option_Forall2 topUp (m !! j) (m' !! j).

Lemma topUp_refl (p : Player) : topUp p p.
Proof. exists (ChipCount p). split; [destruct p; reflexivity | lia]. Qed.

Lemma toppedUp_refl (m : gmap string Player) : toppedUp m m.
Proof. intros j. destruct (m !! j); constructor. apply topUp_refl. Qed.

Lemma toppedUp_trans (m1 m2 m3 : gmap string Player) :
  toppedUp m1 m2 -> toppedUp m2 m3 -> toppedUp m1 m3.
Proof.
  intros H12 H23 j. specialize (H12 j). specialize (H23 j).
  destruct H12 as [p q (c & -> & Hc)|]; inversion H23 as [? r (c' & -> & Hc')|];
    subst; constructor.
  exists c'. split; [reflexivity | simpl in Hc'; lia].
Qed.

Lemma toppedUp_alter (m : gmap string Player) (id : string) (share : Z) :
  0 <= share ->
  (forall p, m !! id = Some p -> int64.inRange (ChipCount p + share)) ->
  toppedUp m (alter (addChips share) id m).
Proof.
  intros Hs Hr j. destruct (decide (id = j)) as [->|Hne].
  - rewrite lookup_alter_eq. destruct (m !! j) as [p|] eqn:Hp; constructor.
    exists (ChipCount p + share). split; [|lia].
    unfold addChips. rewrite add_inRange by (apply Hr; reflexivity). reflexivity.
  - rewrite lookup_alter_ne by exact Hne. destruct (m !! j); constructor.
    apply topUp_refl.
Qed.

Lemma toppedUp_lookup (m m' : gmap string Player) (j : string) (q : Player) :
  toppedUp m m' -> m' !! j = Some q ->
  exists p, m !! j = Some p /\ HasFolded p = HasFolded q /\
            Connected p = Connected q /\ ChipCount p <= ChipCount q.
Proof.
  intros H Hq. specialize (H j). rewrite Hq in H.
  inversion H as [p ? (c & -> & Hc) Hp|]; subst.
  exists p. simpl. auto.
Qed.

(** [payWinners] on the map of players. *)
Fixpoint payMap (potShare remainder : Z) (i : nat)
    (winners : list (string * Player)) (m : gmap string Player)
  : gmap string Player :=
  match winners with
  | [] => m
  | (id, _) :: rest =>
      let share :=
        if Z.of_nat i <? remainder then int64.add potShare 1 else potShare in
      payMap potShare remainder (S i) rest (alter (addChips share) id m)
  end.

Lemma payWinners_payMap (potShare remainder : Z) (winners : list (string * Player)) :
  forall (i : nat) (g : Game),
    payWinners potShare remainder i winners g
    = set_Players (payMap potShare remainder i winners (Players g)) g.
Proof.
  induction winners as [|[id p] rest IH]; intros i g; simpl.
  - destruct g; reflexivity.
  - rewrite IH. reflexivity.
Qed.

(** As long as the stacks and what is still to be paid stay below
    [limit], the payout adds exactly [paidOut] to the stacks. *)
Lemma payMap_pays (potShare remainder : Z) (winners : list (string * Player)) :
  0 <= potShare ->
  forall (i : nat) (m : gmap string Player),
    (forall id p, m !! id = Some p -> 0 <= ChipCount p) ->
    (forall id p, (id, p) ∈ winners -> is_Some (m !! id)) ->
    sumOver ChipCount m + paidOut potShare remainder i (length winners) <= limit ->
    toppedUp m (payMap potShare remainder i winners m) /\
    sumOver ChipCount (payMap potShare remainder i winners m)
    = sumOver ChipCount m + paidOut potShare remainder i (length winners).
Proof.
  intros Hs. induction winners as [|[id p] rest IH]; intros i m Hnn Hseated Hbudget.
  - simpl. split; [apply toppedUp_refl | lia].
  - simpl payMap. simpl length in *. simpl paidOut in *.
    destruct (Hseated id p) as [q Hq]; [left|].
    pose proof (paidOut_nonneg potShare remainder (length rest) (S i) Hs) as Hrest.
    pose proof (sumOver_member ChipCount m id q Hnn Hq) as Hqle.
    pose proof (Hnn id q Hq) as Hq0.
    assert (Hsum0 : 0 <= sumOver ChipCount m) by (apply sumOver_nonneg; exact Hnn).
    assert (Hplus : int64.add potShare 1 = potShare + 1).
    { apply add_inRange, limit_inRange.
      destruct (Z.of_nat i <? remainder); unfold limit in *; lia. }
    rewrite Hplus.
    set (share := if Z.of_nat i <? remainder then potShare + 1 else potShare) in *.
    assert (Hshare : 0 <= share) by (unfold share; destruct (_ <? _); lia).
    assert (Hup : toppedUp m (alter (addChips share) id m)).
    { apply toppedUp_alter; [exact Hshare|].
      intros p0 Hp0. rewrite Hq in Hp0. injection Hp0 as <-.
      apply limit_inRange. unfold limit in *. lia. }
    assert (Hsum : sumOver ChipCount (alter (addChips share) id m)
                   = sumOver ChipCount m + share).
    { rewrite (sumOver_alter _ _ _ id q Hq). unfold addChips. simpl.
      rewrite add_inRange; [lia|]. apply limit_inRange. unfold limit in *. lia. }
    destruct (IH (S i) (alter (addChips share) id m)) as [Hup' Hsum'].
    + intros j r Hr.
      destruct (toppedUp_lookup _ _ _ _ Hup Hr) as (r0 & Hr0 & _ & _ & Hle).
      pose proof (Hnn j r0 Hr0). lia.
    + intros id' p' Hin. destruct (decide (id = id')) as [->|Hne].
      * rewrite lookup_alter_eq, Hq. simpl. eauto.
      * rewrite lookup_alter_ne by exact Hne. apply (Hseated id' p'). right. exact Hin.
    + rewrite Hsum. lia.
    + split; [eapply toppedUp_trans; eassumption|].
      rewrite Hsum', Hsum. lia.
Qed.

(** [distributePots] on the single pot built by [calculateSidePots]:
    nothing happens when everybody has folded, otherwise exactly the pot
    is added to the stacks and the pot is emptied. *)
Lemma distributePots_pays (g g' : Game) (eligible : list string) :
  NonNeg g -> 0 <= Pot g -> chipsInPlay g <= limit ->
  SidePots g = [mkSidePot (Pot g) eligible] ->
  distributePots g = Some g' ->
  (getActivePlayers g = [] /\ g' = g) \/
  (exists m', g' = set_Pot 0 (set_Players m' g) /\ toppedUp (Players g) m' /\
              sumOver ChipCount m' = stacks g + Pot g).
Proof.
  intros Hnn Hpot Htot Hpots H. unfold distributePots in H.
  unfold chipsInPlay in Htot.
  assert (Hst0 : 0 <= stacks g) by (apply sumOver_nonneg; exact Hnn).
  destruct (getActivePlayers g) as [|[id p] [|second rest]] eqn:Hactive.
  - left. split; [reflexivity | congruence].
  - right. injection H as <-.
    destruct (getActivePlayers_elem g id p) as (_ & Hp & _);
      [rewrite Hactive; left|].
    pose proof (sumOver_member ChipCount _ id p Hnn Hp) as Hple.
    pose proof (Hnn id p Hp) as Hp0. fold (stacks g) in Hple.
    exists (alter (addChips (Pot g)) id (Players g)).
    split; [reflexivity|]. split.
    + apply toppedUp_alter; [exact Hpot|].
      intros p0 Hp0'. rewrite Hp in Hp0'. injection Hp0' as <-.
      apply limit_inRange. unfold limit in *. lia.
    + rewrite (sumOver_alter _ _ _ id p Hp). unfold stacks, addChips. simpl.
      rewrite add_inRange; [lia|]. apply limit_inRange. unfold limit in *. lia.
  - right.
    destruct (determineWinners g _) as [winners|] eqn:Hw; simpl in H; [|discriminate].
    rewrite Hpots in H. cbn [paySidePots Amount] in H.
    destruct (length winners =? 0)%nat eqn:Hn; [discriminate|].
    apply Nat.eqb_neq in Hn.
    injection H as <-. rewrite payWinners_payMap.
    set (n := Z.of_nat (length winners)) in *.
    assert (Hnpos : 0 < n) by (unfold n; lia).
    pose proof (Z.quot_rem' (Pot g) n) as Hqr.
    pose proof (Z.rem_bound_pos (Pot g) n Hpot Hnpos) as Hrem.
    assert (Hquot : 0 <= Z.quot (Pot g) n) by (apply Z.quot_pos; lia).
    assert (Hpaid : paidOut (Z.quot (Pot g) n) (Z.rem (Pot g) n) 0 (length winners)
                    = Pot g).
    { rewrite paidOut_total. fold n. lia. }
    destruct (payMap_pays (Z.quot (Pot g) n) (Z.rem (Pot g) n) winners Hquot
                0%nat (Players g)) as [Hup Hsum].
    + exact Hnn.
    + intros id' p' Hin.
      apply (determineWinners_sub _ _ _ Hw) in Hin.
      rewrite <- Hactive in Hin.
      destruct (getActivePlayers_elem g id' p' Hin) as (_ & Hp' & _). eauto.
    + rewrite Hpaid. exact Htot.
    + exists (payMap (Z.quot (Pot g) n) (Z.rem (Pot g) n) 0 winners (Players g)).
      split; [reflexivity|]. split; [exact Hup|].
      rewrite Hsum, Hpaid. reflexivity.
Qed.

(** [removeEliminatedPlayers] takes away seats, never chips. *)
Lemma removeLoop_keeps (n : nat) : forall g g',
  NonNeg g -> removeLoop n g = Some g' ->
  stacks g' = stacks g /\ Pot g' = Pot g /\ MinPlayers g' = MinPlayers g /\
  Phase g' = Phase g /\
  (forall j q, Players g' !! j = Some q -> Players g !! j = Some q) /\
  (forall j, j ∈ PlayerOrder g' -> j ∈ PlayerOrder g).
Proof.
  induction n as [|i IH]; intros g g' Hnn H; simpl in H.
  - injection H as <-. repeat split; auto.
  - destruct (PlayerOrder g !! i) as [id|] eqn:Hid; simpl in H; [|discriminate].
    destruct (Players g !! id) as [p|] eqn:Hp; simpl in H; [|discriminate].
    destruct ((ChipCount p <=? 0) && negb (Connected p)) eqn:Hgone.
    + apply andb_true_iff in Hgone as [Hzero _]. apply Z.leb_le in Hzero.
      pose proof (Hnn id p Hp) as Hpos.
      apply IH in H.
      * destruct H as (Hst & Hpot & Hmin & Hph & Hsub & Hord). simpl in *.
        split. { rewrite Hst. unfold stacks. simpl.
                 rewrite (sumOver_delete _ _ id p Hp). lia. }
        repeat split; try assumption.
        -- intros j q Hq. apply Hsub in Hq.
           apply lookup_delete_Some in Hq as [_ Hq]. exact Hq.
        -- intros j Hj. apply Hord in Hj.
           apply list_elem_of_lookup in Hj as [k Hk].
           destruct (decide (k < i)%nat).
           ++ rewrite list_lookup_delete_lt in Hk by assumption.
              apply list_elem_of_lookup. eauto.
           ++ rewrite list_lookup_delete_ge in Hk by lia.
              apply list_elem_of_lookup. eauto.
      * intros j q Hq. simpl in Hq.
        apply lookup_delete_Some in Hq as [_ Hq]. apply (Hnn j q Hq).
    + apply IH in H; assumption.
Qed.

Lemma getActivePlayers_intro (g : Game) (id : string) (p : Player) :
  id ∈ PlayerOrder g -> Players g !! id = Some p -> HasFolded p = false ->
  (id, p) ∈ getActivePlayers g.
Proof.
  intros Hin Hp Hf. unfold getActivePlayers. apply list_elem_of_omap.
  exists id. split; [exact Hin|]. rewrite Hp, Hf. reflexivity.
Qed.

Definition settled (ph : GamePhase) : Prop := ph = Showdown \/ ph = GameOver.

Lemma NonNeg_Sound (g : Game) : Sound g -> NonNeg g.
Proof. intros [Hp _ _ _ _ _] id p Hid. apply (Hp id p Hid). Qed.

(** Settlement pays the pot out and keeps every chip. *)
Lemma endHand_conserves (g g' : Game) :
  NonNeg g -> 0 <= Pot g -> chipsInPlay g <= limit -> endHand g = Some g' ->
  chipsInPlay g' = chipsInPlay g /\ settled (Phase g') /\
  (getActivePlayers g' <> [] -> Pot g' = 0).
Proof.
  intros Hnn Hpot Htot H. unfold endHand in H.
  destruct (calculateSidePots (set_Phase Showdown g)) as [g1|] eqn:H1;
    simpl in H; [|discriminate].
  destruct (distributePots g1) as [g2|] eqn:H2; simpl in H; [|discriminate].
  destruct (removeEliminatedPlayers g2) as [g3|] eqn:H3; simpl in H; [|discriminate].
  destruct (calculateSidePots_pots _ _ H1)
    as (eligible & Hpots & Hpl & Hord & _ & Hpot1).
  simpl in Hpl, Hord, Hpot1, Hpots. rewrite <- Hpot1 in Hpots.
  assert (Hnn1 : NonNeg g1) by (intros id p Hid; rewrite Hpl in Hid; eauto).
  assert (Hst1 : stacks g1 = stacks g) by (unfold stacks; rewrite Hpl; reflexivity).
  assert (Hactive1 : getActivePlayers g1 = getActivePlayers g).
  { unfold getActivePlayers. rewrite Hpl, Hord. reflexivity. }
  assert (Htot1 : chipsInPlay g1 <= limit).
  { unfold chipsInPlay in *. lia. }
  assert (Hpaid : chipsInPlay g2 = chipsInPlay g /\ NonNeg g2 /\
                  (getActivePlayers g1 <> [] -> Pot g2 = 0) /\
                  (forall j q, Players g2 !! j = Some q ->
                     exists p, Players g1 !! j = Some p /\ HasFolded p = HasFolded q) /\
                  PlayerOrder g2 = PlayerOrder g1).
  { destruct (distributePots_pays g1 g2 eligible) as [[Hnone ->] | (m' & -> & Hup & Hsum)];
      try assumption; [lia| |].
    - repeat split; try assumption; try congruence.
      + unfold chipsInPlay. lia.
      + intros j q Hq. eauto.
    - repeat split.
      + unfold chipsInPlay, stacks in *. simpl. lia.
      + intros id q Hq. simpl in Hq.
        destruct (toppedUp_lookup _ _ _ _ Hup Hq) as (p & Hp & _ & _ & Hle).
        pose proof (Hnn1 id p Hp). lia.
      + intros j q Hq. simpl in Hq.
        destruct (toppedUp_lookup _ _ _ _ Hup Hq) as (p & Hp & Hf & _). eauto. }
  destruct Hpaid as (Hchips & Hnn2 & Hzero & Hback & Hord2).
  destruct (removeLoop_keeps _ _ _ Hnn2 H3) as (Hst3 & Hpot3 & Hmin3 & Hph3 & Hsub & Hordsub).
  assert (Hconserved : chipsInPlay g3 = chipsInPlay g).
  { rewrite <- Hchips. unfold chipsInPlay. lia. }
  assert (Hempty : getActivePlayers g3 <> [] -> Pot g3 = 0).
  { intros Hne. rewrite Hpot3. apply Hzero. intros Hnone. apply Hne.
    destruct (getActivePlayers g3) as [|[id q] rest] eqn:H3a; [reflexivity|].
    exfalso.
    destruct (getActivePlayers_elem g3 id q) as (Hin & Hq & Hf); [rewrite H3a; left|].
    apply Hsub in Hq. apply Hordsub in Hin. rewrite Hord2 in Hin.
    destruct (Hback _ _ Hq) as (p & Hp & Hfp).
    pose proof (getActivePlayers_intro g1 id p Hin Hp ltac:(congruence)) as Hact.
    rewrite Hnone in Hact. inversion Hact. }
  assert (Hphase3 : Phase g3 = Showdown).
  { rewrite Hph3.
    destruct (distributePots_pays g1 g2 eligible) as [[_ ->] | (m' & -> & _)];
      try assumption; [lia| |]; simpl.
    - unfold calculateSidePots in H1. peel H1. injection H1 as <-. reflexivity.
    - unfold calculateSidePots in H1. peel H1. injection H1 as <-. reflexivity. }
  destruct (Z.of_nat (length (getActivePlayers g3)) <? MinPlayers g3);
    injection H as <-.
  - split; [exact Hconserved|]. split; [right; reflexivity|]. exact Hempty.
  - split; [exact Hconserved|]. split; [left; exact Hphase3|]. exact Hempty.
Qed.

(** **** Streets and actions *)

(** The state of a hand in progress or just settled, with [total] chips on
    the table: while the hand runs the betting invariant holds; once it is
    settled the pot is empty unless nobody was left to take it. *)
Definition Good (total : Z) (g : Game) : Prop :=
  chipsInPlay g = total /\
  ((Sound g /\ ~ settled (Phase g)) \/
   (settled (Phase g) /\ (getActivePlayers g <> [] -> Pot g = 0))).

Lemma Good_ledger (total : Z) (g g' : Game) :
  ledger g' = ledger g -> Sound g -> ~ settled (Phase g) ->
  chipsInPlay g = total -> Good total g'.
Proof.
  intros Hl Hs Hns Hc. split.
  - rewrite (ledger_chipsInPlay _ _ Hl). exact Hc.
  - left. split; [exact (ledger_Sound _ _ Hl Hs)|].
    rewrite (ledger_Phase _ _ Hl). exact Hns.
Qed.

Lemma Good_unchanged (g : Game) :
  Sound g -> ~ settled (Phase g) -> Good (chipsInPlay g) g.
Proof. intros Hs Hns. split; [reflexivity | left; split; assumption]. Qed.

Lemma clearBets_Sound (g : Game) :
  Sound g ->
  Sound (set_LastRaise 0 (forAllPlayers (set_CurrentBet 0) g)) /\
  chipsInPlay (set_LastRaise 0 (forAllPlayers (set_CurrentBet 0) g)) = chipsInPlay g.
Proof.
  intros Hs. pose proof (Sound_pot_nonneg g Hs) as Hpot.
  destruct Hs as [Hp Hsb Hlr Hmr Hsm Hbg Htot].
  assert (Hc : chipsInPlay (set_LastRaise 0 (forAllPlayers (set_CurrentBet 0) g))
               = chipsInPlay g).
  { unfold chipsInPlay, stacks, forAllPlayers. simpl. rewrite sumOver_fmap.
    reflexivity. }
  split; [|exact Hc].
  split; try (simpl; assumption).
  - intros id q Hq. simpl in Hq. rewrite lookup_fmap in Hq.
    destruct (Players g !! id) as [p|] eqn:Hp'; [|discriminate].
    injection Hq as <-. simpl. destruct (Hp id p Hp'). lia.
  - unfold streetBets, forAllPlayers. simpl. rewrite sumOver_fmap. simpl.
    rewrite sumOver_zero. exact Hpot.
  - simpl. unfold limit. lia.
  - rewrite Hc. exact Htot.
Qed.

Lemma toNextSeat_good (total : Z) (start : nat) (gd g' : Game) :
  Sound gd -> ~ settled (Phase gd) -> chipsInPlay gd = total ->
  (cur ← modLen start gd; moveToNextActivePlayer (set_CurrentPlayer cur gd)) = Some g' ->
  Good total g'.
Proof.
  intros Hs Hns Hc H. peel H.
  apply moveToNextActivePlayer_ledger in H.
  apply (Good_ledger total gd g'); assumption.
Qed.

Ltac not_settled :=
  let Hx := fresh "Hx" in intros [Hx|Hx]; simpl in Hx; congruence.

Lemma advancePhase_good (g g' : Game) :
  Sound g -> ~ settled (Phase g) -> advancePhase g = Some g' ->
  Good (chipsInPlay g) g'.
Proof.
  intros Hs Hns H. unfold advancePhase in H.
  destruct (clearBets_Sound g Hs) as [Hs0 Hc0].
  set (g0 := set_LastRaise 0 (forAllPlayers (set_CurrentBet 0) g)) in *.
  rewrite <- Hc0.
  change (Phase g0) with (Phase g) in H.
  destruct (Phase g) eqn:Hph.
  - eapply (toNextSeat_good _ _ g0 g'); [exact Hs0 | | reflexivity | exact H].
    change (Phase g0) with (Phase g). rewrite Hph. not_settled.
  - eapply (toNextSeat_good _ _ (set_Phase Flop (dealFlop g0)) g');
      [destruct Hs0; split; assumption | not_settled | reflexivity | exact H].
  - eapply (toNextSeat_good _ _ (set_Phase Turn (dealTurn g0)) g');
      [destruct Hs0; split; assumption | not_settled | reflexivity | exact H].
  - eapply (toNextSeat_good _ _ (set_Phase River (dealRiver g0)) g');
      [destruct Hs0; split; assumption | not_settled | reflexivity | exact H].
  - destruct (endHand_conserves (set_Phase Showdown g0) g') as (Hc & Hset & Hpot);
      [exact (NonNeg_Sound _ Hs0) | exact (Sound_pot_nonneg _ Hs0)
      | exact (sound_total _ Hs0) | exact H |].
    split; [exact Hc | right; split; assumption].
  - exfalso. apply Hns. left. reflexivity.
  - exfalso. apply Hns. right. reflexivity.
Qed.

Lemma advanceGame_good (g g' : Game) :
  Sound g -> ~ settled (Phase g) -> advanceGame g = Some g' ->
  Good (chipsInPlay g) g'.
Proof.
  intros Hs Hns H. unfold advanceGame in H.
  destruct (length (getActivePlayers g) <=? 1)%nat.
  { destruct (endHand_conserves g g') as (Hc & Hset & Hpot);
      [exact (NonNeg_Sound _ Hs) | exact (Sound_pot_nonneg _ Hs)
      | exact (sound_total _ Hs) | exact H |].
    split; [exact Hc | right; split; assumption]. }
  destruct (isBettingRoundComplete g).
  { apply advancePhase_good; assumption. }
  apply moveToNextPlayer_ledger in H.
  apply (Good_ledger _ g g'); auto.
Qed.

(** The bookkeeping after the switch of [processAction]. *)
Definition recorded (playerID : string) (record : Action) (now : Z) (g : Game) : Game :=
  set_LastActivity now
    (set_Actions (Actions g ++ [record])
       (updatePlayer playerID (set_LastAction (Some record)) g)).

Lemma recorded_ledger (playerID : string) (record : Action) (now : Z) (g : Game) :
  ledger (recorded playerID record now g) = ledger g.
Proof.
  unfold recorded.
  change (ledger (updatePlayer playerID (set_LastAction (Some record)) g) = ledger g).
  apply ledger_updatePlayer. reflexivity.
Qed.

Lemma recorded_then_good (playerID : string) (record : Action) (now : Z)
    (total : Z) (g g' : Game) :
  Sound g -> ~ settled (Phase g) -> chipsInPlay g = total ->
  advanceGame (recorded playerID record now g) = Some g' ->
  Good total g'.
Proof.
  intros Hs Hns Hc H.
  pose proof (recorded_ledger playerID record now g) as Hl.
  rewrite <- Hc, <- (ledger_chipsInPlay _ _ Hl).
  apply advanceGame_good; [exact (ledger_Sound _ _ Hl Hs) | | exact H].
  rewrite (ledger_Phase _ _ Hl). exact Hns.
Qed.

Lemma processAction_good (g g' : Game) (playerID : string) (action : PlayerAction)
    (amount now : Z) (err : option string) :
  Sound g -> ~ settled (Phase g) -> amount <= limit ->
  processAction g playerID action amount now = Some (err, g') ->
  Good (chipsInPlay g) g'.
Proof.
  intros Hs Hns Hamount H. unfold processAction in H.
  pose proof (Good_unchanged g Hs Hns) as Hsame.
  destruct (bool_decide (Phase g = WaitingForPlayers) || bool_decide (Phase g = GameOver));
    [injection H as _ <-; exact Hsame|].
  destruct (negb (bool_decide (playerID = getCurrentPlayerID g)));
    [injection H as _ <-; exact Hsame|].
  destruct (Players g !! playerID) as [player|] eqn:Hplayer;
    [|injection H as _ <-; exact Hsame].
  destruct (negb (CanAct player)); [injection H as _ <-; exact Hsame|].
  destruct (Sound_bounds g playerID player Hs Hplayer) as (Hchips & [Hbet Hbet'] & Hcp & Hpl).
  pose proof (sound_lastRaise g Hs) as Hlr.
  pose proof (sound_minRaise g Hs) as Hmr.
  destruct action.
  - (* Fold *)
    peel H. injection H as _ <-.
    eapply (recorded_then_good _ _ _ _ (updatePlayer playerID Player_Fold g));
      [| |  | exact E].
    + apply (ledger_Sound g); [|exact Hs]. apply ledger_updatePlayer. reflexivity.
    + exact Hns.
    + apply ledger_chipsInPlay. apply ledger_updatePlayer. reflexivity.
  - (* Check *)
    destruct (CurrentBet player <? LastRaise g); [injection H as _ <-; exact Hsame|].
    peel H. injection H as _ <-.
    eapply recorded_then_good; [exact Hs | exact Hns | reflexivity | exact E].
  - (* Call *)
    rewrite (sub_inRange (LastRaise g) (CurrentBet player)) in H
      by (apply limit_inRange; unfold limit in *; lia).
    destruct (ChipCount player <? LastRaise g - CurrentBet player) eqn:Hshort.
    + destruct (Bet player (ChipCount player)) as [[e|] p'] eqn:Hb;
        [injection H as _ <-; exact Hsame|].
      apply Bet_ok in Hb as [Hle _].
      destruct (wager_conserves g playerID player (ChipCount player))
        as (Hc & Hs' & _); try assumption; [lia|].
      peel H. injection H as _ <-.
      eapply (recorded_then_good _ _ _ _ (wager playerID (ChipCount player) g));
        [exact Hs' | exact Hns | exact Hc | exact E].
    + apply Z.ltb_ge in Hshort.
      destruct (Bet player (LastRaise g - CurrentBet player)) as [[e|] p'] eqn:Hb;
        [injection H as _ <-; exact Hsame|].
      apply Bet_ok in Hb as [Hle _].
      destruct (wager_conserves g playerID player (LastRaise g - CurrentBet player))
        as (Hc & Hs' & _); try assumption; [lia|].
      peel H. injection H as _ <-.
      eapply (recorded_then_good _ _ _ _
                (wager playerID (LastRaise g - CurrentBet player) g));
        [exact Hs' | exact Hns | exact Hc | exact E].
  - (* Raise *)
    destruct (Z.ltb_spec amount (MinRaise g)); [injection H as _ <-; exact Hsame|].
    rewrite (add_inRange (LastRaise g) amount) in H
      by (apply limit_inRange; unfold limit in *; lia).
    rewrite (sub_inRange (LastRaise g + amount) (CurrentBet player)) in H
      by (apply limit_inRange; unfold limit in *; lia).
    destruct (ChipCount player <? LastRaise g + amount - CurrentBet player);
      [injection H as _ <-; exact Hsame|].
    destruct (Bet player (LastRaise g + amount - CurrentBet player))
      as [[e|] p'] eqn:Hb; [injection H as _ <-; exact Hsame|].
    apply Bet_ok in Hb as [Hle _].
    destruct (wager_conserves g playerID player (LastRaise g + amount - CurrentBet player))
      as (Hc & Hs' & _); try assumption; [lia|].
    peel H. injection H as _ <-.
    eapply (recorded_then_good _ _ _ _
              (set_MinRaise amount
                 (set_LastRaise (LastRaise g + amount)
                    (wager playerID (LastRaise g + amount - CurrentBet player) g))));
      [ | exact Hns | exact Hc | exact E].
    destruct Hs' as [Hp' Hpot' _ _ Hsm' Hbg' Htot'].
    split; simpl; try assumption; unfold limit in *; lia.
  - (* AllIn *)
    destruct (Bet player (ChipCount player)) as [[e|] p'] eqn:Hb;
      [injection H as _ <-; exact Hsame|].
    apply Bet_ok in Hb as [Hle ->].
    destruct (wager_conserves g playerID player (ChipCount player))
      as (Hc & Hs' & _); try assumption; [lia|].
    assert (Hacc : account (betOf (ChipCount player) player)
                   = (ChipCount player - ChipCount player,
                      CurrentBet player + ChipCount player)).
    { apply betOf_account; [lia | |]; apply limit_inRange; unfold limit in *; lia. }
    injection Hacc as _ Hcb.
    match type of H with
    | context [if ?c then _ else _] => destruct c eqn:Hhigh
    end; peel H; injection H as _ <-.
    + eapply (recorded_then_good _ _ _ _
                (set_LastRaise (CurrentBet (betOf (ChipCount player) player))
                   (wager playerID (ChipCount player) g)));
        [ | exact Hns | exact Hc | exact E].
      destruct Hs' as [Hp' Hpot' _ Hmr' Hsm' Hbg' Htot'].
      split; simpl; try assumption. rewrite Hcb. unfold limit in *. lia.
    + eapply (recorded_then_good _ _ _ _ (wager playerID (ChipCount player) g));
        [exact Hs' | exact Hns | exact Hc | exact E].
Qed.

Lemma RemovePlayer_good (g g' : Game) (playerID : string) (now : Z)
    (err : option string) :
  Sound g -> ~ settled (Phase g) ->
  RemovePlayer g playerID now = Some (err, g') ->
  Good (chipsInPlay g) g'.
Proof.
  intros Hs Hns H. unfold RemovePlayer in H.
  destruct (Players g !! playerID) as [player|];
    [|injection H as _ <-; apply Good_unchanged; assumption].
  set (gone := updatePlayer playerID
                 (fun p => set_IsActive false (set_Connected false p)) g) in *.
  assert (Hl : ledger gone = ledger g) by (apply ledger_updatePlayer; reflexivity).
  pose proof (ledger_Sound _ _ Hl Hs) as Hs1.
  assert (Hns1 : ~ settled (Phase gone)) by (rewrite (ledger_Phase _ _ Hl); exact Hns).
  rewrite <- (ledger_chipsInPlay _ _ Hl).
  destruct (bool_decide (getCurrentPlayerID gone = playerID)
            && negb (bool_decide (Phase gone = WaitingForPlayers))).
  - destruct (processAction gone playerID Fold 0 now) as [[e g1]|] eqn:Hfold;
      simpl in H; [|discriminate].
    injection H as _ <-.
    assert (H0 : 0 <= limit) by (unfold limit; lia).
    destruct (processAction_good _ _ _ _ _ _ _ Hs1 Hns1 H0 Hfold) as [Hc Hcases].
    split; [exact Hc|].
    destruct Hcases as [[Hs2 Hns2] | [Hset Hpot]].
    + left. split; [destruct Hs2; split; assumption | exact Hns2].
    + right. split; [exact Hset | exact Hpot].
  - simpl in H. injection H as _ <-.
    split; [reflexivity|]. left.
    split; [destruct Hs1; split; assumption | exact Hns1].
Qed.

(** **** The start of a hand *)

Lemma prepare_Sound (g : Game) :
  NonNeg g -> stacks g <= limit -> 0 <= SmallBlind g -> 0 <= BigBlind g <= limit ->
  Sound (prepare g) /\ chipsInPlay (prepare g) = stacks g /\
  Phase (prepare g) = PreFlop.
Proof.
  intros Hnn Hlim Hsm Hbg.
  assert (Hc : chipsInPlay (prepare g) = stacks g).
  { unfold chipsInPlay, stacks, prepare, forAllPlayers. simpl.
    rewrite sumOver_fmap.
    rewrite (sumOver_ext _ ChipCount); [lia | intros; reflexivity]. }
  split; [|split; [exact Hc | reflexivity]].
  split; try (simpl; assumption).
  - intros id q Hq. simpl in Hq. rewrite lookup_fmap in Hq.
    destruct (Players g !! id) as [p|] eqn:Hp; [|discriminate].
    injection Hq as <-. simpl. pose proof (Hnn id p Hp). lia.
  - unfold streetBets, prepare, forAllPlayers. simpl. rewrite sumOver_fmap. simpl.
    rewrite sumOver_zero. lia.
  - simpl. unfold limit in *. lia.
  - simpl. lia.
  - rewrite Hc. exact Hlim.
Qed.

Ltac fold_wager H :=
  repeat match type of H with
  | context [set_Pot (int64.add (Pot (updatePlayer ?id (betOf ?a) ?x)) ?a)
               (updatePlayer ?id (betOf ?a) ?x)] =>
      change (set_Pot (int64.add (Pot (updatePlayer id (betOf a) x)) a)
                (updatePlayer id (betOf a) x))
        with (wager id a x) in H
  end.

Lemma postBlinds_wagers (g g' : Game) :
  Sound g -> postBlinds g = Some g' ->
  Sound g' /\ chipsInPlay g' = chipsInPlay g /\ Phase g' = Phase g.
Proof.
  intros Hs H. unfold postBlinds in H.
  destruct (PlayerOrder g !! SmallBlindPos g) as [sbID|]; [|discriminate].
  destruct (PlayerOrder g !! BigBlindPos g) as [bbID|]; [|discriminate].
  cbn [mbind option_bind] in H.
  destruct (Players g !! sbID) as [sb|] eqn:Hsb; [|discriminate].
  destruct (Players g !! bbID) as [bb0|] eqn:Hbb0; [|discriminate].
  cbn [mbind option_bind] in H.
  fold_wager H.
  destruct (sound_players g Hs sbID sb Hsb) as [Hc1 Hb1].
  pose proof (sound_small g Hs) as Hsm. pose proof (sound_big g Hs) as Hbg.
  destruct (wager_conserves g sbID sb (Z.min (SmallBlind g) (ChipCount sb)))
    as (Hcons1 & Hs1 & _); try assumption; try lia.
  set (g1 := wager sbID (Z.min (SmallBlind g) (ChipCount sb)) g) in *.
  destruct (Players g1 !! bbID) as [bb|] eqn:Hbb; [|discriminate].
  cbn [mbind option_bind] in H. fold_wager H. injection H as <-.
  destruct (sound_players g1 Hs1 bbID bb Hbb) as [Hc2 Hb2].
  change (BigBlind g1) with (BigBlind g).
  destruct (wager_conserves g1 bbID bb (Z.min (BigBlind g) (ChipCount bb)))
    as (Hcons2 & Hs2 & _); try assumption; try lia.
  split; [exact Hs2|]. split; [|reflexivity].
  rewrite <- Hcons1. exact Hcons2.
Qed.

Lemma startNewHand_Sound (g g' : Game) :
  NonNeg g -> stacks g <= limit -> 0 <= SmallBlind g -> 0 <= BigBlind g <= limit ->
  startNewHand g = Some g' ->
  Sound g' /\ chipsInPlay g' = stacks g /\ Phase g' = PreFlop.
Proof.
  intros Hnn Hlim Hsm Hbg H.
  destruct (prepare_Sound g Hnn Hlim Hsm Hbg) as (Hs0 & Hc0 & Hph0).
  rewrite startNewHand_deck in H.
  destruct (moveDealerButton (prepare g)) as [g1|] eqn:H1; [|discriminate].
  cbn [mbind option_bind] in H. unfold dealtHand in H.
  apply moveDealerButton_ledger in H1.
  destruct (dealHoleCards (set_GDeck (Reset (GDeck g)) g1)) as [g2|] eqn:H2;
    [|discriminate].
  cbn [mbind option_bind] in H.
  apply dealHoleCards_ledger in H2.
  assert (Hl1 : ledger (set_GDeck (Reset (GDeck g)) g1) = ledger g1) by reflexivity.
  assert (Hl2 : ledger g2 = ledger (prepare g)) by congruence.
  destruct (postBlinds g2) as [g3|] eqn:H3; [|discriminate].
  cbn [mbind option_bind] in H.
  destruct (postBlinds_wagers g2 g3 (ledger_Sound _ _ Hl2 Hs0) H3) as (Hs3 & Hc3 & Hph3).
  destruct (modLen (BigBlindPos g3 + 1) g3) as [cur|]; [|discriminate].
  cbn [mbind option_bind] in H.
  apply moveToNextActivePlayer_ledger in H.
  assert (Hl3 : ledger (set_CurrentPlayer cur g3) = ledger g3) by reflexivity.
  assert (Hl : ledger g' = ledger g3) by congruence.
  split; [exact (ledger_Sound _ _ Hl Hs3)|].
  split.
  - rewrite (ledger_chipsInPlay _ _ Hl), Hc3, (ledger_chipsInPlay _ _ Hl2). exact Hc0.
  - rewrite (ledger_Phase _ _ Hl), Hph3, (ledger_Phase _ _ Hl2). exact Hph0.
Qed.

(** **** A hand from its start to its settlement *)

(** What can happen to a table while a hand is played: the player to act
    submits an action, or a player leaves. *)
Inductive Event : Type :=
  | Acts (playerID : string) (action : PlayerAction) (amount now : Z)
  | Leaves (playerID : string) (now : Z).

Definition step (g : Game) (ev : Event) : option Game :=
  match ev with
  | Acts playerID action amount now =>
      snd <$> processAction g playerID action amount now
  | Leaves playerID now => snd <$> RemovePlayer g playerID now
  end.

Definition isSettled (g : Game) : bool :=
  bool_decide (Phase g = Showdown) || bool_decide (Phase g = GameOver).

(** The events are applied until the hand is settled. *)
Fixpoint playHand (g : Game) (events : list Event) : option Game :=
  match events with
  | [] => Some g
  | ev :: rest =>
      if isSettled g then Some g
      else g' ← step g ev; playHand g' rest
  end.

Lemma isSettled_spec (g : Game) : isSettled g = true <-> settled (Phase g).
Proof.
  unfold isSettled, settled.
  rewrite orb_true_iff, !bool_decide_eq_true. reflexivity.
Qed.

(** No amount submitted with an action exceeds [limit]. *)
Definition modest (ev : Event) : Prop :=
  match ev with
  | Acts _ _ amount _ => amount <= limit
  | Leaves _ _ => True
  end.

Lemma step_good (total : Z) (g g' : Game) (ev : Event) :
  Good total g -> modest ev -> isSettled g = false -> step g ev = Some g' ->
  Good total g'.
Proof.
  intros [Hc Hcases] Hev Hrun H.
  assert (Hns : ~ settled (Phase g)).
  { intros Hset. apply isSettled_spec in Hset. congruence. }
  destruct Hcases as [[Hs _] | [Hset _]]; [|contradiction].
  rewrite <- Hc.
  destruct ev as [playerID action amount now | playerID now]; simpl in H.
  - destruct (processAction g playerID action amount now) as [[err g1]|] eqn:Hp;
      simpl in H; [|discriminate].
    injection H as <-. eapply processAction_good; eassumption.
  - destruct (RemovePlayer g playerID now) as [[err g1]|] eqn:Hp;
      simpl in H; [|discriminate].
    injection H as <-. eapply RemovePlayer_good; eassumption.
Qed.

Lemma playHand_good (total : Z) (events : list Event) : forall g g',
  Good total g -> Forall modest events -> playHand g events = Some g' ->
  Good total g'.
Proof.
  induction events as [|ev rest IH]; intros g g' Hg Hev H; simpl in H.
  - injection H as <-. exact Hg.
  - destruct (isSettled g) eqn:Hrun; [injection H as <-; exact Hg|].
    destruct (step g ev) as [g1|] eqn:Hstep; simpl in H; [|discriminate].
    inversion Hev as [|? ? Hev1 Hev2]; subst.
    apply (IH g1 g'); [| exact Hev2 | exact H].
    eapply step_good; eassumption.
Qed.

(** X11.  As long as no 64-bit sum overflows, a hand keeps every chip.  A hand
    is started on a table whose stacks and blinds are not negative and
    lie below [limit], and is played by any sequence of actions with
    amounts up to [limit] and of departures, up to its settlement.  At
    every point reached, and so after settlement, the stacks plus the
    chips still in the pot equal the stacks before the hand; and once the
    hand is settled the pot is empty, unless no player was left to
    receive it. *)
Lemma chips_conserved_without_overflow (g0 g1 gEnd : Game) (events : list Event) :
  NonNeg g0 -> stacks g0 <= limit ->
  0 <= SmallBlind g0 -> 0 <= BigBlind g0 <= limit ->
  Forall modest events ->
  startNewHand g0 = Some g1 ->
  playHand g1 events = Some gEnd ->
  stacks gEnd + Pot gEnd = stacks g0 /\
  (settled (Phase gEnd) -> getActivePlayers gEnd <> [] -> Pot gEnd = 0).
Proof.
  intros Hnn Hlim Hsm Hbg Hev Hstart Hplay.
  destruct (startNewHand_Sound g0 g1 Hnn Hlim Hsm Hbg Hstart) as (Hs1 & Hc1 & Hph1).
  assert (Hgood : Good (stacks g0) g1).
  { split; [exact Hc1|]. left. split; [exact Hs1|].
    rewrite Hph1. intros [Hx|Hx]; discriminate. }
  destruct (playHand_good _ _ _ _ Hgood Hev Hplay) as [Hc Hcases].
  split; [exact Hc|].
  intros Hset Hne.
  destruct Hcases as [[_ Hns] | [_ Hpot]]; [contradiction | exact (Hpot Hne)].
Qed.

(** A table of two with 10000 chips each and blinds of 50/100. *)
Definition tableOfTwo (r : Rng) : Game :=
  set_PlayerOrder ["player1"; "player2"]
    (set_Players
       (<["player2" := NewPlayer "player2" "Bob" 10000 1]>
          (<["player1" := NewPlayer "player1" "Alice" 10000 0]> ∅))
       (NewGame "table" "heads-up"
          (mkGameConfig 3 6 2 10000 50000 2000 50 100 0 0) r 0)).

(** The small blind calls and the rest is checked down. *)
Definition checkedDown : list Event :=
  [Acts "player2" Call 0 1; Acts "player1" Check 0 2; Acts "player1" Check 0 3;
   Acts "player1" Check 0 4; Acts "player1" Check 0 5].

Lemma chips_conserved_without_overflow_witness :
  exists g1 gEnd,
    startNewHand (tableOfTwo fixedRng) = Some g1 /\
    playHand g1 checkedDown = Some gEnd /\
    stacks (tableOfTwo fixedRng) = 20000 /\
    stacks gEnd + Pot gEnd = 20000 /\ Pot gEnd = 0.
Proof.
  assert (Hrun : exists g1 gEnd, startNewHand (tableOfTwo fixedRng) = Some g1 /\
                                 playHand g1 checkedDown = Some gEnd /\
                                 Phase gEnd = Showdown /\
                                 getActivePlayers gEnd <> []).
  { eexists _, _. split; [vm_compute; reflexivity|].
    split; [vm_compute; reflexivity|]. split; [vm_compute; reflexivity|].
    vm_compute. discriminate. }
  destruct Hrun as (g1 & gEnd & Hstart & Hplay & Hphase & Hleft).
  assert (Hstacks : stacks (tableOfTwo fixedRng) = 20000) by (vm_compute; reflexivity).
  destruct (chips_conserved_without_overflow (tableOfTwo fixedRng) g1 gEnd checkedDown)
    as [Hsum Hpot]; try assumption.
  - intros id p Hp.
    assert (Hall : map_Forall (fun _ q => 0 <= ChipCount q)
                     (Players (tableOfTwo fixedRng))).
    { refine (bool_decide_unpack _ _). vm_compute. exact I. }
    exact (Hall id p Hp).
  - rewrite Hstacks. unfold limit. lia.
  - vm_compute. discriminate.
  - split; vm_compute; discriminate.
  - unfold checkedDown, modest, limit. repeat constructor; lia.
  - exists g1, gEnd.
    split; [exact Hstart|]. split; [exact Hplay|]. split; [exact Hstacks|].
    split; [rewrite Hsum; exact Hstacks|].
    apply Hpot; [left; exact Hphase | exact Hleft].
Defined.

(** An all-but-impossible raise, then a departure. *)
Definition overflowingRaise : list Event :=
  [Acts "player2" Raise int64.MaxInt64 1; Leaves "player2" 2;
   Acts "player1" Check 0 3; Acts "player1" Check 0 4;
   Acts "player1" Check 0 5; Acts "player1" Check 0 6].

(** The generator yields 13, 16, 19, ... *)
Definition stepThree : Rng := mkRng (fun n => Z.of_nat n * 3 + 13) 0.

(** C3 (evaluation at the failing input).  Heads-up with 10000 chips each
    at blinds 50/100.  The small blind, "player2", raises by
    9223372036854775807: the new street bet [LastRaise + amount] wraps
    around to a negative number, the "bet" of -9223372036854775759 passes
    both stack checks, the raiser's stack wraps around to
    -9223372036854765907 and the pot to -9223372036854775609.  The raiser
    then leaves, and the big blind checks the hand down and wins it with
    the ace kicker to the jacks of the board.  It is paid the negative pot;
    the raiser, disconnected and without chips, loses the seat.  After
    settlement the pot is empty and the only stack left is
    -9223372036854765709: the 20000 chips that were on the table before
    the hand are not there any more. *)
Theorem overflowing_raise_destroys_chips :
  exists g1 gRaised gEnd,
    stacks (tableOfTwo stepThree) = 20000 /\
    startNewHand (tableOfTwo stepThree) = Some g1 /\
    chipsOf g1 "player1" = Some 9900 /\ chipsOf g1 "player2" = Some 9950 /\
    Pot g1 = 150 /\ LastRaise g1 = 100 /\ MinRaise g1 = 100 /\
    getCurrentPlayerID g1 = "player2"%string /\
    (HoleCards <$> Players g1 !! "player1") =
      Some [NewCard Ace Hearts; NewCard Five Hearts] /\
    (HoleCards <$> Players g1 !! "player2") =
      Some [NewCard Four Hearts; NewCard Five Spades] /\
    processAction g1 "player2" Raise int64.MaxInt64 1 = Some (None, gRaised) /\
    LastRaise gRaised = -9223372036854775709 /\
    chipsOf gRaised "player2" = Some (-9223372036854765907) /\
    Pot gRaised = -9223372036854775609 /\
    playHand g1 overflowingRaise = Some gEnd /\
    CommunityCards gEnd =
      [NewCard Eight Hearts; NewCard Jack Spades; NewCard King Hearts;
       NewCard Queen Clubs; NewCard Jack Clubs] /\
    Phase gEnd = GameOver /\ PlayerOrder gEnd = ["player1"] /\
    chipsOf gEnd "player1" = Some (-9223372036854765709) /\
    chipsOf gEnd "player2" = None /\
    Pot gEnd = 0 /\
    stacks gEnd + Pot gEnd = -9223372036854765709 /\
    stacks gEnd + Pot gEnd <> stacks (tableOfTwo stepThree).
Proof.
  eexists _, _, _.
  repeat (apply conj; [vm_compute; reflexivity|]). vm_compute. discriminate.
Qed.

(* --------------------------------------------------------------------- *)
(** *** Who sits at the table                                             *)
(* --------------------------------------------------------------------- *)

(** The part of the state the membership of a table depends on: the seat
    order and, for every seated player, whether they are connected. *)
Definition roster (g : Game) : list string * gmap string bool :=
  (PlayerOrder g, Connected <$> Players g).

(** The player is seated and has not left. *)
Definition connected (g : Game) (id : string) : bool :=
  match Players g !! id with
  | Some p => Connected p
  | None => false
  end.

(** Seat order and player map name the same players, each once. *)
Record Seats (g : Game) : Prop := mkSeats {
  seats_NoDup : NoDup (PlayerOrder g);
  seats_players : forall id, id ∈ PlayerOrder g <-> is_Some (Players g !! id)
}.

(** A transition that seats nobody and lets nobody go but players who had
    left already. *)
Definition sameTable (g g' : Game) : Prop :=
  (Seats g -> Seats g') /\ forall id, connected g' id = connected g id.

Lemma sameTable_refl (g : Game) : sameTable g g.
Proof. split; [tauto | reflexivity]. Qed.

Lemma sameTable_trans (g1 g2 g3 : Game) :
  sameTable g1 g2 -> sameTable g2 g3 -> sameTable g1 g3.
Proof.
  intros [Hs1 Hc1] [Hs2 Hc2]. split; [tauto|].
  intros id. rewrite Hc2. apply Hc1.
Qed.

Lemma roster_connected (g g' : Game) (id : string) :
  roster g' = roster g -> connected g' id = connected g id.
Proof.
  unfold roster, connected. intros H. injection H as _ Hm.
  assert (Hid : (Connected <$> Players g') !! id = (Connected <$> Players g) !! id)
    by (rewrite Hm; reflexivity).
  rewrite !lookup_fmap in Hid.
  destruct (Players g' !! id), (Players g !! id); simpl in Hid; congruence.
Qed.

Lemma roster_sameTable (g g' : Game) : roster g' = roster g -> sameTable g g'.
Proof.
  intros H. split; [|intros id; apply roster_connected; exact H].
  intros [Hnd Hpl]. unfold roster in H. injection H as Ho Hm. split.
  - rewrite Ho. exact Hnd.
  - intros id. rewrite Ho, Hpl.
    assert (Hid : (Connected <$> Players g') !! id = (Connected <$> Players g) !! id)
      by (rewrite Hm; reflexivity).
    rewrite !lookup_fmap in Hid.
    destruct (Players g' !! id), (Players g !! id); simpl in Hid;
      try discriminate; split; intros [? ?]; eauto; discriminate.
Qed.

(** A change of one player that leaves [Connected] alone. *)
Lemma roster_updatePlayer (g : Game) (id : string) (f : Player -> Player) :
  (forall p, Connected (f p) = Connected p) ->
  roster (updatePlayer id f g) = roster g.
Proof.
  intros Hf. unfold roster, updatePlayer. simpl. f_equal.
  apply map_eq. intros j. rewrite !lookup_fmap.
  destruct (decide (id = j)) as [->|Hne].
  - rewrite lookup_alter_eq. destruct (Players g !! j); simpl; [|reflexivity].
    rewrite Hf. reflexivity.
  - rewrite lookup_alter_ne by exact Hne. reflexivity.
Qed.

Lemma roster_forAllPlayers (g : Game) (f : Player -> Player) :
  (forall p, Connected (f p) = Connected p) ->
  roster (forAllPlayers f g) = roster g.
Proof.
  intros Hf. unfold roster, forAllPlayers. simpl. f_equal.
  apply map_eq. intros j. rewrite !lookup_fmap.
  destruct (Players g !! j); simpl; [|reflexivity]. rewrite Hf. reflexivity.
Qed.

Lemma Connected_betOf (amount : Z) (p : Player) :
  Connected (betOf amount p) = Connected p.
Proof.
  unfold betOf, Bet. destruct (ChipCount p <? amount); [reflexivity|].
  simpl. destruct (_ =? 0); reflexivity.
Qed.

Lemma nextActiveLoop_roster (fuel : nat) : forall startPos g g',
  nextActiveLoop fuel startPos g = Some g' -> roster g' = roster g.
Proof.
  induction fuel as [|fuel IH]; intros startPos g g' H; simpl in H; [discriminate|].
  destruct (PlayerOrder g !! CurrentPlayer g) as [id|]; simpl in H; [|discriminate].
  destruct (match Players g !! id with Some player => CanAct player | None => false end).
  { injection H as <-. reflexivity. }
  destruct (modLen _ g) as [cur|]; simpl in H; [|discriminate].
  destruct (cur =? startPos)%nat.
  - injection H as <-. reflexivity.
  - apply IH in H. rewrite H. reflexivity.
Qed.

Lemma moveToNextActivePlayer_roster (g g' : Game) :
  moveToNextActivePlayer g = Some g' -> roster g' = roster g.
Proof. apply nextActiveLoop_roster. Qed.

Lemma moveToNextPlayer_roster (g g' : Game) :
  moveToNextPlayer g = Some g' -> roster g' = roster g.
Proof.
  unfold moveToNextPlayer. intros H.
  destruct (modLen _ g) as [cur|]; simpl in H; [|discriminate].
  apply moveToNextActivePlayer_roster in H. rewrite H. reflexivity.
Qed.

Lemma calculateSidePots_roster (g g' : Game) :
  calculateSidePots g = Some g' -> roster g' = roster g.
Proof.
  unfold calculateSidePots. intros H.
  destruct (foldr _ _ _); simpl in H; [|discriminate].
  injection H as <-. reflexivity.
Qed.

Lemma dealPass_roster (order : list string) : forall g g',
  dealPass order g = Some g' -> roster g' = roster g.
Proof.
  induction order as [|id rest IH]; intros g g' H; simpl in H.
  - injection H as <-. reflexivity.
  - destruct (Players g !! id) as [p|]; simpl in H; [|discriminate].
    destruct (IsActive p).
    + apply IH in H. rewrite H.
      rewrite roster_updatePlayer by reflexivity. reflexivity.
    + apply IH in H. exact H.
Qed.

Lemma dealHoleCards_roster (g g' : Game) :
  dealHoleCards g = Some g' -> roster g' = roster g.
Proof.
  unfold dealHoleCards. intros H.
  destruct (dealPass (PlayerOrder g) g) as [g1|] eqn:H1; simpl in H; [|discriminate].
  apply dealPass_roster in H, H1. congruence.
Qed.

Lemma dealerLoop_roster (n : nat) : forall g g',
  dealerLoop n g = Some g' -> roster g' = roster g.
Proof.
  induction n as [|n IH]; intros g g' H; simpl in H.
  - injection H as <-. reflexivity.
  - destruct (PlayerOrder g !! DealerPos g) as [id|]; simpl in H; [|discriminate].
    destruct (Players g !! id) as [p|]; simpl in H; [|discriminate].
    destruct (IsActive p); [injection H as <-; reflexivity|].
    destruct (modLen _ g); simpl in H; [|discriminate].
    apply IH in H. exact H.
Qed.

Lemma moveDealerButton_roster (g g' : Game) :
  moveDealerButton g = Some g' -> roster g' = roster g.
Proof.
  unfold moveDealerButton. intros H.
  destruct (length (PlayerOrder g) <? 2)%nat; [injection H as <-; reflexivity|].
  destruct (modLen _ g); simpl in H; [|discriminate].
  destruct (dealerLoop _ _) as [g0|] eqn:E; simpl in H; [|discriminate].
  apply dealerLoop_roster in E. simpl in E.
  destruct (length (PlayerOrder g0) =? 2)%nat; peel H; injection H as <-; exact E.
Qed.

Lemma postBlinds_roster (g g' : Game) :
  postBlinds g = Some g' -> roster g' = roster g.
Proof.
  unfold postBlinds. intros H. peel H. injection H as <-.
  change (roster (set_Pot ?a ?x)) with (roster x).
  rewrite roster_updatePlayer by (intros; apply Connected_betOf).
  change (roster (set_Pot ?a ?x)) with (roster x).
  apply roster_updatePlayer. intros; apply Connected_betOf.
Qed.

Lemma startNewHand_roster (g g' : Game) :
  startNewHand g = Some g' -> roster g' = roster g.
Proof.
  rewrite startNewHand_deck. intros H.
  destruct (moveDealerButton (prepare g)) as [g1|] eqn:E1;
    cbn [mbind option_bind] in H; [|discriminate].
  unfold dealtHand in H.
  destruct (dealHoleCards _) as [g2|] eqn:E2; cbn [mbind option_bind] in H; [|discriminate].
  destruct (postBlinds g2) as [g3|] eqn:E3; cbn [mbind option_bind] in H; [|discriminate].
  destruct (modLen _ g3) as [cur|]; cbn [mbind option_bind] in H; [|discriminate].
  apply moveToNextActivePlayer_roster in H.
  apply postBlinds_roster in E3. apply dealHoleCards_roster in E2.
  apply moveDealerButton_roster in E1.
  change (roster (set_CurrentPlayer cur g3)) with (roster g3) in H.
  change (roster (set_GDeck _ g1)) with (roster g1) in E2.
  rewrite H, E3, E2, E1. unfold prepare.
  rewrite roster_forAllPlayers by reflexivity. reflexivity.
Qed.

Lemma nextHandTimer_roster (g g' : Game) :
  nextHandTimer g = Some g' -> roster g' = roster g.
Proof.
  unfold nextHandTimer. intros H.
  destruct (Phase g); try (injection H as <-; reflexivity).
  apply startNewHand_roster. exact H.
Qed.

Lemma payWinners_roster (potShare remainder : Z) (winners : list (string * Player)) :
  forall (i : nat) (g : Game),
    roster (payWinners potShare remainder i winners g) = roster g.
Proof.
  induction winners as [|[id p] rest IH]; intros i g; simpl; [reflexivity|].
  rewrite IH. apply roster_updatePlayer. reflexivity.
Qed.

Lemma paySidePots_roster (winners : list (string * Player)) (pots : list SidePot) :
  forall g g', paySidePots pots winners g = Some g' -> roster g' = roster g.
Proof.
  induction pots as [|pot rest IH]; intros g g' H; simpl in H.
  - injection H as <-. reflexivity.
  - destruct (length winners =? 0)%nat; [discriminate|].
    apply IH in H. rewrite H. apply payWinners_roster.
Qed.

Lemma distributePots_roster (g g' : Game) :
  distributePots g = Some g' -> roster g' = roster g.
Proof.
  unfold distributePots. intros H.
  destruct (getActivePlayers g) as [|[id p] [|second rest]].
  - injection H as <-. reflexivity.
  - injection H as <-.
    change (roster (set_Pot ?a ?x)) with (roster x).
    apply roster_updatePlayer. reflexivity.
  - destruct (determineWinners g _) as [winners|]; simpl in H; [|discriminate].
    destruct (paySidePots _ _ _) as [g1|] eqn:E; simpl in H; [|discriminate].
    injection H as <-. apply paySidePots_roster in E. exact E.
Qed.

Lemma delete_NoDup_elem (l : list string) (i : nat) (id : string) :
  NoDup l -> l !! i = Some id ->
  NoDup (delete i l) /\ forall j, j ∈ delete i l <-> j ∈ l /\ j <> id.
Proof.
  intros Hnd. revert i. induction Hnd as [|x l Hx Hnd IH]; intros i Hi.
  - discriminate.
  - destruct i as [|i]; simpl in *.
    + injection Hi as ->. split; [exact Hnd|].
      intros j. rewrite elem_of_cons. split.
      * intros Hj. split; [right; exact Hj | congruence].
      * intros [[->|Hj] Hne]; [contradiction | exact Hj].
    + destruct (IH i Hi) as [Hnd' Hel]. split.
      * constructor; [|exact Hnd']. rewrite Hel. tauto.
      * intros j. rewrite !elem_of_cons, Hel.
        assert (x <> id).
        { intros ->. apply Hx. apply list_elem_of_lookup. eauto. }
        split; [intros [->|[? ?]]; tauto | tauto].
Qed.

(** [removeEliminatedPlayers] only takes away players who had left. *)
Lemma removeLoop_sameTable (n : nat) : forall g g',
  removeLoop n g = Some g' -> sameTable g g'.
Proof.
  induction n as [|i IH]; intros g g' H; simpl in H.
  - injection H as <-. apply sameTable_refl.
  - destruct (PlayerOrder g !! i) as [id|] eqn:Hid; simpl in H; [|discriminate].
    destruct (Players g !! id) as [p|] eqn:Hp; simpl in H; [|discriminate].
    destruct ((ChipCount p <=? 0) && negb (Connected p)) eqn:Hgone;
      [|apply IH; exact H].
    apply andb_true_iff in Hgone as [_ Hoff]. apply negb_true_iff in Hoff.
    apply IH in H. refine (sameTable_trans _ _ _ _ H). split.
    + intros [Hnd Hpl].
      destruct (delete_NoDup_elem _ _ _ Hnd Hid) as [Hnd' Hel].
      split; simpl; [exact Hnd'|].
      intros j. rewrite Hel, Hpl. unfold is_Some.
      setoid_rewrite lookup_delete_Some. split.
      * intros [[q Hq] Hne]. exists q. split; [congruence | exact Hq].
      * intros [q [Hne Hq]]. split; [eauto | congruence].
    + intros j. unfold connected. simpl.
      destruct (decide (id = j)) as [<-|Hne].
      * rewrite lookup_delete_eq, Hp. symmetry. exact Hoff.
      * rewrite lookup_delete_ne by exact Hne. reflexivity.
Qed.

Lemma endHand_sameTable (g g' : Game) : endHand g = Some g' -> sameTable g g'.
Proof.
  unfold endHand. intros H.
  destruct (calculateSidePots _) as [g1|] eqn:E1; cbn [mbind option_bind] in H;
    [|discriminate].
  destruct (distributePots g1) as [g2|] eqn:E2; cbn [mbind option_bind] in H;
    [|discriminate].
  destruct (removeEliminatedPlayers g2) as [g3|] eqn:E3; cbn [mbind option_bind] in H;
    [|discriminate].
  apply calculateSidePots_roster in E1. apply distributePots_roster in E2.
  apply removeLoop_sameTable in E3.
  assert (Hfin : sameTable g3 g').
  { destruct (_ <? _); injection H as <-; apply roster_sameTable; reflexivity. }
  refine (sameTable_trans _ _ _ _ Hfin).
  refine (sameTable_trans _ _ _ _ E3).
  apply roster_sameTable. rewrite E2, E1. reflexivity.
Qed.

Lemma toNextSeat_roster (g g' : Game) :
  (cur ← modLen (DealerPos g + 1) g; moveToNextActivePlayer (set_CurrentPlayer cur g))
  = Some g' -> roster g' = roster g.
Proof.
  intros H. destruct (modLen _ g) as [cur|]; cbn [mbind option_bind] in H; [|discriminate].
  apply moveToNextActivePlayer_roster in H. exact H.
Qed.

Lemma advancePhase_sameTable (g g' : Game) :
  advancePhase g = Some g' -> sameTable g g'.
Proof.
  unfold advancePhase. intros H.
  set (g0 := set_LastRaise 0 (forAllPlayers (set_CurrentBet 0) g)) in *.
  assert (H0 : roster g0 = roster g).
  { unfold g0. change (roster (set_LastRaise 0 ?x)) with (roster x).
    apply roster_forAllPlayers. reflexivity. }
  assert (Hstep : sameTable g0 g').
  { destruct (Phase g0).
    1, 6, 7: apply roster_sameTable; apply toNextSeat_roster in H; exact H.
    1, 2, 3: apply roster_sameTable; apply toNextSeat_roster in H; exact H.
    apply endHand_sameTable in H.
    refine (sameTable_trans _ _ _ _ H). apply roster_sameTable. reflexivity. }
  refine (sameTable_trans _ _ _ _ Hstep). apply roster_sameTable. exact H0.
Qed.

Lemma advanceGame_sameTable (g g' : Game) :
  advanceGame g = Some g' -> sameTable g g'.
Proof.
  unfold advanceGame. intros H.
  destruct (_ <=? 1)%nat; [apply endHand_sameTable; exact H|].
  destruct (isBettingRoundComplete g); [apply advancePhase_sameTable; exact H|].
  apply roster_sameTable, moveToNextPlayer_roster. exact H.
Qed.

(** No action seats a player or lets a connected one go. *)
Lemma processAction_sameTable (g g' : Game) (playerID : string)
    (action : PlayerAction) (amount now : Z) (err : option string) :
  processAction g playerID action amount now = Some (err, g') -> sameTable g g'.
Proof.
  unfold processAction. intros H.
  destruct (_ || _); [injection H as _ <-; apply sameTable_refl|].
  destruct (negb _); [injection H as _ <-; apply sameTable_refl|].
  destruct (Players g !! playerID) as [player|];
    [|injection H as _ <-; apply sameTable_refl].
  destruct (negb (CanAct player)); [injection H as _ <-; apply sameTable_refl|].
  match type of H with
  | match ?a with _ => _ end = _ => destruct a as [[e|] [act g1]] eqn:Happlied
  end.
  { injection H as _ <-. apply sameTable_refl. }
  assert (H1 : roster g1 = roster g).
  { destruct action; simpl in Happlied.
    - injection Happlied as _ <-. apply roster_updatePlayer. reflexivity.
    - destruct (_ <? _); [discriminate|]. injection Happlied as _ <-. reflexivity.
    - destruct (ChipCount player <? _);
        (destruct (Bet player _) as [[e|] p']; [discriminate|]);
        injection Happlied as _ <-;
        change (roster (set_Pot ?a ?x)) with (roster x);
        apply roster_updatePlayer; intros; apply Connected_betOf.
    - destruct (amount <? _); [discriminate|].
      destruct (ChipCount player <? _); [discriminate|].
      destruct (Bet player _) as [[e|] p']; [discriminate|].
      injection Happlied as _ <-.
      change (roster (set_MinRaise ?a (set_LastRaise ?b (set_Pot ?c ?x))))
        with (roster x).
      apply roster_updatePlayer; intros; apply Connected_betOf.
    - destruct (Bet player _) as [[e|] p']; [discriminate|].
      injection Happlied as _ <-.
      destruct (_ <? _);
        [change (roster (set_LastRaise ?b (set_Pot ?c ?x))) with (roster x)
        |change (roster (set_Pot ?c ?x)) with (roster x)];
        apply roster_updatePlayer; intros; apply Connected_betOf. }
  destruct (advanceGame _) as [g2|] eqn:Hadv; cbn [mbind option_bind] in H;
    [|discriminate].
  injection H as _ <-. apply advanceGame_sameTable in Hadv.
  refine (sameTable_trans _ _ _ _ Hadv). apply roster_sameTable.
  change (roster (set_LastActivity ?a (set_Actions ?b ?x))) with (roster x).
  rewrite roster_updatePlayer by reflexivity. exact H1.
Qed.

(** [AddPlayer] seats the new player, connected, and nobody else. *)
Lemma AddPlayer_seats (g g' : Game) (player : Player) (now : Z) :
  AddPlayer g player now = Some (None, g') ->
  Players g !! ID player = None /\
  (Seats g -> Seats g') /\
  forall id, connected g' id
             = if decide (id = ID player) then Connected player else connected g id.
Proof.
  unfold AddPlayer. intros H.
  destruct (_ <=? _); [discriminate|].
  destruct (bool_decide (is_Some _)) eqn:Hin; [discriminate|].
  apply bool_decide_eq_false in Hin.
  assert (Hnone : Players g !! ID player = None).
  { destruct (Players g !! ID player); [exfalso; apply Hin; eauto | reflexivity]. }
  split; [exact Hnone|].
  set (g0 := set_LastActivity now
               (set_PlayerOrder (PlayerOrder g ++ [ID player])
                  (set_Players (<[ID player := player]> (Players g)) g))) in *.
  assert (Hseats : Seats g -> Seats g0).
  { intros [Hnd Hpl]. split; simpl.
    - apply NoDup_app. split; [exact Hnd|]. split; [|apply NoDup_singleton].
      intros x Hx Hx'. apply list_elem_of_singleton in Hx'. subst x.
      apply Hpl in Hx. rewrite Hnone in Hx. destruct Hx; discriminate.
    - intros id. rewrite elem_of_app, list_elem_of_singleton, Hpl.
      destruct (decide (ID player = id)) as [<-|Hne].
      + rewrite lookup_insert_eq. split; eauto.
      + rewrite lookup_insert_ne by exact Hne. split; [intros [?|?]|]; tauto || congruence. }
  assert (Hconn : forall id, connected g0 id
             = if decide (id = ID player) then Connected player else connected g id).
  { intros id. unfold connected. simpl.
    destruct (decide (id = ID player)) as [->|Hne].
    - rewrite lookup_insert_eq. reflexivity.
    - rewrite lookup_insert_ne by congruence. reflexivity. }
  assert (Hlast : sameTable g0 g').
  { cbv zeta in H. destruct (_ && _).
    - match type of H with
      | context [startNewHand ?x] => change x with g0 in H
      end.
      destruct (startNewHand g0) as [g1|] eqn:E; cbn [mbind option_bind] in H;
        [|discriminate].
      injection H as <-. apply roster_sameTable, startNewHand_roster. exact E.
    - injection H as <-. exact (sameTable_refl g0). }
  destruct Hlast as [Hs Hc]. split; [tauto|].
  intros id. rewrite Hc. apply Hconn.
Qed.

(** [RemovePlayer] marks the player and lets everybody sit. *)
Lemma RemovePlayer_seats (g g' : Game) (playerID : string) (now : Z) :
  RemovePlayer g playerID now = Some (None, g') ->
  (Seats g -> Seats g') /\
  forall id, connected g' id
             = if decide (id = playerID) then false else connected g id.
Proof.
  unfold RemovePlayer. intros H.
  destruct (Players g !! playerID) as [p|] eqn:Hp; [|discriminate].
  set (g0 := updatePlayer playerID _ g) in *.
  assert (Hseats : Seats g -> Seats g0).
  { intros [Hnd Hpl]. split; [exact Hnd|].
    intros id. simpl. rewrite Hpl. unfold is_Some.
    destruct (decide (playerID = id)) as [<-|Hne].
    - rewrite lookup_alter_eq, Hp. simpl. split; eauto.
    - rewrite lookup_alter_ne by exact Hne. reflexivity. }
  assert (Hconn : forall id, connected g0 id
             = if decide (id = playerID) then false else connected g id).
  { intros id. unfold connected. simpl.
    destruct (decide (id = playerID)) as [->|Hne].
    - rewrite lookup_alter_eq, Hp. reflexivity.
    - rewrite lookup_alter_ne by congruence. reflexivity. }
  assert (Hlast : sameTable g0 g').
  { destruct (_ && _).
    - destruct (processAction g0 playerID Fold 0 now) as [[e g1]|] eqn:E;
        cbn [mbind option_bind fmap option_fmap option_map] in H; [|discriminate].
      injection H as <-. apply processAction_sameTable in E.
      refine (sameTable_trans _ _ _ E _). apply roster_sameTable. reflexivity.
    - cbn [mbind option_bind] in H. injection H as <-.
      apply roster_sameTable. reflexivity. }
  destruct Hlast as [Hs Hc]. split; [tauto|].
  intros id. rewrite Hc. apply Hconn.
Qed.

Lemma connected_seated (g : Game) (id : string) :
  Seats g -> connected g id = true ->
  id ∈ PlayerOrder g /\ size (Players g) <> 0%nat.
Proof.
  intros [_ Hpl] H. unfold connected in H.
  destruct (Players g !! id) as [p|] eqn:Hp; [|discriminate].
  split; [apply Hpl; eauto|].
  intros Hsize. apply map_size_empty_iff in Hsize.
  rewrite Hsize, lookup_empty in Hp. discriminate.
Qed.
End game_facts.

(* ===================================================================== *)
(** ** Properties of the manager                                          *)
(* ===================================================================== *)

Module manager_facts.
Import poker game manager game_facts.

(** The states of the manager: what its operations, and the deferred start
    of a next hand, make of the empty manager. *)
Inductive reachable : Manager -> Prop :=
| reach_NewManager : reachable NewManager
| reach_CreateGame m gameID name options r now err m' :
    reachable m ->
    CreateGame m gameID name options r now = (err, m') -> reachable m'
| reach_JoinGame m gameID playerID username buyIn now err m' :
    reachable m ->
    JoinGame m gameID playerID username buyIn now = Some (err, m') -> reachable m'
| reach_LeaveGame m gameID playerID now err m' :
    reachable m ->
    LeaveGame m gameID playerID now = Some (err, m') -> reachable m'
| reach_ProcessAction m gameID playerID action amount now err m' :
    reachable m ->
    ProcessAction m gameID playerID action amount now = Some (err, m') -> reachable m'
| reach_CleanupInactiveGames m now :
    reachable m -> reachable (CleanupInactiveGames m now)
| reach_NextHandTimer m gameID m' :
    reachable m -> NextHandTimer m gameID = Some m' -> reachable m'.

(** What the operations keep true: every table is well seated, no list of
    games names a game twice, and a game is in a player's list exactly if
    the player sits there and has not left. *)
Record Consistent (m : Manager) : Prop := mkConsistent {
  cons_seats : forall gameID g, games m !! gameID = Some g -> Seats g;
  cons_NoDup : forall playerID, NoDup (playerGames m playerID);
  cons_member : forall playerID gameID,
    gameID ∈ playerGames m playerID <->
    exists g, games m !! gameID = Some g /\ connected g playerID = true
}.

(** One table, one player who joins and then leaves. *)
Definition lobby : Manager :=
  snd (CreateGame NewManager "table" "heads-up" [] fixedRng 0).

Definition afterJoin : Manager :=
  match JoinGame lobby "table" "player1" "Alice" 10000 1 with
  | Some (_, m) => m
  | None => lobby
  end.

Definition afterLeave : Manager :=
  match LeaveGame afterJoin "table" "player1" 2 with
  | Some (_, m) => m
  | None => afterJoin
  end.

Lemma playerGames_insert (m : Manager) (gs : gmap string Game) (c : GameConfig)
    (playerID other : string) (l : list string) :
  playerGames (mkManager gs (<[playerID := l]> (players m)) c) other
  = if decide (other = playerID) then l else playerGames m other.
Proof.
  unfold playerGames. simpl. destruct (decide (other = playerID)) as [->|Hne].
  - rewrite lookup_insert_eq. reflexivity.
  - rewrite lookup_insert_ne by congruence. reflexivity.
Qed.

Lemma removeFirst_absent (gameID : string) (l : list string) :
  gameID ∉ l -> removeFirst gameID l = l.
Proof.
  induction l as [|x l IH]; intros Hnot; simpl; [reflexivity|].
  rewrite not_elem_of_cons in Hnot. destruct Hnot as [Hne Hnot].
  rewrite bool_decide_eq_false_2 by congruence.
  rewrite IH by exact Hnot. reflexivity.
Qed.

Lemma removeFirst_NoDup (gameID : string) (l : list string) :
  NoDup l ->
  NoDup (removeFirst gameID l) /\
  forall x, x ∈ removeFirst gameID l <-> x ∈ l /\ x <> gameID.
Proof.
  induction 1 as [|y l Hy Hnd IH]; simpl.
  - split; [constructor|]. intros x. rewrite elem_of_nil. tauto.
  - destruct IH as [IHnd IHel].
    destruct (bool_decide (y = gameID)) eqn:Hb.
    + apply bool_decide_eq_true in Hb. subst y. split; [exact Hnd|].
      intros x. rewrite elem_of_cons. split.
      * intros Hx. split; [tauto | congruence].
      * tauto.
    + apply bool_decide_eq_false in Hb. split.
      * constructor; [|exact IHnd]. rewrite IHel. tauto.
      * intros x. rewrite !elem_of_cons, IHel. split.
        -- intros [->|[? ?]]; tauto.
        -- tauto.
Qed.

Lemma Consistent_NewManager : Consistent NewManager.
Proof.
  split.
  - intros gameID g H. simpl in H. rewrite lookup_empty in H. discriminate.
  - intros playerID. unfold playerGames. simpl. rewrite lookup_empty. constructor.
  - intros playerID gameID. unfold playerGames. simpl.
    rewrite lookup_empty. simpl. rewrite elem_of_nil. split; [tauto|].
    intros (g & H & _). rewrite lookup_empty in H. discriminate.
Qed.

Lemma CreateGame_Consistent (m m' : Manager) (gameID name : string)
    (options : list GameOption) (r : Rng) (now : Z) (err : option string) :
  Consistent m -> CreateGame m gameID name options r now = (err, m') ->
  Consistent m'.
Proof.
  intros [Hs Hn Hm] H. unfold CreateGame in H.
  destruct (games m !! gameID) eqn:Hg.
  { injection H as _ <-. split; assumption. }
  injection H as _ <-. split.
  - intros gid g Hl. simpl in Hl.
    apply lookup_insert_Some in Hl as [[<- <-] | [Hne Hl]]; [|eauto].
    split; simpl; [constructor|].
    intros id. rewrite elem_of_nil, lookup_empty. split; [tauto|].
    intros [? ?]; discriminate.
  - exact Hn.
  - intros playerID gid.
    change (playerGames (mkManager _ (players m) _) playerID)
      with (playerGames m playerID).
    rewrite Hm. simpl. split.
    + intros (g & Hl & Hc). exists g. split; [|exact Hc].
      rewrite lookup_insert_ne; [exact Hl|]. intros ->. congruence.
    + intros (g & Hl & Hc).
      apply lookup_insert_Some in Hl as [[<- <-] | [Hne Hl]]; [|eauto].
      unfold connected in Hc. simpl in Hc. rewrite lookup_empty in Hc. discriminate.
Qed.

(** A table changed by a transition that seats nobody. *)
Lemma Consistent_replace (m : Manager) (gameID : string) (g g' : Game) :
  Consistent m -> games m !! gameID = Some g -> sameTable g g' ->
  Consistent (mkManager (<[gameID := g']> (games m)) (players m) (config m)).
Proof.
  intros [Hs Hn Hm] Hg [Hseats Hconn]. split.
  - intros gid g0 Hl. simpl in Hl.
    apply lookup_insert_Some in Hl as [[<- <-] | [Hne Hl]]; eauto.
  - exact Hn.
  - intros playerID gid.
    change (playerGames (mkManager _ (players m) _) playerID)
      with (playerGames m playerID).
    rewrite Hm. simpl.
    destruct (decide (gameID = gid)) as [<-|Hne].
    + rewrite lookup_insert_eq. split; intros (g0 & Hl & Hc).
      * exists g'. split; [reflexivity|]. rewrite Hconn. congruence.
      * injection Hl as <-. exists g. split; [exact Hg|].
        rewrite <- Hconn. exact Hc.
    + rewrite lookup_insert_ne by exact Hne. reflexivity.
Qed.

Lemma JoinGame_Consistent (m m' : Manager) (gameID playerID username : string)
    (buyIn now : Z) (err : option string) :
  Consistent m ->
  JoinGame m gameID playerID username buyIn now = Some (err, m') ->
  Consistent m'.
Proof.
  intros Hc H. unfold JoinGame in H.
  destruct (games m !! gameID) as [g|] eqn:Hg; [|injection H as _ <-; exact Hc].
  destruct (_ <=? _); [injection H as _ <-; exact Hc|].
  destruct (_ || _); [injection H as _ <-; exact Hc|].
  cbv zeta in H.
  destruct (_ =? -1); [injection H as _ <-; exact Hc|].
  destruct (AddPlayer g _ now) as [[e g']|] eqn:Hadd;
    cbn [mbind option_bind] in H; [|discriminate].
  destruct e; injection H as _ <-; [exact Hc|].
  apply AddPlayer_seats in Hadd as (Hnone & Hseats & Hconn).
  simpl in Hnone, Hconn.
  destruct Hc as [Hs Hn Hm].
  assert (Hnot : gameID ∉ playerGames m playerID).
  { intros Hin. apply Hm in Hin as (g0 & Hl & Hcn).
    rewrite Hg in Hl. injection Hl as <-.
    unfold connected in Hcn. rewrite Hnone in Hcn. discriminate. }
  split.
  - intros gid g0 Hl. simpl in Hl.
    apply lookup_insert_Some in Hl as [[<- <-] | [Hne Hl]]; eauto.
  - intros other. rewrite playerGames_insert.
    destruct (decide (other = playerID)); [|apply Hn].
    apply NoDup_app. split; [apply Hn|]. split; [|apply NoDup_singleton].
    intros x Hx Hx'. apply list_elem_of_singleton in Hx'. subst x. contradiction.
  - intros other gid. rewrite playerGames_insert. simpl games.
    destruct (decide (gameID = gid)) as [<-|Hne].
    + rewrite lookup_insert_eq.
      destruct (decide (other = playerID)) as [->|Hp].
      * split.
        -- intros _. exists g'. split; [reflexivity|].
           rewrite Hconn, decide_True by reflexivity. reflexivity.
        -- intros _. apply elem_of_app. right.
           apply list_elem_of_singleton. reflexivity.
      * rewrite Hm. split; intros (g0 & Hl & Hcn).
        -- rewrite Hg in Hl. injection Hl as <-. exists g'. split; [reflexivity|].
           rewrite Hconn, decide_False by exact Hp. exact Hcn.
        -- injection Hl as <-. exists g. split; [exact Hg|].
           rewrite Hconn, decide_False in Hcn by exact Hp. exact Hcn.
    + rewrite lookup_insert_ne by exact Hne.
      destruct (decide (other = playerID)) as [->|Hp]; [|apply Hm].
      rewrite <- Hm, elem_of_app, list_elem_of_singleton.
      split; [intros [?|?]; [assumption | congruence] | tauto].
Qed.

Lemma LeaveGame_Consistent (m m' : Manager) (gameID playerID : string)
    (now : Z) (err : option string) :
  Consistent m -> LeaveGame m gameID playerID now = Some (err, m') ->
  Consistent m'.
Proof.
  intros Hc H. unfold LeaveGame in H.
  destruct (games m !! gameID) as [g|] eqn:Hg; [|injection H as _ <-; exact Hc].
  destruct (RemovePlayer g playerID now) as [[e g']|] eqn:Hrem;
    cbn [mbind option_bind] in H; [|discriminate].
  destruct e; injection H as _ <-; [exact Hc|].
  apply RemovePlayer_seats in Hrem as [Hseats Hconn].
  destruct Hc as [Hs Hn Hm].
  set (games' := if (size (Players g') =? 0)%nat then delete gameID (games m)
                 else <[gameID := g']> (games m)).
  set (players' := if bool_decide (gameID ∈ playerGames m playerID)
                   then <[playerID := removeFirst gameID (playerGames m playerID)]>
                          (players m)
                   else players m).
  assert (Hlist : forall other,
             playerGames (mkManager games' players' (config m)) other
             = if decide (other = playerID)
               then removeFirst gameID (playerGames m playerID)
               else playerGames m other).
  { intros other. unfold players'.
    destruct (bool_decide (gameID ∈ playerGames m playerID)) eqn:Hb.
    - apply playerGames_insert.
    - apply bool_decide_eq_false in Hb.
      destruct (decide (other = playerID)) as [->|Hne]; [|reflexivity].
      rewrite removeFirst_absent by exact Hb. reflexivity. }
  assert (Hgames : forall gid g0,
             games' !! gid = Some g0 <->
             (gid = gameID /\ g0 = g' /\ size (Players g') <> 0%nat) \/
             (gid <> gameID /\ games m !! gid = Some g0)).
  { intros gid g0. unfold games'.
    destruct (size (Players g') =? 0)%nat eqn:Hsz.
    - apply Nat.eqb_eq in Hsz. rewrite lookup_delete_Some. split.
      + intros [Hne Hl]. right. split; [congruence | exact Hl].
      + intros [(_ & _ & Hx) | [Hne Hl]]; [contradiction|].
        split; [congruence | exact Hl].
    - apply Nat.eqb_neq in Hsz. rewrite lookup_insert_Some. split.
      + intros [[<- <-] | [Hne Hl]]; [left; auto | right; split; [congruence | exact Hl]].
      + intros [(-> & -> & _) | [Hne Hl]]; [left; auto | right; split; [congruence | exact Hl]]. }
  destruct (removeFirst_NoDup gameID _ (Hn playerID)) as [Hnd Hel].
  split.
  - intros gid g0 Hl. change (games' !! gid = Some g0) in Hl.
    apply Hgames in Hl as [(_ & -> & _) | [_ Hl]]; eauto.
  - intros other. rewrite Hlist.
    destruct (decide (other = playerID)); [exact Hnd | apply Hn].
  - intros other gid. rewrite Hlist.
    change (games (mkManager games' players' (config m))) with games'.
    split.
    + intros Hin.
      assert (Hold : gid ∈ playerGames m other /\ (other = playerID -> gid <> gameID)).
      { destruct (decide (other = playerID)) as [->|Hne].
        - apply Hel in Hin. tauto.
        - split; [exact Hin | contradiction]. }
      destruct Hold as [Hin' Hself].
      apply Hm in Hin' as (g0 & Hl & Hcn).
      destruct (decide (gid = gameID)) as [->|Hne].
      * rewrite Hg in Hl. injection Hl as <-.
        assert (Hp : other <> playerID) by (intros ->; apply Hself; reflexivity).
        assert (Hon : connected g' other = true).
        { rewrite Hconn, decide_False by exact Hp. exact Hcn. }
        exists g'. split; [|exact Hon]. apply Hgames. left.
        split; [reflexivity|]. split; [reflexivity|].
        intros Hsz. apply map_size_empty_iff in Hsz.
        unfold connected in Hon. rewrite Hsz, lookup_empty in Hon. discriminate.
      * exists g0. split; [|exact Hcn]. apply Hgames. right. tauto.
    + intros (g0 & Hl & Hcn).
      apply Hgames in Hl as [(-> & -> & _) | [Hne Hl]].
      * rewrite Hconn in Hcn.
        destruct (decide (other = playerID)) as [->|Hp]; [discriminate|].
        apply Hm. eauto.
      * assert (Hin : gid ∈ playerGames m other) by (apply Hm; eauto).
        destruct (decide (other = playerID)) as [->|Hp]; [|exact Hin].
        apply Hel. tauto.
Qed.

Lemma ProcessAction_Consistent (m m' : Manager) (gameID playerID : string)
    (action : PlayerAction) (amount now : Z) (err : option string) :
  Consistent m ->
  ProcessAction m gameID playerID action amount now = Some (err, m') ->
  Consistent m'.
Proof.
  intros Hc H. unfold ProcessAction in H.
  destruct (games m !! gameID) as [g|] eqn:Hg; [|injection H as _ <-; exact Hc].
  destruct (processAction g playerID action amount now) as [[e g']|] eqn:Hact;
    cbn [mbind option_bind] in H; [|discriminate].
  injection H as _ <-.
  apply processAction_sameTable in Hact.
  apply (Consistent_replace m gameID g g' Hc Hg Hact).
Qed.

Lemma CleanupInactiveGames_Consistent (m : Manager) (now : Z) :
  Consistent m -> Consistent (CleanupInactiveGames m now).
Proof.
  intros [Hs Hn Hm]. unfold CleanupInactiveGames. split.
  - intros gid g Hl. simpl in Hl.
    apply map_lookup_filter_Some in Hl as [Hl _]. eauto.
  - exact Hn.
  - intros playerID gid.
    change (playerGames (mkManager _ (players m) _) playerID)
      with (playerGames m playerID).
    rewrite Hm. simpl. split; intros (g & Hl & Hcn); exists g; (split; [|exact Hcn]).
    + apply map_lookup_filter_Some. split; [exact Hl|]. simpl.
      intros [_ Hsz]. apply map_size_empty_iff in Hsz.
      unfold connected in Hcn. rewrite Hsz, lookup_empty in Hcn. discriminate.
    + apply map_lookup_filter_Some in Hl as [Hl _]. exact Hl.
Qed.

Lemma NextHandTimer_Consistent (m m' : Manager) (gameID : string) :
  Consistent m -> NextHandTimer m gameID = Some m' -> Consistent m'.
Proof.
  intros Hc H. unfold NextHandTimer in H.
  destruct (games m !! gameID) as [g|] eqn:Hg; [|injection H as <-; exact Hc].
  destruct (nextHandTimer g) as [g'|] eqn:Ht; cbn [mbind option_bind] in H;
    [|discriminate].
  injection H as <-.
  apply nextHandTimer_roster, roster_sameTable in Ht.
  apply (Consistent_replace m gameID g g' Hc Hg Ht).
Qed.

Lemma reachable_Consistent (m : Manager) : reachable m -> Consistent m.
Proof.
  induction 1.
  - apply Consistent_NewManager.
  - eapply CreateGame_Consistent; eassumption.
  - eapply JoinGame_Consistent; eassumption.
  - eapply LeaveGame_Consistent; eassumption.
  - eapply ProcessAction_Consistent; eassumption.
  - apply CleanupInactiveGames_Consistent. assumption.
  - eapply NextHandTimer_Consistent; eassumption.
Qed.

Lemma lobby_reachable : reachable lobby.
Proof.
  apply (reach_CreateGame NewManager "table" "heads-up" [] fixedRng 0 None lobby).
  - apply reach_NewManager.
  - vm_compute. reflexivity.
Defined.

Lemma afterJoin_reachable : reachable afterJoin.
Proof.
  apply (reach_JoinGame lobby "table" "player1" "Alice" 10000 1 None afterJoin).
  - apply lobby_reachable.
  - vm_compute. reflexivity.
Defined.

Lemma afterLeave_reachable : reachable afterLeave.
Proof.
  apply (reach_LeaveGame afterJoin "table" "player1" 2 None afterLeave).
  - apply afterJoin_reachable.
  - vm_compute. reflexivity.
Defined.

(** C6 (counterexample).  A game is created, "player1" joins it and leaves
    it again.  [RemovePlayer] only marks the player as disconnected, so
    the seat order of the game still names "player1", while [LeaveGame]
    has taken the game out of the player's list: the seat order does not
    imply the membership. *)
Theorem leaver_keeps_the_seat :
  exists g,
    reachable afterLeave /\
    games afterLeave !! "table" = Some g /\
    PlayerOrder g = ["player1"] /\
    connected g "player1" = false /\
    playerGames afterLeave "player1" = [] /\
    ~ ("player1" ∈ PlayerOrder g <-> "table" ∈ playerGames afterLeave "player1").
Proof.
  eexists. split; [apply afterLeave_reachable|].
  split; [vm_compute; reflexivity|].
  split; [vm_compute; reflexivity|].
  split; [vm_compute; reflexivity|].
  assert (Hlist : playerGames afterLeave "player1" = []) by (vm_compute; reflexivity).
  split; [exact Hlist|].
  rewrite Hlist. intros [Hin _].
  apply (not_elem_of_nil "table"). apply Hin.
  simpl. apply list_elem_of_here.
Qed.

(** C6 (amended).  In every state reachable by the operations of the
    manager, a game is in the manager's list of games of a player if and
    only if the game exists and the player appears in its seat order as a
    connected player, that is, one who has not left the game. *)
Theorem membership_iff_connected_seat (m : Manager) (gameID playerID : string) :
  reachable m ->
  (gameID ∈ playerGames m playerID <->
   exists g, games m !! gameID = Some g /\
             playerID ∈ PlayerOrder g /\ connected g playerID = true).
Proof.
  intros Hreach. destruct (reachable_Consistent m Hreach) as [Hs Hn Hm].
  rewrite Hm. split.
  - intros (g & Hl & Hc). exists g. split; [exact Hl|]. split; [|exact Hc].
    apply (connected_seated g playerID (Hs gameID g Hl) Hc).
  - intros (g & Hl & _ & Hc). eauto.
Qed.

Lemma membership_iff_connected_seat_witness :
  reachable afterJoin /\
  ("table" ∈ playerGames afterJoin "player1" <->
   exists g, games afterJoin !! "table" = Some g /\
             "player1" ∈ PlayerOrder g /\ connected g "player1" = true).
Proof.
  split.
  - apply afterJoin_reachable.
  - apply (membership_iff_connected_seat afterJoin "table" "player1").
    apply afterJoin_reachable.
Defined.

End manager_facts.

(* ===================================================================== *)
(** ** More properties of package poker                                   *)
(* ===================================================================== *)

Module poker_more.
Import poker poker_facts.

(** *** The deck *)

Lemma insert_kicks_out {A : Type} (l : list A) : forall (i : nat) (x y : A),
  l !! i = Some y -> x :: l ≡ₚ y :: <[i := x]> l.
Proof.
  induction l as [|a l IH]; intros [|i] x y H; simpl in *; try discriminate.
  - injection H as ->. apply perm_swap.
  - rewrite (perm_swap a x l), (IH i x y H). apply perm_swap.
Qed.

Lemma swap_Permutation (l : list Card) (i j : nat) : swap l i j ≡ₚ l.
Proof.
  unfold swap.
  destruct (l !! i) as [a|] eqn:Hi; [|reflexivity].
  destruct (l !! j) as [b|] eqn:Hj; [|reflexivity].
  apply (Permutation_cons_inv (a := a)).
  assert (Hm : <[j := a]> l !! i = Some a).
  { destruct (decide (i = j)) as [->|Hne].
    - apply list_lookup_insert_eq. apply lookup_lt_is_Some_1. eauto.
    - rewrite list_lookup_insert_ne by congruence. exact Hi. }
  rewrite (insert_kicks_out l j a b Hj).
  symmetry. apply (insert_kicks_out _ i b a Hm).
Qed.

Lemma shuffle_loop_spec (i : nat) : forall cards r,
  fst (shuffle_loop i cards r) ≡ₚ cards /\
  draws (snd (shuffle_loop i cards r)) = draws r /\
  cursor (snd (shuffle_loop i cards r)) = (cursor r + i)%nat.
Proof.
  induction i as [|i IH]; intros cards r.
  - simpl. repeat split; [reflexivity | lia].
  - cbn [shuffle_loop]. unfold Intn.
    destruct (IH (swap cards (S i) (Z.to_nat (draws r (cursor r) mod (Z.of_nat (S i) + 1))))
                 (mkRng (draws r) (S (cursor r)))) as (Hp & Hd & Hc).
    split; [rewrite Hp; apply swap_Permutation|].
    split; [exact Hd | rewrite Hc; simpl; lia].
Qed.

Lemma Shuffle_spec (d : Deck) :
  Cards (Shuffle d) ≡ₚ Cards d /\
  draws (rng (Shuffle d)) = draws (rng d) /\
  cursor (rng (Shuffle d)) = (cursor (rng d) + (length (Cards d) - 1))%nat.
Proof.
  unfold Shuffle.
  pose proof (shuffle_loop_spec (length (Cards d) - 1) (Cards d) (rng d)) as H.
  destruct (shuffle_loop _ _ _) as [cards r']. exact H.
Qed.


Lemma fullPack_NoDup : NoDup fullPack.
Proof. refine (bool_decide_unpack (NoDup fullPack) _). vm_compute. exact I. Qed.

Lemma fullPack_valid (c : Card) : c ∈ fullPack <-> valid_card c.
Proof.
  unfold fullPack. rewrite list_elem_of_In, in_flat_map. split.
  - intros (suit & Hs & Hc). apply in_map_iff in Hc as (rank & <- & Hr).
    apply list_elem_of_In in Hs, Hr.
    unfold suits_asc in Hs. unfold ranks_asc in Hr.
    rewrite !elem_of_cons, elem_of_nil in Hs.
    rewrite !elem_of_cons, elem_of_nil in Hr.
    unfold valid_card, Two, Ace, Hearts, Spades. simpl. lia.
  - intros [Hr Hs]. exists (Suit c). split.
    + apply list_elem_of_In. unfold suits_asc, Hearts, Spades in *.
      rewrite !elem_of_cons, elem_of_nil. lia.
    + apply in_map_iff. exists (Rank c). split; [destruct c; reflexivity|].
      apply list_elem_of_In. unfold ranks_asc, Two, Ace in *.
      rewrite !elem_of_cons, elem_of_nil. lia.
Qed.

(** X2.  A new deck and a reset deck are full packs: 52 cards, no card
    twice, and a card is in the deck exactly if its rank is 2..14 and its
    suit one of the four.  [Reset] gives this whatever the deck held
    before and whatever the random source yields. *)
Theorem Reset_is_a_full_pack (d : Deck) (r : Rng) :
  (length (Cards (Reset d)) = 52%nat /\ NoDup (Cards (Reset d)) /\
   forall c, c ∈ Cards (Reset d) <-> valid_card c) /\
  (length (Cards (NewDeck r)) = 52%nat /\ NoDup (Cards (NewDeck r)) /\
   forall c, c ∈ Cards (NewDeck r) <-> valid_card c).
Proof.
  assert (Hperm : Cards (Reset d) ≡ₚ fullPack).
  { unfold Reset. apply (Shuffle_spec (mkDeck fullPack (rng d))). }
  split.
  - split; [rewrite Hperm; reflexivity|].
    split; [rewrite Hperm; apply fullPack_NoDup|].
    intros c. rewrite Hperm. apply fullPack_valid.
  - split; [reflexivity|]. split; [apply fullPack_NoDup | apply fullPack_valid].
Qed.

Lemma DealMultiple_take (d : Deck) (n : Z) :
  0 <= n <= Remaining d ->
  DealMultiple d n =
    Some ((Some (take (Z.to_nat n) (Cards d)), None),
          mkDeck (drop (Z.to_nat n) (Cards d)) (rng d)).
Proof.
  unfold Remaining, DealMultiple. intros Hn.
  destruct (Z.ltb_spec (Z.of_nat (length (Cards d))) n); [lia|].
  destruct (Z.ltb_spec n 0); [lia|].
  rewrite dealLoop_take by lia. reflexivity.
Qed.

(** X3.  Dealing composes: on a deck that holds [n + m] cards or more,
    dealing [n] cards and then [m] succeeds twice and leaves the same deck
    and, taken together, the same cards in the same order as dealing
    [n + m] at once. *)
Theorem DealMultiple_compose (d : Deck) (n m : Z) :
  0 <= n -> 0 <= m -> n + m <= Remaining d ->
  exists first second d1 d2,
    DealMultiple d n = Some ((Some first, None), d1) /\
    DealMultiple d1 m = Some ((Some second, None), d2) /\
    DealMultiple d (n + m) = Some ((Some (first ++ second), None), d2) /\
    Remaining d2 = Remaining d - (n + m).
Proof.
  intros Hn Hm Hlen.
  exists (take (Z.to_nat n) (Cards d)),
         (take (Z.to_nat m) (drop (Z.to_nat n) (Cards d))),
         (mkDeck (drop (Z.to_nat n) (Cards d)) (rng d)),
         (mkDeck (drop (Z.to_nat (n + m)) (Cards d)) (rng d)).
  unfold Remaining in Hlen.
  split; [apply DealMultiple_take; unfold Remaining; lia|].
  split.
  { rewrite DealMultiple_take.
    - simpl. rewrite drop_drop, <- Z2Nat.inj_add by lia. reflexivity.
    - unfold Remaining. simpl. rewrite length_drop. lia. }
  split.
  { rewrite DealMultiple_take by (unfold Remaining; lia).
    rewrite take_take_drop, <- Z2Nat.inj_add by lia. reflexivity. }
  unfold Remaining. simpl. rewrite length_drop. lia.
Qed.

Definition fourAces : Deck :=
  mkDeck [NewCard Ace Spades; NewCard Ace Hearts; NewCard Ace Diamonds;
          NewCard Ace Clubs] (mkRng (fun _ => 0) 0).

Lemma DealMultiple_compose_witness :
  exists first second d1 d2,
    DealMultiple fourAces 1 = Some ((Some first, None), d1) /\
    DealMultiple d1 2 = Some ((Some second, None), d2) /\
    DealMultiple fourAces (1 + 2) = Some ((Some (first ++ second), None), d2) /\
    Remaining d2 = Remaining fourAces - (1 + 2).
Proof.
  apply (DealMultiple_compose fourAces 1 2); [lia | lia | vm_compute; discriminate].
Defined.

(** *** The cards of a hand *)

Lemma evaluate_HCards (cards : list Card) (h : Hand) :
  evaluate cards = Some h -> HCards h = cards.
Proof.
  unfold evaluate. intros H.
  destruct (countCards _ _ _) as [[ranks suits]|]; cbn [mbind option_bind] in H;
    [|discriminate].
  destruct (checkStraight ranks) as [isStraight straightHigh].
  remember (classify ranks) as g eqn:Hg. clear Hg.
  remember (existsb (Z.eqb 5) suits) as isFlush eqn:Hf. clear Hf.
  destruct g as [q t p s]. cbn [quads trips pairs singles] in H.
  repeat match type of H with
  | (if ?c then _ else _) = _ => destruct c
  | mbind _ ?x = _ => destruct x; cbn [mbind option_bind] in H; [|discriminate]
  end; injection H as <-; reflexivity.
Qed.

(** Descending by rank. *)
Definition rankDesc (a b : Card) : Prop := Rank b <= Rank a.

Lemma insertDesc_sorted (c : Card) (l : list Card) :
  StronglySorted rankDesc l -> StronglySorted rankDesc (insertDesc c l).
Proof.
  induction 1 as [|x xs Hs IH Hx]; simpl.
  - repeat constructor.
  - destruct (Z.ltb_spec (Rank c) (Rank x)).
    + constructor; [exact IH|].
      rewrite (insertDesc_perm c xs). constructor; [unfold rankDesc; lia | exact Hx].
    + constructor; [constructor; assumption|].
      constructor; [unfold rankDesc; lia|].
      eapply Forall_impl; [exact Hx|]. unfold rankDesc. intros; lia.
Qed.

Lemma sortDesc_sorted (l : list Card) : StronglySorted rankDesc (sortDesc l).
Proof.
  induction l as [|x xs IH]; simpl; [constructor | apply insertDesc_sorted, IH].
Qed.

(** X4.  [NewHand] refuses anything but five cards (it panics); of five
    cards of the pack it makes a hand whose [Cards] are the same five
    cards, ordered by descending rank. *)
Theorem NewHand_sorts_its_cards (cards : list Card) :
  (length cards <> 5%nat -> NewHand cards = None) /\
  (length cards = 5%nat -> Forall valid_card cards ->
   exists h, NewHand cards = Some h /\
             HCards h ≡ₚ cards /\ StronglySorted rankDesc (HCards h)).
Proof.
  split.
  - intros Hlen. unfold NewHand.
    destruct (Nat.eqb_spec (length cards) 5); [contradiction | reflexivity].
  - intros Hlen Hvalid.
    destruct (NewHand_total cards Hlen Hvalid) as [h Hh]. exists h.
    split; [exact Hh|]. unfold NewHand in Hh. rewrite Hlen in Hh. simpl in Hh.
    apply evaluate_HCards in Hh. rewrite Hh.
    split; [apply sortDesc_perm | apply sortDesc_sorted].
Qed.

Definition mixedFive : list Card :=
  [NewCard Four Clubs; NewCard King Hearts; NewCard Two Spades;
   NewCard King Spades; NewCard Nine Diamonds].

Lemma NewHand_sorts_its_cards_witness :
  exists h, NewHand mixedFive = Some h /\
            HCards h ≡ₚ mixedFive /\ StronglySorted rankDesc (HCards h).
Proof.
  apply (proj2 (NewHand_sorts_its_cards mixedFive)).
  - reflexivity.
  - unfold mixedFive, valid_card. repeat constructor; simpl; vm_compute; discriminate.
Defined.

(** *** The enumeration of combinations *)

(** The selections of [k] elements of a list, those with the first
    element first. *)
Fixpoint selections (k : nat) (l : list Card) : list (list Card) :=
  match k, l with
  | O, _ => [[]]
  | S _, [] => []
  | S k', c :: l' => map (cons c) (selections k' l') ++ selections k l'
  end.

(** The number of selections: the binomial coefficient. *)
Fixpoint choose (n k : nat) : nat :=
  match k, n with
  | O, _ => 1
  | S _, O => 0
  | S k', S n' => choose n' k' + choose n' k
  end.

(** The inner loop of one call of [backtrack]. *)
Definition backtrackLoop (r : nat) (current : list Card)
  : list Card -> list (list Card) :=
  fix loop (rest : list Card) : list (list Card) :=
    match rest with
    | [] => []
    | c :: rest' => backtrack r rest' (current ++ [c]) ++ loop rest'
    end.

Lemma backtrack_unfold (r : nat) (rest current : list Card) :
  backtrack r rest current =
    if (length current =? r)%nat then [current] else backtrackLoop r current rest.
Proof. destruct rest; reflexivity. Qed.

Lemma backtrack_selections (r : nat) (rest : list Card) : forall current,
  ((length current <= r)%nat ->
   backtrack r rest current =
     map (app current) (selections (r - length current) rest)) /\
  ((length current < r)%nat ->
   backtrackLoop r current rest =
     map (app current) (selections (r - length current) rest)).
Proof.
  induction rest as [|c rest IH]; intros current.
  - assert (Hloop : (length current < r)%nat ->
              backtrackLoop r current [] =
                map (app current) (selections (r - length current) [])).
    { intros Hlt. destruct (r - length current)%nat eqn:Hk; [lia | reflexivity]. }
    split; [|exact Hloop].
    intros Hle. rewrite backtrack_unfold.
    destruct (Nat.eqb_spec (length current) r) as [->|Hne].
    + rewrite Nat.sub_diag. simpl. rewrite app_nil_r. reflexivity.
    + apply Hloop. lia.
  - assert (Hloop : (length current < r)%nat ->
              backtrackLoop r current (c :: rest) =
                map (app current) (selections (r - length current) (c :: rest))).
    { intros Hlt. simpl.
      destruct (IH (current ++ [c])) as [Hb _].
      destruct (IH current) as [_ Hl].
      rewrite Hb by (rewrite length_app; simpl; lia).
      rewrite Hl by exact Hlt.
      rewrite length_app. simpl length.
      destruct (r - length current)%nat as [|k] eqn:Hk; [lia|].
      replace (r - (length current + 1))%nat with k by lia.
      simpl. rewrite map_app, map_map. f_equal.
      apply map_ext. intros x. rewrite <- app_assoc. reflexivity. }
    split; [|exact Hloop].
    intros Hle. rewrite backtrack_unfold.
    destruct (Nat.eqb_spec (length current) r) as [->|Hne].
    + rewrite Nat.sub_diag. simpl. rewrite app_nil_r. reflexivity.
    + apply Hloop. lia.
Qed.

Lemma generateCombinations_selections (cards : list Card) (r : nat) :
  generateCombinations cards r = selections r cards.
Proof.
  unfold generateCombinations.
  destruct (backtrack_selections r cards []) as [H _].
  rewrite H by (simpl; lia). simpl. rewrite Nat.sub_0_r.
  rewrite <- (map_id (selections r cards)) at 2. apply map_ext. reflexivity.
Qed.

Lemma selections_elem (l : list Card) : forall (k : nat) (sub : list Card),
  sub ∈ selections k l <-> sublist sub l /\ length sub = k.
Proof.
  induction l as [|c l IH]; intros k sub.
  - destruct k; simpl.
    + rewrite list_elem_of_singleton, sublist_nil_r. split.
      * intros ->. split; reflexivity.
      * tauto.
    + rewrite elem_of_nil, sublist_nil_r. split; [tauto|].
      intros [-> H]. discriminate.
  - destruct k; simpl.
    + rewrite list_elem_of_singleton. split.
      * intros ->. split; [apply sublist_nil_l | reflexivity].
      * intros [_ H]. destruct sub; [reflexivity | discriminate].
    + rewrite elem_of_app, list_elem_of_In, in_map_iff, sublist_cons_r. split.
      * intros [(x & <- & Hx) | Hsub].
        -- apply list_elem_of_In, IH in Hx as [Hx Hlen].
           split; [right; eauto | simpl; lia].
        -- apply IH in Hsub as [Hsub Hlen]. split; [left; exact Hsub | exact Hlen].
      * intros [[Hsub | (x & -> & Hx)] Hlen].
        -- right. apply IH. split; assumption.
        -- left. exists x. split; [reflexivity|].
           apply list_elem_of_In, IH. split; [exact Hx | simpl in Hlen; lia].
Qed.

Lemma selections_length (l : list Card) : forall k : nat,
  length (selections k l) = choose (length l) k.
Proof.
  induction l as [|c l IH]; intros [|k]; simpl; try reflexivity.
  rewrite length_app, length_map, !IH. reflexivity.
Qed.

Lemma selections_NoDup (l : list Card) : forall k : nat,
  NoDup l -> NoDup (selections k l).
Proof.
  induction l as [|c l IH]; intros [|k] Hnd; simpl;
    try (apply NoDup_singleton); try constructor.
  inversion Hnd as [|? ? Hc Hnd']; subst.
  apply NoDup_app. split; [|split; [|apply IH; exact Hnd']].
  - apply (NoDup_fmap_2 (cons c)). apply IH. exact Hnd'.
  - intros x Hx Hx'.
    apply list_elem_of_In, in_map_iff in Hx as (y & <- & _).
    apply selections_elem in Hx' as [Hsub _].
    apply Hc. eapply elem_of_sublist; [|exact Hsub]. left.
Qed.

(** X5.  [generateCombinations cards r] lists the [r]-card selections of
    [cards], each exactly once per choice of positions: a list is in the
    result if and only if it has [r] cards and is obtained from [cards]
    by leaving cards out (the order kept); the result has "length of
    cards choose r" entries; and if no card occurs twice in [cards], no
    selection occurs twice in the result. *)
Theorem generateCombinations_enumerates (cards : list Card) (r : nat) :
  (forall sub, sub ∈ generateCombinations cards r <->
               sublist sub cards /\ length sub = r) /\
  length (generateCombinations cards r) = choose (length cards) r /\
  (NoDup cards -> NoDup (generateCombinations cards r)).
Proof.
  rewrite generateCombinations_selections.
  split; [intros sub; apply selections_elem|].
  split; [apply selections_length | apply selections_NoDup].
Qed.

(** *** Straights *)

(** The rank occurs among the counted cards. *)
Definition present (ranks : list Z) (rank : Z) : bool := 0 <? rankCount ranks rank.

(** Five consecutive ranks, from [high] down, all occur. *)
Definition runFrom (ranks : list Z) (high : Z) : bool :=
  present ranks high && present ranks (high - 1) && present ranks (high - 2)
  && present ranks (high - 3) && present ranks (high - 4).

Definition wheel (ranks : list Z) : bool :=
  present ranks Ace && present ranks Two && present ranks Three
  && present ranks Four && present ranks Five.

Definition tops : list Z := [14; 13; 12; 11; 10; 9; 8; 7; 6].

Lemma checkStraight_find (ranks : list Z) :
  checkStraight ranks =
    match find (runFrom ranks) tops with
    | Some high => (true, high)
    | None => if wheel ranks then (true, Five) else (false, 0)
    end.
Proof.
  unfold checkStraight, wheel, tops, runFrom, ranks_desc, Ace, Two, Three, Four, Five.
  cbn [find straightScan]. unfold present.
  repeat match goal with
  | |- context [rankCount ranks (?a - ?b)] =>
      let v := eval vm_compute in (a - b) in change (a - b) with v
  end.
  generalize (0 <? rankCount ranks 14), (0 <? rankCount ranks 13),
    (0 <? rankCount ranks 12), (0 <? rankCount ranks 11), (0 <? rankCount ranks 10),
    (0 <? rankCount ranks 9), (0 <? rankCount ranks 8), (0 <? rankCount ranks 7),
    (0 <? rankCount ranks 6), (0 <? rankCount ranks 5), (0 <? rankCount ranks 4),
    (0 <? rankCount ranks 3), (0 <? rankCount ranks 2).
  intros b14 b13 b12 b11 b10 b9 b8 b7 b6 b5 b4 b3 b2.
  destruct b14, b13, b12, b11, b10, b9, b8, b7, b6, b5, b4, b3, b2; reflexivity.
Qed.

Lemma find_first {A : Type} (f : A -> bool) (l : list A) (x : A) :
  find f l = Some x ->
  exists pre post, l = pre ++ x :: post /\ f x = true /\
                   Forall (fun y => f y = false) pre.
Proof.
  induction l as [|a l IH]; simpl; [discriminate|].
  destruct (f a) eqn:Ha.
  - intros H. injection H as <-. exists [], l. repeat split; [exact Ha | constructor].
  - intros H. destruct (IH H) as (pre & post & -> & Hx & Hpre).
    exists (a :: pre), post. repeat split; [exact Hx | constructor; assumption].
Qed.

Lemma find_nothing {A : Type} (f : A -> bool) (l : list A) :
  find f l = None -> Forall (fun y => f y = false) l.
Proof.
  induction l as [|a l IH]; simpl; [constructor|].
  destruct (f a) eqn:Ha; [discriminate|]. intros H. constructor; auto.
Qed.

Lemma tops_range (h : Z) : h ∈ tops <-> 6 <= h <= 14.
Proof. unfold tops. rewrite !elem_of_cons, elem_of_nil. lia. Qed.

(** In [tops], what stands before a rank is what is greater. *)
Lemma tops_before (pre post : list Z) (h h' : Z) :
  tops = pre ++ h :: post -> h < h' <= 14 -> 6 <= h -> h' ∈ pre.
Proof.
  intros Hsplit Hh' Hh.
  assert (Hin : h' ∈ tops) by (apply tops_range; lia).
  assert (Hsorted : StronglySorted Z.gt tops).
  { unfold tops. repeat constructor; lia. }
  rewrite Hsplit in Hin, Hsorted.
  apply elem_of_app in Hin as [Hin | Hin]; [exact Hin|].
  apply elem_of_cons in Hin as [-> | Hin]; [lia|].
  apply StronglySorted_app_1_r in Hsorted.
  apply StronglySorted_inv in Hsorted as [_ Hall].
  rewrite Forall_forall in Hall. specialize (Hall h' Hin). lia.
Qed.

(** The Boolean tests as propositions. *)
Definition occurs (ranks : list Z) (rank : Z) : Prop := 0 < rankCount ranks rank.

Definition isRun (ranks : list Z) (high : Z) : Prop :=
  occurs ranks high /\ occurs ranks (high - 1) /\ occurs ranks (high - 2) /\
  occurs ranks (high - 3) /\ occurs ranks (high - 4).

Definition isWheel (ranks : list Z) : Prop :=
  occurs ranks 14 /\ occurs ranks 2 /\ occurs ranks 3 /\ occurs ranks 4 /\
  occurs ranks 5.

Lemma runFrom_isRun (ranks : list Z) (h : Z) : runFrom ranks h = true <-> isRun ranks h.
Proof.
  unfold runFrom, isRun, present, occurs.
  rewrite !andb_true_iff, !Z.ltb_lt. tauto.
Qed.

Lemma wheel_isWheel (ranks : list Z) : wheel ranks = true <-> isWheel ranks.
Proof.
  unfold wheel, isWheel, present, occurs, Ace, Two, Three, Four, Five.
  rewrite !andb_true_iff, !Z.ltb_lt. tauto.
Qed.

Lemma no_run_above (ranks : list Z) (pre : list Z) :
  Forall (fun y => runFrom ranks y = false) pre ->
  forall h', h' ∈ pre -> ~ isRun ranks h'.
Proof.
  intros Hall h' Hin Hrun. rewrite Forall_forall in Hall.
  specialize (Hall h' Hin).
  apply runFrom_isRun in Hrun. congruence.
Qed.

(** X6.  [checkStraight] reports the highest straight that the counted
    ranks hold.  It answers (true, h) with 6 <= h <= 14 exactly if the five
    ranks h, h-1, ..., h-4 all occur and no higher such run does; it
    answers (true, 5) exactly if there is no such run but ace, 2, 3, 4 and
    5 all occur (the wheel, whose high card is the five); otherwise it
    answers (false, 0). *)
Theorem checkStraight_highest_run (ranks : list Z) :
  (forall h, checkStraight ranks = (true, h) <->
     (6 <= h <= 14 /\ isRun ranks h /\
      forall h', h < h' <= 14 -> ~ isRun ranks h') \/
     (h = 5 /\ isWheel ranks /\ forall h', 6 <= h' <= 14 -> ~ isRun ranks h')) /\
  (checkStraight ranks = (false, 0) <->
     ~ isWheel ranks /\ forall h', 6 <= h' <= 14 -> ~ isRun ranks h') /\
  (fst (checkStraight ranks) = false -> checkStraight ranks = (false, 0)).
Proof.
  rewrite checkStraight_find.
  destruct (find (runFrom ranks) tops) as [top|] eqn:Hfind.
  - destruct (find_first _ _ _ Hfind) as (pre & post & Hsplit & Htop & Hpre).
    assert (Hrange : 6 <= top <= 14).
    { apply tops_range. rewrite Hsplit. apply elem_of_app. right. left. }
    apply runFrom_isRun in Htop.
    assert (Habove : forall h', top < h' <= 14 -> ~ isRun ranks h').
    { intros h' Hh'. apply (no_run_above ranks pre Hpre).
      apply (tops_before pre post top h' Hsplit Hh'). lia. }
    split; [|split].
    + intros h. split.
      * intros H. injection H as <-. left. auto.
      * intros [(Hh & Hrun & Hmax) | (-> & _ & Hnone)].
        -- destruct (Z.lt_trichotomy h top) as [Hlt | [-> | Hgt]]; [|reflexivity|].
           ++ exfalso. apply (Hmax top); [lia | exact Htop].
           ++ exfalso. apply (Habove h); [lia | exact Hrun].
        -- exfalso. apply (Hnone top Hrange Htop).
    + split; [discriminate|]. intros [_ Hnone]. exfalso. apply (Hnone top Hrange Htop).
    + discriminate.
  - apply find_nothing in Hfind.
    assert (Hnone : forall h', 6 <= h' <= 14 -> ~ isRun ranks h').
    { intros h' Hh'. apply (no_run_above ranks tops Hfind). apply tops_range. exact Hh'. }
    destruct (wheel ranks) eqn:Hw.
    + apply wheel_isWheel in Hw. split; [|split].
      * intros h. split.
        -- intros H. injection H as <-. right. auto.
        -- intros [(Hh & Hrun & _) | (-> & _ & _)]; [|reflexivity].
           exfalso. apply (Hnone h Hh Hrun).
      * split; [discriminate | tauto].
      * discriminate.
    + assert (Hnw : ~ isWheel ranks).
      { intros Hx. apply wheel_isWheel in Hx. congruence. }
      split; [|split].
      * intros h. split; [discriminate|].
        intros [(Hh & Hrun & _) | (_ & Hx & _)]; [|contradiction].
        exfalso. apply (Hnone h Hh Hrun).
      * split; [auto | reflexivity].
      * reflexivity.
Qed.


(** *** The category of a hand *)

(** How many of the cards have the rank, and how many the suit. *)
Definition holds (cards : list Card) (rank : Z) : nat :=
  length (filter (fun c => Rank c = rank) cards).

Definition suited (cards : list Card) (suit : Z) : nat :=
  length (filter (fun c => Suit c = suit) cards).

Definition has (cards : list Card) (rank : Z) : Prop := (0 < holds cards rank)%nat.

Definition isFlushOf (cards : list Card) : Prop :=
  exists suit, Forall (fun c => Suit c = suit) cards.

(** The five ranks from [high] down all occur. *)
Definition straightTo (cards : list Card) (high : Z) : Prop :=
  has cards high /\ has cards (high - 1) /\ has cards (high - 2) /\
  has cards (high - 3) /\ has cards (high - 4).

(** Ace, two, three, four, five. *)
Definition isWheelOf (cards : list Card) : Prop :=
  has cards 14 /\ has cards 2 /\ has cards 3 /\ has cards 4 /\ has cards 5.

Definition isStraightOf (cards : list Card) : Prop :=
  (exists high, 6 <= high <= 14 /\ straightTo cards high) \/ isWheelOf cards.

(** What each category says about five cards. *)
Definition category (cards : list Card) (hr : HandRank) : Prop :=
  match hr with
  | RoyalFlush => isFlushOf cards /\ straightTo cards 14
  | StraightFlush =>
      isFlushOf cards /\
      ((exists high, 6 <= high <= 13 /\ straightTo cards high) \/ isWheelOf cards)
  | FourOfAKind => exists r, holds cards r = 4%nat
  | FullHouse => exists r r', holds cards r = 3%nat /\ holds cards r' = 2%nat
  | Flush => isFlushOf cards /\ ~ isStraightOf cards
  | Straight => isStraightOf cards /\ ~ isFlushOf cards
  | ThreeOfAKind =>
      (exists r, holds cards r = 3%nat) /\ forall r', holds cards r' <> 2%nat
  | TwoPair => exists r r', r <> r' /\ holds cards r = 2%nat /\ holds cards r' = 2%nat
  | OnePair =>
      exists r, holds cards r = 2%nat /\ forall r', r' <> r -> (holds cards r' <= 1)%nat
  | HighCard =>
      (forall r, (holds cards r <= 1)%nat) /\ ~ isFlushOf cards /\ ~ isStraightOf cards
  end.

Lemma holds_cons (c : Card) (cards : list Card) (r : Z) :
  holds (c :: cards) r = ((if decide (Rank c = r) then 1 else 0) + holds cards r)%nat.
Proof. unfold holds. rewrite filter_cons. destruct (decide (Rank c = r)); reflexivity. Qed.

Lemma suited_cons (c : Card) (cards : list Card) (s : Z) :
  suited (c :: cards) s = ((if decide (Suit c = s) then 1 else 0) + suited cards s)%nat.
Proof. unfold suited. rewrite filter_cons. destruct (decide (Suit c = s)); reflexivity. Qed.

Lemma incr_count (counts counts' : list Z) (i r : Z) :
  incr counts i = Some counts' -> 0 <= r ->
  length counts' = length counts /\
  rankCount counts' r = rankCount counts r + (if decide (i = r) then 1 else 0).
Proof.
  unfold incr. intros H Hr.
  destruct (Z.leb_spec 0 i) as [Hi|]; [|discriminate].
  destruct (counts !! Z.to_nat i) as [n|] eqn:Hn; simpl in H; [|discriminate].
  injection H as <-. split; [apply length_insert|].
  rewrite (rankCount_insert _ _ n) by assumption.
  destruct (decide (Z.to_nat r = Z.to_nat i)) as [E|E];
    destruct (decide (i = r)) as [E'|E']; try lia.
  subst r. unfold rankCount. rewrite Hn. simpl. lia.
Qed.

(** The two arrays of [evaluate] count the cards by rank and by suit. *)
Lemma countCards_counts (cards : list Card) : forall ranks suits ranks' suits',
  countCards cards ranks suits = Some (ranks', suits') ->
  length ranks' = length ranks /\ length suits' = length suits /\
  (forall r, 0 <= r -> rankCount ranks' r = rankCount ranks r + Z.of_nat (holds cards r)) /\
  (forall s, 0 <= s -> rankCount suits' s = rankCount suits s + Z.of_nat (suited cards s)).
Proof.
  induction cards as [|c rest IH]; intros ranks suits ranks' suits' H; simpl in H.
  - injection H as <- <-. repeat split; intros; unfold holds, suited; simpl; lia.
  - destruct (incr ranks (Rank c)) as [ranks1|] eqn:Hr; simpl in H; [|discriminate].
    destruct (incr suits (Suit c)) as [suits1|] eqn:Hs; simpl in H; [|discriminate].
    destruct (IH _ _ _ _ H) as (Hlr & Hls & Hrank & Hsuit).
    split; [|split; [|split]].
    + rewrite Hlr. apply (incr_count ranks ranks1 (Rank c) 0 Hr). lia.
    + rewrite Hls. apply (incr_count suits suits1 (Suit c) 0 Hs). lia.
    + intros r H0. rewrite (Hrank r H0), holds_cons.
      destruct (incr_count ranks ranks1 (Rank c) r Hr H0) as [_ ->].
      destruct (decide (Rank c = r)); lia.
    + intros s H0. rewrite (Hsuit s H0), suited_cons.
      destruct (incr_count suits suits1 (Suit c) s Hs H0) as [_ ->].
      destruct (decide (Suit c = s)); lia.
Qed.

Lemma rankCount_zeros (n : nat) (r : Z) : rankCount (replicate n 0) r = 0.
Proof.
  unfold rankCount. destruct (replicate n 0 !! Z.to_nat r) as [x|] eqn:H; [|reflexivity].
  apply lookup_replicate in H as [-> _]. reflexivity.
Qed.

Lemma has_elem (cards : list Card) (r : Z) :
  has cards r <-> exists c, c ∈ cards /\ Rank c = r.
Proof.
  unfold has, holds. split.
  - intros H. destruct (filter (fun c => Rank c = r) cards) as [|c l] eqn:E;
      [simpl in H; lia|].
    assert (Hin : c ∈ filter (fun c => Rank c = r) cards) by (rewrite E; left).
    apply list_elem_of_filter in Hin as [Hr Hin]. eauto.
  - intros (c & Hin & Hr).
    assert (Hc : c ∈ filter (fun c => Rank c = r) cards)
      by (apply list_elem_of_filter; auto).
    destruct (filter (fun c => Rank c = r) cards); [inversion Hc | simpl; lia].
Qed.

Lemma holds_valid (cards : list Card) (r : Z) :
  Forall valid_card cards -> (0 < holds cards r)%nat -> Two <= r <= Ace.
Proof.
  intros Hvalid H. apply has_elem in H as (c & Hin & <-).
  rewrite Forall_forall in Hvalid. apply (Hvalid c Hin).
Qed.

(** Of one rank there are four cards in the pack. *)
Lemma holds_le_4 (cards : list Card) (r : Z) :
  NoDup cards -> Forall valid_card cards -> (holds cards r <= 4)%nat.
Proof.
  intros Hnd Hvalid. unfold holds.
  change 4%nat with (length [NewCard r 0; NewCard r 1; NewCard r 2; NewCard r 3]).
  apply submseteq_length. apply NoDup_submseteq; [apply NoDup_filter; exact Hnd|].
  intros [rank suit] Hin. apply list_elem_of_filter in Hin as [Hr Hin].
  rewrite Forall_forall in Hvalid. destruct (Hvalid _ Hin) as [_ Hs].
  simpl in Hr, Hs. subst rank. unfold Hearts, Spades in Hs.
  rewrite !elem_of_cons.
  assert (suit = 0 \/ suit = 1 \/ suit = 2 \/ suit = 3) as [-> | [-> | [-> | ->]]] by lia;
    auto.
Qed.

Lemma holds_two (cards : list Card) (r r' : Z) :
  r <> r' -> (holds cards r + holds cards r' <= length cards)%nat.
Proof.
  intros Hne. induction cards as [|c rest IH]; [reflexivity|].
  rewrite !holds_cons. simpl length.
  destruct (decide (Rank c = r)), (decide (Rank c = r')); lia.
Qed.

(** All five of one suit. *)
Lemma suited_all (cards : list Card) (s : Z) :
  suited cards s = length cards <-> Forall (fun c => Suit c = s) cards.
Proof.
  unfold suited. induction cards as [|c rest IH].
  - split; [constructor | reflexivity].
  - rewrite filter_cons. pose proof (length_filter (fun c => Suit c = s) rest) as Hle.
    destruct (decide (Suit c = s)) as [E|E]; simpl.
    + rewrite Forall_cons. split.
      * intros H. split; [exact E | apply IH; lia].
      * intros [_ H]. apply IH in H. lia.
    + split; [lia|]. intros H. apply Forall_cons in H as [H _]. contradiction.
Qed.

(** The arrays count these cards. *)
Record Counted (cards : list Card) (ranks suits : list Z) : Prop := mkCounted {
  cnt_rank : forall r, 0 <= r -> rankCount ranks r = Z.of_nat (holds cards r);
  cnt_suit : forall s, 0 <= s -> rankCount suits s = Z.of_nat (suited cards s);
  cnt_suits : length suits = 4%nat
}.

Lemma countCards_Counted (cards : list Card) (ranks suits : list Z) :
  countCards cards (replicate 15 0) (replicate 4 0) = Some (ranks, suits) ->
  Counted cards ranks suits.
Proof.
  intros H. destruct (countCards_counts _ _ _ _ _ H) as (_ & Hls & Hr & Hs).
  split.
  - intros r H0. rewrite (Hr r H0), rankCount_zeros. lia.
  - intros s H0. rewrite (Hs s H0), rankCount_zeros. lia.
  - rewrite Hls. reflexivity.
Qed.

Lemma isFlush_spec (cards : list Card) (ranks suits : list Z) :
  Counted cards ranks suits -> length cards = 5%nat -> Forall valid_card cards ->
  existsb (Z.eqb 5) suits = true <-> isFlushOf cards.
Proof.
  intros [_ Hsuit Hlen] H5 Hvalid. rewrite existsb_exists. split.
  - intros (x & Hin & Hx). apply Z.eqb_eq in Hx. subst x.
    apply list_elem_of_In, list_elem_of_lookup in Hin as [i Hi].
    exists (Z.of_nat i). apply suited_all. rewrite H5.
    pose proof (Hsuit (Z.of_nat i) (Nat2Z.is_nonneg i)) as Hc.
    unfold rankCount in Hc. rewrite Nat2Z.id, Hi in Hc. simpl in Hc. lia.
  - intros [s Hall]. exists 5. split; [|reflexivity].
    assert (Hs : 0 <= s <= 3).
    { destruct cards as [|c rest]; [discriminate|].
      apply Forall_cons in Hall as [<- _]. apply Forall_cons in Hvalid as [[_ Hc] _].
      exact Hc. }
    apply suited_all in Hall. rewrite H5 in Hall.
    pose proof (Hsuit s (proj1 Hs)) as Hc. rewrite Hall in Hc. unfold rankCount in Hc.
    destruct (lookup_lt_is_Some_2 suits (Z.to_nat s)) as [v Hv]; [lia|].
    rewrite Hv in Hc. simpl in Hc. subst v.
    apply list_elem_of_In. apply list_elem_of_lookup. eauto.
Qed.

Lemma occurs_has (cards : list Card) (ranks suits : list Z) (r : Z) :
  Counted cards ranks suits -> 0 <= r -> occurs ranks r <-> has cards r.
Proof. intros [Hrank _ _] Hr. unfold occurs, has. rewrite (Hrank r Hr). lia. Qed.

Lemma isRun_straightTo (cards : list Card) (ranks suits : list Z) (h : Z) :
  Counted cards ranks suits -> 4 <= h -> isRun ranks h <-> straightTo cards h.
Proof.
  intros Hc Hh. unfold isRun, straightTo.
  rewrite !(occurs_has cards ranks suits) by (assumption || lia). reflexivity.
Qed.

Lemma isWheel_isWheelOf (cards : list Card) (ranks suits : list Z) :
  Counted cards ranks suits -> isWheel ranks <-> isWheelOf cards.
Proof.
  intros Hc. unfold isWheel, isWheelOf.
  rewrite !(occurs_has cards ranks suits) by (assumption || lia). reflexivity.
Qed.

(** What [checkStraight] found, in terms of the cards. *)
Lemma checkStraight_cards (cards : list Card) (ranks suits : list Z) (b : bool) (high : Z) :
  Counted cards ranks suits -> checkStraight ranks = (b, high) ->
  (b = true -> (6 <= high <= 14 /\ straightTo cards high) \/
               (high = 5 /\ isWheelOf cards)) /\
  (b = true -> isStraightOf cards) /\
  (b = false -> ~ isStraightOf cards).
Proof.
  intros Hc. rewrite checkStraight_find.
  destruct (find (runFrom ranks) tops) as [top|] eqn:Hfind.
  - destruct (find_first _ _ _ Hfind) as (pre & post & Hsplit & Htop & _).
    assert (Hrange : 6 <= top <= 14).
    { apply tops_range. rewrite Hsplit. apply elem_of_app. right. left. }
    apply runFrom_isRun in Htop.
    apply (isRun_straightTo cards ranks suits) in Htop; [|exact Hc | lia].
    intros H. injection H as <- <-.
    split; [|split]; [left; auto | left; eauto | discriminate].
  - apply find_nothing in Hfind.
    assert (Hnone : forall h', 6 <= h' <= 14 -> ~ straightTo cards h').
    { intros h' Hh' Hrun.
      apply (isRun_straightTo cards ranks suits) in Hrun; [|exact Hc | lia].
      apply (no_run_above ranks tops Hfind h'); [apply tops_range; exact Hh' | exact Hrun]. }
    destruct (wheel ranks) eqn:Hw.
    + apply wheel_isWheel, (isWheel_isWheelOf cards ranks suits Hc) in Hw.
      intros H. injection H as <- <-.
      split; [|split]; [right; auto | right; exact Hw | discriminate].
    + intros H. injection H as <- <-.
      split; [discriminate|]. split; [discriminate|].
      intros _ [(h' & Hh' & Hrun) | Hx]; [exact (Hnone h' Hh' Hrun)|].
      apply (isWheel_isWheelOf cards ranks suits Hc), wheel_isWheel in Hx. congruence.
Qed.

(** In five sorted cards that hold ten to ace, the second is the king. *)
Lemma second_is_king (cards : list Card) (c1 : Card) :
  length cards = 5%nat -> Forall valid_card cards ->
  StronglySorted rankDesc cards -> straightTo cards 14 ->
  cards !! 1%nat = Some c1 -> Rank c1 = King.
Proof.
  intros Hlen Hvalid Hsorted (H14 & H13 & H12 & H11 & H10) Hc1.
  destruct cards as [|a [|b [|c [|d [|e [|]]]]]]; try discriminate.
  injection Hc1 as <-.
  apply has_elem in H14 as (x14 & Hx14 & E14), H13 as (x13 & Hx13 & E13),
    H12 as (x12 & Hx12 & E12), H11 as (x11 & Hx11 & E11), H10 as (x10 & Hx10 & E10).
  rewrite !elem_of_cons, elem_of_nil in Hx14, Hx13, Hx12, Hx11, Hx10.
  apply StronglySorted_inv in Hsorted as [Hsorted Ha].
  apply StronglySorted_inv in Hsorted as [Hsorted Hb].
  apply StronglySorted_inv in Hsorted as [Hsorted Hc].
  apply StronglySorted_inv in Hsorted as [_ Hd].
  unfold rankDesc in *.
  repeat match goal with
         | H : Forall _ (_ :: _) |- _ => apply Forall_cons in H as [? H]
         | H : valid_card _ |- _ => destruct H as [[? ?] _]
         end.
  unfold Two, Ace in *. unfold King.
  destruct Hx14 as [->|[->|[->|[->|[->|[]]]]]]; try lia;
    destruct Hx13 as [->|[->|[->|[->|[->|[]]]]]]; try lia;
    destruct Hx12 as [->|[->|[->|[->|[->|[]]]]]]; try lia;
    destruct Hx11 as [->|[->|[->|[->|[->|[]]]]]]; try lia;
    destruct Hx10 as [->|[->|[->|[->|[->|[]]]]]]; lia.
Qed.

(** The ranks that the classification loop puts into one slice. *)
Lemma group_elem (cards : list Card) (ranks suits : list Z) (k : nat) (x : Z) :
  Counted cards ranks suits -> Forall valid_card cards -> (0 < k)%nat ->
  x ∈ filter (fun r => rankCount ranks r = Z.of_nat k) ranks_desc <-> holds cards x = k.
Proof.
  intros [Hrank _ _] Hvalid Hk. rewrite list_elem_of_filter, ranks_desc_range. split.
  - intros [Hx Hrange]. unfold Two in Hrange. rewrite Hrank in Hx by lia. lia.
  - intros Hx. assert (Hrange : Two <= x <= Ace) by (apply (holds_valid cards); [assumption|lia]).
    split; [|exact Hrange]. unfold Two in Hrange. rewrite Hrank by lia. lia.
Qed.

Lemma elem_length {A : Type} (x : A) (l : list A) : x ∈ l -> (1 <= length l)%nat.
Proof. destruct l; [intros H; inversion H | simpl; lia]. Qed.

Lemma evaluate_category (cards : list Card) :
  length cards = 5%nat -> Forall valid_card cards -> NoDup cards ->
  StronglySorted rankDesc cards ->
  exists h, evaluate cards = Some h /\ category cards (HRank h).
Proof.
  intros Hlen Hvalid Hnd Hsorted. unfold evaluate.
  destruct (countCards_total cards (replicate 15 0) (replicate 4 0))
    as (ranks & suits & Hcount & Hr & Hpos & Hsum); try assumption.
  { reflexivity. } { reflexivity. }
  { apply Forall_replicate. lia. }
  rewrite Hcount. simpl.
  pose proof (countCards_Counted _ _ _ Hcount) as Hc.
  change (sumCounts (replicate 15 0)) with 0 in Hsum. rewrite Hlen in Hsum.
  destruct (group_sizes ranks ranks_desc) as (other & Hother & Hgroups).
  { intros r Hr'. unfold rankCount.
    destruct (ranks !! Z.to_nat r) as [n|] eqn:Hn; simpl; [|lia].
    exact (Forall_lookup_1 _ _ _ _ Hpos Hn). }
  fold (sumCounts ranks) in Hgroups. rewrite Hsum in Hgroups.
  pose proof (isFlush_spec cards ranks suits Hc Hlen Hvalid) as Hflush.
  pose proof (fun x => group_elem cards ranks suits 4 x Hc Hvalid ltac:(lia)) as Hq.
  pose proof (fun x => group_elem cards ranks suits 3 x Hc Hvalid ltac:(lia)) as Ht.
  pose proof (fun x => group_elem cards ranks suits 2 x Hc Hvalid ltac:(lia)) as Hp.
  change (Z.of_nat 4) with 4 in Hq. change (Z.of_nat 3) with 3 in Ht.
  change (Z.of_nat 2) with 2 in Hp.
  assert (Hpnd : NoDup (filter (fun r => rankCount ranks r = 2) ranks_desc))
    by (apply NoDup_filter, ranks_desc_NoDup).
  pose proof (fun r => holds_le_4 cards r Hnd Hvalid) as Hmost.
  destruct (checkStraight ranks) as [isStraight straightHigh] eqn:Hcs.
  destruct (checkStraight_cards cards ranks suits _ _ Hc Hcs) as (Hfound & Hyes & Hno).
  clear Hcs Hcount Hc Hpos Hr Hsum.
  destruct (existsb (Z.eqb 5) suits) eqn:HisFlush.
  all: destruct isStraight; simpl andb; cbv iota.
  { (* straight and flush *)
    destruct (Hfound eq_refl) as [[Hrange Hrun] | [-> Hw]].
    - destruct (Z.eqb_spec straightHigh Ace) as [->|Hne].
      + destruct (lookup_lt_is_Some_2 cards 1) as [c1 Hc1]; [lia|]. rewrite Hc1.
        cbn [mbind option_bind].
        rewrite (second_is_king cards c1 Hlen Hvalid Hsorted Hrun Hc1).
        eexists. split; [reflexivity|]. split; [apply Hflush; reflexivity | exact Hrun].
      + eexists. split; [reflexivity|]. split; [apply Hflush; reflexivity|].
        left. exists straightHigh. unfold Ace in Hne. split; [lia | exact Hrun].
    - eexists. split; [reflexivity|]. split; [apply Hflush; reflexivity | right; exact Hw]. }
  all: unfold classify; rewrite classify_fold; simpl;
    set (q := filter (fun r => rankCount ranks r = 4) ranks_desc) in *;
    set (t := filter (fun r => rankCount ranks r = 3) ranks_desc) in *;
    set (p := filter (fun r => rankCount ranks r = 2) ranks_desc) in *;
    set (s := filter (fun r => rankCount ranks r = 1) ranks_desc) in *.
  all: destruct (length q =? 1)%nat eqn:Eq;
    [ destruct (length_one_lookup _ Eq) as [x Hx]; rewrite Hx in *; simpl;
      (destruct s as [|k s']; [simpl in Hgroups; lia|]); simpl;
      eexists; (split; [reflexivity|]); exists x; apply Hq; left
    | apply Nat.eqb_neq in Eq ].
  all: destruct (length t =? 1)%nat eqn:Et; simpl andb; cbv iota.
  all: try (destruct (length p =? 1)%nat eqn:Ep;
    [ destruct (length_one_lookup _ Et) as [x Hx];
      destruct (length_one_lookup _ Ep) as [y Hy]; rewrite Hx, Hy in *; simpl;
      eexists; (split; [reflexivity|]); exists x, y;
      (split; [apply Ht; left | apply Hp; left])
    | apply Nat.eqb_neq in Ep ]).
  - (* flush, one set of three *)
    eexists. split; [reflexivity|].
    split; [apply Hflush; reflexivity | apply Hno; reflexivity].
  - (* flush *)
    eexists. split; [reflexivity|].
    split; [apply Hflush; reflexivity | apply Hno; reflexivity].
  - (* straight, one set of three *)
    eexists. split; [reflexivity|].
    split; [apply Hyes; reflexivity|]. intros Hf. apply Hflush in Hf. discriminate.
  - (* straight *)
    eexists. split; [reflexivity|].
    split; [apply Hyes; reflexivity|]. intros Hf. apply Hflush in Hf. discriminate.
  - (* three of a kind *)
    destruct (length_one_lookup _ Et) as [x Hx]. rewrite Hx in *. simpl.
    eexists. split; [reflexivity|]. split; [exists x; apply Ht; left|].
    intros r' Hr'. apply Hp, elem_length in Hr'. simpl in Hgroups. lia.
  - apply Nat.eqb_neq in Et.
    destruct (length p =? 2)%nat eqn:Ep2.
    { (* two pair *)
      destruct (length_two_lookup _ Ep2) as (x & y & Hxy). rewrite Hxy in *. simpl.
      destruct s as [|k s']; [exfalso; simpl in Hgroups; lia|]. simpl.
      eexists. split; [reflexivity|]. exists x, y.
      split; [|split; apply Hp; [left | right; left]].
      apply NoDup_cons in Hpnd as [Hnotin _]. intros ->. apply Hnotin. left. }
    apply Nat.eqb_neq in Ep2.
    destruct (length p =? 1)%nat eqn:Ep1.
    { (* one pair *)
      destruct (length_one_lookup _ Ep1) as [x Hx]. rewrite Hx in *. simpl.
      eexists. split; [reflexivity|]. exists x. split; [apply Hp; left|].
      intros r' Hne. specialize (Hmost r').
      destruct (decide (holds cards r' = 2%nat)) as [E2|E2].
      { apply Hp, list_elem_of_singleton in E2. contradiction. }
      destruct (decide (holds cards r' = 3%nat)) as [E3|E3].
      { apply Ht, elem_length in E3. simpl in Hgroups. lia. }
      destruct (decide (holds cards r' = 4%nat)) as [E4|E4].
      { apply Hq, elem_length in E4. simpl in Hgroups. lia. }
      lia. }
    apply Nat.eqb_neq in Ep1.
    (* high card *)
    eexists. split; [reflexivity|]. split; [|split].
    + intros r. specialize (Hmost r).
      destruct (decide (holds cards r = 2%nat)) as [E2|E2].
      { apply Hp, elem_length in E2. lia. }
      destruct (decide (holds cards r = 3%nat)) as [E3|E3].
      { apply Ht, elem_length in E3. lia. }
      destruct (decide (holds cards r = 4%nat)) as [E4|E4].
      { apply Hq, elem_length in E4. lia. }
      lia.
    + intros Hf. apply Hflush in Hf. discriminate.
    + apply Hno. reflexivity.
Qed.

(** The category looks at the cards only through their counts by rank
    and through being of one suit. *)
Lemma category_ext (cards cards' : list Card) (hr : HandRank) :
  (forall r, holds cards r = holds cards' r) ->
  (isFlushOf cards <-> isFlushOf cards') ->
  category cards hr -> category cards' hr.
Proof.
  intros Hh Hf.
  assert (Hhas : forall r, has cards r <-> has cards' r)
    by (intros r; unfold has; rewrite Hh; reflexivity).
  assert (Hrun : forall h, straightTo cards h <-> straightTo cards' h)
    by (intros h; unfold straightTo; rewrite !Hhas; reflexivity).
  assert (Hwheel : isWheelOf cards <-> isWheelOf cards')
    by (unfold isWheelOf; rewrite !Hhas; reflexivity).
  assert (Hstraight : isStraightOf cards <-> isStraightOf cards').
  { unfold isStraightOf. rewrite Hwheel. split.
    - intros [(h & Hr & H) | H]; [left; exists h; rewrite <- Hrun; auto | right; exact H].
    - intros [(h & Hr & H) | H]; [left; exists h; rewrite Hrun; auto | right; exact H]. }
  destruct hr; simpl.
  - (* high card *)
    intros H. split; [|split].
    + intros r. rewrite <- Hh. apply H.
    + rewrite <- Hf. apply H.
    + rewrite <- Hstraight. apply H.
  - (* one pair *)
    intros (r & H & H'). exists r. rewrite <- Hh. split; [exact H|].
    intros r' Hne. rewrite <- Hh. apply H', Hne.
  - (* two pair *)
    intros (r & r' & Hne & H & H'). exists r, r'. rewrite <- !Hh. auto.
  - (* three of a kind *)
    intros [(r & H) H']. split; [exists r; rewrite <- Hh; exact H|].
    intros r'. rewrite <- Hh. apply H'.
  - (* straight *)
    intros [H H']. split; [apply Hstraight, H | rewrite <- Hf; exact H'].
  - (* flush *)
    intros [H H']. split; [apply Hf, H | rewrite <- Hstraight; exact H'].
  - (* full house *)
    intros (r & r' & H & H'). exists r, r'. rewrite <- !Hh. auto.
  - (* four of a kind *)
    intros (r & H). exists r. rewrite <- Hh. exact H.
  - (* straight flush *)
    intros [H H']. split; [apply Hf, H|].
    destruct H' as [(h & Hr & H') | H']; [left; exists h; rewrite <- Hrun; auto|].
    right. apply Hwheel, H'.
  - (* royal flush *)
    intros [H H']. split; [apply Hf, H | rewrite <- Hrun; exact H'].
Qed.

(** X18.  Of five different cards of the pack [NewHand] reports the
    category that poker gives them: a royal flush is ten to ace in one
    suit, a straight flush another straight in one suit, four of a kind
    has a rank four times, a full house one rank three times and another
    twice, a flush is one suit without being a straight, a straight five
    consecutive ranks (or ace to five) without being a flush, three of a
    kind has a rank three times and none twice, two pair two ranks twice,
    one pair one rank twice and no other more than once, and a high-card
    hand has no rank twice and is neither flush nor straight. *)
Theorem NewHand_reports_the_category (cards : list Card) :
  length cards = 5%nat -> Forall valid_card cards -> NoDup cards ->
  exists h, NewHand cards = Some h /\ category cards (HRank h).
Proof.
  intros Hlen Hvalid Hnd. unfold NewHand. rewrite Hlen. simpl.
  pose proof (sortDesc_perm cards) as Hperm.
  destruct (evaluate_category (sortDesc cards)) as (h & Hh & Hcat).
  - rewrite Hperm. exact Hlen.
  - rewrite Hperm. exact Hvalid.
  - rewrite Hperm. exact Hnd.
  - apply sortDesc_sorted.
  - exists h. split; [exact Hh|].
    apply (category_ext (sortDesc cards) cards); [| |exact Hcat].
    + intros r. unfold holds. rewrite Hperm. reflexivity.
    + unfold isFlushOf. split; intros [s Hs]; exists s.
      * rewrite <- Hperm. exact Hs.
      * rewrite Hperm. exact Hs.
Qed.

Lemma NewHand_reports_the_category_witness :
  exists h, NewHand mixedFive = Some h /\ category mixedFive (HRank h).
Proof.
  apply (NewHand_reports_the_category mixedFive).
  - reflexivity.
  - unfold mixedFive, valid_card. repeat constructor; simpl; vm_compute; discriminate.
  - refine (bool_decide_unpack (NoDup mixedFive) _). vm_compute. exact I.
Defined.

(** *** Kickers and the order within a category *)

(** The ranks of the cards, those that occur most often first, and
    among ranks that occur equally often the higher first. *)
Definition byMultiplicity (cards : list Card) : list Z :=
  filter (fun r => holds cards r = 4%nat) ranks_desc ++
  filter (fun r => holds cards r = 3%nat) ranks_desc ++
  filter (fun r => holds cards r = 2%nat) ranks_desc ++
  filter (fun r => holds cards r = 1%nat) ranks_desc.

(** The first place where they differ decides, for the smaller one. *)
Fixpoint lexLt (a b : list Z) : Prop :=
  match a, b with
  | x :: a', y :: b' => x < y \/ (x = y /\ lexLt a' b')
  | _, _ => False
  end.

(** How many kickers a category has, and what they add to the value. *)
Definition arity (hr : HandRank) : nat :=
  match hr with
  | HighCard | Flush => 5
  | OnePair => 4
  | TwoPair | ThreeOfAKind => 3
  | FullHouse | FourOfAKind => 2
  | Straight => 1
  | StraightFlush | RoyalFlush => 0
  end.

Definition score (hr : HandRank) (kickers : list Z) : Z :=
  match hr, kickers with
  | (HighCard | Flush), [a; b; c; d; e] =>
      a * 100000000 + b * 1000000 + c * 10000 + d * 100 + e
  | OnePair, [p; a; b; c] => p * 1000000 + a * 10000 + b * 100 + c
  | TwoPair, [p; q; k] => p * 1000000 + q * 10000 + k
  | ThreeOfAKind, [t; a; b] => t * 1000000 + a * 100 + b
  | Straight, [high] => high
  | FullHouse, [t; p] => t * 1000000 + p
  | FourOfAKind, [q; k] => q * 1000000 + k
  | RoyalFlush, [] => 14
  | _, _ => 0
  end.

Definition isRank (k : Z) : Prop := 2 <= k <= 14.

Lemma filter_agree_on {A : Type} (P Q : A -> Prop) `{!forall x, Decision (P x)}
    `{!forall x, Decision (Q x)} (l : list A) :
  (forall x, x ∈ l -> (P x <-> Q x)) -> filter P l = filter Q l.
Proof.
  induction l as [|a l IH]; intros Hsame; [reflexivity|].
  rewrite !filter_cons.
  assert (Ha : P a <-> Q a) by (apply Hsame; left).
  rewrite IH by (intros x Hx; apply Hsame; right; exact Hx).
  destruct (decide (P a)), (decide (Q a)); tauto.
Qed.

Lemma byMultiplicity_ext (cards cards' : list Card) :
  (forall r, holds cards r = holds cards' r) ->
  byMultiplicity cards = byMultiplicity cards'.
Proof.
  intros H. unfold byMultiplicity.
  repeat f_equal; apply filter_agree_on; intros x _; rewrite H; reflexivity.
Qed.

(** The four slices of the classification loop are the four parts of
    [byMultiplicity]. *)
Lemma groups_byMultiplicity (cards : list Card) (ranks suits : list Z) :
  Counted cards ranks suits ->
  byMultiplicity cards =
    filter (fun r => rankCount ranks r = 4) ranks_desc ++
    filter (fun r => rankCount ranks r = 3) ranks_desc ++
    filter (fun r => rankCount ranks r = 2) ranks_desc ++
    filter (fun r => rankCount ranks r = 1) ranks_desc.
Proof.
  intros [Hrank _ _]. unfold byMultiplicity.
  repeat f_equal; apply filter_agree_on; intros x Hx;
    apply ranks_desc_range in Hx; unfold Two in Hx; rewrite Hrank by lia; lia.
Qed.

Lemma group_range (ranks : list Z) (k x : Z) :
  x ∈ filter (fun r => rankCount ranks r = k) ranks_desc -> isRank x.
Proof.
  intros H. apply list_elem_of_filter in H as [_ H].
  apply ranks_desc_range in H. exact H.
Qed.

(** In one suit no rank occurs twice. *)
Lemma flush_distinct (cards : list Card) (r : Z) :
  NoDup cards -> isFlushOf cards -> (holds cards r <= 1)%nat.
Proof.
  intros Hnd [s Hs]. unfold holds.
  change 1%nat with (length [NewCard r s]).
  apply submseteq_length. apply NoDup_submseteq; [apply NoDup_filter; exact Hnd|].
  intros [rank suit] Hin. apply list_elem_of_filter in Hin as [Hr Hin].
  rewrite Forall_forall in Hs. specialize (Hs _ Hin). simpl in Hr, Hs. subst.
  left.
Qed.

Lemma kickerValue_2 (a b : Z) : kickerValue [a; b] = a * 100 + b.
Proof. unfold kickerValue. simpl. lia. Qed.

Lemma kickerValue_3 (a b c : Z) : kickerValue [a; b; c] = a * 10000 + b * 100 + c.
Proof. unfold kickerValue. simpl. lia. Qed.

Lemma kickerValue_5 (a b c d e : Z) :
  kickerValue [a; b; c; d; e] = a * 100000000 + b * 1000000 + c * 10000 + d * 100 + e.
Proof. unfold kickerValue. simpl. lia. Qed.

(** Within a category the score orders the kickers from the first on. *)
Lemma score_lex (hr : HandRank) (k1 k2 : list Z) :
  length k1 = arity hr -> length k2 = arity hr ->
  Forall isRank k1 -> Forall isRank k2 ->
  (score hr k1 < score hr k2 <-> lexLt k1 k2) /\
  (score hr k1 = score hr k2 <-> k1 = k2).
Proof.
  intros H1 H2 F1 F2. unfold isRank in *.
  destruct hr; simpl in H1, H2;
    repeat (destruct k1 as [|? k1]; try discriminate H1);
    repeat (destruct k2 as [|? k2]; try discriminate H2);
    repeat match goal with
           | H : Forall _ (_ :: _) |- _ => apply Forall_cons in H as [? H]
           end;
    simpl; (split; [lia|]);
    (split; [intros ?; repeat f_equal; lia | intros Heq; simplify_eq; reflexivity]).
Qed.

Lemma byMultiplicity_range (cards : list Card) : Forall isRank (byMultiplicity cards).
Proof.
  unfold byMultiplicity. rewrite !Forall_app. repeat split.
  all: apply Forall_forall; intros x Hx; apply list_elem_of_filter in Hx as [_ Hx].
  all: apply ranks_desc_range in Hx; exact Hx.
Qed.

(** What the kickers of a category are. *)
Definition kickersOf (cards : list Card) (hr : HandRank) (kickers : list Z) : Prop :=
  match hr with
  | RoyalFlush | StraightFlush => kickers = []
  | Straight =>
      exists high, kickers = [high] /\
        ((6 <= high <= 14 /\ straightTo cards high) \/ (high = 5 /\ isWheelOf cards))
  | _ => kickers = byMultiplicity cards
  end.

Lemma evaluate_form (cards : list Card) :
  length cards = 5%nat -> Forall valid_card cards -> NoDup cards ->
  StronglySorted rankDesc cards ->
  exists h, evaluate cards = Some h /\
    length (Kickers h) = arity (HRank h) /\ Forall isRank (Kickers h) /\
    (HRank h <> StraightFlush ->
     Value h = rankInt (HRank h) * 100000000 + score (HRank h) (Kickers h)) /\
    kickersOf cards (HRank h) (Kickers h).
Proof.
  intros Hlen Hvalid Hnd Hsorted. unfold evaluate.
  destruct (countCards_total cards (replicate 15 0) (replicate 4 0))
    as (ranks & suits & Hcount & Hr & Hpos & Hsum); try assumption.
  { reflexivity. } { reflexivity. }
  { apply Forall_replicate. lia. }
  rewrite Hcount. simpl.
  pose proof (countCards_Counted _ _ _ Hcount) as Hc.
  change (sumCounts (replicate 15 0)) with 0 in Hsum. rewrite Hlen in Hsum.
  destruct (group_sizes ranks ranks_desc) as (other & Hother & Hgroups).
  { intros r Hr'. unfold rankCount.
    destruct (ranks !! Z.to_nat r) as [n|] eqn:Hn; simpl; [|lia].
    exact (Forall_lookup_1 _ _ _ _ Hpos Hn). }
  fold (sumCounts ranks) in Hgroups. rewrite Hsum in Hgroups.
  pose proof (isFlush_spec cards ranks suits Hc Hlen Hvalid) as Hflush.
  pose proof (fun x => group_elem cards ranks suits 4 x Hc Hvalid ltac:(lia)) as Hq.
  pose proof (fun x => group_elem cards ranks suits 3 x Hc Hvalid ltac:(lia)) as Ht.
  pose proof (fun x => group_elem cards ranks suits 2 x Hc Hvalid ltac:(lia)) as Hp.
  pose proof (fun x => group_elem cards ranks suits 1 x Hc Hvalid ltac:(lia)) as Hs.
  change (Z.of_nat 4) with 4 in Hq. change (Z.of_nat 3) with 3 in Ht.
  change (Z.of_nat 2) with 2 in Hp. change (Z.of_nat 1) with 1 in Hs.
  pose proof (groups_byMultiplicity cards ranks suits Hc) as Hbm.
  pose proof (fun r => holds_le_4 cards r Hnd Hvalid) as Hmost.
  assert (Hsome : exists r, (1 <= holds cards r)%nat).
  { destruct cards as [|c rest]; [discriminate|]. exists (Rank c).
    rewrite holds_cons. destruct (decide (Rank c = Rank c)); [lia | congruence]. }
  destruct (checkStraight ranks) as [isStraight straightHigh] eqn:Hcs.
  destruct (checkStraight_cards cards ranks suits _ _ Hc Hcs) as (Hfound & _ & _).
  clear Hcs Hcount Hc Hpos Hr Hsum.
  destruct (existsb (Z.eqb 5) suits) eqn:HisFlush.
  all: destruct isStraight; simpl andb; cbv iota.
  { (* straight and flush *)
    destruct (Hfound eq_refl) as [[Hrange Hrun] | [-> Hw]].
    - destruct (Z.eqb_spec straightHigh Ace) as [->|Hne].
      + destruct (lookup_lt_is_Some_2 cards 1) as [c1 Hc1]; [lia|]. rewrite Hc1.
        cbn [mbind option_bind].
        rewrite (second_is_king cards c1 Hlen Hvalid Hsorted Hrun Hc1).
        eexists. split; [reflexivity|]. simpl.
        split; [reflexivity|]. split; [constructor|].
        split; [intros _; reflexivity | reflexivity].
      + eexists. split; [reflexivity|]. simpl.
        split; [reflexivity|]. split; [constructor|].
        split; [intros Hx; exfalso; apply Hx; reflexivity | reflexivity].
    - eexists. split; [reflexivity|]. simpl.
      split; [reflexivity|]. split; [constructor|].
      split; [intros Hx; exfalso; apply Hx; reflexivity | reflexivity]. }
  all: unfold classify; rewrite classify_fold; simpl;
    set (q := filter (fun r => rankCount ranks r = 4) ranks_desc) in *;
    set (t := filter (fun r => rankCount ranks r = 3) ranks_desc) in *;
    set (p := filter (fun r => rankCount ranks r = 2) ranks_desc) in *;
    set (s := filter (fun r => rankCount ranks r = 1) ranks_desc) in *;
    assert (Hall : Forall isRank (q ++ t ++ p ++ s))
      by (rewrite <- Hbm; apply byMultiplicity_range);
    clearbody q t p s.
  all: destruct (length q =? 1)%nat eqn:Eq;
    [ destruct q as [|x [|? ?]]; try discriminate Eq;
      (destruct t as [|? ?]; [|exfalso; simpl in Hgroups; lia]);
      (destruct p as [|? ?]; [|exfalso; simpl in Hgroups; lia]);
      (destruct s as [|k [|? ?]]; simpl in Hgroups; try (exfalso; lia)); simpl;
      eexists; (split; [reflexivity|]); simpl;
      (split; [reflexivity|]);
      (split; [exact Hall|]);
      (split; [intros _; lia | rewrite Hbm; reflexivity])
    | apply Nat.eqb_neq in Eq ].
  all: destruct (length t =? 1)%nat eqn:Et; simpl andb; cbv iota.
  all: try (destruct (length p =? 1)%nat eqn:Ep;
    [ destruct t as [|x [|? ?]]; try discriminate Et;
      destruct p as [|y [|? ?]]; try discriminate Ep;
      (destruct q as [|? ?]; [|exfalso; simpl in Hgroups; lia]);
      (destruct s as [|? ?]; [|exfalso; simpl in Hgroups; lia]); simpl;
      eexists; (split; [reflexivity|]); simpl;
      (split; [reflexivity|]);
      (split; [exact Hall|]);
      (split; [intros _; lia | rewrite Hbm; reflexivity])
    | apply Nat.eqb_neq in Ep ]).
  1, 2: assert (Hone : forall r, (holds cards r <= 1)%nat)
    by (intros r; apply flush_distinct; [exact Hnd | apply Hflush; reflexivity]).
  1, 2: destruct q as [|x ?];
    [|exfalso; specialize (Hone x); specialize (proj1 (Hq x) ltac:(left)); lia].
  1, 2: destruct t as [|x ?];
    [|exfalso; specialize (Hone x); specialize (proj1 (Ht x) ltac:(left)); lia].
  1: discriminate Et.
  - (* flush *)
    destruct p as [|x ?];
      [|exfalso; specialize (Hone x); specialize (proj1 (Hp x) ltac:(left)); lia].
    assert (Hs1 : (1 <= length s)%nat).
    { destruct Hsome as [r Hr]. apply (elem_length r). apply Hs.
      specialize (Hone r). lia. }
    destruct s as [|a [|b [|c [|d [|e [|? ?]]]]]]; simpl in Hgroups, Hs1;
      try (exfalso; lia).
    eexists. split; [reflexivity|]. simpl.
    split; [reflexivity|].
    split; [exact Hall|].
    split; [intros _; rewrite kickerValue_5; lia | rewrite Hbm; reflexivity].
  - (* straight, one set of three *)
    destruct (Hfound eq_refl) as [[Hrange Hrun] | [-> Hw]];
      (eexists; split; [reflexivity|]; simpl;
       split; [reflexivity|];
       split; [apply Forall_cons; split; [unfold isRank; lia | constructor]|];
       split; [intros _; lia|]; eexists; split; [reflexivity|]; auto).
  - (* straight *)
    destruct (Hfound eq_refl) as [[Hrange Hrun] | [-> Hw]];
      (eexists; split; [reflexivity|]; simpl;
       split; [reflexivity|];
       split; [apply Forall_cons; split; [unfold isRank; lia | constructor]|];
       split; [intros _; lia|]; eexists; split; [reflexivity|]; auto).
  - (* three of a kind *)
    destruct t as [|x [|? ?]]; try discriminate Et.
    destruct q as [|? ?]; [|exfalso; simpl in Hgroups; lia].
    destruct p as [|? [|? ?]]; simpl in Hgroups, Ep; try (exfalso; lia).
    destruct s as [|a [|b [|? ?]]]; simpl in Hgroups; try (exfalso; lia). simpl.
    eexists. split; [reflexivity|]. simpl.
    split; [reflexivity|].
    split; [exact Hall|].
    split; [intros _; rewrite kickerValue_2; lia | rewrite Hbm; reflexivity].
  - apply Nat.eqb_neq in Et.
    destruct (length p =? 2)%nat eqn:Ep2.
    { (* two pair *)
      destruct p as [|x [|y [|? ?]]]; try discriminate Ep2.
      destruct q as [|? ?]; [|exfalso; simpl in Hgroups; lia].
      destruct t as [|? ?]; [|exfalso; simpl in Hgroups; lia].
      destruct s as [|k [|? ?]]; simpl in Hgroups; try (exfalso; lia). simpl.
      eexists. split; [reflexivity|]. simpl.
      split; [reflexivity|].
      split; [exact Hall|].
      split; [intros _; lia | rewrite Hbm; reflexivity]. }
    apply Nat.eqb_neq in Ep2.
    destruct (length p =? 1)%nat eqn:Ep1.
    { (* one pair *)
      destruct p as [|x [|? ?]]; try discriminate Ep1.
      destruct q as [|? ?]; [|exfalso; simpl in Hgroups; lia].
      destruct t as [|? [|? ?]]; simpl in Hgroups, Et; try (exfalso; lia).
      destruct s as [|a [|b [|c [|? ?]]]]; simpl in Hgroups; try (exfalso; lia). simpl.
      eexists. split; [reflexivity|]. simpl.
      split; [reflexivity|].
      split; [exact Hall|].
      split; [intros _; rewrite kickerValue_3; lia | rewrite Hbm; reflexivity]. }
    apply Nat.eqb_neq in Ep1.
    (* high card *)
    destruct q as [|? [|? ?]]; simpl in Hgroups, Eq; try (exfalso; lia).
    destruct t as [|? [|? ?]]; simpl in Hgroups, Et; try (exfalso; lia).
    destruct p as [|? [|? [|? ?]]]; simpl in Hgroups, Ep1, Ep2; try (exfalso; lia).
    assert (Hs1 : (1 <= length s)%nat).
    { destruct Hsome as [r Hr]. apply (elem_length r). apply Hs.
      specialize (Hmost r).
      destruct (decide (holds cards r = 2%nat)) as [E2|E2];
        [apply Hp in E2; inversion E2|].
      destruct (decide (holds cards r = 3%nat)) as [E3|E3];
        [apply Ht in E3; inversion E3|].
      destruct (decide (holds cards r = 4%nat)) as [E4|E4];
        [apply Hq in E4; inversion E4|].
      lia. }
    destruct s as [|a [|b [|c [|d [|e [|? ?]]]]]]; simpl in Hgroups, Hs1;
      try (exfalso; lia).
    eexists. split; [reflexivity|]. simpl.
    split; [reflexivity|].
    split; [exact Hall|].
    split; [intros _; rewrite kickerValue_5; lia | rewrite Hbm; reflexivity].
Qed.

Lemma kickersOf_ext (cards cards' : list Card) (hr : HandRank) (kickers : list Z) :
  (forall r, holds cards r = holds cards' r) ->
  kickersOf cards hr kickers -> kickersOf cards' hr kickers.
Proof.
  intros Hh.
  assert (Hhas : forall r, has cards r <-> has cards' r)
    by (intros r; unfold has; rewrite Hh; reflexivity).
  assert (Hrun : forall h, straightTo cards h <-> straightTo cards' h)
    by (intros h; unfold straightTo; rewrite !Hhas; reflexivity).
  assert (Hwheel : isWheelOf cards <-> isWheelOf cards')
    by (unfold isWheelOf; rewrite !Hhas; reflexivity).
  destruct hr; simpl; try (rewrite (byMultiplicity_ext cards cards' Hh); tauto);
    try tauto.
  intros (high & Hk & H). exists high. split; [exact Hk|].
  rewrite <- Hrun, <- Hwheel. exact H.
Qed.

Lemma NewHand_form (cards : list Card) :
  length cards = 5%nat -> Forall valid_card cards -> NoDup cards ->
  exists h, NewHand cards = Some h /\
    length (Kickers h) = arity (HRank h) /\ Forall isRank (Kickers h) /\
    (HRank h <> StraightFlush ->
     Value h = rankInt (HRank h) * 100000000 + score (HRank h) (Kickers h)) /\
    kickersOf cards (HRank h) (Kickers h).
Proof.
  intros Hlen Hvalid Hnd. unfold NewHand. rewrite Hlen. simpl.
  pose proof (sortDesc_perm cards) as Hperm.
  destruct (evaluate_form (sortDesc cards)) as (h & Hh & Harity & Hrange & Hvalue & Hk).
  - rewrite Hperm. exact Hlen.
  - rewrite Hperm. exact Hvalid.
  - rewrite Hperm. exact Hnd.
  - apply sortDesc_sorted.
  - exists h. repeat split; try assumption.
    apply (kickersOf_ext (sortDesc cards) cards); [|exact Hk].
    intros r. unfold holds. rewrite Hperm. reflexivity.
Qed.

(** X19.  The kickers that [NewHand] records for five different cards of
    the pack are the ranks of the cards, those that occur most often
    first and among equals the higher first (so a pair of nines with
    ace, five, two gives 9, 14, 5, 2).  The exceptions are the straight,
    whose only kicker is its high card (the five for ace to five), and
    the straight flush and royal flush, which have none. *)
Theorem NewHand_kickers (cards : list Card) :
  length cards = 5%nat -> Forall valid_card cards -> NoDup cards ->
  exists h, NewHand cards = Some h /\
    match HRank h with
    | RoyalFlush | StraightFlush => Kickers h = []
    | Straight =>
        exists high, Kickers h = [high] /\
          ((6 <= high <= 14 /\ straightTo cards high) \/ (high = 5 /\ isWheelOf cards))
    | _ => Kickers h = byMultiplicity cards
    end.
Proof.
  intros Hlen Hvalid Hnd.
  destruct (NewHand_form cards Hlen Hvalid Hnd) as (h & Hh & _ & _ & _ & Hk).
  exists h. split; [exact Hh|]. exact Hk.
Qed.

Lemma NewHand_kickers_witness :
  exists h, NewHand mixedFive = Some h /\
    match HRank h with
    | RoyalFlush | StraightFlush => Kickers h = []
    | Straight =>
        exists high, Kickers h = [high] /\
          ((6 <= high <= 14 /\ straightTo mixedFive high) \/
           (high = 5 /\ isWheelOf mixedFive))
    | _ => Kickers h = byMultiplicity mixedFive
    end.
Proof.
  apply (NewHand_kickers mixedFive).
  - reflexivity.
  - unfold mixedFive, valid_card. repeat constructor; simpl; vm_compute; discriminate.
  - refine (bool_decide_unpack (NoDup mixedFive) _). vm_compute. exact I.
Defined.

(** X20.  Within a category [CompareHands] ranks by the kickers.  For
    two hands that [NewHand] makes of five different cards of the pack
    each, and that are of the same category other than the straight
    flush: the first hand loses exactly if, at the first place where the
    kickers differ, its kicker is the lower one; the hands tie exactly if
    their kickers are the same; and the first hand wins exactly if the
    second loses in that sense. *)
Theorem same_category_ranks_by_kickers (cards1 cards2 : list Card) :
  length cards1 = 5%nat -> Forall valid_card cards1 -> NoDup cards1 ->
  length cards2 = 5%nat -> Forall valid_card cards2 -> NoDup cards2 ->
  exists h1 h2,
    NewHand cards1 = Some h1 /\ NewHand cards2 = Some h2 /\
    (HRank h1 = HRank h2 -> HRank h1 <> StraightFlush ->
     (CompareHands h1 h2 = -1 <-> lexLt (Kickers h1) (Kickers h2)) /\
     (CompareHands h1 h2 = 0 <-> Kickers h1 = Kickers h2) /\
     (CompareHands h1 h2 = 1 <-> lexLt (Kickers h2) (Kickers h1))).
Proof.
  intros Hlen1 Hvalid1 Hnd1 Hlen2 Hvalid2 Hnd2.
  destruct (NewHand_form cards1 Hlen1 Hvalid1 Hnd1) as (h1 & Hh1 & Ha1 & Hr1 & Hv1 & _).
  destruct (NewHand_form cards2 Hlen2 Hvalid2 Hnd2) as (h2 & Hh2 & Ha2 & Hr2 & Hv2 & _).
  exists h1, h2. split; [exact Hh1|]. split; [exact Hh2|].
  intros Hsame Hnot. rewrite <- Hsame in Ha2, Hv2.
  specialize (Hv1 Hnot). specialize (Hv2 Hnot).
  destruct (score_lex (HRank h1) (Kickers h1) (Kickers h2) Ha1 Ha2 Hr1 Hr2) as [Hlt Heq].
  destruct (score_lex (HRank h1) (Kickers h2) (Kickers h1) Ha2 Ha1 Hr2 Hr1) as [Hgt _].
  unfold CompareHands. rewrite Hv1, Hv2.
  destruct (Z.ltb_spec (rankInt (HRank h1) * 100000000 + score (HRank h1) (Kickers h2))
                       (rankInt (HRank h1) * 100000000 + score (HRank h1) (Kickers h1)))
    as [Hwin | Hnowin].
  - split; [|split]; split; try discriminate.
    + intros H. apply Hlt in H. lia.
    + intros H. apply Heq in H. lia.
    + intros _. apply Hgt. lia.
    + reflexivity.
  - destruct (Z.ltb_spec (rankInt (HRank h1) * 100000000 + score (HRank h1) (Kickers h1))
                         (rankInt (HRank h1) * 100000000 + score (HRank h1) (Kickers h2)))
      as [Hlose | Hnolose].
    + split; [|split]; split; try discriminate.
      * intros _. apply Hlt. lia.
      * reflexivity.
      * intros H. apply Heq in H. lia.
      * intros H. apply Hgt in H. lia.
    + split; [|split]; split; try discriminate.
      * intros H. apply Hlt in H. lia.
      * intros _. apply Heq. lia.
      * reflexivity.
      * intros H. apply Hgt in H. lia.
Qed.

Definition ninesWithAce : list Card :=
  [NewCard Nine Spades; NewCard Ace Diamonds; NewCard Nine Hearts;
   NewCard Five Clubs; NewCard Two Spades].

Lemma same_category_ranks_by_kickers_witness :
  exists h1 h2,
    NewHand mixedFive = Some h1 /\ NewHand ninesWithAce = Some h2 /\
    (HRank h1 = HRank h2 -> HRank h1 <> StraightFlush ->
     (CompareHands h1 h2 = -1 <-> lexLt (Kickers h1) (Kickers h2)) /\
     (CompareHands h1 h2 = 0 <-> Kickers h1 = Kickers h2) /\
     (CompareHands h1 h2 = 1 <-> lexLt (Kickers h2) (Kickers h1))).
Proof.
  apply (same_category_ranks_by_kickers mixedFive ninesWithAce).
  - reflexivity.
  - unfold mixedFive, valid_card. repeat constructor; simpl; vm_compute; discriminate.
  - refine (bool_decide_unpack (NoDup mixedFive) _). vm_compute. exact I.
  - reflexivity.
  - unfold ninesWithAce, valid_card. repeat constructor; simpl; vm_compute; discriminate.
  - refine (bool_decide_unpack (NoDup ninesWithAce) _). vm_compute. exact I.
Defined.
End poker_more.

(* ===================================================================== *)
(** ** More properties of the table state machine                         *)
(* ===================================================================== *)

Module game_more.
Import poker game game_facts.

(** *** Leaving the table *)

(** What [RemovePlayer] does to the leaver's record. *)
Definition markGone (p : Player) : Player := set_IsActive false (set_Connected false p).

Lemma getCurrentPlayerID_frame (g g' : Game) :
  PlayerOrder g' = PlayerOrder g -> CurrentPlayer g' = CurrentPlayer g ->
  getCurrentPlayerID g' = getCurrentPlayerID g.
Proof. unfold getCurrentPlayerID. intros -> ->. reflexivity. Qed.

(** A player who has been marked cannot be made to act. *)
Lemma processAction_gone (g : Game) (playerID : string) (p : Player)
    (action : PlayerAction) (amount now : Z) :
  Players g !! playerID = Some p -> CanAct p = false ->
  exists err, processAction g playerID action amount now = Some (Some err, g).
Proof.
  intros Hp Hcan. unfold processAction.
  destruct (_ || _); [eauto|].
  destruct (negb _); [eauto|].
  rewrite Hp, Hcan. simpl. eauto.
Qed.

Lemma RemovePlayer_seated (g : Game) (playerID : string) (p : Player) (now : Z) :
  Players g !! playerID = Some p ->
  RemovePlayer g playerID now
  = Some (None, set_LastActivity now (updatePlayer playerID markGone g)).
Proof.
  intros Hp.
  set (g0 := updatePlayer playerID markGone g).
  assert (Hp0 : Players g0 !! playerID = Some (markGone p)).
  { unfold g0, updatePlayer. simpl. rewrite lookup_alter_eq, Hp. reflexivity. }
  unfold RemovePlayer. rewrite Hp. fold markGone. fold g0.
  destruct (_ && _); [|reflexivity].
  destruct (processAction_gone g0 playerID (markGone p) Fold 0 now Hp0)
    as [err Herr]; [reflexivity|].
  rewrite Herr. reflexivity.
Qed.

(** X7.  [RemovePlayer] never folds the leaver's hand.  For a seated
    player it only clears [Connected] and [IsActive] and stamps the
    activity time: the fold it requests when the leaver is to act is
    refused, because the player just marked cannot act, and the refusal
    is dropped.  So the leaver stays the player to act, and from then on
    every action, by whomever, is refused and changes nothing.  For a
    player who is not seated it reports an error and changes nothing. *)
Theorem RemovePlayer_only_marks (g : Game) (playerID : string) (now : Z) :
  (Players g !! playerID = None ->
   RemovePlayer g playerID now = Some (Some "player not in game"%string, g)) /\
  (is_Some (Players g !! playerID) ->
   let g' := set_LastActivity now (updatePlayer playerID markGone g) in
   RemovePlayer g playerID now = Some (None, g') /\
   getCurrentPlayerID g' = getCurrentPlayerID g /\
   (getCurrentPlayerID g = playerID ->
    forall who action amount later,
      exists err, processAction g' who action amount later = Some (Some err, g'))).
Proof.
  split.
  { intros Hnone. unfold RemovePlayer. rewrite Hnone. reflexivity. }
  intros [p Hp]. cbv zeta.
  set (g0 := updatePlayer playerID markGone g).
  assert (Hp0 : Players g0 !! playerID = Some (markGone p)).
  { unfold g0, updatePlayer. simpl. rewrite lookup_alter_eq, Hp. reflexivity. }
  assert (Hcur : getCurrentPlayerID g0 = getCurrentPlayerID g) by reflexivity.
  split; [|split; [exact Hcur|]].
  - apply (RemovePlayer_seated g playerID p now Hp).
  - intros Hturn who action amount later.
    change (getCurrentPlayerID (set_LastActivity now g0)) with (getCurrentPlayerID g0) in *.
    unfold processAction.
    destruct (_ || _); [eauto|].
    change (getCurrentPlayerID (set_LastActivity now g0)) with (getCurrentPlayerID g0).
    rewrite Hcur, Hturn.
    destruct (bool_decide_reflect (who = playerID)) as [->|Hne]; cbn [negb]; [|eauto].
    change (Players (set_LastActivity now g0)) with (Players g0).
    rewrite Hp0.
    assert (Hcan : CanAct (markGone p) = false) by reflexivity.
    rewrite Hcan. cbn [negb]. eauto.
Qed.

Definition duo : Game :=
  set_Phase PreFlop
    (set_PlayerOrder ["ann"; "bob"]
       (set_Players
          (<["bob" := NewPlayer "bob" "Bob" 0 1]>
             (<["ann" := NewPlayer "ann" "Ann" 1000 0]> ∅))
          (NewGame "table" "duo" (mkGameConfig 3 6 2 10000 50000 2000 50 100 0 0)
             fixedRng 0))).

Lemma RemovePlayer_only_marks_witness :
  let g' := set_LastActivity 7 (updatePlayer "ann" markGone duo) in
  RemovePlayer duo "ann" 7 = Some (None, g') /\
  getCurrentPlayerID g' = getCurrentPlayerID duo /\
  (getCurrentPlayerID duo = "ann"%string ->
   forall who action amount later,
     exists err, processAction g' who action amount later = Some (Some err, g')).
Proof.
  apply (proj2 (RemovePlayer_only_marks duo "ann" 7)).
  vm_compute. eauto.
Defined.

(** *** The removal of eliminated players *)

(** [player.ChipCount <= 0 && !player.Connected] *)
Definition gone (p : Player) : bool := (ChipCount p <=? 0) && negb (Connected p).

Definition goneAt (g : Game) (id : string) : bool :=
  match Players g !! id with
  | Some p => gone p
  | None => false
  end.

Lemma filter_agree (P Q : string -> Prop) `{!forall x, Decision (P x)}
    `{!forall x, Decision (Q x)} (l : list string) :
  (forall x, x ∈ l -> (P x <-> Q x)) -> filter P l = filter Q l.
Proof.
  induction l as [|a l IH]; intros Hagree; [reflexivity|].
  rewrite !filter_cons.
  rewrite IH by (intros x Hx; apply Hagree; right; exact Hx).
  pose proof (Hagree a (list_elem_of_here _ _)) as Ha.
  destruct (decide (P a)) as [Hp|Hp], (decide (Q a)) as [Hq|Hq];
    try reflexivity; tauto.
Qed.

Lemma removeLoop_filters (n : nat) : forall g : Game,
  Seats g -> (n <= length (PlayerOrder g))%nat ->
  exists g',
    removeLoop n g = Some g' /\
    PlayerOrder g' =
      filter (fun id => goneAt g id = false) (take n (PlayerOrder g))
      ++ drop n (PlayerOrder g) /\
    (forall j, Players g' !! j =
               if decide (j ∈ take n (PlayerOrder g) /\ goneAt g j = true)
               then None else Players g !! j) /\
    Pot g' = Pot g /\ Phase g' = Phase g /\ CommunityCards g' = CommunityCards g.
Proof.
  induction n as [|i IH]; intros g Hseats Hlen.
  { exists g. rewrite take_0, drop_0. repeat split. }
  destruct (lookup_lt_is_Some_2 (PlayerOrder g) i) as [id Hid]; [lia|].
  assert (Hin : id ∈ PlayerOrder g) by (apply list_elem_of_lookup; eauto).
  destruct (proj1 (seats_players g Hseats id) Hin) as [p Hp].
  assert (Hbefore : forall j, j ∈ take i (PlayerOrder g) -> j <> id).
  { intros j Hj ->. apply elem_of_take in Hj as (k & Hk & Hlt).
    pose proof (NoDup_lookup _ _ _ _ (seats_NoDup g Hseats) Hk Hid). lia. }
  assert (Htake : take (S i) (PlayerOrder g) = take i (PlayerOrder g) ++ [id])
    by (apply take_S_r; exact Hid).
  cbn [removeLoop]. rewrite Hid. cbn [mbind option_bind]. rewrite Hp.
  cbn [mbind option_bind]. fold (gone p).
  assert (Hgone : goneAt g id = gone p) by (unfold goneAt; rewrite Hp; reflexivity).
  destruct (gone p) eqn:Hg.
  - set (g1 := set_CurrentPlayer _ _).
    assert (Horder1 : PlayerOrder g1 = delete i (PlayerOrder g)) by reflexivity.
    assert (Hplayers1 : Players g1 = delete id (Players g)) by reflexivity.
    destruct (delete_NoDup_elem _ _ _ (seats_NoDup g Hseats) Hid) as [Hnd1 Hel1].
    assert (Hseats1 : Seats g1).
    { split; [rewrite Horder1; exact Hnd1|].
      intros j. rewrite Horder1, Hplayers1, Hel1, (seats_players g Hseats j).
      unfold is_Some. setoid_rewrite lookup_delete_Some. split.
      - intros [[q Hq] Hne]. exists q. split; [congruence | exact Hq].
      - intros [q [Hne Hq]]. split; [eauto | congruence]. }
    destruct (IH g1 Hseats1) as (g' & Hrun & Horder & Hplayers & Hrest).
    { rewrite Horder1, length_delete by eauto. lia. }
    exists g'. split; [exact Hrun|].
    assert (Htake1 : take i (PlayerOrder g1) = take i (PlayerOrder g)).
    { rewrite Horder1, delete_take_drop. apply take_app_length'.
      rewrite length_take_le by lia. reflexivity. }
    assert (Hdrop1 : drop i (PlayerOrder g1) = drop (S i) (PlayerOrder g)).
    { rewrite Horder1, delete_take_drop. apply drop_app_length'.
      rewrite length_take_le by lia. reflexivity. }
    assert (Hsame : forall j, j <> id -> goneAt g1 j = goneAt g j).
    { intros j Hne. unfold goneAt. rewrite Hplayers1, lookup_delete_ne by congruence.
      reflexivity. }
    split; [|split; [|exact Hrest]].
    + rewrite Horder, Htake1, Hdrop1, Htake, filter_app.
      rewrite (filter_singleton_False (fun x => goneAt g x = false) id []);
        [|rewrite Hgone; discriminate].
      rewrite app_nil_r. f_equal. apply filter_agree.
      intros j Hj. rewrite Hsame by (apply Hbefore; exact Hj). reflexivity.
    + intros j. rewrite Hplayers, Htake1, Htake, Hplayers1.
      destruct (decide (j = id)) as [->|Hne].
      * rewrite lookup_delete_eq.
        destruct (decide (id ∈ take i (PlayerOrder g) /\ goneAt g1 id = true));
          destruct (decide (id ∈ take i (PlayerOrder g) ++ [id] /\ goneAt g id = true))
            as [|Hno]; try reflexivity.
        all: exfalso; apply Hno; split; [|exact Hgone].
        all: apply elem_of_app; right; apply list_elem_of_singleton; reflexivity.
      * rewrite lookup_delete_ne by congruence. rewrite Hsame by exact Hne.
        destruct (decide (j ∈ take i (PlayerOrder g) /\ goneAt g j = true)) as [Hy|Hn];
          destruct (decide (j ∈ take i (PlayerOrder g) ++ [id] /\ goneAt g j = true))
            as [Hy'|Hn']; try reflexivity; exfalso.
        -- apply Hn'. split; [apply elem_of_app; left; tauto | tauto].
        -- apply Hn. destruct Hy' as [Hj Hgj]. split; [|exact Hgj].
           apply elem_of_app in Hj as [Hj|Hj]; [exact Hj|].
           apply list_elem_of_singleton in Hj. contradiction.
  - destruct (IH g Hseats) as (g' & Hrun & Horder & Hplayers & Hrest); [lia|].
    exists g'. split; [exact Hrun|].
    split; [|split; [|exact Hrest]].
    + rewrite Horder, Htake, filter_app.
      rewrite (filter_singleton_True (fun x => goneAt g x = false) id []) by exact Hgone.
      rewrite <- app_assoc. f_equal. simpl. apply drop_S. exact Hid.
    + intros j. rewrite Hplayers, Htake.
      destruct (decide (j ∈ take i (PlayerOrder g) /\ goneAt g j = true)) as [Hy|Hn];
        destruct (decide (j ∈ take i (PlayerOrder g) ++ [id] /\ goneAt g j = true))
          as [Hy'|Hn']; try reflexivity; exfalso.
      * apply Hn'. split; [apply elem_of_app; left; tauto | tauto].
      * apply Hn. destruct Hy' as [Hj Hgj]. split; [|exact Hgj].
        apply elem_of_app in Hj as [Hj|Hj]; [exact Hj|].
        apply list_elem_of_singleton in Hj. subst j. congruence.
Qed.

(** X8.  On a table whose seat order names each seated player once,
    [removeEliminatedPlayers] returns, and it removes exactly the players
    who are out of chips and disconnected: the seat order afterwards is
    the old one without them, in the old order, the player map is the old
    one without them, and pot, phase and board are untouched.  A player
    who is connected or has chips is never removed. *)
Theorem removeEliminatedPlayers_filters (g : Game) :
  Seats g ->
  exists g',
    removeEliminatedPlayers g = Some g' /\
    PlayerOrder g' = filter (fun id => goneAt g id = false) (PlayerOrder g) /\
    Players g' = filter (fun entry => gone (snd entry) = false) (Players g) /\
    Pot g' = Pot g /\ Phase g' = Phase g /\ CommunityCards g' = CommunityCards g.
Proof.
  intros Hseats. unfold removeEliminatedPlayers.
  destruct (removeLoop_filters (length (PlayerOrder g)) g Hseats)
    as (g' & Hrun & Horder & Hplayers & Hrest); [lia|].
  exists g'. split; [exact Hrun|].
  rewrite firstn_all, drop_all, app_nil_r in Horder.
  split; [exact Horder|]. split; [|exact Hrest].
  apply map_eq. intros j. rewrite Hplayers, firstn_all.
  destruct (Players g !! j) as [p|] eqn:Hp.
  - assert (Hin : j ∈ PlayerOrder g) by (apply (seats_players g Hseats); eauto).
    assert (Hgj : goneAt g j = gone p) by (unfold goneAt; rewrite Hp; reflexivity).
    destruct (gone p) eqn:Hg.
    + rewrite decide_True by tauto. symmetry.
      apply map_lookup_filter_None. right. intros q Hq. simpl.
      rewrite Hp in Hq. injection Hq as <-. rewrite Hg. discriminate.
    + rewrite decide_False by (intros [_ Hx]; congruence). symmetry.
      apply map_lookup_filter_Some. split; [exact Hp | exact Hg].
  - destruct (decide _); symmetry; apply map_lookup_filter_None; left; exact Hp.
Qed.

Lemma duo_Seats : Seats duo.
Proof.
  split.
  - refine (bool_decide_unpack (NoDup (PlayerOrder duo)) _). vm_compute. exact I.
  - intros id. change (PlayerOrder duo) with ["ann"; "bob"]%string.
    rewrite !elem_of_cons, elem_of_nil. unfold duo. simpl.
    split.
    + intros [->|[->|[]]]; vm_compute; eauto.
    + intros [p Hp].
      destruct (decide (id = "bob"%string)) as [->|Hb]; [tauto|].
      destruct (decide (id = "ann"%string)) as [->|Ha]; [tauto|].
      rewrite lookup_insert_ne, lookup_insert_ne, lookup_empty in Hp by congruence.
      discriminate.
Defined.

Lemma removeEliminatedPlayers_filters_witness :
  exists g',
    removeEliminatedPlayers duo = Some g' /\
    PlayerOrder g' = filter (fun id => goneAt duo id = false) (PlayerOrder duo) /\
    Players g' = filter (fun entry => gone (snd entry) = false) (Players duo) /\
    Pot g' = Pot duo /\ Phase g' = Phase duo /\ CommunityCards g' = CommunityCards duo.
Proof. apply (removeEliminatedPlayers_filters duo duo_Seats). Defined.

(** *** Whose turn it is *)

(** The player seated at [pos] can act (a nil player cannot). *)
Definition canActAt (g : Game) (pos : nat) : bool :=
  match PlayerOrder g !! pos with
  | Some id =>
      match Players g !! id with
      | Some player => CanAct player
      | None => false
      end
  | None => false
  end.

(** [d] seats further, around the table. *)
Definition seatAfter (g : Game) (d : nat) : nat :=
  ((CurrentPlayer g + d) mod length (PlayerOrder g))%nat.

Lemma set_CurrentPlayer_same (g : Game) : set_CurrentPlayer (CurrentPlayer g) g = g.
Proof. destruct g; reflexivity. Qed.

Lemma wrap_around (n s k : nat) :
  (s < n)%nat -> (k < n)%nat -> ((s + k + 1) mod n = s)%nat -> (k + 1 = n)%nat.
Proof.
  intros Hs Hk Hmod.
  destruct (Nat.lt_ge_cases (s + k + 1) n) as [Hlt|Hge].
  - rewrite Nat.mod_small in Hmod by exact Hlt. lia.
  - assert (Heq : ((s + k + 1) mod n = s + k + 1 - n)%nat).
    { symmetry. apply (Nat.mod_unique _ _ 1); lia. }
    lia.
Qed.

Lemma nextActiveLoop_finds (g0 : Game) (fuel : nat) : forall k : nat,
  let n := length (PlayerOrder g0) in
  (CurrentPlayer g0 < n)%nat -> (k + fuel = n)%nat -> (0 < fuel)%nat ->
  (forall j, (j < k)%nat -> canActAt g0 (seatAfter g0 j) = false) ->
  exists d, (d < n)%nat /\
    nextActiveLoop fuel (CurrentPlayer g0) (set_CurrentPlayer (seatAfter g0 k) g0)
    = Some (set_CurrentPlayer (seatAfter g0 d) g0) /\
    (forall j, (j < d)%nat -> canActAt g0 (seatAfter g0 j) = false) /\
    (canActAt g0 (seatAfter g0 d) = true \/
     (d = 0%nat /\ forall j, (j < n)%nat -> canActAt g0 (seatAfter g0 j) = false)).
Proof.
  induction fuel as [|fuel IH]; intros k n Hs Hsum Hfuel Hnone; [lia|].
  assert (Hn : n <> 0%nat) by lia.
  assert (Hpos : (seatAfter g0 k < n)%nat) by (apply Nat.mod_upper_bound; exact Hn).
  destruct (lookup_lt_is_Some_2 (PlayerOrder g0) (seatAfter g0 k) Hpos) as [id Hid].
  cbn [nextActiveLoop].
  change (PlayerOrder (set_CurrentPlayer ?c g0)) with (PlayerOrder g0).
  change (Players (set_CurrentPlayer ?c g0)) with (Players g0).
  change (CurrentPlayer (set_CurrentPlayer ?c g0)) with c.
  rewrite Hid. cbn [mbind option_bind].
  assert (Hcan : canActAt g0 (seatAfter g0 k)
                 = match Players g0 !! id with
                   | Some player => CanAct player
                   | None => false
                   end).
  { unfold canActAt. rewrite Hid. reflexivity. }
  rewrite <- Hcan.
  destruct (canActAt g0 (seatAfter g0 k)) eqn:Hk.
  { exists k. split; [lia|]. split; [reflexivity|]. split; [exact Hnone | left; exact Hk]. }
  unfold modLen.
  change (PlayerOrder (set_CurrentPlayer ?c g0)) with (PlayerOrder g0).
  fold n. destruct n as [|n'] eqn:En; [lia|]. rewrite <- En in *.
  cbn [mbind option_bind].
  assert (Hnext : ((seatAfter g0 k + 1) mod n = seatAfter g0 (k + 1))%nat).
  { unfold seatAfter. fold n.
    rewrite Nat.Div0.add_mod_idemp_l. f_equal. lia. }
  rewrite Hnext.
  assert (Hnone' : forall j, (j < k + 1)%nat -> canActAt g0 (seatAfter g0 j) = false).
  { intros j Hj. destruct (decide (j = k)) as [->|Hne]; [exact Hk | apply Hnone; lia]. }
  destruct (Nat.eqb_spec (seatAfter g0 (k + 1)) (CurrentPlayer g0)) as [Hback|Hon].
  - assert (Hall : (k + 1 = n)%nat).
    { apply (wrap_around n (CurrentPlayer g0) k); [exact Hs | lia|].
      unfold seatAfter in Hback. fold n in Hback.
      rewrite <- Hback at 2. f_equal. lia. }
    exists 0%nat. split; [lia|]. split.
    + assert (H0 : seatAfter g0 0 = CurrentPlayer g0).
      { unfold seatAfter. fold n. rewrite Nat.add_0_r. apply Nat.mod_small. exact Hs. }
      rewrite Hback, H0. reflexivity.
    + split; [intros j Hj; lia|]. right. split; [reflexivity|].
      intros j Hj. apply Hnone'. lia.
  - assert (Hmore : (k + 1 < n)%nat).
    { destruct (decide (k + 1 = n)%nat) as [Heq|Hne]; [|lia].
      exfalso. apply Hon. unfold seatAfter. fold n. rewrite <- Heq.
      replace (CurrentPlayer g0 + (k + 1))%nat with (CurrentPlayer g0 + 1 * (k + 1))%nat by lia.
      rewrite Nat.Div0.mod_add. apply Nat.mod_small. lia. }
    change (set_CurrentPlayer (seatAfter g0 (k + 1))
              (set_CurrentPlayer (seatAfter g0 k) g0))
      with (set_CurrentPlayer (seatAfter g0 (k + 1)) g0).
    apply (IH (k + 1)%nat); [exact Hs | lia | lia | exact Hnone'].
Qed.

(** X9.  [moveToNextActivePlayer] looks for the first player who can act,
    starting with the current seat and going round the table once.  If
    the current index is inside the seat order, it returns and changes
    nothing but the index: the index moves [d] seats on, to the first
    seat whose player can act, every seat passed over holding a player
    who cannot; if no player at the table can act, the index is back
    where it was.  If the current index is outside the seat order, the
    call panics.  *)
Theorem moveToNextActivePlayer_finds (g : Game) :
  let n := length (PlayerOrder g) in
  ((CurrentPlayer g < n)%nat ->
   exists d, (d < n)%nat /\
     moveToNextActivePlayer g = Some (set_CurrentPlayer (seatAfter g d) g) /\
     (forall j, (j < d)%nat -> canActAt g (seatAfter g j) = false) /\
     (canActAt g (seatAfter g d) = true \/
      (d = 0%nat /\ forall j, (j < n)%nat -> canActAt g (seatAfter g j) = false))) /\
  ((n <= CurrentPlayer g)%nat -> moveToNextActivePlayer g = None).
Proof.
  cbv zeta. split.
  - intros Hs. unfold moveToNextActivePlayer.
    destruct (nextActiveLoop_finds g (length (PlayerOrder g)) 0) as (d & Hd & Hrun & Hrest);
      [exact Hs | lia | lia | intros j Hj; lia |].
    exists d. split; [exact Hd|]. split; [|exact Hrest].
    rewrite <- Hrun. f_equal. unfold seatAfter.
    rewrite Nat.add_0_r, Nat.mod_small by exact Hs.
    symmetry. apply set_CurrentPlayer_same.
  - intros Hout. unfold moveToNextActivePlayer.
    destruct (length (PlayerOrder g)) as [|m] eqn:Hlen; [reflexivity|].
    cbn [nextActiveLoop].
    rewrite (lookup_ge_None_2 (PlayerOrder g) (CurrentPlayer g)) by lia.
    reflexivity.
Qed.

Lemma moveToNextActivePlayer_finds_witness :
  exists d, (d < length (PlayerOrder duo))%nat /\
    moveToNextActivePlayer duo = Some (set_CurrentPlayer (seatAfter duo d) duo) /\
    (forall j, (j < d)%nat -> canActAt duo (seatAfter duo j) = false) /\
    (canActAt duo (seatAfter duo d) = true \/
     (d = 0%nat /\
      forall j, (j < length (PlayerOrder duo))%nat ->
                canActAt duo (seatAfter duo j) = false)).
Proof.
  apply (proj1 (moveToNextActivePlayer_finds duo)). vm_compute. lia.
Defined.

(** *** The winners of a showdown *)













(* --------------------------------------------------------------------- *)
(** *** What is fixed when a table is created and a player sits down      *)
(* --------------------------------------------------------------------- *)

(** What a table is created with. *)
Definition charter (g : Game) : string * string * Z * Z * Z * Z * Z * Z * Z :=
  (GameID g, Name g, MaxPlayers g, MinPlayers g, SmallBlind g, BigBlind g,
   BuyIn g, Created g, TurnTimeout g).

(** What a player sits down with. *)
Definition badge (p : Player) : string * string * Z :=
  (ID p, Username p, SeatPosition p).

Definition lineup (g : Game)
  : (string * string * Z * Z * Z * Z * Z * Z * Z) * gmap string (string * string * Z) :=
  (charter g, badge <$> Players g).

(** The charter is as before, and so is the badge of every player who is
    still seated; nobody new is seated. *)
Definition keepsLineup (g g' : Game) : Prop :=
  charter g' = charter g /\
  forall id p', Players g' !! id = Some p' ->
                exists p, Players g !! id = Some p /\ badge p' = badge p.

Lemma keepsLineup_refl (g : Game) : keepsLineup g g.
Proof. split; [reflexivity | eauto]. Qed.

Lemma keepsLineup_trans (g1 g2 g3 : Game) :
  keepsLineup g1 g2 -> keepsLineup g2 g3 -> keepsLineup g1 g3.
Proof.
  intros [Hc1 Hp1] [Hc2 Hp2]. split; [congruence|].
  intros id p3 H3. destruct (Hp2 id p3 H3) as (p2 & H2 & Hb2).
  destruct (Hp1 id p2 H2) as (p1 & H1 & Hb1). exists p1. split; [exact H1 | congruence].
Qed.

Lemma lineup_keepsLineup (g g' : Game) : lineup g' = lineup g -> keepsLineup g g'.
Proof.
  unfold lineup. intros H. apply pair_equal_spec in H as [Hc Hm]. split; [exact Hc|].
  intros id p' Hp'.
  assert (Hid : (badge <$> Players g') !! id = (badge <$> Players g) !! id)
    by (rewrite Hm; reflexivity).
  rewrite !lookup_fmap, Hp' in Hid. simpl in Hid.
  destruct (Players g !! id) as [p|]; simpl in Hid; [|discriminate].
  exists p. split; [reflexivity | congruence].
Qed.

(** A change of one player that leaves the badge alone. *)
Lemma lineup_updatePlayer (g : Game) (id : string) (f : Player -> Player) :
  (forall p, badge (f p) = badge p) ->
  lineup (updatePlayer id f g) = lineup g.
Proof.
  intros Hf. unfold lineup, updatePlayer. simpl. f_equal.
  apply map_eq. intros j. rewrite !lookup_fmap.
  destruct (decide (id = j)) as [->|Hne].
  - rewrite lookup_alter_eq. destruct (Players g !! j); simpl; [|reflexivity].
    rewrite Hf. reflexivity.
  - rewrite lookup_alter_ne by exact Hne. reflexivity.
Qed.

Lemma lineup_forAllPlayers (g : Game) (f : Player -> Player) :
  (forall p, badge (f p) = badge p) ->
  lineup (forAllPlayers f g) = lineup g.
Proof.
  intros Hf. unfold lineup, forAllPlayers. simpl. f_equal.
  apply map_eq. intros j. rewrite !lookup_fmap.
  destruct (Players g !! j); simpl; [|reflexivity]. rewrite Hf. reflexivity.
Qed.

Lemma badge_betOf (amount : Z) (p : Player) :
  badge (betOf amount p) = badge p.
Proof.
  unfold betOf, Bet. destruct (ChipCount p <? amount); [reflexivity|].
  simpl. destruct (_ =? 0); reflexivity.
Qed.

Lemma nextActiveLoop_lineup (fuel : nat) : forall startPos g g',
  nextActiveLoop fuel startPos g = Some g' -> lineup g' = lineup g.
Proof.
  induction fuel as [|fuel IH]; intros startPos g g' H; simpl in H; [discriminate|].
  destruct (PlayerOrder g !! CurrentPlayer g) as [id|]; simpl in H; [|discriminate].
  destruct (match Players g !! id with Some player => CanAct player | None => false end).
  { injection H as <-. reflexivity. }
  destruct (modLen _ g) as [cur|]; simpl in H; [|discriminate].
  destruct (cur =? startPos)%nat.
  - injection H as <-. reflexivity.
  - apply IH in H. rewrite H. reflexivity.
Qed.

Lemma moveToNextActivePlayer_lineup (g g' : Game) :
  moveToNextActivePlayer g = Some g' -> lineup g' = lineup g.
Proof. apply nextActiveLoop_lineup. Qed.

Lemma moveToNextPlayer_lineup (g g' : Game) :
  moveToNextPlayer g = Some g' -> lineup g' = lineup g.
Proof.
  unfold moveToNextPlayer. intros H.
  destruct (modLen _ g) as [cur|]; simpl in H; [|discriminate].
  apply moveToNextActivePlayer_lineup in H. rewrite H. reflexivity.
Qed.

Lemma calculateSidePots_lineup (g g' : Game) :
  calculateSidePots g = Some g' -> lineup g' = lineup g.
Proof.
  unfold calculateSidePots. intros H.
  destruct (foldr _ _ _); simpl in H; [|discriminate].
  injection H as <-. reflexivity.
Qed.

Lemma dealPass_lineup (order : list string) : forall g g',
  dealPass order g = Some g' -> lineup g' = lineup g.
Proof.
  induction order as [|id rest IH]; intros g g' H; simpl in H.
  - injection H as <-. reflexivity.
  - destruct (Players g !! id) as [p|]; simpl in H; [|discriminate].
    destruct (IsActive p).
    + apply IH in H. rewrite H.
      rewrite lineup_updatePlayer by reflexivity. reflexivity.
    + apply IH in H. exact H.
Qed.

Lemma dealHoleCards_lineup (g g' : Game) :
  dealHoleCards g = Some g' -> lineup g' = lineup g.
Proof.
  unfold dealHoleCards. intros H.
  destruct (dealPass (PlayerOrder g) g) as [g1|] eqn:H1; simpl in H; [|discriminate].
  apply dealPass_lineup in H, H1. congruence.
Qed.

Lemma dealerLoop_lineup (n : nat) : forall g g',
  dealerLoop n g = Some g' -> lineup g' = lineup g.
Proof.
  induction n as [|n IH]; intros g g' H; simpl in H.
  - injection H as <-. reflexivity.
  - destruct (PlayerOrder g !! DealerPos g) as [id|]; simpl in H; [|discriminate].
    destruct (Players g !! id) as [p|]; simpl in H; [|discriminate].
    destruct (IsActive p); [injection H as <-; reflexivity|].
    destruct (modLen _ g); simpl in H; [|discriminate].
    apply IH in H. exact H.
Qed.

Lemma moveDealerButton_lineup (g g' : Game) :
  moveDealerButton g = Some g' -> lineup g' = lineup g.
Proof.
  unfold moveDealerButton. intros H.
  destruct (length (PlayerOrder g) <? 2)%nat; [injection H as <-; reflexivity|].
  destruct (modLen _ g); simpl in H; [|discriminate].
  destruct (dealerLoop _ _) as [g0|] eqn:E; simpl in H; [|discriminate].
  apply dealerLoop_lineup in E. simpl in E.
  destruct (length (PlayerOrder g0) =? 2)%nat; peel H; injection H as <-; exact E.
Qed.

Lemma postBlinds_lineup (g g' : Game) :
  postBlinds g = Some g' -> lineup g' = lineup g.
Proof.
  unfold postBlinds. intros H. peel H. injection H as <-.
  change (lineup (set_Pot ?a ?x)) with (lineup x).
  rewrite lineup_updatePlayer by (intros; apply badge_betOf).
  change (lineup (set_Pot ?a ?x)) with (lineup x).
  apply lineup_updatePlayer. intros; apply badge_betOf.
Qed.

Lemma startNewHand_lineup (g g' : Game) :
  startNewHand g = Some g' -> lineup g' = lineup g.
Proof.
  rewrite startNewHand_deck. intros H.
  destruct (moveDealerButton (prepare g)) as [g1|] eqn:E1;
    cbn [mbind option_bind] in H; [|discriminate].
  unfold dealtHand in H.
  destruct (dealHoleCards _) as [g2|] eqn:E2; cbn [mbind option_bind] in H; [|discriminate].
  destruct (postBlinds g2) as [g3|] eqn:E3; cbn [mbind option_bind] in H; [|discriminate].
  destruct (modLen _ g3) as [cur|]; cbn [mbind option_bind] in H; [|discriminate].
  apply moveToNextActivePlayer_lineup in H.
  apply postBlinds_lineup in E3. apply dealHoleCards_lineup in E2.
  apply moveDealerButton_lineup in E1.
  change (lineup (set_CurrentPlayer cur g3)) with (lineup g3) in H.
  change (lineup (set_GDeck _ g1)) with (lineup g1) in E2.
  rewrite H, E3, E2, E1. unfold prepare.
  rewrite lineup_forAllPlayers by reflexivity. reflexivity.
Qed.

Lemma nextHandTimer_lineup (g g' : Game) :
  nextHandTimer g = Some g' -> lineup g' = lineup g.
Proof.
  unfold nextHandTimer. intros H.
  destruct (Phase g); try (injection H as <-; reflexivity).
  apply startNewHand_lineup. exact H.
Qed.

Lemma payWinners_lineup (potShare remainder : Z) (winners : list (string * Player)) :
  forall (i : nat) (g : Game),
    lineup (payWinners potShare remainder i winners g) = lineup g.
Proof.
  induction winners as [|[id p] rest IH]; intros i g; simpl; [reflexivity|].
  rewrite IH. apply lineup_updatePlayer. reflexivity.
Qed.

Lemma paySidePots_lineup (winners : list (string * Player)) (pots : list SidePot) :
  forall g g', paySidePots pots winners g = Some g' -> lineup g' = lineup g.
Proof.
  induction pots as [|pot rest IH]; intros g g' H; simpl in H.
  - injection H as <-. reflexivity.
  - destruct (length winners =? 0)%nat; [discriminate|].
    apply IH in H. rewrite H. apply payWinners_lineup.
Qed.

Lemma distributePots_lineup (g g' : Game) :
  distributePots g = Some g' -> lineup g' = lineup g.
Proof.
  unfold distributePots. intros H.
  destruct (getActivePlayers g) as [|[id p] [|second rest]].
  - injection H as <-. reflexivity.
  - injection H as <-.
    change (lineup (set_Pot ?a ?x)) with (lineup x).
    apply lineup_updatePlayer. reflexivity.
  - destruct (determineWinners g _) as [winners|]; simpl in H; [|discriminate].
    destruct (paySidePots _ _ _) as [g1|] eqn:E; simpl in H; [|discriminate].
    injection H as <-. apply paySidePots_lineup in E. exact E.
Qed.

(** [removeEliminatedPlayers] takes players away; it changes none. *)
Lemma removeLoop_keepsLineup (n : nat) : forall g g',
  removeLoop n g = Some g' -> keepsLineup g g'.
Proof.
  induction n as [|i IH]; intros g g' H; simpl in H.
  - injection H as <-. apply keepsLineup_refl.
  - destruct (PlayerOrder g !! i) as [id|] eqn:Hid; simpl in H; [|discriminate].
    destruct (Players g !! id) as [p|] eqn:Hp; simpl in H; [|discriminate].
    destruct ((ChipCount p <=? 0) && negb (Connected p)) eqn:Hgone;
      [|apply IH; exact H].
    apply IH in H. refine (keepsLineup_trans _ _ _ _ H).
    split; [reflexivity|].
    intros j q Hq. simpl in Hq. apply lookup_delete_Some in Hq as [_ Hq]. eauto.
Qed.

Lemma endHand_keepsLineup (g g' : Game) : endHand g = Some g' -> keepsLineup g g'.
Proof.
  unfold endHand. intros H.
  destruct (calculateSidePots _) as [g1|] eqn:E1; cbn [mbind option_bind] in H;
    [|discriminate].
  destruct (distributePots g1) as [g2|] eqn:E2; cbn [mbind option_bind] in H;
    [|discriminate].
  destruct (removeEliminatedPlayers g2) as [g3|] eqn:E3; cbn [mbind option_bind] in H;
    [|discriminate].
  apply calculateSidePots_lineup in E1. apply distributePots_lineup in E2.
  apply removeLoop_keepsLineup in E3.
  assert (Hfin : keepsLineup g3 g').
  { destruct (_ <? _); injection H as <-; apply lineup_keepsLineup; reflexivity. }
  refine (keepsLineup_trans _ _ _ _ Hfin).
  refine (keepsLineup_trans _ _ _ _ E3).
  apply lineup_keepsLineup. rewrite E2, E1. reflexivity.
Qed.

Lemma toNextSeat_lineup (g g' : Game) :
  (cur ← modLen (DealerPos g + 1) g; moveToNextActivePlayer (set_CurrentPlayer cur g))
  = Some g' -> lineup g' = lineup g.
Proof.
  intros H. destruct (modLen _ g) as [cur|]; cbn [mbind option_bind] in H; [|discriminate].
  apply moveToNextActivePlayer_lineup in H. exact H.
Qed.

Lemma advancePhase_keepsLineup (g g' : Game) :
  advancePhase g = Some g' -> keepsLineup g g'.
Proof.
  unfold advancePhase. intros H.
  set (g0 := set_LastRaise 0 (forAllPlayers (set_CurrentBet 0) g)) in *.
  assert (H0 : lineup g0 = lineup g).
  { unfold g0. change (lineup (set_LastRaise 0 ?x)) with (lineup x).
    apply lineup_forAllPlayers. reflexivity. }
  assert (Hstep : keepsLineup g0 g').
  { destruct (Phase g0).
    1, 6, 7: apply lineup_keepsLineup; apply toNextSeat_lineup in H; exact H.
    1, 2, 3: apply lineup_keepsLineup; apply toNextSeat_lineup in H; exact H.
    apply endHand_keepsLineup in H.
    refine (keepsLineup_trans _ _ _ _ H). apply lineup_keepsLineup. reflexivity. }
  refine (keepsLineup_trans _ _ _ _ Hstep). apply lineup_keepsLineup. exact H0.
Qed.

Lemma advanceGame_keepsLineup (g g' : Game) :
  advanceGame g = Some g' -> keepsLineup g g'.
Proof.
  unfold advanceGame. intros H.
  destruct (_ <=? 1)%nat; [apply endHand_keepsLineup; exact H|].
  destruct (isBettingRoundComplete g); [apply advancePhase_keepsLineup; exact H|].
  apply lineup_keepsLineup, moveToNextPlayer_lineup. exact H.
Qed.

Lemma processAction_keepsLineup (g g' : Game) (playerID : string)
    (action : PlayerAction) (amount now : Z) (err : option string) :
  processAction g playerID action amount now = Some (err, g') -> keepsLineup g g'.
Proof.
  unfold processAction. intros H.
  destruct (_ || _); [injection H as _ <-; apply keepsLineup_refl|].
  destruct (negb _); [injection H as _ <-; apply keepsLineup_refl|].
  destruct (Players g !! playerID) as [player|];
    [|injection H as _ <-; apply keepsLineup_refl].
  destruct (negb (CanAct player)); [injection H as _ <-; apply keepsLineup_refl|].
  match type of H with
  | match ?a with _ => _ end = _ => destruct a as [[e|] [act g1]] eqn:Happlied
  end.
  { injection H as _ <-. apply keepsLineup_refl. }
  assert (H1 : lineup g1 = lineup g).
  { destruct action; simpl in Happlied.
    - injection Happlied as _ <-. apply lineup_updatePlayer. reflexivity.
    - destruct (_ <? _); [discriminate|]. injection Happlied as _ <-. reflexivity.
    - destruct (ChipCount player <? _);
        (destruct (Bet player _) as [[e|] p']; [discriminate|]);
        injection Happlied as _ <-;
        change (lineup (set_Pot ?a ?x)) with (lineup x);
        apply lineup_updatePlayer; intros; apply badge_betOf.
    - destruct (amount <? _); [discriminate|].
      destruct (ChipCount player <? _); [discriminate|].
      destruct (Bet player _) as [[e|] p']; [discriminate|].
      injection Happlied as _ <-.
      change (lineup (set_MinRaise ?a (set_LastRaise ?b (set_Pot ?c ?x))))
        with (lineup x).
      apply lineup_updatePlayer; intros; apply badge_betOf.
    - destruct (Bet player _) as [[e|] p']; [discriminate|].
      injection Happlied as _ <-.
      destruct (_ <? _);
        [change (lineup (set_LastRaise ?b (set_Pot ?c ?x))) with (lineup x)
        |change (lineup (set_Pot ?c ?x)) with (lineup x)];
        apply lineup_updatePlayer; intros; apply badge_betOf. }
  destruct (advanceGame _) as [g2|] eqn:Hadv; cbn [mbind option_bind] in H;
    [|discriminate].
  injection H as _ <-. apply advanceGame_keepsLineup in Hadv.
  refine (keepsLineup_trans _ _ _ _ Hadv). apply lineup_keepsLineup.
  change (lineup (set_LastActivity ?a (set_Actions ?b ?x))) with (lineup x).
  rewrite lineup_updatePlayer by reflexivity. exact H1.
Qed.


Lemma AddPlayer_lineup (g g' : Game) (player : Player) (now : Z) :
  AddPlayer g player now = Some (None, g') ->
  charter g' = charter g /\
  Players g !! ID player = None /\
  Z.of_nat (size (Players g)) < MaxPlayers g /\
  badge <$> Players g' = <[ID player := badge player]> (badge <$> Players g).
Proof.
  unfold AddPlayer. intros H.
  destruct (Z.leb_spec (MaxPlayers g) (Z.of_nat (size (Players g)))) as [|Hroom];
    [discriminate|].
  destruct (bool_decide (is_Some _)) eqn:Hin; [discriminate|].
  apply bool_decide_eq_false in Hin.
  assert (Hnone : Players g !! ID player = None).
  { destruct (Players g !! ID player); [exfalso; apply Hin; eauto | reflexivity]. }
  set (g0 := set_LastActivity now
               (set_PlayerOrder (PlayerOrder g ++ [ID player])
                  (set_Players (<[ID player := player]> (Players g)) g))) in *.
  assert (Hseat : lineup g0 = (charter g, <[ID player := badge player]> (badge <$> Players g))).
  { unfold lineup, g0. simpl. rewrite fmap_insert. reflexivity. }
  assert (Hlast : lineup g' = lineup g0).
  { cbv zeta in H. destruct (_ && _).
    - match type of H with
      | context [startNewHand ?x] => change x with g0 in H
      end.
      destruct (startNewHand g0) as [g1|] eqn:E; cbn [mbind option_bind] in H;
        [|discriminate].
      injection H as <-. apply startNewHand_lineup. exact E.
    - injection H as <-. reflexivity. }
  rewrite Hseat in Hlast. unfold lineup in Hlast.
  apply pair_equal_spec in Hlast as [Hc Hm].
  repeat split; assumption.
Qed.

Lemma RemovePlayer_lineup (g g' : Game) (playerID : string) (now : Z)
    (err : option string) :
  RemovePlayer g playerID now = Some (err, g') -> lineup g' = lineup g.
Proof.
  intros H.
  destruct (Players g !! playerID) as [p|] eqn:Hp.
  - rewrite (RemovePlayer_seated g playerID p now Hp) in H. injection H as _ <-.
    change (lineup (set_LastActivity now ?x)) with (lineup x).
    apply lineup_updatePlayer. reflexivity.
  - unfold RemovePlayer in H. rewrite Hp in H. injection H as _ <-. reflexivity.
Qed.

(** X12.  No transition of a table touches what was fixed at its
    creation (id, name, player limits, blinds, buy-in, creation time,
    turn timeout) or what a player sat down with (id, user name, seat
    number).  An action, whatever it sets off (a new street, the
    settlement, the removal of eliminated players), leaves them as they
    were for every player still seated and seats nobody; so do a
    departure and the deferred start of the next hand, which also remove
    nobody; [AddPlayer] adds the new player's and changes no other. *)
Theorem table_keeps_what_is_fixed (g g' : Game) :
  (forall playerID action amount now err,
     processAction g playerID action amount now = Some (err, g') ->
     keepsLineup g g') /\
  (forall playerID now err,
     RemovePlayer g playerID now = Some (err, g') -> lineup g' = lineup g) /\
  (nextHandTimer g = Some g' -> lineup g' = lineup g) /\
  (forall player now,
     AddPlayer g player now = Some (None, g') ->
     charter g' = charter g /\
     badge <$> Players g' = <[ID player := badge player]> (badge <$> Players g)).
Proof.
  split; [|split; [|split]].
  - intros playerID action amount now err H.
    apply (processAction_keepsLineup g g' playerID action amount now err H).
  - intros playerID now err H. apply (RemovePlayer_lineup g g' playerID now err H).
  - apply nextHandTimer_lineup.
  - intros player now H.
    destruct (AddPlayer_lineup g g' player now H) as (Hc & _ & _ & Hm). auto.
Qed.

Lemma table_keeps_what_is_fixed_witness :
  lineup (set_LastActivity 7 (updatePlayer "ann" markGone duo)) = lineup duo.
Proof.
  apply (proj1 (proj2 (table_keeps_what_is_fixed duo
                         (set_LastActivity 7 (updatePlayer "ann" markGone duo))))
           "ann" 7 None).
  vm_compute. reflexivity.
Defined.

(* --------------------------------------------------------------------- *)
(** *** Where the cards are                                               *)
(* --------------------------------------------------------------------- *)

(** The hole cards of every seated player. *)
Definition holes (g : Game) : gmap string (list Card) := HoleCards <$> Players g.

(** Hole cards, board, remaining deck and street. *)
Definition layout (g : Game)
  : gmap string (list Card) * list Card * list Card * GamePhase :=
  (holes g, CommunityCards g, Cards (GDeck g), Phase g).

(** All the cards of a map of hands, in one list. *)
Definition pocket (m : gmap string (list Card)) : list Card :=
  mjoin (map_to_list m).*2.

Definition inHands (g : Game) : list Card := pocket (holes g).




Lemma pocket_nil (m : gmap string (list Card)) :
  (forall id v, m !! id = Some v -> v = []) -> pocket m = [].
Proof.
  intros H. unfold pocket. apply join_nil_2. apply Forall_forall.
  intros v Hv. apply list_elem_of_fmap in Hv as ([id v'] & -> & Hin).
  apply elem_of_map_to_list in Hin. simpl. eauto.
Qed.

Lemma layout_parts (g : Game) (h : gmap string (list Card)) (board deck : list Card)
    (phase : GamePhase) :
  layout g = (h, board, deck, phase) ->
  holes g = h /\ CommunityCards g = board /\ Cards (GDeck g) = deck /\ Phase g = phase.
Proof. unfold layout. intros H. injection H as H1 H2 H3 H4. auto. Qed.

Lemma layout_same (g g' : Game) :
  layout g' = layout g ->
  holes g' = holes g /\ CommunityCards g' = CommunityCards g /\
  Cards (GDeck g') = Cards (GDeck g) /\ Phase g' = Phase g.
Proof. apply layout_parts. Qed.

(** A change of one player that leaves the hole cards alone. *)
Lemma layout_updatePlayer (g : Game) (id : string) (f : Player -> Player) :
  (forall p, HoleCards (f p) = HoleCards p) ->
  layout (updatePlayer id f g) = layout g.
Proof.
  intros Hf. unfold layout, holes, updatePlayer. simpl. do 3 f_equal.
  apply map_eq. intros j. rewrite !lookup_fmap.
  destruct (decide (id = j)) as [->|Hne].
  - rewrite lookup_alter_eq. destruct (Players g !! j); simpl; [|reflexivity].
    rewrite Hf. reflexivity.
  - rewrite lookup_alter_ne by exact Hne. reflexivity.
Qed.


Lemma HoleCards_betOf (amount : Z) (p : Player) :
  HoleCards (betOf amount p) = HoleCards p.
Proof.
  unfold betOf, Bet. destruct (ChipCount p <? amount); [reflexivity|].
  simpl. destruct (_ =? 0); reflexivity.
Qed.

Lemma nextActiveLoop_layout (fuel : nat) : forall startPos g g',
  nextActiveLoop fuel startPos g = Some g' -> layout g' = layout g.
Proof.
  induction fuel as [|fuel IH]; intros startPos g g' H; simpl in H; [discriminate|].
  destruct (PlayerOrder g !! CurrentPlayer g) as [id|]; simpl in H; [|discriminate].
  destruct (match Players g !! id with Some player => CanAct player | None => false end).
  { injection H as <-. reflexivity. }
  destruct (modLen _ g) as [cur|]; simpl in H; [|discriminate].
  destruct (cur =? startPos)%nat.
  - injection H as <-. reflexivity.
  - apply IH in H. rewrite H. reflexivity.
Qed.

Lemma moveToNextActivePlayer_layout (g g' : Game) :
  moveToNextActivePlayer g = Some g' -> layout g' = layout g.
Proof. apply nextActiveLoop_layout. Qed.

Lemma moveToNextPlayer_layout (g g' : Game) :
  moveToNextPlayer g = Some g' -> layout g' = layout g.
Proof.
  unfold moveToNextPlayer. intros H.
  destruct (modLen _ g) as [cur|]; simpl in H; [|discriminate].
  apply moveToNextActivePlayer_layout in H. rewrite H. reflexivity.
Qed.

Lemma calculateSidePots_layout (g g' : Game) :
  calculateSidePots g = Some g' -> layout g' = layout g.
Proof.
  unfold calculateSidePots. intros H.
  destruct (foldr _ _ _); simpl in H; [|discriminate].
  injection H as <-. reflexivity.
Qed.

Lemma dealerLoop_layout (n : nat) : forall g g',
  dealerLoop n g = Some g' -> layout g' = layout g.
Proof.
  induction n as [|n IH]; intros g g' H; simpl in H.
  - injection H as <-. reflexivity.
  - destruct (PlayerOrder g !! DealerPos g) as [id|]; simpl in H; [|discriminate].
    destruct (Players g !! id) as [p|]; simpl in H; [|discriminate].
    destruct (IsActive p); [injection H as <-; reflexivity|].
    destruct (modLen _ g); simpl in H; [|discriminate].
    apply IH in H. exact H.
Qed.

Lemma moveDealerButton_layout (g g' : Game) :
  moveDealerButton g = Some g' -> layout g' = layout g.
Proof.
  unfold moveDealerButton. intros H.
  destruct (length (PlayerOrder g) <? 2)%nat; [injection H as <-; reflexivity|].
  destruct (modLen _ g); simpl in H; [|discriminate].
  destruct (dealerLoop _ _) as [g0|] eqn:E; simpl in H; [|discriminate].
  apply dealerLoop_layout in E. simpl in E.
  destruct (length (PlayerOrder g0) =? 2)%nat; peel H; injection H as <-; exact E.
Qed.

Lemma postBlinds_layout (g g' : Game) :
  postBlinds g = Some g' -> layout g' = layout g.
Proof.
  unfold postBlinds. intros H. peel H. injection H as <-.
  change (layout (set_Pot ?a ?x)) with (layout x).
  rewrite layout_updatePlayer by (intros; apply HoleCards_betOf).
  change (layout (set_Pot ?a ?x)) with (layout x).
  apply layout_updatePlayer. intros; apply HoleCards_betOf.
Qed.

Lemma payWinners_layout (potShare remainder : Z) (winners : list (string * Player)) :
  forall (i : nat) (g : Game),
    layout (payWinners potShare remainder i winners g) = layout g.
Proof.
  induction winners as [|[id p] rest IH]; intros i g; simpl; [reflexivity|].
  rewrite IH. apply layout_updatePlayer. reflexivity.
Qed.

Lemma paySidePots_layout (winners : list (string * Player)) (pots : list SidePot) :
  forall g g', paySidePots pots winners g = Some g' -> layout g' = layout g.
Proof.
  induction pots as [|pot rest IH]; intros g g' H; simpl in H.
  - injection H as <-. reflexivity.
  - destruct (length winners =? 0)%nat; [discriminate|].
    apply IH in H. rewrite H. apply payWinners_layout.
Qed.

Lemma distributePots_layout (g g' : Game) :
  distributePots g = Some g' -> layout g' = layout g.
Proof.
  unfold distributePots. intros H.
  destruct (getActivePlayers g) as [|[id p] [|second rest]].
  - injection H as <-. reflexivity.
  - injection H as <-.
    change (layout (set_Pot ?a ?x)) with (layout x).
    apply layout_updatePlayer. reflexivity.
  - destruct (determineWinners g _) as [winners|]; simpl in H; [|discriminate].
    destruct (paySidePots _ _ _) as [g1|] eqn:E; simpl in H; [|discriminate].
    injection H as <-. apply paySidePots_layout in E. exact E.
Qed.

Lemma toNextSeat_layout (g g' : Game) :
  (cur ← modLen (DealerPos g + 1) g; moveToNextActivePlayer (set_CurrentPlayer cur g))
  = Some g' -> layout g' = layout g.
Proof.
  intros H. destruct (modLen _ g) as [cur|]; cbn [mbind option_bind] in H; [|discriminate].
  apply moveToNextActivePlayer_layout in H. exact H.
Qed.

(** *** The pack is dealt once *)

























(** Before the deal nobody holds a card and the board is empty. *)
Lemma prepare_clears (g g1 : Game) :
  moveDealerButton (prepare g) = Some g1 ->
  inHands g1 = [] /\ CommunityCards g1 = [] /\ Phase g1 = PreFlop /\
  PlayerOrder g1 = PlayerOrder g.
Proof.
  intros E1.
  assert (Horder : PlayerOrder g1 = PlayerOrder g).
  { apply moveDealerButton_roster in E1. unfold roster in E1.
    apply pair_equal_spec in E1 as [E1 _]. exact E1. }
  apply moveDealerButton_layout, layout_same in E1 as (Hh1 & Hc1 & _ & Hph1).
  repeat split; try assumption.
  unfold inHands. rewrite Hh1. apply pocket_nil. intros id v Hv.
  unfold holes, prepare, forAllPlayers in Hv. cbn [Players set_Players] in Hv.
  rewrite !lookup_fmap in Hv. destruct (Players _ !! id); simpl in Hv; [|discriminate].
  injection Hv as <-. reflexivity.
Qed.






(* --------------------------------------------------------------------- *)
(** *** Everybody else has folded                                         *)
(* --------------------------------------------------------------------- *)

Lemma omap_nothing {A B : Type} (f : A -> option B) (l : list A) :
  (forall z, z ∈ l -> f z = None) -> omap f l = [].
Proof.
  induction l as [|a l IH]; intros Hnone; [reflexivity|].
  simpl. rewrite (Hnone a) by left. apply IH. intros z Hz. apply Hnone. right. exact Hz.
Qed.

Lemma omap_one {A B : Type} (f : A -> option B) (l : list A) (x : A) (y : B) :
  NoDup l -> x ∈ l -> f x = Some y -> (forall z, z ∈ l -> z <> x -> f z = None) ->
  omap f l = [y].
Proof.
  induction l as [|a l IH]; intros Hnd Hin Hx Hnone; [inversion Hin|].
  apply NoDup_cons in Hnd as [Hfresh Hnd]. simpl.
  apply elem_of_cons in Hin as [<- | Hin].
  - rewrite Hx. f_equal. apply omap_nothing. intros z Hz. apply Hnone; [right; exact Hz|].
    intros ->. contradiction.
  - rewrite (Hnone a); [|left|intros ->; contradiction].
    apply IH; try assumption. intros z Hz. apply Hnone. right. exact Hz.
Qed.

(** The game after a fold was applied and recorded, before it advances. *)
Definition folded (g : Game) (playerID : string) (amount now : Z) : Game :=
  let actionRecord := mkAction playerID Fold amount now in
  set_LastActivity now
    (set_Actions (Actions g ++ [actionRecord])
       (updatePlayer playerID (set_LastAction (Some actionRecord))
          (updatePlayer playerID Player_Fold g))).

Lemma processAction_Fold (g : Game) (playerID : string) (player : Player) (amount now : Z) :
  Phase g <> WaitingForPlayers -> Phase g <> GameOver ->
  getCurrentPlayerID g = playerID ->
  Players g !! playerID = Some player -> CanAct player = true ->
  processAction g playerID Fold amount now =
    (g' ← advanceGame (folded g playerID amount now); Some (None, g')).
Proof.
  intros Hw Ho Hcur Hp Hact. unfold processAction.
  rewrite (bool_decide_eq_false_2 _ Hw), (bool_decide_eq_false_2 _ Ho).
  rewrite (bool_decide_eq_true_2 (playerID = getCurrentPlayerID g)) by congruence.
  cbn [orb negb]. rewrite Hp, Hact. reflexivity.
Qed.

Lemma calculateSidePots_seated (g : Game) :
  Seats g -> exists pots, calculateSidePots g = Some (set_SidePots pots g).
Proof.
  intros [_ Hin]. unfold calculateSidePots.
  assert (Hfold : forall order, (forall id, id ∈ order -> is_Some (Players g !! id)) ->
            is_Some (foldr (fun playerID acc =>
                              rest ← acc;
                              player ← Players g !! playerID;
                              Some (if HasFolded player then rest else playerID :: rest))
                           (Some []) order)).
  { induction order as [|id rest IH]; intros Hall; [simpl; eauto|].
    simpl. destruct IH as [done Hdone]; [intros j Hj; apply Hall; right; exact Hj|].
    rewrite Hdone. cbn [mbind option_bind].
    destruct (Hall id) as [p Hp]; [left|]. rewrite Hp. simpl. eauto. }
  destruct (Hfold (PlayerOrder g)) as [eligible He]; [intros id Hid; apply Hin; exact Hid|].
  rewrite He. simpl. eauto.
Qed.

(** The chips of a player once the pot went to [winner]. *)
Definition paidTo (winner : string) (pot : Z) (id : string) (p : Player) : Z :=
  if bool_decide (id = winner) then int64.add (ChipCount p) pot else ChipCount p.

(** X21.  If everybody else has folded, the last player takes the pot
    without a showdown.  At a table whose seat order names each seated
    player once, the player to act folds and leaves [winner] the only
    player who has not folded: the action is accepted, the hand is
    settled at once (phase Showdown or GameOver, whatever the street
    was), the pot is emptied into the winner's stack (a 64-bit sum), no
    other stack changes, and the only players removed from the table are
    those who are disconnected and have no chips after that. *)
Theorem last_player_standing_takes_the_pot (g : Game) (folder winner : string)
    (pf pw : Player) (amount now : Z) :
  Seats g ->
  Phase g <> WaitingForPlayers -> Phase g <> GameOver ->
  getCurrentPlayerID g = folder ->
  Players g !! folder = Some pf -> CanAct pf = true ->
  Players g !! winner = Some pw -> winner <> folder -> HasFolded pw = false ->
  (forall id p, Players g !! id = Some p -> id <> folder -> id <> winner ->
                HasFolded p = true) ->
  exists g',
    processAction g folder Fold amount now = Some (None, g') /\
    settled (Phase g') /\ Pot g' = 0 /\
    (forall id p', Players g' !! id = Some p' ->
       exists p, Players g !! id = Some p /\
                 ChipCount p' = paidTo winner (Pot g) id p) /\
    (forall id p, Players g !! id = Some p ->
       (Players g' !! id = None <->
        paidTo winner (Pot g) id p <= 0 /\ Connected p = false)).
Proof.
  intros Hseats Hw Ho Hcur Hpf Hact Hpw Hne Hin Hout.
  rewrite (processAction_Fold g folder pf amount now Hw Ho Hcur Hpf Hact).
  set (g1 := folded g folder amount now).
  set (mark := fun p => set_LastAction (Some (mkAction folder Fold amount now))
                          (Player_Fold p)).
  assert (Hplayers1 : forall id, Players g1 !! id =
            if decide (id = folder) then mark <$> Players g !! id else Players g !! id).
  { intros id. unfold g1, folded, updatePlayer. cbn [Players set_LastActivity set_Actions set_Players].
    destruct (decide (id = folder)) as [->|Hid].
    - rewrite !lookup_alter_eq. destruct (Players g !! folder); reflexivity.
    - rewrite !lookup_alter_ne by congruence. reflexivity. }
  assert (Hroster1 : roster g1 = roster g).
  { unfold g1, folded.
    change (roster (set_LastActivity ?a (set_Actions ?b ?x))) with (roster x).
    rewrite !roster_updatePlayer by reflexivity. reflexivity. }
  assert (Hseats1 : Seats g1) by (apply (roster_sameTable g g1 Hroster1); exact Hseats).
  assert (Horder1 : PlayerOrder g1 = PlayerOrder g) by reflexivity.
  assert (Hpw1 : Players g1 !! winner = Some pw).
  { rewrite Hplayers1. destruct (decide (winner = folder)); [contradiction | exact Hpw]. }
  assert (Hactive : getActivePlayers g1 = [(winner, pw)]).
  { unfold getActivePlayers. apply (omap_one _ _ winner).
    - apply (seats_NoDup g1 Hseats1).
    - apply (seats_players g1 Hseats1). eauto.
    - rewrite Hpw1, Hin. reflexivity.
    - intros id _ Hid. rewrite Hplayers1.
      destruct (decide (id = folder)) as [->|Hnf].
      + rewrite Hpf. reflexivity.
      + destruct (Players g !! id) as [p|] eqn:Hp; [|reflexivity].
        rewrite (Hout id p Hp Hnf Hid). reflexivity. }
  unfold advanceGame. rewrite Hactive. cbn [length Nat.leb].
  unfold endHand.
  destruct (calculateSidePots_seated (set_Phase Showdown g1)) as [pots Hpots].
  { apply (roster_sameTable g1); [reflexivity | exact Hseats1]. }
  rewrite Hpots. cbn [mbind option_bind].
  set (g2 := set_SidePots pots (set_Phase Showdown g1)).
  assert (Hactive2 : getActivePlayers g2 = [(winner, pw)]) by exact Hactive.
  unfold distributePots. rewrite Hactive2. cbn [mbind option_bind].
  set (g3 := set_Pot 0 (updatePlayer winner (addChips (Pot g2)) g2)).
  assert (Hroster3 : roster g3 = roster g).
  { unfold g3. change (roster (set_Pot 0 ?x)) with (roster x).
    rewrite roster_updatePlayer by reflexivity. exact Hroster1. }
  assert (Hseats3 : Seats g3) by (apply (roster_sameTable g g3 Hroster3); exact Hseats).
  assert (Hplayers3 : forall id p, Players g !! id = Some p ->
            exists p3, Players g3 !! id = Some p3 /\
                       ChipCount p3 = paidTo winner (Pot g) id p /\
                       Connected p3 = Connected p).
  { intros id p Hp. unfold g3, updatePlayer, paidTo.
    cbn [Players set_Pot set_Players].
    change (Players g2) with (Players g1). change (Pot g2) with (Pot g).
    destruct (decide (id = winner)) as [->|Hid].
    - rewrite lookup_alter_eq, Hpw1, bool_decide_eq_true_2 by reflexivity.
      assert (p = pw) by congruence. subst p. eexists. split; [reflexivity|].
      split; reflexivity.
    - rewrite lookup_alter_ne, bool_decide_eq_false_2 by congruence.
      rewrite Hplayers1. destruct (decide (id = folder)) as [->|Hnf].
      + rewrite Hp. eexists. split; [reflexivity|]. split; reflexivity.
      + eauto. }
  assert (Hsame3 : forall id, Players g3 !! id = None <-> Players g !! id = None).
  { intros id. rewrite <- !not_elem_of_dom.
    assert (Hd : dom (Players g3) = dom (Players g)); [|rewrite Hd; reflexivity].
    apply set_eq. intros j. rewrite !elem_of_dom.
    rewrite <- (seats_players g3 Hseats3), <- (seats_players g Hseats).
    change (PlayerOrder g3) with (PlayerOrder g). reflexivity. }
  destruct (removeLoop_filters (length (PlayerOrder g3)) g3 Hseats3 (le_n _))
    as (g4 & Hremove & _ & Hplayers4 & Hpot4 & Hphase4 & _).
  unfold removeEliminatedPlayers. rewrite Hremove. cbn [mbind option_bind].
  rewrite firstn_all in Hplayers4.
  assert (Hfinal : forall g5, Players g5 = Players g4 -> Pot g5 = Pot g4 ->
            settled (Phase g5) ->
            settled (Phase g5) /\ Pot g5 = 0 /\
            (forall id p', Players g5 !! id = Some p' ->
               exists p, Players g !! id = Some p /\
                         ChipCount p' = paidTo winner (Pot g) id p) /\
            (forall id p, Players g !! id = Some p ->
               (Players g5 !! id = None <->
                paidTo winner (Pot g) id p <= 0 /\ Connected p = false))).
  { intros g5 Hp5 Hpot5 Hset. split; [exact Hset|]. split; [rewrite Hpot5; exact Hpot4|].
    rewrite Hp5. split.
    - intros id p' Hp'. rewrite Hplayers4 in Hp'.
      destruct (decide _); [discriminate|].
      destruct (Players g !! id) as [p|] eqn:Hp.
      + destruct (Hplayers3 id p Hp) as (p3 & Hp3 & Hchips & _).
        exists p. split; [reflexivity|]. congruence.
      + apply Hsame3 in Hp. congruence.
    - intros id p Hp. destruct (Hplayers3 id p Hp) as (p3 & Hp3 & Hchips & Hconn).
      rewrite Hplayers4. unfold goneAt, gone. rewrite Hp3, Hchips, Hconn.
      assert (Hseated : id ∈ PlayerOrder g3) by (apply (seats_players g3 Hseats3); eauto).
      destruct (decide _) as [[_ Hgone] | Hstay].
      + apply andb_true_iff in Hgone as [Hle Hc]. apply Z.leb_le in Hle.
        apply negb_true_iff in Hc. tauto.
      + split; [discriminate|]. intros [Hle Hc]. exfalso. apply Hstay.
        split; [exact Hseated|]. rewrite Hc. apply andb_true_iff.
        split; [apply Z.leb_le; exact Hle | reflexivity]. }
  destruct (_ <? _).
  - eexists. split; [reflexivity|]. apply Hfinal; [reflexivity | reflexivity|].
    right. reflexivity.
  - exists g4. split; [reflexivity|]. apply Hfinal; [reflexivity | reflexivity|].
    left. exact Hphase4.
Qed.

(** Ann and Bob with 150 chips in the pot, Ann to act. *)
Definition duoWithPot : Game := set_Pot 150 duo.

Lemma last_player_standing_takes_the_pot_witness :
  exists g',
    processAction duoWithPot "ann" Fold 0 9 = Some (None, g') /\
    settled (Phase g') /\ Pot g' = 0 /\
    (forall id p', Players g' !! id = Some p' ->
       exists p, Players duoWithPot !! id = Some p /\
                 ChipCount p' = paidTo "bob" (Pot duoWithPot) id p) /\
    (forall id p, Players duoWithPot !! id = Some p ->
       (Players g' !! id = None <->
        paidTo "bob" (Pot duoWithPot) id p <= 0 /\ Connected p = false)).
Proof.
  apply (last_player_standing_takes_the_pot duoWithPot "ann" "bob"
           (NewPlayer "ann" "Ann" 1000 0) (NewPlayer "bob" "Bob" 0 1) 0 9).
  - destruct duo_Seats as [Hnd Hin]. split; [exact Hnd | exact Hin].
  - vm_compute. discriminate.
  - vm_compute. discriminate.
  - vm_compute. reflexivity.
  - vm_compute. reflexivity.
  - reflexivity.
  - vm_compute. reflexivity.
  - discriminate.
  - reflexivity.
  - intros id p Hp Ha Hb. exfalso.
    change (Players duoWithPot)
      with (<["bob" := NewPlayer "bob" "Bob" 0 1]>
              (<["ann" := NewPlayer "ann" "Ann" 1000 0]> (∅ : gmap string Player))) in Hp.
    rewrite lookup_insert_ne, lookup_insert_ne, lookup_empty in Hp by congruence.
    discriminate.
Defined.

(* --------------------------------------------------------------------- *)
(** *** Two hole cards each                                               *)
(* --------------------------------------------------------------------- *)

(** The number of hole cards, and whether the player is in the hand. *)
Definition dealtTo (p : Player) : nat * bool := (length (HoleCards p), IsActive p).

Lemma dealerLoop_Players (n : nat) : forall g g',
  dealerLoop n g = Some g' -> Players g' = Players g /\ PlayerOrder g' = PlayerOrder g.
Proof.
  induction n as [|n IH]; intros g g' H; simpl in H.
  - injection H as <-. auto.
  - destruct (PlayerOrder g !! DealerPos g) as [id|]; simpl in H; [|discriminate].
    destruct (Players g !! id) as [p|]; simpl in H; [|discriminate].
    destruct (IsActive p); [injection H as <-; auto|].
    destruct (modLen _ g); simpl in H; [|discriminate].
    apply IH in H. exact H.
Qed.

Lemma moveDealerButton_Players (g g' : Game) :
  moveDealerButton g = Some g' -> Players g' = Players g /\ PlayerOrder g' = PlayerOrder g.
Proof.
  unfold moveDealerButton. intros H.
  destruct (length (PlayerOrder g) <? 2)%nat; [injection H as <-; auto|].
  destruct (modLen _ g); simpl in H; [|discriminate].
  destruct (dealerLoop _ _) as [g0|] eqn:E; simpl in H; [|discriminate].
  apply dealerLoop_Players in E. simpl in E.
  destruct (length (PlayerOrder g0) =? 2)%nat; peel H; injection H as <-; exact E.
Qed.

Lemma nextActiveLoop_Players (fuel : nat) : forall startPos g g',
  nextActiveLoop fuel startPos g = Some g' -> Players g' = Players g.
Proof.
  induction fuel as [|fuel IH]; intros startPos g g' H; simpl in H; [discriminate|].
  destruct (PlayerOrder g !! CurrentPlayer g) as [id|]; simpl in H; [|discriminate].
  destruct (match Players g !! id with Some player => CanAct player | None => false end).
  { injection H as <-. reflexivity. }
  destruct (modLen _ g) as [cur|]; simpl in H; [|discriminate].
  destruct (cur =? startPos)%nat.
  - injection H as <-. reflexivity.
  - apply IH in H. rewrite H. reflexivity.
Qed.

Lemma dealtTo_updatePlayer (g : Game) (id : string) (f : Player -> Player) :
  (forall p, dealtTo (f p) = dealtTo p) ->
  dealtTo <$> Players (updatePlayer id f g) = dealtTo <$> Players g.
Proof.
  intros Hf. unfold updatePlayer. simpl.
  apply map_eq. intros j. rewrite !lookup_fmap.
  destruct (decide (id = j)) as [->|Hne].
  - rewrite lookup_alter_eq. destruct (Players g !! j); simpl; [|reflexivity].
    rewrite Hf. reflexivity.
  - rewrite lookup_alter_ne by exact Hne. reflexivity.
Qed.

Lemma dealtTo_betOf (amount : Z) (p : Player) : dealtTo (betOf amount p) = dealtTo p.
Proof.
  unfold betOf, Bet. destruct (ChipCount p <? amount); [reflexivity|].
  simpl. destruct (_ =? 0); reflexivity.
Qed.

Lemma postBlinds_dealtTo (g g' : Game) :
  postBlinds g = Some g' -> dealtTo <$> Players g' = dealtTo <$> Players g.
Proof.
  unfold postBlinds. intros H. peel H. injection H as <-.
  change (Players (set_Pot ?a ?x)) with (Players x).
  rewrite dealtTo_updatePlayer by (intros; apply dealtTo_betOf).
  change (Players (set_Pot ?a ?x)) with (Players x).
  apply dealtTo_updatePlayer. intros; apply dealtTo_betOf.
Qed.

(** One card more for a player of the pass who is in the hand. *)
Definition oneMore (order : list string) (id : string) (v : nat * bool) : nat * bool :=
  if bool_decide (id ∈ order) && snd v then (S (fst v), snd v) else v.

Lemma oneMore_cons_ne (first id : string) (rest : list string) (v : nat * bool) :
  id <> first -> oneMore (first :: rest) id v = oneMore rest id v.
Proof.
  intros Hne. unfold oneMore.
  destruct (decide (id ∈ rest)) as [Hin|Hnin].
  - rewrite !bool_decide_eq_true_2; [reflexivity | exact Hin | right; exact Hin].
  - rewrite !bool_decide_eq_false_2; [reflexivity | exact Hnin|].
    intros Hx. apply elem_of_cons in Hx as [Hx|Hx]; contradiction.
Qed.

(** One pass gives one card to each player of the pass who is in the
    hand. *)
Lemma dealPass_each (order : list string) : forall g g',
  NoDup order -> dealPass order g = Some g' ->
  PlayerOrder g' = PlayerOrder g /\
  forall id, dealtTo <$> Players g' !! id =
             oneMore order id <$> (dealtTo <$> Players g !! id).
Proof.
  induction order as [|first rest IH]; intros g g' Hnd H; simpl in H.
  - injection H as <-. split; [reflexivity|]. intros id.
    destruct (Players g !! id) as [[]|]; reflexivity.
  - apply NoDup_cons in Hnd as [Hfresh Hnd].
    destruct (Players g !! first) as [p|] eqn:Hp; simpl in H; [|discriminate].
    destruct (IsActive p) eqn:Hactive.
    + unfold dealCard in H. cbn [fst snd] in H.
      apply (IH _ _ Hnd) in H as [Horder Heach]. split; [exact Horder|].
      intros id. rewrite Heach. unfold updatePlayer.
      cbn [Players set_Players set_GDeck].
      destruct (decide (id = first)) as [->|Hne].
      * rewrite lookup_alter_eq, Hp. cbn [fmap option_fmap option_map].
        unfold oneMore, dealtTo.
        rewrite (bool_decide_eq_false_2 (first ∈ rest)) by exact Hfresh.
        rewrite (bool_decide_eq_true_2 (first ∈ first :: rest)) by left.
        cbn [andb fst snd HoleCards IsActive set_HoleCards].
        rewrite Hactive, length_app. cbn [length]. f_equal. f_equal. lia.
      * rewrite lookup_alter_ne by congruence.
        destruct (Players g !! id) as [q|]; [|reflexivity].
        cbn [fmap option_fmap option_map]. rewrite oneMore_cons_ne by exact Hne.
        reflexivity.
    + apply (IH _ _ Hnd) in H as [Horder Heach]. split; [exact Horder|].
      intros id. rewrite Heach.
      destruct (Players g !! id) as [q|] eqn:Hq; [|reflexivity].
      cbn [fmap option_fmap option_map]. f_equal.
      destruct (decide (id = first)) as [->|Hne].
      * assert (q = p) by congruence. subst q. unfold oneMore, dealtTo.
        cbn [fst snd]. rewrite Hactive, !andb_false_r. reflexivity.
      * rewrite oneMore_cons_ne by exact Hne. reflexivity.
Qed.

Lemma dealPass_deals_frame (order : list string) : forall g g',
  dealPass order g = Some g' ->
  CommunityCards g' = CommunityCards g /\ Phase g' = Phase g.
Proof.
  induction order as [|id rest IH]; intros g g' H; simpl in H.
  - injection H as <-. auto.
  - destruct (Players g !! id) as [p|]; simpl in H; [|discriminate].
    destruct (IsActive p); apply IH in H; exact H.
Qed.

(** X22.  [startNewHand] deals two hole cards to every player who is in
    the hand and none to the others.  At a table whose seat order names
    each seated player once, after [startNewHand] the seated players are
    the same as before; a player is in the hand ([IsActive]) exactly if
    they had chips and were connected; those players hold exactly two
    hole cards and every other player holds none; the board is empty and
    the phase is PreFlop. *)
Theorem startNewHand_deals_two_each (g g' : Game) :
  Seats g -> startNewHand g = Some g' ->
  Phase g' = PreFlop /\ CommunityCards g' = [] /\
  PlayerOrder g' = PlayerOrder g /\
  forall id,
    match Players g !! id, Players g' !! id with
    | Some p, Some p' =>
        IsActive p' = (0 <? ChipCount p) && Connected p /\
        length (HoleCards p') = (if IsActive p' then 2 else 0)%nat
    | None, None => True
    | _, _ => False
    end.
Proof.
  intros Hseats. rewrite startNewHand_deck. intros H.
  destruct (moveDealerButton (prepare g)) as [g1|] eqn:E1;
    cbn [mbind option_bind] in H; [|discriminate].
  unfold dealtHand in H.
  remember (set_GDeck (Reset (GDeck g)) g1) as gd eqn:Hgd.
  destruct (dealHoleCards gd) as [g2|] eqn:E2; cbn [mbind option_bind] in H;
    [|discriminate].
  destruct (postBlinds g2) as [g3|] eqn:E3; cbn [mbind option_bind] in H; [|discriminate].
  destruct (modLen _ g3) as [cur|]; cbn [mbind option_bind] in H; [|discriminate].
  pose proof (moveToNextActivePlayer_layout _ _ H) as Hl4.
  apply layout_same in Hl4 as (_ & Hboard4 & _ & Hphase4).
  pose proof (moveToNextActivePlayer_roster _ _ H) as Hr4.
  apply nextActiveLoop_Players in H.
  change (Players (set_CurrentPlayer cur g3)) with (Players g3) in H.
  pose proof (postBlinds_layout _ _ E3) as Hl3.
  apply layout_same in Hl3 as (_ & Hboard3 & _ & Hphase3).
  pose proof (postBlinds_roster _ _ E3) as Hr3.
  apply postBlinds_dealtTo in E3.
  destruct (prepare_clears g g1 E1) as (_ & Hboard1 & Hphase1 & Horder1).
  apply moveDealerButton_Players in E1 as [Hplayers1 _].
  assert (Hnd : NoDup (PlayerOrder gd))
    by (rewrite Hgd; cbn [PlayerOrder set_GDeck]; rewrite Horder1;
        apply (seats_NoDup g Hseats)).
  unfold dealHoleCards in E2.
  destruct (dealPass (PlayerOrder gd) gd) as [ga|] eqn:Ea;
    cbn [mbind option_bind] in E2; [|discriminate].
  destruct (dealPass_each _ _ _ Hnd Ea) as [Hoa Hfirst].
  rewrite <- Hoa in Hnd.
  destruct (dealPass_each _ _ _ Hnd E2) as [Hob Hsecond].
  assert (Horder2 : PlayerOrder g2 = PlayerOrder g).
  { rewrite Hob, Hoa, Hgd. exact Horder1. }
  assert (Hboard2 : CommunityCards g2 = [] /\ Phase g2 = PreFlop).
  { pose proof (proj1 (dealPass_deals_frame _ _ _ Ea)) as Hfa.
    pose proof (proj1 (dealPass_deals_frame _ _ _ E2)) as Hfb.
    pose proof (proj2 (dealPass_deals_frame _ _ _ Ea)) as Hpa.
    pose proof (proj2 (dealPass_deals_frame _ _ _ E2)) as Hpb.
    rewrite Hfb, Hfa, Hpb, Hpa, Hgd. split; [exact Hboard1 | exact Hphase1]. }
  split; [rewrite Hphase4; cbn [Phase set_CurrentPlayer]; rewrite Hphase3; apply Hboard2|].
  split; [rewrite Hboard4; cbn [CommunityCards set_CurrentPlayer]; rewrite Hboard3;
          apply Hboard2|].
  split.
  { unfold roster in Hr4, Hr3. apply pair_equal_spec in Hr4 as [Hr4 _].
    apply pair_equal_spec in Hr3 as [Hr3 _].
    rewrite Hr4. cbn [PlayerOrder set_CurrentPlayer]. rewrite Hr3. exact Horder2. }
  intros id. rewrite H.
  assert (Hview : dealtTo <$> Players g3 !! id = dealtTo <$> Players g2 !! id)
    by (rewrite <- !lookup_fmap, E3; reflexivity).
  rewrite Hsecond, Hfirst in Hview. rewrite Hoa in Hview.
  assert (Hgd_players : Players gd !! id = ResetForNewHand <$> Players g !! id).
  { rewrite Hgd. cbn [Players set_GDeck]. rewrite Hplayers1.
    unfold prepare, forAllPlayers. cbn [Players set_Players].
    rewrite lookup_fmap. reflexivity. }
  rewrite Hgd_players in Hview.
  assert (Hin : id ∈ PlayerOrder gd <-> is_Some (Players g !! id)).
  { rewrite Hgd. cbn [PlayerOrder set_GDeck]. rewrite Horder1.
    apply (seats_players g Hseats). }
  destruct (Players g !! id) as [p|] eqn:Hp.
  - destruct (Players g3 !! id) as [p3|]; [|discriminate Hview].
    cbn [fmap option_fmap option_map] in Hview. unfold oneMore, dealtTo in Hview.
    rewrite (bool_decide_eq_true_2 (id ∈ PlayerOrder gd)) in Hview by (apply Hin; eauto).
    cbn [ResetForNewHand HoleCards IsActive set_HoleCards set_CurrentBet set_TotalBet
         set_HasFolded set_IsAllIn set_LastAction set_ActionTime set_IsActive
         ChipCount Connected length andb fst snd] in Hview.
    destruct ((0 <? ChipCount p) && Connected p); cbn [fst snd] in Hview;
      injection Hview as Hcards Hactive; rewrite Hactive; auto.
  - destruct (Players g3 !! id); [discriminate Hview | exact I].
Qed.

Lemma startNewHand_deals_two_each_witness :
  exists g',
    startNewHand duo = Some g' /\
    Phase g' = PreFlop /\ CommunityCards g' = [] /\
    PlayerOrder g' = PlayerOrder duo /\
    forall id,
      match Players duo !! id, Players g' !! id with
      | Some p, Some p' =>
          IsActive p' = (0 <? ChipCount p) && Connected p /\
          length (HoleCards p') = (if IsActive p' then 2 else 0)%nat
      | None, None => True
      | _, _ => False
      end.
Proof.
  assert (Hrun : exists g', startNewHand duo = Some g').
  { eexists. vm_compute. reflexivity. }
  destruct Hrun as [g' Hrun]. exists g'. split; [exact Hrun|].
  apply (startNewHand_deals_two_each duo g' duo_Seats Hrun).
Defined.

(* --------------------------------------------------------------------- *)
(** *** The dealer button                                                 *)
(* --------------------------------------------------------------------- *)

(** The player seated at [pos] is in the hand. *)
Definition activeAt (g : Game) (pos : nat) : bool :=
  match PlayerOrder g !! pos with
  | Some id =>
      match Players g !! id with
      | Some player => IsActive player
      | None => false
      end
  | None => false
  end.

(** The seat [d] seats after the one next to the dealer. *)
Definition dealerAfter (g : Game) (d : nat) : nat :=
  ((DealerPos g + 1 + d) mod length (PlayerOrder g))%nat.

Lemma modLen_Some (x : nat) (g : Game) :
  length (PlayerOrder g) <> 0%nat ->
  modLen x g = Some (x mod length (PlayerOrder g))%nat.
Proof. unfold modLen. destruct (length (PlayerOrder g)); [contradiction | reflexivity]. Qed.

Lemma dealerLoop_finds (g0 : Game) (fuel : nat) : forall k : nat,
  Seats g0 -> length (PlayerOrder g0) <> 0%nat ->
  (forall j, (j < k)%nat -> activeAt g0 (dealerAfter g0 j) = false) ->
  exists d, (k <= d <= k + fuel)%nat /\
    dealerLoop fuel (set_DealerPos (dealerAfter g0 k) g0)
    = Some (set_DealerPos (dealerAfter g0 d) g0) /\
    (forall j, (j < d)%nat -> activeAt g0 (dealerAfter g0 j) = false) /\
    ((d < k + fuel)%nat -> activeAt g0 (dealerAfter g0 d) = true).
Proof.
  induction fuel as [|fuel IH]; intros k Hseats Hn Hnone.
  { exists k. split; [lia|]. split; [reflexivity|]. split; [exact Hnone | lia]. }
  set (n := length (PlayerOrder g0)) in *.
  assert (Hpos : (dealerAfter g0 k < n)%nat) by (apply Nat.mod_upper_bound; exact Hn).
  destruct (lookup_lt_is_Some_2 (PlayerOrder g0) (dealerAfter g0 k) Hpos) as [id Hid].
  assert (Hin : id ∈ PlayerOrder g0) by (apply list_elem_of_lookup; eauto).
  destruct (proj1 (seats_players g0 Hseats id) Hin) as [p Hp].
  cbn [dealerLoop].
  change (PlayerOrder (set_DealerPos ?c g0)) with (PlayerOrder g0).
  change (Players (set_DealerPos ?c g0)) with (Players g0).
  change (DealerPos (set_DealerPos ?c g0)) with c.
  rewrite Hid. cbn [mbind option_bind]. rewrite Hp. cbn [mbind option_bind].
  assert (Hactive : activeAt g0 (dealerAfter g0 k) = IsActive p)
    by (unfold activeAt; rewrite Hid, Hp; reflexivity).
  destruct (IsActive p) eqn:Hk.
  { exists k. split; [lia|]. split; [reflexivity|].
    split; [exact Hnone | intros _; exact Hactive]. }
  unfold modLen.
  change (PlayerOrder (set_DealerPos ?c g0)) with (PlayerOrder g0).
  fold n. destruct n as [|n'] eqn:En; [lia|]. rewrite <- En in *.
  cbn [mbind option_bind].
  assert (Hnext : ((dealerAfter g0 k + 1) mod n = dealerAfter g0 (k + 1))%nat).
  { unfold dealerAfter. fold n. rewrite Nat.Div0.add_mod_idemp_l. f_equal. lia. }
  rewrite Hnext.
  change (set_DealerPos (dealerAfter g0 (k + 1)) (set_DealerPos (dealerAfter g0 k) g0))
    with (set_DealerPos (dealerAfter g0 (k + 1)) g0).
  destruct (IH (k + 1)%nat Hseats Hn) as (d & Hd & Hrun & Hbefore & Hat).
  { intros j Hj. destruct (decide (j = k)) as [->|Hne]; [exact Hactive | apply Hnone; lia]. }
  exists d. split; [lia|]. split; [exact Hrun|]. split; [exact Hbefore|].
  intros Hlt. apply Hat. lia.
Qed.

(** X23.  [moveDealerButton] does nothing at a table of fewer than two
    seats.  Otherwise, at a table whose seat order names each seated
    player once, it moves the button to the first seat after the old
    dealer, going round the table, whose player is in the hand
    ([IsActive]); if nobody is, the button ends up one seat after the
    old dealer.  The blinds are then placed by seat alone, whether or
    not the players there are in the hand: heads-up the dealer is the
    small blind and the other seat the big blind; otherwise they are the
    next two seats after the dealer. *)
Theorem moveDealerButton_positions (g : Game) :
  let n := length (PlayerOrder g) in
  ((n < 2)%nat -> moveDealerButton g = Some g) /\
  ((2 <= n)%nat -> Seats g ->
   exists d, (d <= n)%nat /\
     (forall j, (j < d)%nat -> activeAt g (dealerAfter g j) = false) /\
     ((d < n)%nat -> activeAt g (dealerAfter g d) = true) /\
     let dealer := dealerAfter g d in
     let small := if (n =? 2)%nat then dealer else ((dealer + 1) mod n)%nat in
     let big :=
       if (n =? 2)%nat then ((dealer + 1) mod n)%nat else ((dealer + 2) mod n)%nat in
     moveDealerButton g
     = Some (set_BigBlindPos big (set_SmallBlindPos small (set_DealerPos dealer g)))).
Proof.
  intros n. split.
  - intros Hn. unfold moveDealerButton. fold n.
    destruct (Nat.ltb_spec n 2); [reflexivity | lia].
  - intros Hn Hseats. unfold moveDealerButton. fold n.
    destruct (Nat.ltb_spec n 2); [lia|].
    assert (Hn0 : length (PlayerOrder g) <> 0%nat) by (fold n; lia).
    rewrite (modLen_Some _ g Hn0). cbn [mbind option_bind]. fold n.
    assert (Hfirst : ((DealerPos g + 1) mod n)%nat = dealerAfter g 0)
      by (unfold dealerAfter; fold n; rewrite Nat.add_0_r; reflexivity).
    rewrite Hfirst.
    destruct (dealerLoop_finds g n 0 Hseats Hn0) as (d & Hd & Hrun & Hbefore & Hat).
    { intros j Hj. lia. }
    fold n in Hrun. rewrite Hrun. cbn [mbind option_bind].
    exists d. split; [lia|]. split; [exact Hbefore|]. split; [exact Hat|].
    cbv zeta.
    rewrite !(modLen_Some _ (set_DealerPos (dealerAfter g d) g) Hn0).
    change (PlayerOrder (set_DealerPos ?c g)) with (PlayerOrder g).
    change (DealerPos (set_DealerPos ?c g)) with c. fold n.
    destruct (n =? 2)%nat; reflexivity.
Qed.

(* --------------------------------------------------------------------- *)
(** *** The order of the streets                                          *)
(* --------------------------------------------------------------------- *)

(** From one phase to the next in one step: the same phase, the next
    street, or the settlement. *)
Definition moves (before after : GamePhase) : Prop :=
  after = before \/
  (before = PreFlop /\ after = Flop) \/
  (before = Flop /\ after = Turn) \/
  (before = Turn /\ after = River) \/
  after = Showdown \/ after = GameOver.

Lemma layout_Phase (g g' : Game) : layout g' = layout g -> Phase g' = Phase g.
Proof. intros H. apply layout_same in H as (_ & _ & _ & H). exact H. Qed.

Lemma removeLoop_Phase (n : nat) (g g' : Game) :
  removeLoop n g = Some g' -> Phase g' = Phase g.
Proof.
  revert g g'. induction n as [|i IH]; intros g g' H; simpl in H.
  - injection H as <-. reflexivity.
  - destruct (PlayerOrder g !! i) as [id|]; simpl in H; [|discriminate].
    destruct (Players g !! id) as [p|]; simpl in H; [|discriminate].
    destruct (_ && _); apply IH in H; exact H.
Qed.

Lemma endHand_settles (g g' : Game) : endHand g = Some g' -> settled (Phase g').
Proof.
  unfold endHand. intros H.
  destruct (calculateSidePots _) as [g1|] eqn:E1; cbn [mbind option_bind] in H;
    [|discriminate].
  destruct (distributePots g1) as [g2|] eqn:E2; cbn [mbind option_bind] in H;
    [|discriminate].
  destruct (removeEliminatedPlayers g2) as [g3|] eqn:E3; cbn [mbind option_bind] in H;
    [|discriminate].
  apply calculateSidePots_layout, layout_Phase in E1.
  apply distributePots_layout, layout_Phase in E2.
  apply removeLoop_Phase in E3.
  destruct (_ <? _); injection H as <-; [right; reflexivity|].
  left. rewrite E3, E2, E1. reflexivity.
Qed.

Lemma advancePhase_moves (g g' : Game) :
  advancePhase g = Some g' -> moves (Phase g) (Phase g').
Proof.
  unfold advancePhase. intros H.
  change (Phase (set_LastRaise 0 (forAllPlayers (set_CurrentBet 0) g)))
    with (Phase g) in H.
  unfold moves. destruct (Phase g) eqn:Hphase.
  5: { apply endHand_settles in H. destruct H as [-> | ->]; auto 10. }
  all: apply toNextSeat_layout, layout_Phase in H; rewrite H.
  all: cbn [Phase set_Phase set_LastRaise forAllPlayers set_Players].
  all: auto 10.
Qed.

Lemma startNewHand_Phase (g g' : Game) :
  startNewHand g = Some g' -> Phase g' = PreFlop.
Proof.
  rewrite startNewHand_deck. intros H.
  destruct (moveDealerButton (prepare g)) as [g1|] eqn:E1;
    cbn [mbind option_bind] in H; [|discriminate].
  unfold dealtHand in H.
  destruct (dealHoleCards _) as [g2|] eqn:E2; cbn [mbind option_bind] in H; [|discriminate].
  destruct (postBlinds g2) as [g3|] eqn:E3; cbn [mbind option_bind] in H; [|discriminate].
  destruct (modLen _ g3) as [cur|]; cbn [mbind option_bind] in H; [|discriminate].
  apply moveToNextActivePlayer_layout, layout_Phase in H.
  apply postBlinds_layout, layout_Phase in E3.
  destruct (prepare_clears g g1 E1) as (_ & _ & Hphase1 & _).
  unfold dealHoleCards in E2.
  destruct (dealPass _ _) as [ga|] eqn:Ea; cbn [mbind option_bind] in E2; [|discriminate].
  apply dealPass_deals_frame in Ea as [_ Ha]. apply dealPass_deals_frame in E2 as [_ Hb].
  rewrite H. cbn [Phase set_CurrentPlayer]. rewrite E3, Hb, Ha. exact Hphase1.
Qed.

Lemma advanceGame_moves (g g' : Game) :
  advanceGame g = Some g' -> moves (Phase g) (Phase g').
Proof.
  unfold advanceGame. intros H.
  destruct (_ <=? 1)%nat.
  { apply endHand_settles in H. unfold moves. destruct H as [-> | ->]; auto 10. }
  destruct (isBettingRoundComplete g); [apply advancePhase_moves; exact H|].
  apply moveToNextPlayer_layout, layout_Phase in H. left. exact H.
Qed.

(** X24.  The streets come in order.  An action leaves the phase as it
    is, moves the hand to the next street (pre-flop to flop, flop to
    turn, turn to river), or settles it (Showdown or GameOver): it never
    goes back and never skips a street; a refused action changes
    nothing.  A departure leaves the phase alone.  The deferred start of
    the next hand turns Showdown into PreFlop and does nothing in any
    other phase.  [AddPlayer] leaves the phase alone or starts the first
    hand of a waiting table. *)
Theorem streets_come_in_order (g g' : Game) :
  (forall playerID action amount now err,
     processAction g playerID action amount now = Some (err, g') ->
     moves (Phase g) (Phase g') /\ (err <> None -> g' = g)) /\
  (forall playerID now err,
     RemovePlayer g playerID now = Some (err, g') -> Phase g' = Phase g) /\
  (nextHandTimer g = Some g' ->
   (Phase g = Showdown /\ Phase g' = PreFlop) \/ (Phase g <> Showdown /\ g' = g)) /\
  (forall player now err,
     AddPlayer g player now = Some (err, g') ->
     Phase g' = Phase g \/ (Phase g = WaitingForPlayers /\ Phase g' = PreFlop)).
Proof.
  split; [|split; [|split]].
  - intros playerID action amount now err H. unfold processAction in H.
    destruct (_ || _); [injection H as <- <-; split; [left; reflexivity | reflexivity]|].
    destruct (negb _); [injection H as <- <-; split; [left; reflexivity | reflexivity]|].
    destruct (Players g !! playerID) as [player|];
      [|injection H as <- <-; split; [left; reflexivity | reflexivity]].
    destruct (negb (CanAct player));
      [injection H as <- <-; split; [left; reflexivity | reflexivity]|].
    match type of H with
    | match ?a with _ => _ end = _ => destruct a as [[e|] [act g1]] eqn:Happlied
    end.
    { injection H as <- <-. split; [left; reflexivity | reflexivity]. }
    assert (H1 : Phase g1 = Phase g).
    { destruct action; simpl in Happlied.
      - injection Happlied as _ <-. reflexivity.
      - destruct (_ <? _); [discriminate|]. injection Happlied as _ <-. reflexivity.
      - destruct (ChipCount player <? _);
          (destruct (Bet player _) as [[e|] p']; [discriminate|]);
          injection Happlied as _ <-; reflexivity.
      - destruct (amount <? _); [discriminate|].
        destruct (ChipCount player <? _); [discriminate|].
        destruct (Bet player _) as [[e|] p']; [discriminate|].
        injection Happlied as _ <-. reflexivity.
      - destruct (Bet player _) as [[e|] p']; [discriminate|].
        injection Happlied as _ <-. destruct (_ <? _); reflexivity. }
    destruct (advanceGame _) as [g2|] eqn:Hadv; cbn [mbind option_bind] in H;
      [|discriminate].
    injection H as <- <-. split; [|intros Hx; contradiction Hx; reflexivity].
    apply advanceGame_moves in Hadv.
    change (Phase (set_LastActivity ?a (set_Actions ?b (updatePlayer ?c ?d g1))))
      with (Phase g1) in Hadv.
    rewrite H1 in Hadv. exact Hadv.
  - intros playerID now err H.
    destruct (Players g !! playerID) as [p|] eqn:Hp.
    + rewrite (RemovePlayer_seated g playerID p now Hp) in H. injection H as _ <-.
      reflexivity.
    + unfold RemovePlayer in H. rewrite Hp in H. injection H as _ <-. reflexivity.
  - unfold nextHandTimer. intros H.
    destruct (Phase g) eqn:Hphase; try (injection H as <-; right; split; congruence).
    left. split; [reflexivity|].
    apply startNewHand_Phase in H. exact H.
  - intros player now err H. unfold AddPlayer in H.
    destruct (_ <=? _); [injection H as _ <-; left; reflexivity|].
    destruct (bool_decide (is_Some _)); [injection H as _ <-; left; reflexivity|].
    cbv zeta in H. destruct (_ && _) eqn:Hcond; [|injection H as _ <-; left; reflexivity].
    apply andb_true_iff in Hcond as [_ Hwait]. apply bool_decide_eq_true in Hwait.
    match type of H with
    | context [startNewHand ?x] => destruct (startNewHand x) as [g1|] eqn:E
    end; cbn [mbind option_bind] in H; [|discriminate].
    injection H as _ <-. right. split; [exact Hwait|].
    apply startNewHand_Phase in E. exact E.
Qed.
End game_more.

(* ===================================================================== *)
(** ** More properties of the manager                                     *)
(* ===================================================================== *)

Module manager_more.
Import poker game manager game_facts manager_facts game_more.

(** *** Tables per player *)

(** The configuration is the one of [NewManager], and no player is
    listed at more tables than it allows. *)
Definition Capped (m : Manager) : Prop :=
  config m = config NewManager /\
  forall playerID,
    Z.of_nat (length (playerGames m playerID)) <= MaxTablesPerUser (config m).

Lemma removeFirst_length (gameID : string) (l : list string) :
  (length (removeFirst gameID l) <= length l)%nat.
Proof.
  induction l as [|x l IH]; simpl; [lia|].
  destruct (bool_decide (x = gameID)); simpl; lia.
Qed.

Lemma Capped_same (m m' : Manager) :
  players m' = players m -> config m' = config m -> Capped m -> Capped m'.
Proof.
  intros Hp Hc [Hcfg Hlen]. unfold Capped, playerGames in *.
  rewrite Hp, Hc. split; assumption.
Qed.

Lemma reachable_Capped (m : Manager) : reachable m -> Capped m.
Proof.
  induction 1 as [| m gameID name options r now err m' _ IH Hop
                  | m gameID playerID username buyIn now err m' _ IH Hop
                  | m gameID playerID now err m' _ IH Hop
                  | m gameID playerID action amount now err m' _ IH Hop
                  | m now _ IH
                  | m gameID m' _ IH Hop].
  - split; [reflexivity|]. intros playerID. unfold playerGames. simpl.
    rewrite lookup_empty. simpl. lia.
  - unfold CreateGame in Hop. destruct (games m !! gameID).
    + injection Hop as _ <-. exact IH.
    + injection Hop as _ <-. apply (Capped_same m); [reflexivity | reflexivity | exact IH].
  - unfold JoinGame in Hop.
    destruct (games m !! gameID) as [g|]; [|injection Hop as _ <-; exact IH].
    destruct (Z.leb_spec (MaxTablesPerUser (config m))
                (Z.of_nat (length (playerGames m playerID)))) as [|Hroom];
      [injection Hop as _ <-; exact IH|].
    destruct (_ || _); [injection Hop as _ <-; exact IH|].
    cbv zeta in Hop.
    destruct (_ =? -1); [injection Hop as _ <-; exact IH|].
    destruct (AddPlayer g _ now) as [[e g']|]; cbn [mbind option_bind] in Hop;
      [|discriminate].
    destruct e; injection Hop as _ <-; [exact IH|].
    destruct IH as [Hcfg Hlen]. split; [exact Hcfg|].
    intros other. rewrite playerGames_insert. simpl config.
    destruct (decide (other = playerID)); [|apply Hlen].
    rewrite length_app. simpl. lia.
  - unfold LeaveGame in Hop.
    destruct (games m !! gameID) as [g|]; [|injection Hop as _ <-; exact IH].
    destruct (RemovePlayer g playerID now) as [[e g']|]; cbn [mbind option_bind] in Hop;
      [|discriminate].
    destruct e; injection Hop as _ <-; [exact IH|].
    destruct IH as [Hcfg Hlen]. split; [exact Hcfg|].
    intros other. simpl config.
    destruct (bool_decide (gameID ∈ playerGames m playerID)); [|apply Hlen].
    rewrite playerGames_insert.
    destruct (decide (other = playerID)); [|apply Hlen].
    pose proof (removeFirst_length gameID (playerGames m playerID)).
    specialize (Hlen playerID). lia.
  - unfold ProcessAction in Hop.
    destruct (games m !! gameID) as [g|]; [|injection Hop as _ <-; exact IH].
    destruct (processAction g playerID action amount now) as [[e g']|];
      cbn [mbind option_bind] in Hop; [|discriminate].
    injection Hop as _ <-. apply (Capped_same m); [reflexivity | reflexivity | exact IH].
  - apply (Capped_same m); [reflexivity | reflexivity | exact IH].
  - unfold NextHandTimer in Hop.
    destruct (games m !! gameID) as [g|]; [|injection Hop as <-; exact IH].
    destruct (nextHandTimer g) as [g'|]; cbn [mbind option_bind] in Hop; [|discriminate].
    injection Hop as <-. apply (Capped_same m); [reflexivity | reflexivity | exact IH].
Qed.

(** X13.  In every state the manager can reach, its configuration is the
    one it was created with, and no player is listed at more than three
    tables at once, the limit [MaxTablesPerUser] of that configuration. *)
Theorem tables_per_player_bounded (m : Manager) (playerID : string) :
  reachable m ->
  config m = config NewManager /\ (length (playerGames m playerID) <= 3)%nat.
Proof.
  intros Hreach. destruct (reachable_Capped m Hreach) as [Hcfg Hlen].
  split; [exact Hcfg|]. specialize (Hlen playerID). rewrite Hcfg in Hlen.
  simpl in Hlen. lia.
Qed.

Lemma tables_per_player_bounded_witness :
  config afterJoin = config NewManager /\
  (length (playerGames afterJoin "player1") <= 3)%nat.
Proof. apply (tables_per_player_bounded afterJoin "player1" afterJoin_reachable). Defined.

(** *** Seats *)

(** Some player of the game holds the seat. *)
Definition occupied (g : Game) (seat : Z) : Prop :=
  exists id p, Players g !! id = Some p /\ SeatPosition p = seat.

Lemma find_seq (f : nat -> bool) (len : nat) : forall a : nat,
  match find f (seq a len) with
  | Some s => (a <= s < a + len)%nat /\ f s = true /\
              forall k, (a <= k < s)%nat -> f k = false
  | None => forall k, (a <= k < a + len)%nat -> f k = false
  end.
Proof.
  induction len as [|len IH]; intros a; simpl.
  - intros k Hk. lia.
  - destruct (f a) eqn:Ha.
    + split; [lia|]. split; [exact Ha|]. intros k Hk. lia.
    + specialize (IH (S a)). destruct (find f (seq (S a) len)) as [s|].
      * destruct IH as (Hs & Hfs & Hbefore). split; [lia|]. split; [exact Hfs|].
        intros k Hk. destruct (decide (k = a)) as [->|Hne]; [exact Ha|].
        apply Hbefore. lia.
      * intros k Hk. destruct (decide (k = a)) as [->|Hne]; [exact Ha|].
        apply IH. lia.
Qed.

Lemma seat_test (g : Game) (seat : Z) :
  negb (bool_decide (map_Exists (fun _ player => SeatPosition player = seat) (Players g)))
  = false <-> occupied g seat.
Proof.
  rewrite negb_false_iff, bool_decide_eq_true. unfold occupied.
  rewrite map_Exists_lookup. reflexivity.
Qed.

Lemma findAvailableSeat_spec (g : Game) :
  (findAvailableSeat g = -1 /\
   forall k, 0 <= k < MaxPlayers g -> occupied g k) \/
  (0 <= findAvailableSeat g < MaxPlayers g /\
   ~ occupied g (findAvailableSeat g) /\
   forall k, 0 <= k < findAvailableSeat g -> occupied g k).
Proof.
  unfold findAvailableSeat.
  pose proof (find_seq
    (fun seat => negb (bool_decide (map_Exists
                   (fun _ player => SeatPosition player = Z.of_nat seat) (Players g))))
    (Z.to_nat (MaxPlayers g)) 0) as Hfind.
  cbv beta in Hfind.
  destruct (find _ (seq 0 (Z.to_nat (MaxPlayers g)))) as [s|].
  - right. destruct Hfind as (Hs & Hfree & Hbefore).
    split; [lia|]. split.
    + intros Hocc. apply seat_test in Hocc. congruence.
    + intros k Hk. apply seat_test.
      rewrite <- (Z2Nat.id k) by lia. apply Hbefore. lia.
  - left. split; [reflexivity|].
    intros k Hk. apply seat_test.
    rewrite <- (Z2Nat.id k) by lia. apply Hfind. lia.
Qed.

(** X14.  [findAvailableSeat] returns the lowest seat number from 0 up to
    [MaxPlayers - 1] that no player of the game holds, and -1 exactly if
    all of them are held (in particular if [MaxPlayers] is not
    positive). *)
Theorem findAvailableSeat_lowest_free (g : Game) :
  (findAvailableSeat g = -1 /\
   forall k, 0 <= k < MaxPlayers g -> occupied g k) \/
  (0 <= findAvailableSeat g < MaxPlayers g /\
   ~ occupied g (findAvailableSeat g) /\
   forall k, 0 <= k < findAvailableSeat g -> occupied g k).
Proof. apply findAvailableSeat_spec. Qed.

(** Every player's record is under the player's id and holds a seat of
    the table that nobody else holds; the table is under its own id and
    seats no more players than it may. *)
Record Tidy (gameID : string) (g : Game) : Prop := mkTidy {
  tidy_id : GameID g = gameID;
  tidy_size : Z.of_nat (size (Players g)) <= Z.max 0 (MaxPlayers g);
  tidy_badge : forall id p, Players g !! id = Some p ->
                            ID p = id /\ 0 <= SeatPosition p < MaxPlayers g;
  tidy_seats : forall id1 id2 p1 p2,
    Players g !! id1 = Some p1 -> Players g !! id2 = Some p2 ->
    SeatPosition p1 = SeatPosition p2 -> id1 = id2
}.

Lemma charter_fields (g g' : Game) :
  charter g' = charter g -> GameID g' = GameID g /\ MaxPlayers g' = MaxPlayers g.
Proof. unfold charter. intros H. injection H as Hid _ Hmax _ _ _ _ _ _. auto. Qed.

Lemma badge_fields (p p' : Player) :
  badge p' = badge p -> ID p' = ID p /\ SeatPosition p' = SeatPosition p.
Proof. unfold badge. intros H. injection H as Hid _ Hseat. auto. Qed.

Lemma Tidy_keeps (gameID : string) (g g' : Game) :
  Tidy gameID g -> keepsLineup g g' -> Tidy gameID g'.
Proof.
  intros [Hid Hsize Hbadge Hseats] [Hc Hp].
  destruct (charter_fields g g' Hc) as [Hgid Hmax].
  split.
  - congruence.
  - rewrite Hmax.
    assert (Hle : (size (Players g') <= size (Players g))%nat).
    { rewrite <- (map_size_fmap (fun _ => tt) (Players g')).
      rewrite <- (map_size_fmap (fun _ => tt) (Players g)).
      apply map_subseteq_size. apply map_subseteq_spec.
      intros id u Hu. rewrite lookup_fmap in Hu |- *.
      destruct (Players g' !! id) as [p'|] eqn:Hp'; [|discriminate].
      destruct (Hp id p' Hp') as (p & Hpl & _). rewrite Hpl. exact Hu. }
    lia.
  - intros id p' Hp'. destruct (Hp id p' Hp') as (p & Hpl & Hb).
    destruct (badge_fields p p' Hb) as [Hi Hs]. destruct (Hbadge id p Hpl).
    rewrite Hi, Hs, Hmax. auto.
  - intros id1 id2 p1' p2' H1 H2 Hs.
    destruct (Hp id1 p1' H1) as (p1 & Hp1 & Hb1).
    destruct (Hp id2 p2' H2) as (p2 & Hp2 & Hb2).
    destruct (badge_fields p1 p1' Hb1) as [_ Hs1].
    destruct (badge_fields p2 p2' Hb2) as [_ Hs2].
    apply (Hseats id1 id2 p1 p2 Hp1 Hp2). congruence.
Qed.

Lemma Tidy_NewGame (gameID name : string) (cfg : GameConfig) (r : Rng) (now : Z) :
  Tidy gameID (NewGame gameID name cfg r now).
Proof.
  split; simpl.
  - reflexivity.
  - rewrite map_size_empty. lia.
  - intros id p H. rewrite lookup_empty in H. discriminate.
  - intros id1 id2 p1 p2 H. rewrite lookup_empty in H. discriminate.
Qed.

Lemma lookup_badge (g : Game) (id : string) (p : Player) :
  Players g !! id = Some p -> (badge <$> Players g) !! id = Some (badge p).
Proof. intros H. rewrite lookup_fmap, H. reflexivity. Qed.

Lemma Tidy_AddPlayer (gameID playerID username : string) (buyIn now : Z) (g g' : Game) :
  Tidy gameID g -> findAvailableSeat g <> -1 ->
  AddPlayer g (NewPlayer playerID username buyIn (findAvailableSeat g)) now
  = Some (None, g') ->
  Tidy gameID g'.
Proof.
  intros [Hid Hsize Hbadge Hseats] Hfree Hadd.
  destruct (AddPlayer_lineup _ _ _ _ Hadd) as (Hc & Hnone & Hroom & Hm).
  simpl in Hnone, Hm.
  destruct (charter_fields g g' Hc) as [Hgid Hmax].
  destruct (findAvailableSeat_spec g) as [[Hfull _] | (Hrange & Hnot & _)];
    [contradiction|].
  set (seat := findAvailableSeat g) in *.
  assert (Hcases : forall id p', Players g' !! id = Some p' ->
            (id = playerID /\ ID p' = playerID /\ SeatPosition p' = seat) \/
            (id <> playerID /\ exists p, Players g !! id = Some p /\
                                           ID p' = ID p /\
                                           SeatPosition p' = SeatPosition p)).
  { intros id p' Hp'. apply lookup_badge in Hp'. rewrite Hm in Hp'.
    destruct (decide (id = playerID)) as [->|Hne].
    - rewrite lookup_insert_eq in Hp'. left.
      unfold badge in Hp'. injection Hp' as Hi _ Hs. auto.
    - rewrite lookup_insert_ne in Hp' by congruence. right. split; [exact Hne|].
      rewrite lookup_fmap in Hp'.
      destruct (Players g !! id) as [p|]; simpl in Hp'; [|discriminate].
      exists p. split; [reflexivity|].
      assert (Hb : badge p' = badge p) by congruence.
      apply badge_fields in Hb. exact Hb. }
  split.
  - congruence.
  - rewrite Hmax.
    assert (Hsz : size (Players g') = S (size (Players g))).
    { rewrite <- (map_size_fmap badge (Players g')), Hm.
      rewrite map_size_insert_None by (rewrite lookup_fmap, Hnone; reflexivity).
      rewrite map_size_fmap. reflexivity. }
    lia.
  - intros id p' Hp'. rewrite Hmax.
    destruct (Hcases id p' Hp') as [(-> & Hi & Hs) | (_ & p & Hp & Hi & Hs)].
    + rewrite Hs. auto.
    + destruct (Hbadge id p Hp). rewrite Hi, Hs. auto.
  - intros id1 id2 p1 p2 H1 H2 Heq.
    destruct (Hcases id1 p1 H1) as [(-> & _ & Hs1) | (Hn1 & q1 & Hq1 & _ & Hs1)];
      destruct (Hcases id2 p2 H2) as [(-> & _ & Hs2) | (Hn2 & q2 & Hq2 & _ & Hs2)].
    + reflexivity.
    + exfalso. apply Hnot. exists id2, q2. split; [exact Hq2 | congruence].
    + exfalso. apply Hnot. exists id1, q1. split; [exact Hq1 | congruence].
    + apply (Hseats id1 id2 q1 q2 Hq1 Hq2). congruence.
Qed.

Definition Orderly (m : Manager) : Prop :=
  forall gameID g, games m !! gameID = Some g -> Tidy gameID g.

Lemma Orderly_replace (m : Manager) (gameID : string) (g' : Game)
    (ps : gmap string (list string)) :
  Orderly m -> Tidy gameID g' ->
  Orderly (mkManager (<[gameID := g']> (games m)) ps (config m)).
Proof.
  intros Hm Hg gid g0 Hl. simpl in Hl.
  apply lookup_insert_Some in Hl as [[<- <-] | [_ Hl]]; [exact Hg | apply Hm; exact Hl].
Qed.

Lemma reachable_Orderly (m : Manager) : reachable m -> Orderly m.
Proof.
  induction 1 as [| m gameID name options r now err m' _ IH Hop
                  | m gameID playerID username buyIn now err m' _ IH Hop
                  | m gameID playerID now err m' _ IH Hop
                  | m gameID playerID action amount now err m' _ IH Hop
                  | m now _ IH
                  | m gameID m' _ IH Hop].
  - intros gid g H. simpl in H. rewrite lookup_empty in H. discriminate.
  - unfold CreateGame in Hop. destruct (games m !! gameID).
    + injection Hop as _ <-. exact IH.
    + injection Hop as _ <-. apply Orderly_replace; [exact IH | apply Tidy_NewGame].
  - unfold JoinGame in Hop.
    destruct (games m !! gameID) as [g|] eqn:Hg; [|injection Hop as _ <-; exact IH].
    destruct (_ <=? _); [injection Hop as _ <-; exact IH|].
    destruct (_ || _); [injection Hop as _ <-; exact IH|].
    cbv zeta in Hop.
    destruct (Z.eqb_spec (findAvailableSeat g) (-1)) as [|Hfree];
      [injection Hop as _ <-; exact IH|].
    destruct (AddPlayer g _ now) as [[e g']|] eqn:Hadd; cbn [mbind option_bind] in Hop;
      [|discriminate].
    destruct e; injection Hop as _ <-; [exact IH|].
    apply Orderly_replace; [exact IH|].
    apply (Tidy_AddPlayer gameID playerID username buyIn now g g' (IH _ _ Hg) Hfree Hadd).
  - unfold LeaveGame in Hop.
    destruct (games m !! gameID) as [g|] eqn:Hg; [|injection Hop as _ <-; exact IH].
    destruct (RemovePlayer g playerID now) as [[e g']|] eqn:Hrem;
      cbn [mbind option_bind] in Hop; [|discriminate].
    destruct e; injection Hop as _ <-; [exact IH|].
    apply RemovePlayer_lineup, lineup_keepsLineup in Hrem.
    destruct (size (Players g') =? 0)%nat.
    + intros gid g0 Hl. simpl in Hl. apply lookup_delete_Some in Hl as [_ Hl].
      apply IH. exact Hl.
    + apply Orderly_replace; [exact IH|]. apply (Tidy_keeps gameID g g' (IH _ _ Hg) Hrem).
  - unfold ProcessAction in Hop.
    destruct (games m !! gameID) as [g|] eqn:Hg; [|injection Hop as _ <-; exact IH].
    destruct (processAction g playerID action amount now) as [[e g']|] eqn:Hact;
      cbn [mbind option_bind] in Hop; [|discriminate].
    injection Hop as _ <-. apply processAction_keepsLineup in Hact.
    apply Orderly_replace; [exact IH|]. apply (Tidy_keeps gameID g g' (IH _ _ Hg) Hact).
  - intros gid g Hl. unfold CleanupInactiveGames in Hl. simpl in Hl.
    apply map_lookup_filter_Some in Hl as [Hl _]. apply IH. exact Hl.
  - unfold NextHandTimer in Hop.
    destruct (games m !! gameID) as [g|] eqn:Hg; [|injection Hop as <-; exact IH].
    destruct (nextHandTimer g) as [g'|] eqn:Ht; cbn [mbind option_bind] in Hop;
      [|discriminate].
    injection Hop as <-. apply nextHandTimer_lineup, lineup_keepsLineup in Ht.
    apply Orderly_replace; [exact IH|]. apply (Tidy_keeps gameID g g' (IH _ _ Hg) Ht).
Qed.

(** X15.  In every state the manager can reach, a table is registered
    under its own id and seats no more players than [MaxPlayers]; every
    player's record sits under the player's own id, its seat number lies
    in 0 .. MaxPlayers - 1, and no two players of a table have the same
    seat number. *)
Theorem seats_are_distinct_and_in_range (m : Manager) (gameID : string) (g : Game) :
  reachable m -> games m !! gameID = Some g ->
  GameID g = gameID /\
  Z.of_nat (size (Players g)) <= Z.max 0 (MaxPlayers g) /\
  (forall id p, Players g !! id = Some p ->
                ID p = id /\ 0 <= SeatPosition p < MaxPlayers g) /\
  (forall id1 id2 p1 p2,
     Players g !! id1 = Some p1 -> Players g !! id2 = Some p2 ->
     SeatPosition p1 = SeatPosition p2 -> id1 = id2).
Proof.
  intros Hreach Hg.
  destruct (reachable_Orderly m Hreach gameID g Hg) as [H1 H2 H3 H4]. auto.
Qed.

Definition afterJoinTable : Game :=
  default (NewGame "" "" (config NewManager) fixedRng 0) (games afterJoin !! "table").

Lemma afterJoinTable_registered : games afterJoin !! "table" = Some afterJoinTable.
Proof. vm_compute. reflexivity. Defined.

Lemma seats_are_distinct_and_in_range_witness :
  GameID afterJoinTable = "table"%string /\
  Z.of_nat (size (Players afterJoinTable)) <= Z.max 0 (MaxPlayers afterJoinTable) /\
  (forall id p, Players afterJoinTable !! id = Some p ->
                ID p = id /\ 0 <= SeatPosition p < MaxPlayers afterJoinTable) /\
  (forall id1 id2 p1 p2,
     Players afterJoinTable !! id1 = Some p1 -> Players afterJoinTable !! id2 = Some p2 ->
     SeatPosition p1 = SeatPosition p2 -> id1 = id2).
Proof.
  apply (seats_are_distinct_and_in_range afterJoin "table" afterJoinTable
           afterJoin_reachable afterJoinTable_registered).
Defined.

(** *** Snapshots *)

(** The entry of the snapshot for viewer [viewer] that belongs to the
    player seated under [pid]. *)
Definition shown (g : Game) (viewer pid : string) (ps : PlayerState) : Prop :=
  exists p, Players g !! pid = Some p /\
    PS_ID ps = pid /\ PS_Username ps = Username p /\
    PS_ChipCount ps = ChipCount p /\ PS_CurrentBet ps = CurrentBet p /\
    PS_HasFolded ps = HasFolded p /\ PS_IsAllIn ps = IsAllIn p /\
    PS_SeatPosition ps = SeatPosition p /\ PS_Connected ps = Connected p /\
    PS_HoleCards ps = (if bool_decide (pid = viewer) then HoleCards p else []).

(** X16.  In every state the manager can reach, [GetGameState] never
    panics.  For a game that is not registered it reports "game not
    found"; for a registered game it returns a snapshot that lists every
    seated player exactly once, in seat order, under the player's own id
    and with the true stack, street bet, flags and seat; the viewer's own
    entry carries the viewer's hole cards and every other entry none; and
    the snapshot tells the viewer to act exactly if the viewer is the
    current player. *)
Theorem snapshot_in_reachable_states (m : Manager) (gameID viewer : string) :
  reachable m ->
  (games m !! gameID = None ->
   manager.GetGameState m gameID viewer = Some (Some ErrGameNotFound, None)) /\
  (forall g, games m !! gameID = Some g ->
   exists s,
     manager.GetGameState m gameID viewer = Some (None, Some s) /\
     GS_GameID s = gameID /\ GS_Phase s = Phase g /\ GS_Pot s = Pot g /\
     GS_CommunityCards s = CommunityCards g /\
     GS_CurrentPlayer s = getCurrentPlayerID g /\
     (GS_CanAct s = true <-> getCurrentPlayerID g = viewer) /\
     Forall2 (shown g viewer) (PlayerOrder g) (GS_Players s) /\
     NoDup (PS_ID <$> GS_Players s)).
Proof.
  intros Hreach. split.
  { intros Hnone. unfold manager.GetGameState. rewrite Hnone. reflexivity. }
  intros g Hg.
  pose proof (cons_seats m (reachable_Consistent m Hreach) gameID g Hg) as Hseats.
  destruct (reachable_Orderly m Hreach gameID g Hg) as [Hid _ Hbadge _].
  unfold manager.GetGameState. rewrite Hg. unfold game.GetGameState.
  set (entry := fun pid => player ← Players g !! pid;
                           Some (playerStateFor viewer pid player)).
  assert (Hsome : is_Some (mapM entry (PlayerOrder g))).
  { apply mapM_is_Some. apply Forall_forall. intros pid Hpid.
    destruct (proj1 (seats_players g Hseats pid) Hpid) as [p Hp].
    unfold compose, entry. cbn beta. rewrite Hp. simpl. eauto. }
  destruct Hsome as [entries Hentries]. rewrite Hentries. cbn [mbind option_bind].
  eexists. split; [reflexivity|]. simpl.
  apply mapM_Some in Hentries.
  assert (Hshown : Forall2 (shown g viewer) (PlayerOrder g) entries).
  { eapply Forall2_impl; [exact Hentries|].
    intros pid ps Hps. unfold entry in Hps.
    destruct (Players g !! pid) as [p|] eqn:Hp; simpl in Hps; [|discriminate].
    injection Hps as <-. exists p. split; [exact Hp|].
    destruct (Hbadge pid p Hp) as [Hpid _]. unfold playerStateFor. simpl.
    repeat split; try reflexivity. exact Hpid. }
  repeat split; try assumption.
  - apply bool_decide_eq_true.
  - apply bool_decide_eq_true.
  - assert (Hids : PS_ID <$> entries = PlayerOrder g).
    { clear Hentries. induction Hshown as [|pid ps order rest Hhead Htail IH];
        [reflexivity|].
      rewrite fmap_cons. destruct Hhead as (p & _ & Hpid & _).
      rewrite Hpid. f_equal. exact IH. }
    rewrite Hids. apply (seats_NoDup g Hseats).
Qed.

Lemma snapshot_in_reachable_states_witness :
  exists s,
    manager.GetGameState afterJoin "table" "player1" = Some (None, Some s) /\
    GS_GameID s = "table"%string /\ GS_Phase s = Phase afterJoinTable /\
    GS_Pot s = Pot afterJoinTable /\
    GS_CommunityCards s = CommunityCards afterJoinTable /\
    GS_CurrentPlayer s = getCurrentPlayerID afterJoinTable /\
    (GS_CanAct s = true <-> getCurrentPlayerID afterJoinTable = "player1"%string) /\
    Forall2 (shown afterJoinTable "player1") (PlayerOrder afterJoinTable) (GS_Players s) /\
    NoDup (PS_ID <$> GS_Players s).
Proof.
  apply (proj2 (snapshot_in_reachable_states afterJoin "table" "player1"
                  afterJoin_reachable) afterJoinTable afterJoinTable_registered).
Defined.

(** *** No card is dealt twice *)









(** *** Leaving is final while the seat is kept *)

Lemma JoinGame_seated (m : Manager) (gameID playerID username : string)
    (g : Game) (p : Player) (buyIn now : Z) :
  games m !! gameID = Some g -> Players g !! playerID = Some p ->
  exists err, JoinGame m gameID playerID username buyIn now = Some (Some err, m).
Proof.
  intros Hg Hp. unfold JoinGame. rewrite Hg.
  destruct (_ <=? _); [eauto|]. destruct (_ || _); [eauto|]. cbv zeta.
  destruct (_ =? -1); [eauto|].
  unfold AddPlayer. destruct (_ <=? _); [cbn [mbind option_bind]; eauto|].
  destruct (bool_decide (is_Some _)) eqn:Hin; [simpl; eauto|].
  apply bool_decide_eq_false in Hin. exfalso. apply Hin.
  exists p. exact Hp.
Qed.

(** X25.  [JoinGame] never seats a player who holds a seat at the game
    already, connected or not: it is refused (too many tables, invalid
    buy-in, game full or player already in game) and changes nothing.
    And [LeaveGame] of a seated player succeeds and keeps the game with
    the player's seat, marked disconnected.  So a player who has left
    cannot come back as long as the seat is kept. *)
Theorem no_way_back_after_leaving (m : Manager) (gameID playerID : string)
    (g : Game) (p : Player) (now : Z) :
  games m !! gameID = Some g -> Players g !! playerID = Some p ->
  (forall username buyIn later,
     exists err, JoinGame m gameID playerID username buyIn later = Some (Some err, m)) /\
  exists m' g',
    LeaveGame m gameID playerID now = Some (None, m') /\
    games m' !! gameID = Some g' /\
    Players g' !! playerID = Some (markGone p) /\
    forall username buyIn later,
      exists err, JoinGame m' gameID playerID username buyIn later = Some (Some err, m').
Proof.
  intros Hg Hp. split.
  { intros username buyIn later.
    apply (JoinGame_seated m gameID playerID username g p buyIn later Hg Hp). }
  set (g' := set_LastActivity now (updatePlayer playerID markGone g)).
  assert (Hp' : Players g' !! playerID = Some (markGone p)).
  { unfold g', updatePlayer. cbn [Players set_LastActivity set_Players].
    rewrite lookup_alter_eq, Hp. reflexivity. }
  assert (Hsize : (size (Players g') =? 0)%nat = false).
  { apply Nat.eqb_neq. intros Hzero. apply map_size_empty_iff in Hzero.
    rewrite Hzero, lookup_empty in Hp'. discriminate. }
  unfold LeaveGame. rewrite Hg, (RemovePlayer_seated g playerID p now Hp).
  cbn [mbind option_bind]. fold g'. rewrite Hsize.
  eexists. exists g'. split; [reflexivity|].
  assert (Hg' : forall ps, games (mkManager (<[gameID := g']> (games m)) ps (config m))
                           !! gameID = Some g')
    by (intros ps; cbn [games]; apply lookup_insert_eq).
  split; [apply Hg'|]. split; [exact Hp'|].
  intros username buyIn later.
  apply (JoinGame_seated _ gameID playerID username g' (markGone p) buyIn later);
    [apply Hg' | exact Hp'].
Qed.

Lemma no_way_back_after_leaving_witness :
  (forall username buyIn later,
     exists err,
       JoinGame afterJoin "table" "player1" username buyIn later
       = Some (Some err, afterJoin)) /\
  exists m' g',
    LeaveGame afterJoin "table" "player1" 5 = Some (None, m') /\
    games m' !! "table" = Some g' /\
    Players g' !! "player1" = Some (markGone (NewPlayer "player1" "Alice" 10000 0)) /\
    forall username buyIn later,
      exists err, JoinGame m' "table" "player1" username buyIn later = Some (Some err, m').
Proof.
  apply (no_way_back_after_leaving afterJoin "table" "player1" afterJoinTable).
  - exact afterJoinTable_registered.
  - vm_compute. reflexivity.
Defined.

End manager_more.
